(** * tv7-js: the DX7 voice engine, embedded and checked against its specification

The development follows the JavaScript sources module by module
(stmlib/dsp.js, fm/dx_units.js, fm/operator.js, fm/patch.js,
fm/envelope.js, fm/lfo.js, fm/algorithms.js, fm/voice.js, dx7.js,
tv7.js).

Number model.  A JavaScript number that the code uses as an integer
(a byte, a Uint32Array cell, a loop index, a length) is a [Z], and the
32-bit conversions of the bit operators are written out ([ToUint32],
[ToInt32]).  Every other number is a [Q].  Rounding is written out where
a value the statements below speak of depends on it: [JS.fl64] is the
rounding of a binary64 operation and [JS.fround] the rounding of a store
into a Float32Array (both to the nearest representable number, ties to
the even significand, subnormal numbers included).  They appear in the
table look-ups of stmlib/dsp.js, in the Float32Arrays of the renderers
and of the voice, and in the normalisation of tv7.js.  The other
operations are exact.  [Infinity] and [NaN] are not numbers of the
model: a result beyond the largest finite number is not rounded to
[Infinity], [1/0] is [0], and reading a typed array out of range gives
[0] where JavaScript gives [undefined]; the statements restrict their
arguments where that matters. *)

From stdpp Require Import base list.
From Stdlib Require Import ZArith QArith Qround Qabs Qminmax Qpower Lia Lqa.

#[local] Open Scope Z_scope.
#[local] Open Scope Q_scope.

(** ** JavaScript number conversions *)

Module JS.

Definition two32 : Z := 4294967296.

(** [Math.trunc]: the integer part, rounding toward zero. *)
Definition trunc (x : Q) : Z :=
  if Qlt_le_dec x 0 then Qceiling x else Qfloor x.

(** [x >>> 0] on a number: truncate, then reduce modulo 2^32. *)
Definition ToUint32 (x : Q) : Z := (trunc x mod two32)%Z.

(** [x >>> 0] on an integer-valued number. *)
Definition ToUint32Z (x : Z) : Z := (x mod two32)%Z.

(** The signed reading of the low 32 bits, as [<<], [>>], [&], [|] use it. *)
Definition ToInt32 (x : Z) : Z :=
  let u := (x mod two32)%Z in
  if (u <? 2147483648)%Z then u else (u - two32)%Z.

(** [x << n]; the shift count is taken modulo 32. *)
Definition shl (x n : Z) : Z :=
  ToInt32 (Z.shiftl (ToInt32 x) (n mod 32)).

(** [x >> n] *)
Definition sar (x n : Z) : Z := Z.shiftr (ToInt32 x) (n mod 32).

(** [x >>> n] *)
Definition shr (x n : Z) : Z := Z.shiftr (ToUint32Z x) (n mod 32).

(** [x & y] *)
Definition and (x y : Z) : Z := ToInt32 (Z.land (ToInt32 x) (ToInt32 y)).

(** [x | y] *)
Definition or (x y : Z) : Z := ToInt32 (Z.lor (ToInt32 x) (ToInt32 y)).

(** [~x] *)
Definition not (x : Z) : Z := Z.lnot (ToInt32 x).

(** [a[i]] on an array of numbers. *)
Definition get (a : list Q) (i : Z) : Q :=
  if (i <? 0)%Z then 0 else default 0 (a !! Z.to_nat i).

(** [a[i] = x] on a typed array: a write out of range is dropped. *)
Definition set (a : list Q) (i : Z) (x : Q) : list Q :=
  if (i <? 0)%Z then a else <[Z.to_nat i := x]> a.

(** The same on arrays of integers (Uint8Array, Uint32Array, byte
    buffers); [store] is the conversion the array applies to a stored
    value. *)
Definition getZ (a : list Z) (i : Z) : Z :=
  if (i <? 0)%Z then 0%Z else default 0%Z (a !! Z.to_nat i).

Definition setZ (store : Z -> Z) (a : list Z) (i : Z) (x : Z) : list Z :=
  if (i <? 0)%Z then a else <[Z.to_nat i := store x]> a.

Definition ToUint8 (x : Z) : Z := (x mod 256)%Z.

(** [a.slice(start)] and [a.slice(start, end)] for [0 <= start <= end]. *)
Definition sliceFrom {A} (a : list A) (start : Z) : list A :=
  drop (Z.to_nat start) a.

Definition slice {A} (a : list A) (start end_ : Z) : list A :=
  take (Z.to_nat end_ - Z.to_nat start) (drop (Z.to_nat start) a).

(** [for (let i = 0; i < n; i++) body], threading the state the body
    updates. *)
Definition for_ {S} (n : nat) (body : Z -> S -> S) (s : S) : S :=
  fold_left (fun s i => body (Z.of_nat i) s) (seq 0 n) s.

Definition Qltb (x y : Q) : bool := negb (Qle_bool y x).
Definition Qgeb (x y : Q) : bool := Qle_bool y x.
Definition Qgtb (x y : Q) : bool := negb (Qle_bool x y).

Definition min (x y : Q) : Q := if Qle_bool x y then x else y.
Definition max (x y : Q) : Q := if Qle_bool x y then y else x.
Definition abs (x : Q) : Q := if Qle_bool 0 x then x else - x.

(** Binary floating point.  A format is a precision [prec], the exponent
    [emin] of its smallest positive number and the exponent [emax] of its
    largest numbers.  A number is representable when it is [m * 2^e] for
    integers [m] and [e] with [|m| < 2^prec] and [emin <= e], and it is
    below [2^(emax + 1)] in magnitude: in lowest terms its denominator is
    a power of two, at most [2^(-emin)], and the odd part of its numerator
    has at most [prec] bits. *)
Fixpoint oddPart (p : positive) : positive :=
  match p with
  | xO p' => oddPart p'
  | _ => p
  end.

Definition isFloat (prec emin emax : Z) (x : Q) : bool :=
  let x := Qred x in
  match Qnum x with
  | Z0 => true
  | Zpos n | Zneg n =>
      Pos.eqb (oddPart (Qden x)) 1
      && (Z.log2 (Zpos (oddPart n)) <? prec)%Z
      && (Z.log2 (Zpos (Qden x)) <=? - emin)%Z
      && (Z.log2 (Zpos n) - Z.log2 (Zpos (Qden x)) <=? emax)%Z
  end.

(** The representable number nearest to [x], ties to the even significand:
    with [2^e <= |x| < 2^(e+1)], the multiple of [2^(e - prec + 1)]
    nearest to [x], or the multiple of [2^emin] where that is coarser (the
    subnormal numbers).  A result beyond the largest number of the
    format, which is [Infinity] in JavaScript, is not modelled. *)
Definition nearest (prec emin : Z) (x : Q) : Q :=
  let x := Qred x in
  if Qeq_bool x 0 then 0
  else
    let a := Qabs x in
    let e0 := (Z.log2 (Qnum a) - Z.log2 (Zpos (Qden a)))%Z in
    let e := if Qle_bool (2 ^ e0) a then e0 else (e0 - 1)%Z in
    let ulp := 2 ^ Z.max (e - prec + 1) emin in
    let q := a / ulp in
    let n := Qfloor q in
    let r := q - inject_Z n in
    let m :=
      if Qltb r (1 # 2) then n
      else if Qltb (1 # 2) r then (n + 1)%Z
      else if Z.even n then n else (n + 1)%Z in
    let y := inject_Z m * ulp in
    if Qltb x 0 then - y else y.

Definition round (prec emin emax : Z) (x : Q) : Q :=
  if isFloat prec emin emax x then x else nearest prec emin x.

(** The finite binary64 numbers, and the result of a binary64 operation
    whose exact result is [x]. *)
Definition isDouble (x : Q) : bool := isFloat 53 (-1074) 1023 x.
Definition fl64 (x : Q) : Q := round 53 (-1074) 1023 x.

(** The finite binary32 numbers, and [Math.fround(x)], the conversion a
    Float32Array applies to a stored value. *)
Definition isFloat32 (x : Q) : bool := isFloat 24 (-149) 127 x.
Definition fround (x : Q) : Q := round 24 (-149) 127 x.

(** Strings are the lists of their UTF-16 code units.  [isWhiteSpace] is
    the set that [String.prototype.trim] strips: the WhiteSpace and
    LineTerminator code points. *)
Definition isWhiteSpace (c : Z) : bool :=
  ((9 <=? c) && (c <=? 13) || (c =? 32) || (c =? 160) || (c =? 5760)
   || (8192 <=? c) && (c <=? 8202) || (c =? 8232) || (c =? 8233)
   || (c =? 8239) || (c =? 8287) || (c =? 12288) || (c =? 65279))%Z.

Fixpoint trimStart (s : list Z) : list Z :=
  match s with
  | [] => []
  | c :: rest => if isWhiteSpace c then trimStart rest else s
  end.

Definition trimEnd (s : list Z) : list Z := rev (trimStart (rev s)).

(** [s.trim()] *)
Definition trim (s : list Z) : list Z := trimEnd (trimStart s).

End JS.

(** ** Platform primitives

Two things the sources use are not part of them: the sine table of
[stmlib/sine_lut.js] and the library function [Math.pow], which the code
only calls with base 2.  Both are parameters of the development. *)

Class Platform := {
  LUT_SINE : list Q;
  Math_pow2 : Q -> Q;
}.

(** ** stmlib/dsp.js *)

Module Dsp.
Section WithPlatform.
Context `{Platform}.

Definition SINE_LUT_SIZE : Q := 512.
Definition SINE_LUT_BITS : Z := 9.

Definition interpolate (table : list Q) (index size : Q) : Q :=
  let index := JS.fl64 (index * size) in
  let indexIntegral :=
    Z.min (Qfloor index) (Z.of_nat (length table) - 2) in
  let indexFractional := index - inject_Z indexIntegral in
  let a := JS.get table indexIntegral in
  let b := JS.get table (indexIntegral + 1) in
  a + (b - a) * indexFractional.

Definition interpolateWrap (table : list Q) (index size : Q) : Q :=
  let index := JS.fl64 (index - inject_Z (Qfloor index)) in
  let index := JS.fl64 (index * size) in
  let indexIntegral := Qfloor index in
  let indexFractional := index - inject_Z indexIntegral in
  let a := JS.get table indexIntegral in
  let b := JS.get table (indexIntegral + 1) in
  a + (b - a) * indexFractional.

Definition semitonesToRatio (semitones : Q) : Q :=
  Math_pow2 (semitones / 12).

(** The two [while] loops of [semitonesToRatioSafe], each unrolled by
    recursion on a bound on its number of iterations.  The bound is the
    number of iterations in exact arithmetic.  In binary64 the loops of
    the source end only while [semitones - 120] differs from [semitones],
    that is for arguments of magnitude below 2^53 or so; statements
    about the result of this function that do not hold beyond keep their
    arguments in that range. *)
Fixpoint reduceAbove (fuel : nat) (semitones scale : Q) : Q * Q :=
  match fuel with
  | O => (semitones, scale)
  | S fuel' =>
      if JS.Qgtb semitones 120
      then reduceAbove fuel' (semitones - 120) (scale * 1024)
      else (semitones, scale)
  end.

Fixpoint reduceBelow (fuel : nat) (semitones scale : Q) : Q * Q :=
  match fuel with
  | O => (semitones, scale)
  | S fuel' =>
      if JS.Qltb semitones (-120)
      then reduceBelow fuel' (semitones + 120) (scale * (1 / 1024))
      else (semitones, scale)
  end.

Definition semitonesToRatioSafe (semitones : Q) : Q :=
  let scale := 1 in
  let fuel := Z.to_nat (Qceiling (JS.abs semitones / 120)) in
  let '(semitones, scale) := reduceAbove fuel semitones scale in
  let '(semitones, scale) := reduceBelow fuel semitones scale in
  scale * semitonesToRatio semitones.

Definition sine (phase : Q) : Q :=
  interpolateWrap LUT_SINE phase SINE_LUT_SIZE.

Definition sinePm (phase : Z) (pm : Q) : Q :=
  let MAX_UINT32 : Q := 4294967296 in
  let MAX_INDEX : Q := 32 in
  let OFFSET := MAX_INDEX in
  let SCALE := MAX_UINT32 / (MAX_INDEX * 2) in
  let phaseOffset := JS.ToUint32 (JS.fl64 (pm + OFFSET) * SCALE) in
  let multiplier := JS.ToUint32 (MAX_INDEX * 2) in
  let phase := JS.ToUint32Z (phase + phaseOffset * multiplier) in
  let integral := JS.and (JS.shr phase (32 - SINE_LUT_BITS)) 511 in
  let fractional :=
    inject_Z (JS.ToUint32Z (JS.shl phase SINE_LUT_BITS)) / MAX_UINT32 in
  let a := JS.get LUT_SINE integral in
  let b := JS.get LUT_SINE (integral + 1) in
  a + (b - a) * fractional.

End WithPlatform.
End Dsp.

(** ** Thrown errors

The sources throw [Error] objects that differ by their message only;
each constructor stands for one [throw] site:
- [BadVoiceLength]: "Patch data not exactly 128 bytes long"
- [BadBankLength]: "Currently only support parsing banks with exactly
  32 patches, which must be 4104 bytes exactly"
- [BadBankHeader]: "Sysex header is not correct"
- [BadOperatorIndex]: "Invalid operator index. Must be between 1 and 6
  inclusive" *)

Inductive Error : Set :=
  | BadVoiceLength
  | BadBankLength
  | BadBankHeader
  | BadOperatorIndex.

Inductive result (A : Type) : Type :=
  | Ok (a : A)
  | Throw (e : Error).

Arguments Ok {A} a.
Arguments Throw {A} e.

Definition bind {A B} (r : result A) (k : A -> result B) : result B :=
  match r with
  | Ok a => k a
  | Throw e => Throw e
  end.

(** ** fm/patch.js *)

Module FmPatch.

Definition SYX_SIZE : Z := 128.
Definition BANK_PATCHES : Z := 32.
Definition HEADER_BANK : list Z := [0xF0; 0x43; 0x00; 0x09; 0x20; 0x00]%Z.
Definition BULK_FULL_SYSEX_SIZE : Z := 4104.

Module OpEnvelope.
Record t := mk { rate : list Z; level : list Z }.
Definition new : t := mk [99; 99; 99; 99]%Z [99; 99; 99; 0]%Z.
End OpEnvelope.

Module PitchEnvelope.
Record t := mk { rate : list Z; level : list Z }.
Definition new : t := mk [99; 99; 99; 99]%Z [50; 50; 50; 50]%Z.
End PitchEnvelope.

Module KeyboardScaling.
Record t := mk {
  breakPoint : Z;
  leftDepth : Z;
  rightDepth : Z;
  leftCurve : Z;
  rightCurve : Z;
}.
Definition new : t := mk 0 0 0 0 0.
End KeyboardScaling.

Module Operator.
Record t := mk {
  envelope : OpEnvelope.t;
  keyboardScaling : KeyboardScaling.t;
  rateScaling : Z;
  ampModSensitivity : Z;
  velocitySensitivity : Z;
  level : Z;
  mode : Z;
  coarse : Z;
  fine : Z;
  detune : Z;
}.
Definition new : t :=
  mk OpEnvelope.new KeyboardScaling.new 0 0 0 0 0 0 0 0.
End Operator.

Module ModulationParameters.
Record t := mk {
  rate : Z;
  delay : Z;
  pitchModDepth : Z;
  ampModDepth : Z;
  resetPhase : Z;
  waveform : Z;
  pitchModSensitivity : Z;
}.
Definition new : t := mk 0 0 0 0 0 0 0.
End ModulationParameters.

Module Patch.
Record t := mk {
  op : list Operator.t;
  pitchEnvelope : PitchEnvelope.t;
  algorithm : Z;
  feedback : Z;
  resetPhase : Z;
  modulations : ModulationParameters.t;
  transpose : Z;
  (* the ten characters of the name, as their character codes *)
  name : list Z;
  activeOperators : Z;
}.

Definition new : t :=
  mk (replicate 6 Operator.new) PitchEnvelope.new 31 0 0
     ModulationParameters.new 0 (replicate 10 32%Z) 0x3f.

(** [setOp]: the 1-based DX7 operator number is stored at [6 - idx]. *)
Definition setOp (this : t) (idx : Z) (operator : Operator.t)
  : result t :=
  if ((idx <? 1) || (idx >? 6))%Z then Throw BadOperatorIndex
  else
    let actualIdx := (6 - idx)%Z in
    Ok (mk (<[Z.to_nat actualIdx := operator]> (op this))
           (pitchEnvelope this) (algorithm this) (feedback this)
           (resetPhase this) (modulations this) (transpose this)
           (name this) (activeOperators this)).

(** The body of the operator loop of [unpack]: every field of the
    operator object [o] is assigned from the 17 bytes at [opData]. *)
Definition unpackOperator (o : Operator.t) (opData : list Z)
  : Operator.t :=
  let env :=
    JS.for_ 4 (fun j env =>
      OpEnvelope.mk
        (JS.setZ JS.ToUint8 (OpEnvelope.rate env) j
           (Z.min (JS.and (JS.getZ opData j) 0x7f) 99))
        (JS.setZ JS.ToUint8 (OpEnvelope.level env) j
           (Z.min (JS.and (JS.getZ opData (4 + j)) 0x7f) 99)))
      (Operator.envelope o) in
  let ks :=
    KeyboardScaling.mk
      (Z.min (JS.and (JS.getZ opData 8) 0x7f) 99)
      (Z.min (JS.and (JS.getZ opData 9) 0x7f) 99)
      (Z.min (JS.and (JS.getZ opData 10) 0x7f) 99)
      (JS.and (JS.getZ opData 11) 0x3)
      (JS.and (JS.sar (JS.getZ opData 11) 2) 0x3) in
  Operator.mk env ks
    (JS.and (JS.getZ opData 12) 0x7)
    (JS.and (JS.getZ opData 13) 0x3)
    (JS.and (JS.sar (JS.getZ opData 13) 2) 0x7)
    (Z.min (JS.and (JS.getZ opData 14) 0x7f) 99)
    (JS.and (JS.getZ opData 15) 0x1)
    (JS.and (JS.sar (JS.getZ opData 15) 1) 0x1f)
    (Z.min (JS.and (JS.getZ opData 16) 0x7f) 99)
    (Z.min (JS.and (JS.sar (JS.getZ opData 12) 3) 0xf) 14).

Definition unpack (this : t) (data : list Z) : result t :=
  if negb (Z.of_nat (length data) =? SYX_SIZE)%Z
  then Throw BadVoiceLength
  else
    let ops :=
      JS.for_ 6 (fun i ops =>
        alter (fun o => unpackOperator o (JS.sliceFrom data (i * 17)))
          (Z.to_nat i) ops) (op this) in
    let pe :=
      JS.for_ 4 (fun j pe =>
        PitchEnvelope.mk
          (JS.setZ JS.ToUint8 (PitchEnvelope.rate pe) j
             (Z.min (JS.and (JS.getZ data (102 + j)) 0x7f) 99))
          (JS.setZ JS.ToUint8 (PitchEnvelope.level pe) j
             (Z.min (JS.and (JS.getZ data (106 + j)) 0x7f) 99)))
        (pitchEnvelope this) in
    let modulations :=
      ModulationParameters.mk
        (Z.min (JS.and (JS.getZ data 112) 0x7f) 99)
        (Z.min (JS.and (JS.getZ data 113) 0x7f) 99)
        (Z.min (JS.and (JS.getZ data 114) 0x7f) 99)
        (Z.min (JS.and (JS.getZ data 115) 0x7f) 99)
        (JS.and (JS.getZ data 116) 0x1)
        (Z.min (JS.and (JS.sar (JS.getZ data 116) 1) 0x7) 5)
        (JS.sar (JS.getZ data 116) 4) in
    let name :=
      JS.for_ 10 (fun i name =>
        <[Z.to_nat i := JS.and (JS.getZ data (118 + i)) 0x7f]> name)
        (name this) in
    Ok (mk ops pe
          (JS.and (JS.getZ data 110) 0x1f)
          (JS.and (JS.getZ data 111) 0x7)
          (JS.and (JS.sar (JS.getZ data 111) 3) 0x1)
          modulations
          (Z.min (JS.and (JS.getZ data 117) 0x7f) 48)
          name
          0x3f).

(** [getName()]: the ten characters joined, and trimmed. *)
Definition getName (this : t) : list Z := JS.trim (name this).

Definition fromBytes (data : list Z) : result t :=
  let patch := new in
  unpack patch data.
End Patch.

Module PatchBank.
Record t := mk { patches : list Patch.t }.

(** The header loop: it throws at the first index whose byte differs. *)
Definition checkHeader (data : list Z) : result unit :=
  JS.for_ 6 (fun i r =>
    bind r (fun _ =>
      if negb (JS.getZ data i =? JS.getZ HEADER_BANK i)%Z
      then Throw BadBankHeader else Ok tt)) (Ok tt).

Definition new (data : list Z) : result t :=
  if negb (Z.of_nat (length data) =? BULK_FULL_SYSEX_SIZE)%Z
  then Throw BadBankLength
  else
    bind (checkHeader data) (fun _ =>
      let patches := [] in
      let patchData := JS.sliceFrom data 6 in
      bind
        (JS.for_ (Z.to_nat BANK_PATCHES) (fun idx r =>
           bind r (fun patches =>
             let start := (idx * SYX_SIZE)%Z in
             let end_ := ((idx + 1) * SYX_SIZE)%Z in
             bind (Patch.fromBytes (JS.slice patchData start end_))
               (fun patch => Ok (patches ++ [patch]))))
           (Ok patches))
        (fun patches => Ok (mk patches))).
End PatchBank.

End FmPatch.

(** ** fm/dx_units.js *)

Module DxUnits.

Definition LUT_COARSE : list Q := [
  -12.000000; 0.000000; 12.000000; 19.019550; 24.000000; 27.863137;
  31.019550; 33.688259; 36.000000; 38.039100; 39.863137; 41.513180;
  43.019550; 44.405276; 45.688259; 46.882687; 48.000000; 49.049554;
  50.039100; 50.975130; 51.863137; 52.707809; 53.513180; 54.282743;
  55.019550; 55.726274; 56.405276; 57.058650; 57.688259; 58.295772;
  58.882687; 59.450356 ].

Definition LUT_AMP_MOD_SENSITIVITY : list Q := [0.0; 0.2588; 0.4274; 1.0].

Definition LUT_PITCH_MOD_SENSITIVITY : list Q := [
  0.0; 0.0781250; 0.1562500; 0.2578125; 0.4296875; 0.7187500; 1.1953125;
  2.0 ].

Definition LUT_CUBE_ROOT : list Q := [
  0.0; 0.39685062976; 0.50000000000; 0.57235744065; 0.62996081605;
  0.67860466725; 0.72112502092; 0.75914745216; 0.79370070937;
  0.82548197054; 0.85498810729; 0.88258719406; 0.90856038354;
  0.93312785379; 0.95646563396; 0.97871693135; 1.0 ].

Definition MIN_LFO_FREQUENCY : Q := 0.005865.

Definition operatorLevel (level : Z) : Z :=
  let tlc := level in
  if (level <? 20)%Z
  then if (tlc <? 15)%Z then JS.sar (tlc * (36 - tlc)) 3 else (27 + tlc)%Z
  else (tlc + 28)%Z.

Definition pitchEnvelopeLevel (level : Z) : Q :=
  let l := (inject_Z level - 50.0) / 32.0 in
  let tail := JS.max (JS.abs l + 0.02 - 1.0) 0.0 in
  l * (1.0 + tail * tail * 5.3056).

Definition operatorEnvelopeIncrement (rate : Z) : Q :=
  let rateScaled := JS.sar (rate * 41) 6 in
  let mantissa := (4 + JS.and rateScaled 3)%Z in
  let exponent := (2 + JS.sar rateScaled 2)%Z in
  inject_Z (JS.shl mantissa exponent) / inject_Z (JS.shl 1 24).

Definition pitchEnvelopeIncrement (rate : Z) : Q :=
  let r := inject_Z rate * 0.01 in
  (1.0 + 192.0 * r * (r * r * r * r + 0.3333)) / (21.3 * 44100.0).

Definition lfoFrequency (rate : Z) : Q :=
  let rateScaled := if (rate =? 0)%Z then 1%Z else JS.sar (rate * 165) 6 in
  let rateScaled :=
    (rateScaled
     * (if rateScaled <? 160 then 11
        else 11 + JS.sar (rateScaled - 160) 4))%Z in
  inject_Z rateScaled * MIN_LFO_FREQUENCY.

Definition lfoDelay (delay : Z) : list Q :=
  if (delay =? 0)%Z then [100000.0; 100000.0]
  else
    let d := (99 - delay)%Z in
    let dScaled := JS.shl (16 + JS.and d 15) (1 + JS.sar d 4) in
    let inc0 := inject_Z dScaled * MIN_LFO_FREQUENCY in
    let inc1 :=
      inject_Z (Z.max 0x80 (JS.and dScaled 0xff80)) * MIN_LFO_FREQUENCY in
    [inc0; inc1].

Definition ampModSensitivity (ampModSensitivity : Z) : Q :=
  JS.get LUT_AMP_MOD_SENSITIVITY ampModSensitivity.

(** The table has 8 entries.  At an index in 8..15, which [unpack] can
    produce, the source reads [undefined] and the depth that [Lfo.set]
    computes from it is NaN, where [JS.get] gives 0; statements about the
    pitch depth keep the sensitivity in 0..7. *)
Definition pitchModSensitivity (pitchModSensitivity : Z) : Q :=
  JS.get LUT_PITCH_MOD_SENSITIVITY pitchModSensitivity.

Definition keyboardScaling (note : Q) (ks : FmPatch.KeyboardScaling.t)
  : Q :=
  let x := note - inject_Z (FmPatch.KeyboardScaling.breakPoint ks) - 15.0 in
  let curve :=
    if JS.Qgtb x 0.0 then FmPatch.KeyboardScaling.rightCurve ks
    else FmPatch.KeyboardScaling.leftCurve ks in
  let t := JS.abs x in
  let t :=
    if ((curve =? 1) || (curve =? 2))%Z then
      let t := JS.min (t * 0.010467) 1.0 in
      let t := t * t * t in
      t * 96.0
    else t in
  let t := if (curve <? 2)%Z then - t else t in
  let depth :=
    if JS.Qgtb x 0.0 then FmPatch.KeyboardScaling.rightDepth ks
    else FmPatch.KeyboardScaling.leftDepth ks in
  t * inject_Z depth * 0.02677.

Section WithPlatform.
Context `{Platform}.

(** For [order = 1] the source computes an unused [w] and returns
    [Math.pow(2, x)]. *)
Definition pow2Fast (x : Q) (order : Z) : Q :=
  if (order =? 1)%Z then Math_pow2 x
  else
    let xIntegral := Qfloor x in
    let xIntegral :=
      if JS.Qltb x 0.0 then (xIntegral - 1)%Z else xIntegral in
    let x := x - inject_Z xIntegral in
    let result :=
      if (order =? 2)%Z
      then 1.0 + x * (0.6565 + x * 0.3435)
      else 1.0 + x * (0.6958 + x * (0.2251 + x * 0.0791)) in
    result * Math_pow2 (inject_Z xIntegral).

Definition normalizeVelocity (velocity : Q) : Q :=
  let cubeRoot := Dsp.interpolate LUT_CUBE_ROOT velocity 16.0 in
  16.0 * (cubeRoot - 0.918).

Definition rateScaling (note : Q) (rateScaling : Z) : Q :=
  pow2Fast (inject_Z rateScaling * (note * 0.33333 - 7.0) * 0.03125) 1.

Definition frequencyRatio (op : FmPatch.Operator.t) : Q :=
  let detune :=
    if ((FmPatch.Operator.mode op =? 0)
        && negb (FmPatch.Operator.fine op =? 0))%Z
    then 1.0 + 0.01 * inject_Z (FmPatch.Operator.fine op)
    else 1.0 in
  let base :=
    if (FmPatch.Operator.mode op =? 0)%Z
    then JS.get LUT_COARSE (FmPatch.Operator.coarse op)
    else
      inject_Z (JS.and (FmPatch.Operator.coarse op) 3 * 100
                + FmPatch.Operator.fine op) * 0.39864 in
  let base :=
    base + (inject_Z (FmPatch.Operator.detune op) - 7.0) * 0.015 in
  Dsp.semitonesToRatioSafe base * detune.

End WithPlatform.
End DxUnits.

(** ** fm/operator.js *)

Module FmOperator.

Module ModulationSource.
Definition External : Z := -2.
Definition None : Z := -1.
Definition Feedback : Z := 0.
End ModulationSource.

Module Operator.
Record t := mk { phase : Z; amplitude : Q }.
Definition new : t := mk 0 0.0.
Definition reset (this : t) : t := mk 0 0.0.
End Operator.

(** A Float32Array view ([subarray]) on a backing store: the cells
    [offset .. offset + length - 1] of the store.  Two views on the same
    store share their cells. *)
Module View.
Record t := mk { offset : Z; length : Z }.
Definition get (mem : list Q) (v : t) (i : Z) : Q :=
  if ((0 <=? i) && (i <? length v))%Z
  then JS.get mem (offset v + i) else 0.
Definition set (mem : list Q) (v : t) (i : Z) (x : Q) : list Q :=
  if ((0 <=? i) && (i <? length v))%Z
  then JS.set mem (offset v + i) x else mem.
End View.

(** What one call of a renderer leaves behind: the operators of the chain,
    the feedback history and the backing store of the buffers. *)
Record Rendered := mkRendered {
  ops' : list Operator.t;
  fbState' : list Q;
  mem' : list Q;
}.

(** The state of the sample loop of [renderOperators]. *)
Record Loop := mkLoop {
  l_phase : list Z;
  l_amplitude : list Q;
  l_previous0 : Q;
  l_previous1 : Q;
  l_modIdx : Z;
  l_store : list Q;
}.

(** The state of the operator loop inside one sample. *)
Record Inner := mkInner {
  i_phase : list Z;
  i_amplitude : list Q;
  i_pm : Q;
  i_previous0 : Q;
  i_previous1 : Q;
}.

Section WithPlatform.
Context `{Platform}.

Definition operatorStep (MODULATION_SOURCE : Z)
    (frequency : list Z) (amplitudeIncrement : list Q)
    (i : Z) (s : Inner) : Inner :=
  let phase :=
    JS.setZ JS.ToUint32Z (i_phase s) i
      (JS.ToUint32Z (JS.getZ (i_phase s) i + JS.getZ frequency i)) in
  let pm := Dsp.sinePm (JS.getZ phase i) (i_pm s)
            * JS.get (i_amplitude s) i in
  let amplitude :=
    JS.set (i_amplitude s) i
      (JS.fround
         (JS.fl64 (JS.get (i_amplitude s) i + JS.get amplitudeIncrement i)))
  in
  if (i =? MODULATION_SOURCE)%Z
  then mkInner phase amplitude pm pm (i_previous0 s)
  else mkInner phase amplitude pm (i_previous0 s) (i_previous1 s).

Definition sampleStep (N : nat) (MODULATION_SOURCE : Z) (ADDITIVE : bool)
    (frequency : list Z) (amplitudeIncrement : list Q) (fbScale : Q)
    (modulation out : View.t) (sampleIdx : Z) (s : Loop) : Loop :=
  let pm := 0.0 in
  let pm :=
    if (0 <=? MODULATION_SOURCE)%Z
    then (l_previous0 s + l_previous1 s) * fbScale
    else if (MODULATION_SOURCE =? -2)%Z
         then View.get (l_store s) modulation (l_modIdx s)
         else pm in
  let modIdx :=
    if (MODULATION_SOURCE =? -2)%Z then (l_modIdx s + 1)%Z else l_modIdx s in
  let r :=
    JS.for_ N (operatorStep MODULATION_SOURCE frequency amplitudeIncrement)
      (mkInner (l_phase s) (l_amplitude s) pm (l_previous0 s)
         (l_previous1 s)) in
  let store :=
    if ADDITIVE
    then View.set (l_store s) out sampleIdx
           (JS.fround (JS.fl64 (View.get (l_store s) out sampleIdx + i_pm r)))
    else View.set (l_store s) out sampleIdx (JS.fround (i_pm r)) in
  mkLoop (i_phase r) (i_amplitude r) (i_previous0 r) (i_previous1 r)
    modIdx store.

(** [renderOperators(N, MODULATION_SOURCE, ADDITIVE)] applied to its
    arguments.  [ops] is the slice of the voice's operators, whose objects
    the renderer updates; [modulation] and [out] are views on [mem]. *)
Definition renderOperators (N : nat) (MODULATION_SOURCE : Z)
    (ADDITIVE : bool)
    (ops : list Operator.t) (f a : list Q) (fbState : list Q)
    (fbAmount : Z) (mem : list Q) (modulation out : View.t) : Rendered :=
  let size := View.length out in
  let previous0 := 0.0 in
  let previous1 := 0.0 in
  let previous0 :=
    if (0 <=? MODULATION_SOURCE)%Z then JS.get fbState 0 else previous0 in
  let previous1 :=
    if (0 <=? MODULATION_SOURCE)%Z then JS.get fbState 1 else previous1 in
  let frequency := replicate N 0%Z in
  let phase := replicate N 0%Z in
  let amplitude := replicate N 0.0 in
  let amplitudeIncrement := replicate N 0.0 in
  let scale := JS.fl64 (1.0 / inject_Z size) in
  let op i := default Operator.new (ops !! Z.to_nat i) in
  let '(frequency, phase, amplitude, amplitudeIncrement) :=
    JS.for_ N (fun i '(frequency, phase, amplitude, amplitudeIncrement) =>
      let frequency :=
        JS.setZ JS.ToUint32Z frequency i
          (JS.ToUint32 (JS.min (JS.get f i) 0.5 * 4294967296.0)) in
      let phase :=
        JS.setZ JS.ToUint32Z phase i (Operator.phase (op i)) in
      let amplitude :=
        JS.set amplitude i (JS.fround (Operator.amplitude (op i))) in
      let amplitudeIncrement :=
        JS.set amplitudeIncrement i
          (JS.fround
             (JS.fl64
                (JS.fl64 (JS.min (JS.get a i) 4.0 - JS.get amplitude i)
                 * scale))) in
      (frequency, phase, amplitude, amplitudeIncrement))
      (frequency, phase, amplitude, amplitudeIncrement) in
  let fbScale :=
    if negb (fbAmount =? 0)%Z
    then inject_Z (JS.shl 1 fbAmount) / 512.0
    else 0.0 in
  let modIdx := 0%Z in
  let s :=
    JS.for_ (Z.to_nat size)
      (sampleStep N MODULATION_SOURCE ADDITIVE frequency amplitudeIncrement
         fbScale modulation out)
      (mkLoop phase amplitude previous0 previous1 modIdx mem) in
  let ops :=
    JS.for_ N (fun i ops =>
      <[Z.to_nat i :=
          Operator.mk (JS.getZ (l_phase s) i)
            (JS.get (l_amplitude s) i)]> ops)
      ops in
  let fbState :=
    if (0 <=? MODULATION_SOURCE)%Z
    then JS.set (JS.set fbState 0 (JS.fround (l_previous0 s))) 1
           (JS.fround (l_previous1 s))
    else fbState in
  mkRendered ops fbState (l_store s).

End WithPlatform.
End FmOperator.

(** ** fm/envelope.js *)

Module FmEnvelope.

(** Sentinel value indicating to use the previous level. *)
Definition PREVIOUS_LEVEL : Q := -100.0.

Module Envelope.
Record t := mk {
  numStages : Z;
  reshapeAscending : bool;
  stage : Z;
  phase : Q;
  start : Q;
  increment : list Q;
  level : list Q;
  scale : Q;
}.

(** Assignments to the fields of [this]. *)
Definition with_stage (this : t) (x : Z) : t :=
  mk (numStages this) (reshapeAscending this) x (phase this)
     (start this) (increment this) (level this) (scale this).
Definition with_phase (this : t) (x : Q) : t :=
  mk (numStages this) (reshapeAscending this) (stage this) x
     (start this) (increment this) (level this) (scale this).
Definition with_start (this : t) (x : Q) : t :=
  mk (numStages this) (reshapeAscending this) (stage this) (phase this)
     x (increment this) (level this) (scale this).
Definition with_increment (this : t) (x : list Q) : t :=
  mk (numStages this) (reshapeAscending this) (stage this) (phase this)
     (start this) x (level this) (scale this).
Definition with_level (this : t) (x : list Q) : t :=
  mk (numStages this) (reshapeAscending this) (stage this) (phase this)
     (start this) (increment this) x (scale this).
Definition with_scale (this : t) (x : Q) : t :=
  mk (numStages this) (reshapeAscending this) (stage this) (phase this)
     (start this) (increment this) (level this) x.

(** The loop shared by the constructor and [init]. *)
Definition defaults (this : t) : t :=
  let this :=
    JS.for_ (Z.to_nat (numStages this)) (fun i this =>
      let this :=
        with_increment this (JS.set (increment this) i 0.001) in
      with_level this
        (JS.set (level this) i (1.0 / inject_Z (JS.shl 1 i)))) this in
  with_level this (JS.set (level this) (numStages this - 1) 0.0).

Definition new (numStages : Z) (reshapeAscending : bool) : t :=
  defaults
    (mk numStages reshapeAscending (numStages - 1) 1.0 0.0
        (replicate (Z.to_nat numStages) 0.0)
        (replicate (Z.to_nat numStages) 0.0) 1.0).

Definition init (this : t) (scale : Q) : t :=
  let this := with_scale this scale in
  let this := with_stage this (numStages this - 1) in
  let this := with_phase this 1.0 in
  let this := with_start this 0.0 in
  defaults this.

Definition set (this : t) (increment level : list Q) : t :=
  JS.for_ (Z.to_nat (numStages this)) (fun i this =>
    let this :=
      with_increment this
        (JS.set (Envelope.increment this) i (JS.get increment i)) in
    with_level this
      (JS.set (Envelope.level this) i (JS.get level i))) this.

Definition valueAt (this : t) (stage : Z) (phase startLevel : Q) : Q :=
  let from :=
    if Qeq_bool startLevel PREVIOUS_LEVEL
    then JS.get (level this)
           (Z.rem (stage + numStages this - 1) (numStages this))
    else startLevel in
  let to := JS.get (level this) stage in
  let '(from, to, phase) :=
    if reshapeAscending this && JS.Qltb from to
    then (JS.max from 6.7, JS.max to 6.7,
          phase * ((2.5 - phase) * 0.666667))
    else (from, to, phase) in
  phase * (to - from) + from.

Definition value (this : t) : Q :=
  valueAt this (stage this) (phase this) (start this).

Definition renderScaled (this : t) (gate : bool)
    (rate adScale releaseScale : Q) : t * Q :=
  let this :=
    if gate then
      if (stage this =? numStages this - 1)%Z then
        let this := with_start this (value this) in
        let this := with_stage this 0 in
        with_phase this 0.0
      else this
    else
      if negb (stage this =? numStages this - 1)%Z then
        let this := with_start this (value this) in
        let this := with_stage this (numStages this - 1) in
        with_phase this 0.0
      else this in
  let scaleFactor :=
    if (stage this =? numStages this - 1)%Z
    then releaseScale else adScale in
  let this :=
    with_phase this
      (phase this
       + JS.get (increment this) (stage this) * rate * scaleFactor) in
  let this :=
    if JS.Qgeb (phase this) 1.0 then
      let this :=
        if (numStages this - 2 <=? stage this)%Z
        then with_phase this 1.0
        else
          let this := with_phase this 0.0 in
          with_stage this (stage this + 1) in
      with_start this PREVIOUS_LEVEL
    else this in
  (this, value this).

Definition render (this : t) (gate : bool) : t * Q :=
  renderScaled this gate 1.0 1.0 1.0.

(** The stage search of [renderAtSample]: the [for] loop with its
    [break], as a fold that stops changing once [break] is reached. *)
Definition findStage (this : t) (t0 : Q) : Z * Q :=
  let '(stage, remainingTime, _) :=
    JS.for_ (Z.to_nat (numStages this - 1))
      (fun i '(stage, remainingTime, broken) =>
         if (broken : bool) then (stage, remainingTime, broken)
         else
           let stageDuration := 1.0 / JS.get (increment this) i in
           if JS.Qltb remainingTime stageDuration
           then (i, remainingTime, true)
           else ((i + 1)%Z, remainingTime - stageDuration, false))
      (0%Z, t0, false) in
  (stage, remainingTime).

(** [renderAtSample] for [t <= gateDuration]. *)
Definition renderAtSampleHeld (this : t) (t0 gateDuration : Q) : Q :=
  let '(stage, remainingTime) := findStage this t0 in
  let last := (numStages this - 1)%Z in
  if (stage =? last)%Z then
    let remainingTime := remainingTime - gateDuration in
    if Qle_bool remainingTime 0.0
    then JS.get (level this) (numStages this - 2)
    else if JS.Qgtb (remainingTime * JS.get (increment this) last) 1.0
    then JS.get (level this) last
    else valueAt this stage
           (remainingTime * JS.get (increment this) stage)
           PREVIOUS_LEVEL
  else valueAt this stage
         (remainingTime * JS.get (increment this) stage) PREVIOUS_LEVEL.

(** The recursive call is at [t = gateDuration], which takes the second
    branch. *)
Definition renderAtSample (this : t) (t0 gateDuration : Q) : Q :=
  if JS.Qgtb t0 gateDuration then
    let phase :=
      (t0 - gateDuration) * JS.get (increment this) (numStages this - 1) in
    if JS.Qgeb phase 1.0
    then JS.get (level this) (numStages this - 1)
    else
      let sustainValue :=
        renderAtSampleHeld this gateDuration gateDuration in
      valueAt this (numStages this - 1) phase sustainValue
  else renderAtSampleHeld this t0 gateDuration.
End Envelope.

Module OperatorEnvelope.
Record t := mk { envelope : Envelope.t }.

Definition new : t := mk (Envelope.new 4 true).

Definition init (this : t) (scale : Q) : t :=
  mk (Envelope.init (envelope this) scale).

Definition set (this : t) (rate level : list Z) (globalLevel : Z) : t :=
  let e := envelope this in
  let e :=
    JS.for_ 4 (fun i e =>
      let levelScaled := DxUnits.operatorLevel (JS.getZ level i) in
      let levelScaled :=
        (JS.and levelScaled (JS.not 1) + globalLevel - 133)%Z in
      Envelope.with_level e
        (JS.set (Envelope.level e) i
           (0.125 * (if (levelScaled <? 1)%Z then 0.5
                     else inject_Z levelScaled)))) e in
  let e :=
    JS.for_ 4 (fun i e =>
      let increment :=
        DxUnits.operatorEnvelopeIncrement (JS.getZ rate i) in
      let from := JS.get (Envelope.level e) (Z.rem (i + 4 - 1) 4) in
      let to := JS.get (Envelope.level e) i in
      let increment :=
        if Qeq_bool from to then
          let increment := increment * 0.6 in
          if ((i =? 0) && (JS.getZ level i =? 0))%Z
          then increment * 20.0 else increment
        else if JS.Qltb from to then
          let fromClamped := JS.max from 6.7 in
          let toClamped := JS.max to 6.7 in
          if Qeq_bool fromClamped toClamped then 1.0
          else increment * (7.2 / (toClamped - fromClamped))
        else increment * (1.0 / (from - to)) in
      Envelope.with_increment e
        (JS.set (Envelope.increment e) i
           (increment * Envelope.scale e))) e in
  mk e.

Definition render (this : t) (gate : bool) : t * Q :=
  let '(e, v) := Envelope.render (envelope this) gate in (mk e, v).

Definition renderScaled (this : t) (gate : bool)
    (rate adScale releaseScale : Q) : t * Q :=
  let '(e, v) :=
    Envelope.renderScaled (envelope this) gate rate adScale releaseScale
  in (mk e, v).

Definition renderAtSample (this : t) (t0 gateDuration : Q) : Q :=
  Envelope.renderAtSample (envelope this) t0 gateDuration.
End OperatorEnvelope.

Module PitchEnvelope.
Record t := mk { envelope : Envelope.t }.

Definition new : t := mk (Envelope.new 4 false).

Definition init (this : t) (scale : Q) : t :=
  mk (Envelope.init (envelope this) scale).

Definition set (this : t) (rate level : list Z) : t :=
  let e := envelope this in
  let e :=
    JS.for_ 4 (fun i e =>
      Envelope.with_level e
        (JS.set (Envelope.level e) i
           (DxUnits.pitchEnvelopeLevel (JS.getZ level i)))) e in
  let e :=
    JS.for_ 4 (fun i e =>
      let from := JS.get (Envelope.level e) (Z.rem (i + 4 - 1) 4) in
      let to := JS.get (Envelope.level e) i in
      let increment :=
        DxUnits.pitchEnvelopeIncrement (JS.getZ rate i) in
      let increment :=
        if negb (Qeq_bool from to)
        then increment * (1.0 / JS.abs (from - to))
        else if negb (i =? 3)%Z then 0.2
        else increment in
      Envelope.with_increment e
        (JS.set (Envelope.increment e) i
           (increment * Envelope.scale e))) e in
  mk e.

Definition render (this : t) (gate : bool) : t * Q :=
  let '(e, v) := Envelope.render (envelope this) gate in (mk e, v).

Definition renderScaled (this : t) (gate : bool)
    (rate adScale releaseScale : Q) : t * Q :=
  let '(e, v) :=
    Envelope.renderScaled (envelope this) gate rate adScale releaseScale
  in (mk e, v).

Definition renderAtSample (this : t) (t0 gateDuration : Q) : Q :=
  Envelope.renderAtSample (envelope this) t0 gateDuration.
End PitchEnvelope.

End FmEnvelope.

(** ** stmlib/random.js

Modelled from the spec: [getFloat], the generator behind the
sample-and-hold waveform of the LFO, is imported from stmlib/random.js,
which is not among the sources.  The specification asks for a generator
"uniform over [0,1)" that is "seedable or stubbable".  The model is a
stubbed generator: the sequence of the values it returns, and how many
of them have been drawn so far. *)

Module Random.
Record t := mk { draws : nat -> Q; drawn : nat }.

Definition getFloat (g : t) : Q * t :=
  (draws g (drawn g), mk (draws g) (S (drawn g))).
End Random.

(** ** fm/lfo.js *)

Module FmLfo.

Module Waveform.
Definition Triangle : Z := 0.
Definition RampDown : Z := 1.
Definition RampUp : Z := 2.
Definition Square : Z := 3.
Definition Sine : Z := 4.
Definition SAndH : Z := 5.
End Waveform.

Definition waveformFromU8 (value : Z) : Z :=
  match value with
  | 1 => Waveform.RampDown
  | 2 => Waveform.RampUp
  | 3 => Waveform.Square
  | 4 => Waveform.Sine
  | 5 => Waveform.SAndH
  | _ => Waveform.Triangle
  end%Z.

Module Lfo.
Record t := mk {
  phase : Q;
  frequency : Q;
  delayPhase : Q;
  delayIncrement : list Q;
  value_ : Q;
  randomValue : Q;
  oneHz : Q;
  ampModDepth : Q;
  pitchModDepth : Q;
  waveform : Z;
  resetPhase : bool;
  phaseIntegral : Z;
}.

Definition new : t :=
  mk 0.0 0.1 0.0 [0.1; 0.1] 0.0 0.0 0.0 0.0 0.0 Waveform.Triangle false 0.

Definition init (this : t) (sampleRate : Q) : t :=
  mk 0.0 0.1 0.0
     (JS.set (JS.set (delayIncrement this) 0 0.1) 1 0.1)
     0.0 0.0 (1.0 / sampleRate) 0.0 0.0 Waveform.Triangle false 0.

Definition set (this : t) (modulations : FmPatch.ModulationParameters.t)
  : t :=
  let frequency :=
    DxUnits.lfoFrequency (FmPatch.ModulationParameters.rate modulations)
    * oneHz this in
  let delayArr :=
    DxUnits.lfoDelay (FmPatch.ModulationParameters.delay modulations) in
  let delayIncrement :=
    JS.set (delayIncrement this) 0 (JS.get delayArr 0 * oneHz this) in
  let delayIncrement :=
    JS.set delayIncrement 1 (JS.get delayArr 1 * oneHz this) in
  let waveform :=
    waveformFromU8 (FmPatch.ModulationParameters.waveform modulations) in
  let resetPhase :=
    negb (FmPatch.ModulationParameters.resetPhase modulations =? 0)%Z in
  let ampModDepth :=
    inject_Z (FmPatch.ModulationParameters.ampModDepth modulations)
    * 0.01 in
  let pitchModDepth :=
    inject_Z (FmPatch.ModulationParameters.pitchModDepth modulations)
    * 0.01
    * DxUnits.pitchModSensitivity
        (FmPatch.ModulationParameters.pitchModSensitivity modulations) in
  mk (phase this) frequency (delayPhase this) delayIncrement
     (value_ this) (randomValue this) (oneHz this) ampModDepth
     pitchModDepth waveform resetPhase (phaseIntegral this).

Definition reset (this : t) : t :=
  mk (if resetPhase this then 0.0 else phase this)
     (frequency this) 0.0 (delayIncrement this) (value_ this)
     (randomValue this) (oneHz this) (ampModDepth this)
     (pitchModDepth this) (waveform this) (resetPhase this)
     (phaseIntegral this).

Definition delayRamp (this : t) : Q :=
  if JS.Qltb (delayPhase this) 0.5 then 0.0
  else (delayPhase this - 0.5) * 2.0.

Definition pitchMod (this : t) : Q :=
  (value_ this - 0.5) * delayRamp this * pitchModDepth this.

Definition ampMod (this : t) : Q :=
  (1.0 - value_ this) * delayRamp this * ampModDepth this.

Section WithPlatform.
Context `{Platform}.

(** [value()] reads the phase, the waveform and the latched random
    value; they are its arguments here so that [step] and [scrub] can
    call it in the middle of their updates. *)
Definition valueOf (waveform : Z) (phase randomValue : Q) : Q :=
  match waveform with
  | 0%Z =>
      2.0 * (if JS.Qltb phase 0.5 then 0.5 - phase else phase - 0.5)
  | 1%Z => 1.0 - phase
  | 2%Z => phase
  | 3%Z => if JS.Qltb phase 0.5 then 0.0 else 1.0
  | 4%Z => 0.5 + 0.5 * Dsp.sine (phase + 0.5)
  | 5%Z => randomValue
  | _ => 0.0
  end.

Definition value (this : t) : Q :=
  valueOf (waveform this) (phase this) (randomValue this).

Definition step (g : Random.t) (this : t) (scale : Q) : t * Random.t :=
  let phase := phase this + scale * frequency this in
  let '(phase, randomValue, g) :=
    if JS.Qgeb phase 1.0 then
      let '(r, g) := Random.getFloat g in (phase - 1.0, r, g)
    else (phase, randomValue this, g) in
  let value_ := valueOf (waveform this) phase randomValue in
  let delayPhase :=
    delayPhase this
    + scale * JS.get (delayIncrement this)
                (if JS.Qltb (delayPhase this) 0.5 then 0 else 1) in
  let delayPhase :=
    if JS.Qgeb delayPhase 1.0 then 1.0 else delayPhase in
  (mk phase (frequency this) delayPhase (delayIncrement this) value_
      randomValue (oneHz this) (ampModDepth this) (pitchModDepth this)
      (waveform this) (resetPhase this) (phaseIntegral this), g).

Definition scrub (g : Random.t) (this : t) (sample : Q)
  : t * Random.t :=
  let phase := sample * frequency this in
  let phaseIntegral := Qfloor phase in
  let phaseFractional := phase - inject_Z phaseIntegral in
  let '(phaseIntegral', randomValue, g) :=
    if negb (phaseIntegral =? Lfo.phaseIntegral this)%Z then
      let '(r, g) := Random.getFloat g in (phaseIntegral, r, g)
    else (Lfo.phaseIntegral this, randomValue this, g) in
  let value_ := valueOf (waveform this) phaseFractional randomValue in
  let delayPhase := sample * JS.get (delayIncrement this) 0 in
  let delayPhase :=
    if JS.Qgtb delayPhase 0.5 then
      let sampleAdjusted :=
        sample - 0.5 / JS.get (delayIncrement this) 0 in
      let delayPhase :=
        0.5 + sampleAdjusted * JS.get (delayIncrement this) 1 in
      if JS.Qgeb delayPhase 1.0 then 1.0 else delayPhase
    else delayPhase in
  (mk phaseFractional (frequency this) delayPhase (delayIncrement this)
      value_ randomValue (oneHz this) (ampModDepth this)
      (pitchModDepth this) (waveform this) (resetPhase this)
      phaseIntegral', g).
End WithPlatform.
End Lfo.

End FmLfo.

(** ** fm/algorithms.js *)

Module FmAlgorithms.

Definition NUM_OPERATORS : Z := 6.
Definition NUM_ALGORITHMS : Z := 32.

Definition DESTINATION_MASK : Z := 0x03.
Definition SOURCE_MASK : Z := 0x30.
Definition SOURCE_FEEDBACK : Z := 0x30.
Definition ADDITIVE_FLAG : Z := 0x04.
Definition FEEDBACK_SOURCE_FLAG : Z := 0x40.

Definition modFlags (n : Z) : Z := JS.shl n 4.
Definition addFlags (n : Z) : Z := JS.or n ADDITIVE_FLAG.
Definition outFlags (n : Z) : Z := n.

Definition FB_SRC : Z := FEEDBACK_SOURCE_FLAG.
Definition FB_DST : Z := modFlags 3.
Definition FB : Z := JS.or FB_SRC FB_DST.
Definition NO_MOD : Z := modFlags 0.
Definition OUTPUT : Z := addFlags 0.

(** The closure [renderOperators(N, MODULATION_SOURCE, ADDITIVE)]: it is
    determined by the three arguments it was built from. *)
Record RenderFn := mkRenderFn {
  N : nat;
  MODULATION_SOURCE : Z;
  ADDITIVE : bool;
}.

Module RenderCall.
Record t := mk {
  renderFn : RenderFn;
  n : Z;
  inputIndex : Z;
  outputIndex : Z;
}.

(** The constructor with all its arguments defaulted. *)
Definition new : t := mk (mkRenderFn 1 (-1) false) 0 0 0.
End RenderCall.

Module RendererSpecs.
Record t := mk {
  n : Z;
  modulationSource : Z;
  additive : bool;
  renderFn : RenderFn;
}.
End RendererSpecs.

Notation "a '.|' b" := (JS.or a b) (at level 50, left associativity).

Definition OPCODES_6 : list (list Z) := [
  [FB .| outFlags 1; modFlags 1 .| outFlags 1; modFlags 1 .| outFlags 1; modFlags 1 .| OUTPUT; NO_MOD .| outFlags 1; modFlags 1 .| addFlags 0];
  [NO_MOD .| outFlags 1; modFlags 1 .| outFlags 1; modFlags 1 .| outFlags 1; modFlags 1 .| OUTPUT; FB .| outFlags 1; modFlags 1 .| addFlags 0];
  [FB .| outFlags 1; modFlags 1 .| outFlags 1; modFlags 1 .| OUTPUT; NO_MOD .| outFlags 1; modFlags 1 .| outFlags 1; modFlags 1 .| addFlags 0];
  [FB_DST .| NO_MOD .| outFlags 1; modFlags 1 .| outFlags 1; FB_SRC .| modFlags 1 .| OUTPUT; NO_MOD .| outFlags 1; modFlags 1 .| outFlags 1; modFlags 1 .| addFlags 0];
  [FB .| outFlags 1; modFlags 1 .| OUTPUT; NO_MOD .| outFlags 1; modFlags 1 .| addFlags 0; NO_MOD .| outFlags 1; modFlags 1 .| addFlags 0];
  [FB_DST .| NO_MOD .| outFlags 1; FB_SRC .| modFlags 1 .| OUTPUT; NO_MOD .| outFlags 1; modFlags 1 .| addFlags 0; NO_MOD .| outFlags 1; modFlags 1 .| addFlags 0];
  [FB .| outFlags 1; modFlags 1 .| outFlags 1; NO_MOD .| addFlags 1; modFlags 1 .| OUTPUT; NO_MOD .| outFlags 1; modFlags 1 .| addFlags 0];
  [NO_MOD .| outFlags 1; modFlags 1 .| outFlags 1; FB .| addFlags 1; modFlags 1 .| OUTPUT; NO_MOD .| outFlags 1; modFlags 1 .| addFlags 0];
  [NO_MOD .| outFlags 1; modFlags 1 .| outFlags 1; NO_MOD .| addFlags 1; modFlags 1 .| OUTPUT; FB .| outFlags 1; modFlags 1 .| addFlags 0];
  [NO_MOD .| outFlags 1; NO_MOD .| addFlags 1; modFlags 1 .| OUTPUT; FB .| outFlags 1; modFlags 1 .| outFlags 1; modFlags 1 .| addFlags 0];
  [FB .| outFlags 1; NO_MOD .| addFlags 1; modFlags 1 .| OUTPUT; NO_MOD .| outFlags 1; modFlags 1 .| outFlags 1; modFlags 1 .| addFlags 0];
  [NO_MOD .| outFlags 1; NO_MOD .| addFlags 1; NO_MOD .| addFlags 1; modFlags 1 .| OUTPUT; FB .| outFlags 1; modFlags 1 .| addFlags 0];
  [FB .| outFlags 1; NO_MOD .| addFlags 1; NO_MOD .| addFlags 1; modFlags 1 .| OUTPUT; NO_MOD .| outFlags 1; modFlags 1 .| addFlags 0];
  [FB .| outFlags 1; NO_MOD .| addFlags 1; modFlags 1 .| outFlags 1; modFlags 1 .| OUTPUT; NO_MOD .| outFlags 1; modFlags 1 .| addFlags 0];
  [NO_MOD .| outFlags 1; NO_MOD .| addFlags 1; modFlags 1 .| outFlags 1; modFlags 1 .| OUTPUT; FB .| outFlags 1; modFlags 1 .| addFlags 0];
  [FB .| outFlags 1; modFlags 1 .| outFlags 1; NO_MOD .| outFlags 2; modFlags 2 .| addFlags 1; NO_MOD .| addFlags 1; modFlags 1 .| OUTPUT];
  [NO_MOD .| outFlags 1; modFlags 1 .| outFlags 1; NO_MOD .| outFlags 2; modFlags 2 .| addFlags 1; FB .| addFlags 1; modFlags 1 .| OUTPUT];
  [NO_MOD .| outFlags 1; modFlags 1 .| outFlags 1; modFlags 1 .| outFlags 1; FB .| addFlags 1; NO_MOD .| addFlags 1; modFlags 1 .| OUTPUT];
  [FB .| outFlags 1; modFlags 1 .| OUTPUT; modFlags 1 .| addFlags 0; NO_MOD .| outFlags 1; modFlags 1 .| outFlags 1; modFlags 1 .| addFlags 0];
  [NO_MOD .| outFlags 1; NO_MOD .| addFlags 1; modFlags 1 .| OUTPUT; FB .| outFlags 1; modFlags 1 .| addFlags 0; modFlags 1 .| addFlags 0];
  [NO_MOD .| outFlags 1; modFlags 1 .| OUTPUT; modFlags 1 .| addFlags 0; FB .| outFlags 1; modFlags 1 .| addFlags 0; modFlags 1 .| addFlags 0];
  [FB .| outFlags 1; modFlags 1 .| OUTPUT; modFlags 1 .| addFlags 0; modFlags 1 .| addFlags 0; NO_MOD .| outFlags 1; modFlags 1 .| addFlags 0];
  [FB .| outFlags 1; modFlags 1 .| OUTPUT; modFlags 1 .| addFlags 0; NO_MOD .| outFlags 1; modFlags 1 .| addFlags 0; NO_MOD .| addFlags 0];
  [FB .| outFlags 1; modFlags 1 .| OUTPUT; modFlags 1 .| addFlags 0; modFlags 1 .| addFlags 0; NO_MOD .| addFlags 0; NO_MOD .| addFlags 0];
  [FB .| outFlags 1; modFlags 1 .| OUTPUT; modFlags 1 .| addFlags 0; NO_MOD .| addFlags 0; NO_MOD .| addFlags 0; NO_MOD .| addFlags 0];
  [FB .| outFlags 1; NO_MOD .| addFlags 1; modFlags 1 .| OUTPUT; NO_MOD .| outFlags 1; modFlags 1 .| addFlags 0; NO_MOD .| addFlags 0];
  [NO_MOD .| outFlags 1; NO_MOD .| addFlags 1; modFlags 1 .| OUTPUT; FB .| outFlags 1; modFlags 1 .| addFlags 0; NO_MOD .| addFlags 0];
  [NO_MOD .| OUTPUT; FB .| outFlags 1; modFlags 1 .| outFlags 1; modFlags 1 .| addFlags 0; NO_MOD .| outFlags 1; modFlags 1 .| addFlags 0];
  [FB .| outFlags 1; modFlags 1 .| OUTPUT; NO_MOD .| outFlags 1; modFlags 1 .| addFlags 0; NO_MOD .| addFlags 0; NO_MOD .| addFlags 0];
  [NO_MOD .| OUTPUT; FB .| outFlags 1; modFlags 1 .| outFlags 1; modFlags 1 .| addFlags 0; NO_MOD .| addFlags 0; NO_MOD .| addFlags 0];
  [FB .| outFlags 1; modFlags 1 .| OUTPUT; NO_MOD .| addFlags 0; NO_MOD .| addFlags 0; NO_MOD .| addFlags 0; NO_MOD .| addFlags 0];
  [FB .| OUTPUT; NO_MOD .| addFlags 0; NO_MOD .| addFlags 0; NO_MOD .| addFlags 0; NO_MOD .| addFlags 0; NO_MOD .| addFlags 0]
].

Definition RENDERERS_6 : list RendererSpecs.t := [
  RendererSpecs.mk 1 (-2) false (mkRenderFn 1 (-2) false);
  RendererSpecs.mk 1 (-2) true (mkRenderFn 1 (-2) true);
  RendererSpecs.mk 1 (-1) false (mkRenderFn 1 (-1) false);
  RendererSpecs.mk 1 (-1) true (mkRenderFn 1 (-1) true);
  RendererSpecs.mk 1 0 false (mkRenderFn 1 0 false);
  RendererSpecs.mk 1 0 true (mkRenderFn 1 0 true);
  RendererSpecs.mk 3 2 true (mkRenderFn 3 2 true);
  RendererSpecs.mk 2 1 true (mkRenderFn 2 1 true);
  RendererSpecs.mk 0 0 false (mkRenderFn 1 (-1) false)
].

(** [null] is [None]. *)
Fixpoint findRenderer (specs : list RendererSpecs.t)
    (n modulationSource : Z) (additive : bool) : option RenderFn :=
  match specs with
  | [] => None
  | s :: rest =>
      if (RendererSpecs.n s =? 0)%Z then None
      else if ((RendererSpecs.n s =? n)
               && (RendererSpecs.modulationSource s =? modulationSource))%Z
              && Bool.eqb (RendererSpecs.additive s) additive
      then Some (RendererSpecs.renderFn s)
      else findRenderer rest n modulationSource additive
  end.

Definition getRenderer (n modulationSource : Z) (additive : bool)
  : option RenderFn :=
  findRenderer RENDERERS_6 n modulationSource additive.

(** The chaining loop of [compile]: [while (i + n < NUM_OPERATORS)].  It
    runs at most [NUM_OPERATORS] times, which is the fuel. *)
Fixpoint chain (fuel : nat) (opcodes : list Z) (opcode i n : Z) : Z :=
  match fuel with
  | O => n
  | S fuel' =>
      if (i + n <? NUM_OPERATORS)%Z then
        let from := JS.getZ opcodes (i + n - 1) in
        let to := JS.sar (JS.and (JS.getZ opcodes (i + n)) SOURCE_MASK) 4 in
        let hasAdditive := negb (JS.and from ADDITIVE_FLAG =? 0)%Z in
        let broken := negb (JS.and from DESTINATION_MASK =? to)%Z in
        if hasAdditive || broken then
          if (to =? JS.and opcode DESTINATION_MASK)%Z then 1%Z else n
        else chain fuel' opcodes opcode i (n + 1)%Z
      else n
  end.

(** One pass of the [attempt] loop; [found] records the [break]. *)
Definition attempt (opcodes : list Z) (opcode i : Z)
    (s : Z * list RenderCall.t * bool) : Z * list RenderCall.t * bool :=
  let '(n, calls, found) := s in
  if found then s
  else
    let outOpcode := JS.getZ opcodes (i + n - 1) in
    let additive := negb (JS.and outOpcode ADDITIVE_FLAG =? 0)%Z in
    let modulationSource :=
      if (JS.and opcode SOURCE_MASK =? 0)%Z then (-1)%Z
      else if negb (JS.and opcode SOURCE_MASK =? SOURCE_FEEDBACK)%Z
      then (-2)%Z
      else
        JS.for_ (Z.to_nat n) (fun j modulationSource =>
          if negb (JS.and (JS.getZ opcodes (i + j)) FEEDBACK_SOURCE_FLAG
                   =? 0)%Z
          then j else modulationSource) (-3)%Z in
    match getRenderer n modulationSource additive with
    | Some renderFn =>
        (n,
         <[Z.to_nat i :=
             RenderCall.mk renderFn n
               (JS.sar (JS.and opcode SOURCE_MASK) 4)
               (JS.and outOpcode DESTINATION_MASK)]> calls,
         true)
    | None => (if (1 <? n)%Z then 1%Z else n, calls, false)
    end.

(** The outer loop of [compile]: [while (i < NUM_OPERATORS)]; [i] grows by
    at least one each time. *)
Fixpoint compileFrom (fuel : nat) (opcodes : list Z) (i : Z)
    (calls : list RenderCall.t) : list RenderCall.t :=
  match fuel with
  | O => calls
  | S fuel' =>
      if (i <? NUM_OPERATORS)%Z then
        let opcode := JS.getZ opcodes i in
        let n := chain (Z.to_nat NUM_OPERATORS) opcodes opcode i 1 in
        let '(n, calls, _) :=
          JS.for_ 2 (fun _ s => attempt opcodes opcode i s)
            (n, calls, false) in
        compileFrom fuel' opcodes (i + n)%Z calls
      else calls
  end.

Module Algorithms.
Record t := mk { renderCalls : list (list RenderCall.t) }.

Definition compile (this : t) (algorithm : Z) : t :=
  let opcodes := default [] (OPCODES_6 !! Z.to_nat algorithm) in
  mk (<[Z.to_nat algorithm :=
         compileFrom (Z.to_nat NUM_OPERATORS) opcodes 0
           (default [] (renderCalls this !! Z.to_nat algorithm))]>
        (renderCalls this)).

Definition init (this : t) : t :=
  JS.for_ (Z.to_nat NUM_ALGORITHMS) (fun i this => compile this i) this.

Definition new : t :=
  init (mk (replicate (Z.to_nat NUM_ALGORITHMS)
              (replicate (Z.to_nat NUM_OPERATORS) RenderCall.new))).

Definition renderCall (this : t) (algorithm op : Z) : RenderCall.t :=
  default RenderCall.new
    (default [] (renderCalls this !! Z.to_nat algorithm)
       !! Z.to_nat op).

Definition isModulator (this : t) (algorithm op : Z) : bool :=
  negb (JS.and
          (JS.getZ (default [] (OPCODES_6 !! Z.to_nat algorithm)) op)
          DESTINATION_MASK =? 0)%Z.
End Algorithms.

End FmAlgorithms.

(** ** fm/voice.js *)

Module FmVoice.

Definition NUM_OPERATORS : Z := 6.

Module Parameters.
Record t := mk {
  sustain : bool;
  gate : bool;
  note : Q;
  velocity : Q;
  brightness : Q;
  envelopeControl : Q;
  pitchMod : Q;
  ampMod : Q;
}.

Definition new : t := mk false false 48.0 0.5 0.5 0.5 0.0 0.0.
End Parameters.

Module Voice.
Record t := mk {
  algorithms : FmAlgorithms.Algorithms.t;
  sampleRate : Q;
  oneHz : Q;
  a0 : Q;
  gate : bool;
  operator : list FmOperator.Operator.t;
  operatorEnvelope : list FmEnvelope.OperatorEnvelope.t;
  pitchEnvelope : FmEnvelope.PitchEnvelope.t;
  normalizedVelocity : Q;
  note : Q;
  ratios : list Q;
  levelHeadroom : list Q;
  level : list Q;
  feedbackState : list Q;
  patch : FmPatch.Patch.t;
  dirty : bool;
}.

(** Assignments to the fields of [this]. *)
Definition with_gate (this : t) (x : bool)
  : t :=
  mk (algorithms this) (sampleRate this) (oneHz this) (a0 this) x
     (operator this) (operatorEnvelope this) (pitchEnvelope this)
     (normalizedVelocity this) (note this) (ratios this)
     (levelHeadroom this) (level this) (feedbackState this) (patch this)
     (dirty this).
Definition with_operator (this : t) (x : list FmOperator.Operator.t)
  : t :=
  mk (algorithms this) (sampleRate this) (oneHz this) (a0 this) (gate this)
     x (operatorEnvelope this) (pitchEnvelope this)
     (normalizedVelocity this) (note this) (ratios this)
     (levelHeadroom this) (level this) (feedbackState this) (patch this)
     (dirty this).
Definition with_operatorEnvelope (this : t) (x : list FmEnvelope.OperatorEnvelope.t)
  : t :=
  mk (algorithms this) (sampleRate this) (oneHz this) (a0 this) (gate this)
     (operator this) x (pitchEnvelope this) (normalizedVelocity this)
     (note this) (ratios this) (levelHeadroom this) (level this)
     (feedbackState this) (patch this) (dirty this).
Definition with_pitchEnvelope (this : t) (x : FmEnvelope.PitchEnvelope.t)
  : t :=
  mk (algorithms this) (sampleRate this) (oneHz this) (a0 this) (gate this)
     (operator this) (operatorEnvelope this) x (normalizedVelocity this)
     (note this) (ratios this) (levelHeadroom this) (level this)
     (feedbackState this) (patch this) (dirty this).
Definition with_normalizedVelocity (this : t) (x : Q)
  : t :=
  mk (algorithms this) (sampleRate this) (oneHz this) (a0 this) (gate this)
     (operator this) (operatorEnvelope this) (pitchEnvelope this) x
     (note this) (ratios this) (levelHeadroom this) (level this)
     (feedbackState this) (patch this) (dirty this).
Definition with_note (this : t) (x : Q)
  : t :=
  mk (algorithms this) (sampleRate this) (oneHz this) (a0 this) (gate this)
     (operator this) (operatorEnvelope this) (pitchEnvelope this)
     (normalizedVelocity this) x (ratios this) (levelHeadroom this)
     (level this) (feedbackState this) (patch this) (dirty this).
Definition with_ratios (this : t) (x : list Q)
  : t :=
  mk (algorithms this) (sampleRate this) (oneHz this) (a0 this) (gate this)
     (operator this) (operatorEnvelope this) (pitchEnvelope this)
     (normalizedVelocity this) (note this) x (levelHeadroom this)
     (level this) (feedbackState this) (patch this) (dirty this).
Definition with_levelHeadroom (this : t) (x : list Q)
  : t :=
  mk (algorithms this) (sampleRate this) (oneHz this) (a0 this) (gate this)
     (operator this) (operatorEnvelope this) (pitchEnvelope this)
     (normalizedVelocity this) (note this) (ratios this) x (level this)
     (feedbackState this) (patch this) (dirty this).
Definition with_level (this : t) (x : list Q)
  : t :=
  mk (algorithms this) (sampleRate this) (oneHz this) (a0 this) (gate this)
     (operator this) (operatorEnvelope this) (pitchEnvelope this)
     (normalizedVelocity this) (note this) (ratios this)
     (levelHeadroom this) x (feedbackState this) (patch this) (dirty this).
Definition with_feedbackState (this : t) (x : list Q)
  : t :=
  mk (algorithms this) (sampleRate this) (oneHz this) (a0 this) (gate this)
     (operator this) (operatorEnvelope this) (pitchEnvelope this)
     (normalizedVelocity this) (note this) (ratios this)
     (levelHeadroom this) (level this) x (patch this) (dirty this).
Definition with_dirty (this : t) (x : bool)
  : t :=
  mk (algorithms this) (sampleRate this) (oneHz this) (a0 this) (gate this)
     (operator this) (operatorEnvelope this) (pitchEnvelope this)
     (normalizedVelocity this) (note this) (ratios this)
     (levelHeadroom this) (level this) (feedbackState this) (patch this) x.

Section WithPlatform.
Context `{Platform}.

(** [setup()]: the voice after the call, and the returned boolean. *)
Definition setup (this : t) : t * bool :=
  if negb (dirty this) then (this, false)
  else
    let this :=
      with_pitchEnvelope this
        (FmEnvelope.PitchEnvelope.set (pitchEnvelope this)
           (FmPatch.PitchEnvelope.rate
              (FmPatch.Patch.pitchEnvelope (patch this)))
           (FmPatch.PitchEnvelope.level
              (FmPatch.Patch.pitchEnvelope (patch this)))) in
    let this :=
      JS.for_ (Z.to_nat NUM_OPERATORS) (fun i this =>
        let op :=
          default FmPatch.Operator.new
            (FmPatch.Patch.op (patch this) !! Z.to_nat i) in
        let level := DxUnits.operatorLevel (FmPatch.Operator.level op) in
        let this :=
          with_operatorEnvelope this
            (alter (fun e =>
               FmEnvelope.OperatorEnvelope.set e
                 (FmPatch.OpEnvelope.rate (FmPatch.Operator.envelope op))
                 (FmPatch.OpEnvelope.level (FmPatch.Operator.envelope op))
                 level) (Z.to_nat i) (operatorEnvelope this)) in
        let this :=
          with_levelHeadroom this
            (JS.set (levelHeadroom this) i
               (JS.fround (inject_Z (127 - level)))) in
        let sign :=
          if (FmPatch.Operator.mode op =? 0)%Z then 1.0 else -1.0 in
        with_ratios this
          (JS.set (ratios this) i
             (JS.fround (sign * DxUnits.frequencyRatio op))))
        this in
    let this := with_dirty this false in
    (this, true).

Definition new (patch : FmPatch.Patch.t) (sampleRate : Q) : t :=
  let oneHz := JS.fl64 (1.0 / sampleRate) in
  let this :=
    mk FmAlgorithms.Algorithms.new sampleRate oneHz
       (JS.fl64 (55.0 / sampleRate))
       false
       (replicate (Z.to_nat NUM_OPERATORS) FmOperator.Operator.new)
       (replicate (Z.to_nat NUM_OPERATORS) FmEnvelope.OperatorEnvelope.new)
       FmEnvelope.PitchEnvelope.new 10.0 48.0
       (replicate (Z.to_nat NUM_OPERATORS) 0.0)
       (replicate (Z.to_nat NUM_OPERATORS) 0.0)
       (replicate (Z.to_nat NUM_OPERATORS) 0.0)
       [0.0; 0.0] patch true in
  let nativeSr := 44100.0 in
  let envelopeScale := JS.fl64 (nativeSr * oneHz) in
  let this :=
    JS.for_ (Z.to_nat NUM_OPERATORS) (fun i this =>
      let this :=
        with_operator this
          (alter FmOperator.Operator.reset (Z.to_nat i) (operator this)) in
      with_operatorEnvelope this
        (alter (fun e => FmEnvelope.OperatorEnvelope.init e envelopeScale)
           (Z.to_nat i) (operatorEnvelope this))) this in
  let this :=
    with_pitchEnvelope this
      (FmEnvelope.PitchEnvelope.init (pitchEnvelope this) envelopeScale) in
  fst (setup this).

Definition opLevel (this : t) (i : Z) : Q := JS.get (level this) i.

(** The operator loop of [renderInternal]: operator [i] gets its target
    frequency [f[i]] and amplitude [a[i]], and its envelope advances. *)
Definition operatorTargets (parameters : Parameters.t)
    (envelopeRate adScale rScale envelopeSample gateDuration f0 : Q)
    (i : Z) (s : t * list Q * list Q) : t * list Q * list Q :=
  let '(this, f, a) := s in
  let op :=
    default FmPatch.Operator.new
      (FmPatch.Patch.op (patch this) !! Z.to_nat i) in
  let f :=
    JS.set f i
      (JS.fround
         (JS.fl64
            (JS.get (ratios this) i
             * (if JS.Qltb (JS.get (ratios this) i) 0.0
                then - oneHz this else f0)))) in
  let rateScalingVal :=
    DxUnits.rateScaling (note this) (FmPatch.Operator.rateScaling op) in
  let env :=
    default FmEnvelope.OperatorEnvelope.new
      (operatorEnvelope this !! Z.to_nat i) in
  let '(env, level) :=
    if Parameters.sustain parameters
    then (env,
          FmEnvelope.OperatorEnvelope.renderAtSample env envelopeSample
            gateDuration)
    else FmEnvelope.OperatorEnvelope.renderScaled env
           (Parameters.gate parameters) (envelopeRate * rateScalingVal)
           adScale rScale in
  let this :=
    with_operatorEnvelope this
      (<[Z.to_nat i := env]> (operatorEnvelope this)) in
  let kbScaling :=
    DxUnits.keyboardScaling (note this)
      (FmPatch.Operator.keyboardScaling op) in
  let velocityScaling :=
    normalizedVelocity this
    * inject_Z (FmPatch.Operator.velocitySensitivity op) in
  let brightness :=
    if FmAlgorithms.Algorithms.isModulator (algorithms this)
         (FmPatch.Patch.algorithm (patch this)) i
    then (Parameters.brightness parameters - 0.5) * 32.0
    else 0.0 in
  let levelAdjusted :=
    level
    + 0.125 * JS.min (kbScaling + velocityScaling + brightness)
                (JS.get (levelHeadroom this) i) in
  let this :=
    with_level this
      (JS.set (Voice.level this) i (JS.fround levelAdjusted)) in
  let sensitivity :=
    DxUnits.ampModSensitivity (FmPatch.Operator.ampModSensitivity op) in
  let logLevelMod := sensitivity * Parameters.ampMod parameters - 1.0 in
  let levelMod := 1.0 - DxUnits.pow2Fast (6.4 * logLevelMod) 2 in
  let a :=
    JS.set a i
      (JS.fround (DxUnits.pow2Fast (-14.0 + levelAdjusted * levelMod) 2)) in
  (this, f, a).

(** The dispatch loop of [renderInternal]:
    [while (i < NUM_OPERATORS) { ...; i += call.n; }].  [None] is a call
    that does not return: a renderer that finds fewer operators in its slice
    than it renders throws on the missing one (that is the case of the
    default call, with [n = 0]), and otherwise [i] grows and the loop ends
    within [NUM_OPERATORS] rounds, which is the fuel. *)
Fixpoint dispatch (fuel : nat) (f a : list Q)
    (buffers : list FmOperator.View.t) (i : Z) (this : t) (mem : list Q)
  : option (t * list Q) :=
  if (i <? NUM_OPERATORS)%Z then
    match fuel with
    | O => None
    | S fuel' =>
        let call :=
          FmAlgorithms.Algorithms.renderCall (algorithms this)
            (FmPatch.Patch.algorithm (patch this)) i in
        let n := FmAlgorithms.RenderCall.n call in
        let opsSlice := JS.slice (operator this) i (i + n) in
        let fSlice := JS.slice f i (i + n) in
        let aSlice := JS.slice a i (i + n) in
        let view k :=
          default (FmOperator.View.mk 0 0) (buffers !! Z.to_nat k) in
        let inputBuffer := view (FmAlgorithms.RenderCall.inputIndex call) in
        let outputBuffer := view (FmAlgorithms.RenderCall.outputIndex call) in
        let renderFn := FmAlgorithms.RenderCall.renderFn call in
        if (length opsSlice <? FmAlgorithms.N renderFn)%nat then None else
        let r :=
          FmOperator.renderOperators
            (FmAlgorithms.N renderFn)
            (FmAlgorithms.MODULATION_SOURCE renderFn)
            (FmAlgorithms.ADDITIVE renderFn)
            opsSlice fSlice aSlice (feedbackState this)
            (FmPatch.Patch.feedback (patch this)) mem
            inputBuffer outputBuffer in
        (* the slice holds the operator objects of the voice *)
        let operator :=
          JS.for_ (length opsSlice) (fun k operator =>
            match FmOperator.ops' r !! Z.to_nat k with
            | Some o => <[Z.to_nat (i + k) := o]> operator
            | None => operator
            end) (operator this) in
        let this := with_operator this operator in
        let this := with_feedbackState this (FmOperator.fbState' r) in
        dispatch fuel' f a buffers (i + n)%Z this (FmOperator.mem' r)
    end
  else Some (this, mem).

(** [renderInternal(parameters, buffers, size)]: the voice and the backing
    store of the buffers after the call; [None] when the call does not
    return. *)
Definition renderInternal (this : t) (parameters : Parameters.t)
    (buffers : list FmOperator.View.t) (mem : list Q) (size : Z)
  : option (t * list Q) :=
  let '(this, isSetup) := setup this in
  if isSetup then Some (this, mem)
  else
    let envelopeRate := inject_Z size in
    let adScale :=
      DxUnits.pow2Fast
        ((0.5 - Parameters.envelopeControl parameters) * 8.0) 1 in
    let rScale :=
      DxUnits.pow2Fast
        (- JS.abs (Parameters.envelopeControl parameters - 0.3) * 8.0) 1 in
    let gateDuration := 1.5 * sampleRate this in
    let envelopeSample :=
      gateDuration * Parameters.envelopeControl parameters in
    let inputNote :=
      Parameters.note parameters - 24.0
      + inject_Z (FmPatch.Patch.transpose (patch this)) in
    let '(pe, pitchEnvelope) :=
      if Parameters.sustain parameters
      then (pitchEnvelope this,
            FmEnvelope.PitchEnvelope.renderAtSample (pitchEnvelope this)
              envelopeSample gateDuration)
      else FmEnvelope.PitchEnvelope.renderScaled (pitchEnvelope this)
             (Parameters.gate parameters) envelopeRate adScale rScale in
    let this := with_pitchEnvelope this pe in
    let pitchMod := pitchEnvelope + Parameters.pitchMod parameters in
    let f0 :=
      a0 this * 0.25
      * Dsp.semitonesToRatioSafe (inputNote - 9.0 + pitchMod * 12.0) in
    let noteOn := Parameters.gate parameters && negb (gate this) in
    let this := with_gate this (Parameters.gate parameters) in
    let this :=
      if noteOn || Parameters.sustain parameters then
        let this :=
          with_normalizedVelocity this
            (DxUnits.normalizeVelocity (Parameters.velocity parameters)) in
        with_note this inputNote
      else this in
    let this :=
      if noteOn && negb (FmPatch.Patch.resetPhase (patch this) =? 0)%Z then
        JS.for_ (Z.to_nat NUM_OPERATORS) (fun i this =>
          with_operator this
            (alter (fun o =>
               FmOperator.Operator.mk 0 (FmOperator.Operator.amplitude o))
               (Z.to_nat i) (operator this))) this
      else this in
    let f := replicate (Z.to_nat NUM_OPERATORS) 0.0 in
    let a := replicate (Z.to_nat NUM_OPERATORS) 0.0 in
    let '(this, f, a) :=
      JS.for_ (Z.to_nat NUM_OPERATORS)
        (operatorTargets parameters envelopeRate adScale rScale
           envelopeSample gateDuration f0)
        (this, f, a) in
    dispatch (Z.to_nat NUM_OPERATORS) f a buffers 0 this mem.

(** [renderTemp(parameters, temp)]: the three thirds of [temp] are the
    buffers; the last third serves as both scratch buffers. *)
Definition renderTemp (this : t) (parameters : Parameters.t)
    (temp : list Q) : option (t * list Q) :=
  let size := (Z.of_nat (length temp) / 3)%Z in
  let buffers := [
    FmOperator.View.mk 0 size;
    FmOperator.View.mk size size;
    FmOperator.View.mk (size * 2) size;
    FmOperator.View.mk (size * 2) size ] in
  renderInternal this parameters buffers temp size.

(** [renderStereo(parameters, temp, out, aux)].  The three arrays are
    laid out one after the other in one store, [out ++ aux ++ temp], so
    that the four buffers are views of it; [subarray] clamps its bounds to
    the array.  The result is the voice and the three arrays after the
    call. *)
Definition renderStereo (this : t) (parameters : Parameters.t)
    (temp out aux : list Q) : option (t * list Q * list Q * list Q) :=
  let size := Z.of_nat (length out) in
  let auxLength := Z.of_nat (length aux) in
  let tempLength := Z.of_nat (length temp) in
  let subarray (start end_ : Z) :=
    let start := Z.min start tempLength in
    let end_ := Z.min end_ tempLength in
    FmOperator.View.mk (size + auxLength + start) (Z.max (end_ - start) 0)
  in
  let buffers := [
    FmOperator.View.mk 0 size;
    FmOperator.View.mk size auxLength;
    subarray 0%Z size;
    subarray size (size * 2)%Z ] in
  match renderInternal this parameters buffers (out ++ aux ++ temp) size with
  | None => None
  | Some (this, mem) =>
      Some (this,
            drop (length out + length aux) mem,
            take (length out) mem,
            take (length aux) (drop (length out) mem))
  end.

End WithPlatform.
End Voice.

End FmVoice.

(** ** dx7.js *)

Module Dx7.

Definition NUM_OPERATORS : Z := 6.
Definition NUM_ALGORITHMS : Z := 32.

Definition MAX_BLOCK_SIZE : Z := 24.

(** What the loops of [generateSamples] update. *)
Record Gen := mkGen {
  g_voice : FmVoice.Voice.t;
  g_lfo : FmLfo.Lfo.t;
  g_random : Random.t;
  g_parameters : FmVoice.Parameters.t;
  g_output : list Q;
}.

Definition withMods (p : FmVoice.Parameters.t) (pitchMod ampMod : Q)
  : FmVoice.Parameters.t :=
  FmVoice.Parameters.mk (FmVoice.Parameters.sustain p)
    (FmVoice.Parameters.gate p) (FmVoice.Parameters.note p)
    (FmVoice.Parameters.velocity p) (FmVoice.Parameters.brightness p)
    (FmVoice.Parameters.envelopeControl p) pitchMod ampMod.

Definition withGate (p : FmVoice.Parameters.t) (gate : bool)
  : FmVoice.Parameters.t :=
  FmVoice.Parameters.mk (FmVoice.Parameters.sustain p) gate
    (FmVoice.Parameters.note p) (FmVoice.Parameters.velocity p)
    (FmVoice.Parameters.brightness p) (FmVoice.Parameters.envelopeControl p)
    (FmVoice.Parameters.pitchMod p) (FmVoice.Parameters.ampMod p).

Section WithPlatform.
Context `{Platform}.

(** What both loops do first: step the LFO, copy its modulations into the
    parameters, and render one block into a fresh buffer of three times the
    block size.  The result is the buffer after the call. *)
Definition renderBlock (blockSize : Z) (s : Gen) : option (Gen * list Q) :=
  let '(lfo, g) :=
    FmLfo.Lfo.step (g_random s) (g_lfo s) (inject_Z blockSize) in
  let parameters :=
    withMods (g_parameters s) (FmLfo.Lfo.pitchMod lfo)
      (FmLfo.Lfo.ampMod lfo) in
  let buf := replicate (Z.to_nat (blockSize * 3)) 0.0 in
  match FmVoice.Voice.renderTemp (g_voice s) parameters buf with
  | None => None
  | Some (voice, buf) =>
      Some (mkGen voice lfo g parameters (g_output s), buf)
  end.

(** Phase 1: [while (remaining > 0)].  [remaining] drops by at least one
    each round, so [remaining] rounds are enough fuel. *)
Fixpoint gateOn (fuel : nat) (remaining : Z) (s : Gen) : option Gen :=
  if (0 <? remaining)%Z then
    match fuel with
    | O => None
    | S fuel' =>
        let blockSize := Z.min remaining MAX_BLOCK_SIZE in
        match renderBlock blockSize s with
        | None => None
        | Some (s, buf) =>
            let output :=
              JS.for_ (Z.to_nat blockSize) (fun i output =>
                output ++ [JS.get buf i]) (g_output s) in
            gateOn fuel' (remaining - blockSize)%Z
              (mkGen (g_voice s) (g_lfo s) (g_random s)
                 (g_parameters s) output)
        end
    end
  else Some s.

(** Phase 2: [while (true)], left by one of its two [break]s. *)
Fixpoint gateOff (fuel : nat) (sampleRate : Q)
    (silenceThreshold : Q) (silenceDurationSamples : Z)
    (consecutiveSilentSamples : Z) (s : Gen) : option Gen :=
  match fuel with
  | O => None
  | S fuel' =>
      match renderBlock MAX_BLOCK_SIZE s with
      | None => None
      | Some (s, chunk) =>
          let '(consecutiveSilentSamples, output) :=
            JS.for_ (Z.to_nat MAX_BLOCK_SIZE)
              (fun i '(consecutiveSilentSamples, output) =>
                 let sample := JS.get chunk i in
                 let consecutiveSilentSamples :=
                   if JS.Qltb (JS.abs sample) silenceThreshold
                   then (consecutiveSilentSamples + 1)%Z else 0%Z in
                 (consecutiveSilentSamples, output ++ [sample]))
              (consecutiveSilentSamples, g_output s) in
          if (silenceDurationSamples <=? consecutiveSilentSamples)%Z then
            let truncateTo :=
              Z.max 0
                (Z.of_nat (length output)
                 - (consecutiveSilentSamples - silenceDurationSamples)) in
            let output := take (Z.to_nat truncateTo) output in
            Some (mkGen (g_voice s) (g_lfo s) (g_random s)
                 (g_parameters s) output)
          else if JS.Qgtb (inject_Z (Z.of_nat (length output)))
                    (sampleRate * 10)
          then Some (mkGen (g_voice s) (g_lfo s) (g_random s)
                 (g_parameters s) output)
          else
            gateOff fuel' sampleRate silenceThreshold silenceDurationSamples
              consecutiveSilentSamples
              (mkGen (g_voice s) (g_lfo s) (g_random s)
                 (g_parameters s) output)
      end
  end.

(** [generateSamples(patch, midiNote, sampleRate, durationMs)], run with the
    generator state [g]: the samples and the generator state it leaves.
    Each round of phase 2 adds 24 samples, so the second [break] is reached
    within [sampleRate * 10 / 24 + 1] rounds. *)
Definition generateSamples (g : Random.t) (patch : FmPatch.Patch.t)
    (midiNote sampleRate durationMs : Q) : option (list Q * Random.t) :=
  let nSamples := Qfloor (durationMs / 1000 * sampleRate) in
  let silenceThreshold := 0.0001 in
  let silenceDurationSamples := Qfloor (sampleRate * 100 / 1000) in
  let voice := FmVoice.Voice.new patch sampleRate in
  let lfo := FmLfo.Lfo.new in
  let lfo := FmLfo.Lfo.init lfo sampleRate in
  let lfo := FmLfo.Lfo.set lfo (FmPatch.Patch.modulations patch) in
  let lfo := FmLfo.Lfo.reset lfo in
  let output := [] in
  let parameters :=
    FmVoice.Parameters.mk false true midiNote 1.0 0.5 0.5 0.0 0.0 in
  let remaining := nSamples in
  match gateOn (Z.to_nat remaining) remaining
          (mkGen voice lfo g parameters output) with
  | None => None
  | Some s =>
      let s :=
        mkGen (g_voice s) (g_lfo s) (g_random s) (withGate (g_parameters s) false)
          (g_output s) in
      let consecutiveSilentSamples := 0%Z in
      match gateOff (Z.to_nat (Qfloor (sampleRate * 10) / 24 + 2))
              sampleRate silenceThreshold silenceDurationSamples
              consecutiveSilentSamples s with
      | None => None
      | Some s => Some (g_output s, g_random s)
      end
  end.

End WithPlatform.
End Dx7.

(** ** tv7.js

The functions that build the WAV file.  A [DataView] over an
[ArrayBuffer] is the list of the bytes of the buffer; a write outside the
buffer throws a [RangeError], which is [None] here.  [setFloat32] stores
the IEEE 754 binary32 value nearest to its argument; the development
does not compute it: [float32Bits], the bit pattern of that value as an
unsigned 32-bit integer, is a parameter. *)

Module Tv7.

Definition allowedSymbols : list Z :=
  [126; 33; 64; 35; 36; 37; 94; 38; 40; 41; 95; 43; 45; 61; 32]%Z.

Definition allowedLetters : list Z :=
  [229; 223; 228; 246; 252; 230; 248; 231; 241; 197; 7838; 196; 214; 220;
   198; 216; 199; 209]%Z.

(** [array.includes(c)] *)
Definition includes (array : list Z) (c : Z) : bool :=
  existsb (Z.eqb c) array.

(** The predicate of the [filter] of [tonverkSanitize]. *)
Definition isAllowed (c : Z) : bool :=
  let code := c in
  let isAsciiAlphanumeric :=
    ((48 <=? code) && (code <=? 57) || (65 <=? code) && (code <=? 90)
     || (97 <=? code) && (code <=? 122))%Z in
  isAsciiAlphanumeric || includes allowedSymbols c
  || includes allowedLetters c.

Definition tonverkSanitize (input : list Z) : list Z :=
  JS.trim (List.filter isAllowed input).

(** The bytes of [v], the least significant first. *)
Definition littleEndian (bytes : nat) (v : Z) : list Z :=
  map (fun k => (v / 256 ^ Z.of_nat k) mod 256)%Z (seq 0 bytes).

(** A write of [bytes] at [offset], in range or a [RangeError]. *)
Definition setBytes (view : list Z) (offset : Z) (bytes : list Z)
  : option (list Z) :=
  if ((0 <=? offset)
      && (offset + Z.of_nat (length bytes) <=? Z.of_nat (length view)))%Z
  then Some (take (Z.to_nat offset) view ++ bytes
             ++ drop (Z.to_nat offset + length bytes) view)
  else None.

Definition setUint8 (view : list Z) (offset v : Z) : option (list Z) :=
  setBytes view offset (littleEndian 1 (v mod 256)).

(** [view.setUint16(offset, v, true)] *)
Definition setUint16 (view : list Z) (offset v : Z) : option (list Z) :=
  setBytes view offset (littleEndian 2 (v mod 65536)).

(** [view.setUint32(offset, v, true)] *)
Definition setUint32 (view : list Z) (offset v : Z) : option (list Z) :=
  setBytes view offset (littleEndian 4 (JS.ToUint32Z v)).

Definition writeString (view : list Z) (offset : Z) (string : list Z)
  : option (list Z) :=
  JS.for_ (length string) (fun i r =>
    match r with
    | Some view => setUint8 view (offset + i) (JS.getZ string i)
    | None => None
    end) (Some view).

Definition RIFF : list Z := [82; 73; 70; 70]%Z.
Definition WAVE : list Z := [87; 65; 86; 69]%Z.
Definition fmt_ : list Z := [102; 109; 116; 32]%Z.
Definition data : list Z := [100; 97; 116; 97]%Z.

Section WithEncoding.
Variable float32Bits : Q -> Z.

(** [view.setFloat32(offset, x, true)] *)
Definition setFloat32 (view : list Z) (offset : Z) (x : Q)
  : option (list Z) :=
  setUint32 view offset (float32Bits x).

(** The sample loops of [generateWav] for one pitch buffer: its samples,
    then zeros up to [maxLength]; the state is the view and the offset. *)
Definition writeBuffer (maxLength : Z) (pitchBuffer : list Q)
    (s : option (list Z * Z)) : option (list Z * Z) :=
  let s :=
    JS.for_ (length pitchBuffer) (fun i s =>
      match s with
      | Some (view, offset) =>
          match setFloat32 view offset (JS.get pitchBuffer i) with
          | Some view => Some (view, (offset + 4)%Z)
          | None => None
          end
      | None => None
      end) s in
  JS.for_ (Z.to_nat (maxLength - Z.of_nat (length pitchBuffer)))
    (fun _ s =>
      match s with
      | Some (view, offset) =>
          match setFloat32 view offset 0.0 with
          | Some view => Some (view, (offset + 4)%Z)
          | None => None
          end
      | None => None
      end) s.

(** [generateWav(pitchBuffers, sampleRate)].  Without any buffer
    [Math.max()] is [-Infinity], the sizes are [NaN], the [ArrayBuffer]
    is empty and the first write throws.  The limit on the size of an
    [ArrayBuffer] is not modelled. *)
Definition generateWav (pitchBuffers : list (list Q)) (sampleRate : Q)
  : option (list Z) :=
  match pitchBuffers with
  | [] => None
  | first :: others =>
      let maxLength :=
        fold_left Z.max (map (fun buf => Z.of_nat (length buf)) others)
          (Z.of_nat (length first)) in
      let totalSamples := (maxLength * Z.of_nat (length pitchBuffers))%Z in
      let dataSize := (totalSamples * 4)%Z in
      let fileSize := (44 + dataSize)%Z in
      let view := replicate (Z.to_nat fileSize) 0%Z in
      view ← writeString view 0 RIFF;
      view ← setUint32 view 4 (fileSize - 8);
      view ← writeString view 8 WAVE;
      view ← writeString view 12 fmt_;
      view ← setUint32 view 16 16;
      view ← setUint16 view 20 3;
      view ← setUint16 view 22 1;
      view ← setUint32 view 24 (JS.ToUint32 sampleRate);
      view ← setUint32 view 28 (JS.ToUint32 (sampleRate * 4));
      view ← setUint16 view 32 4;
      view ← setUint16 view 34 32;
      view ← writeString view 36 data;
      view ← setUint32 view 40 dataSize;
      let offset := 44%Z in
      s ← fold_left (fun s pitchBuffer => writeBuffer maxLength pitchBuffer s)
            pitchBuffers (Some (view, offset));
      Some (fst s)
  end.

End WithEncoding.

(** The normalisation loops of [generateMultisample] on one buffer, a
    Float32Array: the peak, then the scaling by [0.8 / peak] when the peak
    is above 0.8.  The literal [0.8] is the double nearest to 0.8; the
    quotient and the products are binary64 operations, and the store rounds
    to binary32. *)
Definition normalize (buf : list Q) : list Q :=
  let peak :=
    JS.for_ (length buf) (fun i peak =>
      let abs := JS.abs (JS.get buf i) in
      if JS.Qgtb abs peak then abs else peak) 0.0 in
  let normalizeFactor :=
    if JS.Qgtb peak (JS.fl64 0.8)
    then JS.fl64 (JS.fl64 0.8 / peak) else 1.0 in
  JS.for_ (length buf) (fun i buf =>
    JS.set buf i (JS.fround (JS.fl64 (JS.get buf i * normalizeFactor))))
    buf.

(** A key zone: [{ pitch, start, end }]. *)
Record Zone := mkZone { pitch : Z; start : Z; end_ : Z }.

(** The zone loop of [generateMultisample]: one zone of [maxLength]
    samples for each pitch, one after the other. *)
Definition zonesOf (sortedPitches : list Z) (maxLength : Z) : list Zone :=
  fst (fold_left (fun '(zones, runningSampleCount) pitch =>
         let start := runningSampleCount in
         let end_ := (start + maxLength)%Z in
         (zones ++ [mkZone pitch start end_], end_))
       sortedPitches ([], 0%Z)).

End Tv7.

(** ** Concrete instances

    The inputs at which the theorems below are evaluated. *)

Module Examples.

(** Modelled from the spec: the sine table of stmlib/sine_lut.js, which is
    not among the sources.  The specification describes "a 513-entry sine
    table (512 samples + wrap duplicate)"; entry [i] is sin(2 pi i / 512),
    given here in units of 10^-9. *)
Definition LUT_SINE_nano : list Z := [
  0; 12271538; 24541229; 36807223; 49067674; 61320736;
  73564564; 85797312; 98017140; 110222207; 122410675; 134580709;
  146730474; 158858143; 170961889; 183039888; 195090322; 207111376;
  219101240; 231058108; 242980180; 254865660; 266712757; 278519689;
  290284677; 302005949; 313681740; 325310292; 336889853; 348418680;
  359895037; 371317194; 382683432; 393992040; 405241314; 416429560;
  427555093; 438616239; 449611330; 460538711; 471396737; 482183772;
  492898192; 503538384; 514102744; 524589683; 534997620; 545324988;
  555570233; 565731811; 575808191; 585797857; 595699304; 605511041;
  615231591; 624859488; 634393284; 643831543; 653172843; 662415778;
  671558955; 680600998; 689540545; 698376249; 707106781; 715730825;
  724247083; 732654272; 740951125; 749136395; 757208847; 765167266;
  773010453; 780737229; 788346428; 795836905; 803207531; 810457198;
  817584813; 824589303; 831469612; 838224706; 844853565; 851355193;
  857728610; 863972856; 870086991; 876070094; 881921264; 887639620;
  893224301; 898674466; 903989293; 909167983; 914209756; 919113852;
  923879533; 928506080; 932992799; 937339012; 941544065; 945607325;
  949528181; 953306040; 956940336; 960430519; 963776066; 966976471;
  970031253; 972939952; 975702130; 978317371; 980785280; 983105487;
  985277642; 987301418; 989176510; 990902635; 992479535; 993906970;
  995184727; 996312612; 997290457; 998118113; 998795456; 999322385;
  999698819; 999924702; 1000000000; 999924702; 999698819; 999322385;
  998795456; 998118113; 997290457; 996312612; 995184727; 993906970;
  992479535; 990902635; 989176510; 987301418; 985277642; 983105487;
  980785280; 978317371; 975702130; 972939952; 970031253; 966976471;
  963776066; 960430519; 956940336; 953306040; 949528181; 945607325;
  941544065; 937339012; 932992799; 928506080; 923879533; 919113852;
  914209756; 909167983; 903989293; 898674466; 893224301; 887639620;
  881921264; 876070094; 870086991; 863972856; 857728610; 851355193;
  844853565; 838224706; 831469612; 824589303; 817584813; 810457198;
  803207531; 795836905; 788346428; 780737229; 773010453; 765167266;
  757208847; 749136395; 740951125; 732654272; 724247083; 715730825;
  707106781; 698376249; 689540545; 680600998; 671558955; 662415778;
  653172843; 643831543; 634393284; 624859488; 615231591; 605511041;
  595699304; 585797857; 575808191; 565731811; 555570233; 545324988;
  534997620; 524589683; 514102744; 503538384; 492898192; 482183772;
  471396737; 460538711; 449611330; 438616239; 427555093; 416429560;
  405241314; 393992040; 382683432; 371317194; 359895037; 348418680;
  336889853; 325310292; 313681740; 302005949; 290284677; 278519689;
  266712757; 254865660; 242980180; 231058108; 219101240; 207111376;
  195090322; 183039888; 170961889; 158858143; 146730474; 134580709;
  122410675; 110222207; 98017140; 85797312; 73564564; 61320736;
  49067674; 36807223; 24541229; 12271538; 0; (-12271538);
  (-24541229); (-36807223); (-49067674); (-61320736); (-73564564); (-85797312);
  (-98017140); (-110222207); (-122410675); (-134580709); (-146730474); (-158858143);
  (-170961889); (-183039888); (-195090322); (-207111376); (-219101240); (-231058108);
  (-242980180); (-254865660); (-266712757); (-278519689); (-290284677); (-302005949);
  (-313681740); (-325310292); (-336889853); (-348418680); (-359895037); (-371317194);
  (-382683432); (-393992040); (-405241314); (-416429560); (-427555093); (-438616239);
  (-449611330); (-460538711); (-471396737); (-482183772); (-492898192); (-503538384);
  (-514102744); (-524589683); (-534997620); (-545324988); (-555570233); (-565731811);
  (-575808191); (-585797857); (-595699304); (-605511041); (-615231591); (-624859488);
  (-634393284); (-643831543); (-653172843); (-662415778); (-671558955); (-680600998);
  (-689540545); (-698376249); (-707106781); (-715730825); (-724247083); (-732654272);
  (-740951125); (-749136395); (-757208847); (-765167266); (-773010453); (-780737229);
  (-788346428); (-795836905); (-803207531); (-810457198); (-817584813); (-824589303);
  (-831469612); (-838224706); (-844853565); (-851355193); (-857728610); (-863972856);
  (-870086991); (-876070094); (-881921264); (-887639620); (-893224301); (-898674466);
  (-903989293); (-909167983); (-914209756); (-919113852); (-923879533); (-928506080);
  (-932992799); (-937339012); (-941544065); (-945607325); (-949528181); (-953306040);
  (-956940336); (-960430519); (-963776066); (-966976471); (-970031253); (-972939952);
  (-975702130); (-978317371); (-980785280); (-983105487); (-985277642); (-987301418);
  (-989176510); (-990902635); (-992479535); (-993906970); (-995184727); (-996312612);
  (-997290457); (-998118113); (-998795456); (-999322385); (-999698819); (-999924702);
  (-1000000000); (-999924702); (-999698819); (-999322385); (-998795456); (-998118113);
  (-997290457); (-996312612); (-995184727); (-993906970); (-992479535); (-990902635);
  (-989176510); (-987301418); (-985277642); (-983105487); (-980785280); (-978317371);
  (-975702130); (-972939952); (-970031253); (-966976471); (-963776066); (-960430519);
  (-956940336); (-953306040); (-949528181); (-945607325); (-941544065); (-937339012);
  (-932992799); (-928506080); (-923879533); (-919113852); (-914209756); (-909167983);
  (-903989293); (-898674466); (-893224301); (-887639620); (-881921264); (-876070094);
  (-870086991); (-863972856); (-857728610); (-851355193); (-844853565); (-838224706);
  (-831469612); (-824589303); (-817584813); (-810457198); (-803207531); (-795836905);
  (-788346428); (-780737229); (-773010453); (-765167266); (-757208847); (-749136395);
  (-740951125); (-732654272); (-724247083); (-715730825); (-707106781); (-698376249);
  (-689540545); (-680600998); (-671558955); (-662415778); (-653172843); (-643831543);
  (-634393284); (-624859488); (-615231591); (-605511041); (-595699304); (-585797857);
  (-575808191); (-565731811); (-555570233); (-545324988); (-534997620); (-524589683);
  (-514102744); (-503538384); (-492898192); (-482183772); (-471396737); (-460538711);
  (-449611330); (-438616239); (-427555093); (-416429560); (-405241314); (-393992040);
  (-382683432); (-371317194); (-359895037); (-348418680); (-336889853); (-325310292);
  (-313681740); (-302005949); (-290284677); (-278519689); (-266712757); (-254865660);
  (-242980180); (-231058108); (-219101240); (-207111376); (-195090322); (-183039888);
  (-170961889); (-158858143); (-146730474); (-134580709); (-122410675); (-110222207);
  (-98017140); (-85797312); (-73564564); (-61320736); (-49067674); (-36807223);
  (-24541229); (-12271538); 0 ]%Z.

(** The platform the concrete evaluations run on: the table above, and a
    stand-in for [Math.pow(2, x)] that is exact when [x] is an integer (the
    evaluations below only use its value at integers). *)
Definition platform : Platform := {|
  LUT_SINE := map (fun n => n # 1000000000) LUT_SINE_nano;
  Math_pow2 := fun x => Qpower 2 (Qfloor x);
|}.

(** A stubbed generator that returns [r] at every draw. *)
Definition stub (r : Q) : Random.t := Random.mk (fun _ => r) 0.

(** The 17 bytes of an operator in fixed-frequency mode (byte 15, bit 0),
    coarse 0, fine 0, detune 7 (1 Hz), output level 99, amp-mod
    sensitivity 3, all envelope rates 99 and levels 99, 99, 99, 0. *)
Definition fixedOperatorBytes : list Z :=
  [99; 99; 99; 99; 99; 99; 99; 0; 0; 0; 0; 0; 56; 3; 99; 1; 0]%Z.

(** A packed voice: six such operators, a flat pitch envelope, algorithm
    31, no feedback, LFO rate 99, delay 0, amp-mod depth 99, waveform 5
    (sample and hold), transpose 24, name "FIXED     ". *)
Definition fixedVoiceBytes : list Z :=
  (fixedOperatorBytes ++ fixedOperatorBytes ++ fixedOperatorBytes
   ++ fixedOperatorBytes ++ fixedOperatorBytes ++ fixedOperatorBytes
   ++ [99; 99; 99; 99; 50; 50; 50; 50; 31; 0; 99; 0; 0; 99; 10; 24]
   ++ [70; 73; 88; 69; 68; 32; 32; 32; 32; 32])%Z.

Definition patchOf (r : result FmPatch.Patch.t) : FmPatch.Patch.t :=
  match r with
  | Ok p => p
  | Throw _ => FmPatch.Patch.new
  end.

Definition fixedPatch : FmPatch.Patch.t :=
  patchOf (FmPatch.Patch.fromBytes fixedVoiceBytes).

(** A packed voice of zero bytes, except byte 116, which is 0x80. *)
Definition highBitVoiceBytes : list Z :=
  (replicate 116 0 ++ [0x80] ++ replicate 11 0)%Z.

(** The voice of the fixed-frequency patch at 44100 Hz, and the arguments
    the operator loop gets in its first block of 24 samples at note 60. *)
Definition fixedVoice : FmVoice.Voice.t :=
  @FmVoice.Voice.new platform fixedPatch 44100.

Definition fixedParameters : FmVoice.Parameters.t :=
  FmVoice.Parameters.mk false true 60 1.0 0.5 0.5 0.0 0.0.

Definition fixedTargets : FmVoice.Voice.t * list Q * list Q :=
  @FmVoice.Voice.operatorTargets platform fixedParameters
    24 1 1 33075 66150 1 0
    (fixedVoice, replicate 6 0.0, replicate 6 0.0).

(** The LFO of the fixed-frequency patch, as [generateSamples] sets it up
    at 44100 Hz, and after 76 blocks of 24 samples and one of 17: the phase
    is then 0.9989, and a step of two more samples takes it past 1 and
    draws a random value. *)
Definition lfoStart : FmLfo.Lfo.t :=
  FmLfo.Lfo.reset
    (FmLfo.Lfo.set (FmLfo.Lfo.init FmLfo.Lfo.new 44100)
       (FmPatch.Patch.modulations fixedPatch)).

Definition lfoRunning : FmLfo.Lfo.t :=
  fst (@FmLfo.Lfo.step platform (stub 0)
         (Nat.iter 76 (fun l => fst (@FmLfo.Lfo.step platform (stub 0) l 24))
            lfoStart) 17).

(** A new voice for the fixed-frequency patch, the running LFO, and a
    generator whose next value is [r]. *)
Definition blockStart (r : Q) : Dx7.Gen :=
  Dx7.mkGen fixedVoice lfoRunning (stub r) fixedParameters [].

(** A generator that has returned 0 five times and returns [r] from now
    on: as [stub r], but with another past. *)
Definition replayed (r : Q) : Random.t :=
  Random.mk (fun n => if (n <? 5)%nat then 0 else r) 5.

Definition replayedStart (r : Q) : Dx7.Gen :=
  Dx7.mkGen fixedVoice lfoRunning (replayed r) fixedParameters [].

(** The state [generateSamples] starts from for the default patch at
    44100 Hz and note 60, with a generator whose next value is [r]. *)
Definition defaultStart (r : Q) : Dx7.Gen :=
  Dx7.mkGen (@FmVoice.Voice.new platform FmPatch.Patch.new 44100)
    (FmLfo.Lfo.reset
       (FmLfo.Lfo.set (FmLfo.Lfo.init FmLfo.Lfo.new 44100)
          (FmPatch.Patch.modulations FmPatch.Patch.new)))
    (stub r) fixedParameters [].

(** An envelope as the operator envelopes are built, and a dirty voice. *)
Definition newEnvelope : FmEnvelope.Envelope.t :=
  FmEnvelope.Envelope.new 4 true.

Definition dirtyVoice : FmVoice.Voice.t :=
  FmVoice.Voice.with_dirty fixedVoice true.

(** The loop state of a chain of two operators with phases 5 and
    2^32 - 6. *)
Definition twoPhases : FmOperator.Loop :=
  FmOperator.mkLoop [5; 4294967290]%Z [0.0; 0.0] 0.0 0.0 0 [0.0; 0.0].

(** A bank: the header, 32 times the fixed-frequency voice, a checksum
    byte and the end of the message. *)
Definition fixedBankBytes : list Z :=
  FmPatch.HEADER_BANK ++ concat (replicate 32 fixedVoiceBytes)
  ++ [0; 247]%Z.

Definition fixedBank : FmPatch.PatchBank.t :=
  match FmPatch.PatchBank.new fixedBankBytes with
  | Ok bank => bank
  | Throw _ => FmPatch.PatchBank.mk []
  end.

(** The binary32 bit patterns of the samples of the examples: 0, 1/2, 1
    and their opposites (any other sample is given the pattern of 0). *)
Definition float32Bits (x : Q) : Z :=
  if Qeq_bool x 1 then 1065353216%Z
  else if Qeq_bool x (1 # 2) then 1056964608%Z
  else if Qeq_bool x (-1) then 3212836864%Z
  else if Qeq_bool x (- (1 # 2)) then 3204448256%Z
  else 0%Z.

End Examples.

(** ** Vocabulary of the statements *)

Module Spec.

(** The part of an envelope that rendering advances: its stage, the phase
    within the stage and the start-level snapshot. *)
Definition envelopeProgress (e : FmEnvelope.Envelope.t) : Z * Q * Q :=
  (FmEnvelope.Envelope.stage e, FmEnvelope.Envelope.phase e,
   FmEnvelope.Envelope.start e).

Definition operatorEnvelopeProgress (e : FmEnvelope.OperatorEnvelope.t)
  : Z * Q * Q :=
  envelopeProgress (FmEnvelope.OperatorEnvelope.envelope e).

(** What [setup()] leaves alone. *)
Definition setupFrame (this this' : FmVoice.Voice.t) : Prop :=
  FmVoice.Voice.operator this' = FmVoice.Voice.operator this
  /\ FmVoice.Voice.feedbackState this' = FmVoice.Voice.feedbackState this
  /\ FmVoice.Voice.level this' = FmVoice.Voice.level this
  /\ FmVoice.Voice.gate this' = FmVoice.Voice.gate this
  /\ FmVoice.Voice.note this' = FmVoice.Voice.note this
  /\ FmVoice.Voice.normalizedVelocity this'
     = FmVoice.Voice.normalizedVelocity this
  /\ FmVoice.Voice.patch this' = FmVoice.Voice.patch this
  /\ operatorEnvelopeProgress <$> FmVoice.Voice.operatorEnvelope this'
     = operatorEnvelopeProgress <$> FmVoice.Voice.operatorEnvelope this
  /\ envelopeProgress
       (FmEnvelope.PitchEnvelope.envelope (FmVoice.Voice.pitchEnvelope this'))
     = envelopeProgress
         (FmEnvelope.PitchEnvelope.envelope
            (FmVoice.Voice.pitchEnvelope this)).

(** What decoding the 32 voices of a bank gives: voice [idx] is decoded
    from the bytes [6 + 128 idx .. 6 + 128 idx + 127]. *)
Definition decodedFrom (data : list Z) (idx : nat) (patch : FmPatch.Patch.t)
  : Prop :=
  FmPatch.Patch.fromBytes
    (JS.slice (JS.sliceFrom data 6) (Z.of_nat idx * FmPatch.SYX_SIZE)
       ((Z.of_nat idx + 1) * FmPatch.SYX_SIZE)) = Ok patch.

(** One call of [renderScaled]: its four arguments. *)
Record RenderArgs := mkRenderArgs {
  gate : bool;
  rate : Q;
  adScale : Q;
  releaseScale : Q;
}.

(** The envelope after a sequence of [renderScaled] calls. *)
Definition renderMany (e : FmEnvelope.Envelope.t) (calls : list RenderArgs)
  : FmEnvelope.Envelope.t :=
  fold_left (fun e c =>
    fst (FmEnvelope.Envelope.renderScaled e (gate c) (rate c) (adScale c)
           (releaseScale c))) calls e.

Definition lastStage (e : FmEnvelope.Envelope.t) : Z :=
  (FmEnvelope.Envelope.numStages e - 1)%Z.

Definition stageInRange (e : FmEnvelope.Envelope.t) : Prop :=
  (0 <= FmEnvelope.Envelope.stage e <= lastStage e)%Z.

(** The per-sample phase update of the chain renderer,
    [phase[i] = (phase[i] + frequency[i]) >>> 0], on one cell. *)
Definition phaseUpdate (phase increment : Z) : Z :=
  JS.ToUint32Z (phase + increment).

(** The amplitude ramp of the chain renderer on one cell of its
    Float32Arrays: the increment that [renderOperators] computes for a
    block of [size] samples, and the per-sample update
    [amplitude[i] += amplitudeIncrement[i]]. *)
Definition amplitudeIncrement (a amplitude : Q) (size : Z) : Q :=
  JS.fround
    (JS.fl64
       (JS.fl64 (JS.min a 4.0 - amplitude) * JS.fl64 (1.0 / inject_Z size))).

Definition amplitudeStep (increment amplitude : Q) : Q :=
  JS.fround (JS.fl64 (amplitude + increment)).

(** The reference accumulation: a 64-bit unsigned accumulator, truncated
    to 32 bits at the end. *)
Definition two64 : Z := 18446744073709551616.

Definition accumulate64 (p : Z) (increments : list Z) : Z :=
  fold_left (fun acc i => ((acc + i) mod two64)%Z) increments p.

Definition truncate32 (x : Z) : Z := (x mod JS.two32)%Z.

Definition sumZ (l : list Z) : Z := fold_right Z.add 0%Z l.

(** The documented ranges of the decoded fields. *)
Definition within (lo hi : Z) (x : Z) : Prop := (lo <= x <= hi)%Z.

Definition operatorInRange (o : FmPatch.Operator.t) : Prop :=
  Forall (within 0 99) (FmPatch.OpEnvelope.rate (FmPatch.Operator.envelope o))
  /\ Forall (within 0 99)
       (FmPatch.OpEnvelope.level (FmPatch.Operator.envelope o))
  /\ within 0 99
       (FmPatch.KeyboardScaling.breakPoint
          (FmPatch.Operator.keyboardScaling o))
  /\ within 0 99
       (FmPatch.KeyboardScaling.leftDepth (FmPatch.Operator.keyboardScaling o))
  /\ within 0 99
       (FmPatch.KeyboardScaling.rightDepth
          (FmPatch.Operator.keyboardScaling o))
  /\ within 0 3
       (FmPatch.KeyboardScaling.leftCurve (FmPatch.Operator.keyboardScaling o))
  /\ within 0 3
       (FmPatch.KeyboardScaling.rightCurve
          (FmPatch.Operator.keyboardScaling o))
  /\ within 0 7 (FmPatch.Operator.rateScaling o)
  /\ within 0 3 (FmPatch.Operator.ampModSensitivity o)
  /\ within 0 7 (FmPatch.Operator.velocitySensitivity o)
  /\ within 0 99 (FmPatch.Operator.level o)
  /\ within 0 1 (FmPatch.Operator.mode o)
  /\ within 0 31 (FmPatch.Operator.coarse o)
  /\ within 0 99 (FmPatch.Operator.fine o)
  /\ within 0 14 (FmPatch.Operator.detune o).

(** Every field of a patch but the pitch-mod sensitivity. *)
Definition patchInRange (p : FmPatch.Patch.t) : Prop :=
  length (FmPatch.Patch.op p) = 6%nat
  /\ Forall operatorInRange (FmPatch.Patch.op p)
  /\ Forall (within 0 99)
       (FmPatch.PitchEnvelope.rate (FmPatch.Patch.pitchEnvelope p))
  /\ Forall (within 0 99)
       (FmPatch.PitchEnvelope.level (FmPatch.Patch.pitchEnvelope p))
  /\ within 0 31 (FmPatch.Patch.algorithm p)
  /\ within 0 7 (FmPatch.Patch.feedback p)
  /\ within 0 1 (FmPatch.Patch.resetPhase p)
  /\ within 0 99
       (FmPatch.ModulationParameters.rate (FmPatch.Patch.modulations p))
  /\ within 0 99
       (FmPatch.ModulationParameters.delay (FmPatch.Patch.modulations p))
  /\ within 0 99
       (FmPatch.ModulationParameters.pitchModDepth
          (FmPatch.Patch.modulations p))
  /\ within 0 99
       (FmPatch.ModulationParameters.ampModDepth
          (FmPatch.Patch.modulations p))
  /\ within 0 1
       (FmPatch.ModulationParameters.resetPhase (FmPatch.Patch.modulations p))
  /\ within 0 5
       (FmPatch.ModulationParameters.waveform (FmPatch.Patch.modulations p))
  /\ within 0 48 (FmPatch.Patch.transpose p)
  /\ length (FmPatch.Patch.name p) = 10%nat
  /\ Forall (within 0 127) (FmPatch.Patch.name p)
  /\ FmPatch.Patch.activeOperators p = 63%Z.

(** The walk of the dispatch loop over the call plan of an algorithm, on
    the plan alone: every call it reaches renders no more operators than
    its slice of the six operators holds, and the walk ends. *)
Fixpoint planWalks (fuel : nat) (this : FmAlgorithms.Algorithms.t)
    (algorithm i : Z) : bool :=
  if (i <? FmVoice.NUM_OPERATORS)%Z then
    match fuel with
    | O => false
    | S fuel' =>
        let call := FmAlgorithms.Algorithms.renderCall this algorithm i in
        let n := FmAlgorithms.RenderCall.n call in
        (FmAlgorithms.N (FmAlgorithms.RenderCall.renderFn call)
         <=? length (JS.slice (replicate 6 tt) i (i + n)))%nat
        && planWalks fuel' this algorithm (i + n)%Z
    end
  else true.

(** The calls the dispatch loop reaches for an algorithm, each with the
    index of the first operator of its chain. *)
Fixpoint callsReached (fuel : nat) (this : FmAlgorithms.Algorithms.t)
    (algorithm i : Z) : list (Z * FmAlgorithms.RenderCall.t) :=
  if (i <? FmVoice.NUM_OPERATORS)%Z then
    match fuel with
    | O => []
    | S fuel' =>
        let call := FmAlgorithms.Algorithms.renderCall this algorithm i in
        (i, call)
        :: callsReached fuel' this algorithm
             (i + FmAlgorithms.RenderCall.n call)%Z
    end
  else [].

(** The bytes of the WAV file of [generateWav], by its format: the 44
    bytes of the header, then each pitch buffer padded with zeros to
    [maxLength] samples, each sample on four bytes. *)
Definition wavHeader (sampleRate : Q) (dataSize : Z) : list Z :=
  Tv7.RIFF ++ Tv7.littleEndian 4 (JS.ToUint32Z (44 + dataSize - 8))
  ++ Tv7.WAVE
  ++ Tv7.fmt_ ++ Tv7.littleEndian 4 16 ++ Tv7.littleEndian 2 3
  ++ Tv7.littleEndian 2 1
  ++ Tv7.littleEndian 4 (JS.ToUint32 sampleRate)
  ++ Tv7.littleEndian 4 (JS.ToUint32 (sampleRate * 4))
  ++ Tv7.littleEndian 2 4 ++ Tv7.littleEndian 2 32
  ++ Tv7.data ++ Tv7.littleEndian 4 (JS.ToUint32Z dataSize).

Definition sampleBytes (float32Bits : Q -> Z) (x : Q) : list Z :=
  Tv7.littleEndian 4 (JS.ToUint32Z (float32Bits x)).

Definition bufferBytes (float32Bits : Q -> Z) (maxLength : nat)
    (buf : list Q) : list Z :=
  concat (map (sampleBytes float32Bits)
            (buf ++ replicate (maxLength - length buf) 0.0)).

(** A voice whose dispatch loop has a plan to walk: the compiled table, an
    algorithm of the table, and its six operators. *)
Definition plannable (this : FmVoice.Voice.t) : Prop :=
  FmVoice.Voice.algorithms this = FmAlgorithms.Algorithms.new
  /\ (0 <= FmPatch.Patch.algorithm (FmVoice.Voice.patch this) < 32)%Z
  /\ length (FmVoice.Voice.operator this) = 6%nat.

(** [setup()] on a dirty voice: the operator loop, run on the voice with
    its pitch envelope configured. *)
Definition setupLoop `{Platform} (this : FmVoice.Voice.t) : FmVoice.Voice.t :=
  JS.for_ (Z.to_nat FmVoice.NUM_OPERATORS) (fun i this =>
    let op :=
      default FmPatch.Operator.new
        (FmPatch.Patch.op (FmVoice.Voice.patch this) !! Z.to_nat i) in
    let level := DxUnits.operatorLevel (FmPatch.Operator.level op) in
    let this :=
      FmVoice.Voice.with_operatorEnvelope this
        (alter (fun e =>
           FmEnvelope.OperatorEnvelope.set e
             (FmPatch.OpEnvelope.rate (FmPatch.Operator.envelope op))
             (FmPatch.OpEnvelope.level (FmPatch.Operator.envelope op))
             level) (Z.to_nat i) (FmVoice.Voice.operatorEnvelope this)) in
    let this :=
      FmVoice.Voice.with_levelHeadroom this
        (JS.set (FmVoice.Voice.levelHeadroom this) i
           (JS.fround (inject_Z (127 - level)))) in
    let sign := if (FmPatch.Operator.mode op =? 0)%Z then 1.0 else -1.0 in
    FmVoice.Voice.with_ratios this
      (JS.set (FmVoice.Voice.ratios this) i
         (JS.fround (sign * DxUnits.frequencyRatio op))))
    (FmVoice.Voice.with_pitchEnvelope this
       (FmEnvelope.PitchEnvelope.set (FmVoice.Voice.pitchEnvelope this)
          (FmPatch.PitchEnvelope.rate
             (FmPatch.Patch.pitchEnvelope (FmVoice.Voice.patch this)))
          (FmPatch.PitchEnvelope.level
             (FmPatch.Patch.pitchEnvelope (FmVoice.Voice.patch this))))).

(** What of an LFO is visible to rendering when the waveform is not
    sample-and-hold: every field but the latched random value. *)
Definition lfoObservable (l : FmLfo.Lfo.t)
  : Q * Q * Q * list Q * Q * Q * Q * Q * Z * bool * Z :=
  (FmLfo.Lfo.phase l, FmLfo.Lfo.frequency l, FmLfo.Lfo.delayPhase l,
   FmLfo.Lfo.delayIncrement l, FmLfo.Lfo.value_ l, FmLfo.Lfo.oneHz l,
   FmLfo.Lfo.ampModDepth l, FmLfo.Lfo.pitchModDepth l, FmLfo.Lfo.waveform l,
   FmLfo.Lfo.resetPhase l, FmLfo.Lfo.phaseIntegral l).

(** The same for the state of [generateSamples]: everything but the
    generator and the latched random value. *)
Definition genObservable (s : Dx7.Gen)
  : FmVoice.Voice.t * (Q * Q * Q * list Q * Q * Q * Q * Q * Z * bool * Z)
    * FmVoice.Parameters.t * list Q :=
  (Dx7.g_voice s, lfoObservable (Dx7.g_lfo s), Dx7.g_parameters s,
   Dx7.g_output s).

(** What a block leaves of two runs that agree on everything observable:
    the same buffer and states that agree again. *)
Definition blocksAgree (r1 r2 : option (Dx7.Gen * list Q)) : Prop :=
  match r1, r2 with
  | Some (s1, buf1), Some (s2, buf2) =>
      buf1 = buf2 /\ genObservable s1 = genObservable s2
  | None, None => True
  | _, _ => False
  end.

(** Two generators return the same values from now on, whatever they
    returned before and however many values that were. *)
Definition sameDraws (g1 g2 : Random.t) : Prop :=
  forall k : nat,
    Random.draws g1 (Random.drawn g1 + k)
    = Random.draws g2 (Random.drawn g2 + k).

(** Two runs are at the same point: the same voice, LFO, parameters and
    samples so far, and generators that return the same values from now
    on. *)
Definition sameRun (s1 s2 : Dx7.Gen) : Prop :=
  Dx7.g_voice s1 = Dx7.g_voice s2
  /\ Dx7.g_lfo s1 = Dx7.g_lfo s2
  /\ Dx7.g_parameters s1 = Dx7.g_parameters s2
  /\ Dx7.g_output s1 = Dx7.g_output s2
  /\ sameDraws (Dx7.g_random s1) (Dx7.g_random s2).

Definition runsAgree (r1 r2 : option Dx7.Gen) : Prop :=
  match r1, r2 with
  | Some s1, Some s2 => sameRun s1 s2
  | None, None => True
  | _, _ => False
  end.

Definition gensAgree (r1 r2 : option Dx7.Gen) : Prop :=
  match r1, r2 with
  | Some s1, Some s2 =>
      genObservable s1 = genObservable s2
      /\ FmLfo.Lfo.waveform (Dx7.g_lfo s1) <> FmLfo.Waveform.SAndH
  | None, None => True
  | _, _ => False
  end.

End Spec.

(** * Theorems *)

(** ** Conversions and arrays *)

Lemma ToUint32Z_ToInt32 (x : Z) :
  JS.ToUint32Z (JS.ToInt32 x) = JS.ToUint32Z x.
Proof.
  unfold JS.ToUint32Z, JS.ToInt32, JS.two32.
  destruct (_ <? _)%Z.
  - apply Z.mod_mod. lia.
  - rewrite Zminus_mod, Z.mod_mod, Z_mod_same_full, Z.sub_0_r, Z.mod_mod
      by lia.
    reflexivity.
Qed.

Lemma ToInt32_small (x : Z) :
  (-2147483648 <= x < 2147483648)%Z -> JS.ToInt32 x = x.
Proof.
  intros Hx. unfold JS.ToInt32, JS.two32.
  destruct (Z_lt_le_dec x 0).
  - replace (x mod 4294967296)%Z with (x + 4294967296)%Z.
    + destruct (Z.ltb_spec (x + 4294967296) 2147483648); lia.
    + apply Z.mod_unique_pos with (q := (-1)%Z); lia.
  - rewrite Z.mod_small by lia. destruct (Z.ltb_spec x 2147483648); lia.
Qed.

Lemma ToUint32Z_small (x : Z) :
  (0 <= x < JS.two32)%Z -> JS.ToUint32Z x = x.
Proof. intros Hx. apply Z.mod_small. exact Hx. Qed.

Lemma ToUint32Z_range (x : Z) : (0 <= JS.ToUint32Z x < JS.two32)%Z.
Proof. apply Z.mod_pos_bound. reflexivity. Qed.

Lemma ToInt32_range (x : Z) : (-2147483648 <= JS.ToInt32 x < 2147483648)%Z.
Proof.
  unfold JS.ToInt32.
  pose proof (Z.mod_pos_bound x JS.two32 eq_refl) as Hm.
  unfold JS.two32 in *.
  destruct (Z.ltb_spec (x mod 4294967296) 2147483648); lia.
Qed.

(** Masking with a constant [2^k - 1] leaves a value in [0, 2^k - 1],
    whatever the other operand is. *)
Lemma and_ones_range (x k : Z) :
  (0 <= k < 31)%Z -> (0 <= JS.and x (Z.ones k) <= Z.ones k)%Z.
Proof.
  intros Hk. unfold JS.and.
  assert (Hp : (0 < 2 ^ k <= 2 ^ 30)%Z).
  { split; [apply Z.pow_pos_nonneg; lia|apply Z.pow_le_mono_r; lia]. }
  change (2 ^ 30)%Z with 1073741824%Z in Hp.
  assert (Ho : Z.ones k = (2 ^ k - 1)%Z) by apply Z.ones_equiv.
  rewrite (ToInt32_small (Z.ones k)) by lia.
  rewrite Z.land_ones by lia.
  pose proof (Z.mod_pos_bound (JS.ToInt32 x) (2 ^ k) ltac:(lia)) as Hm.
  rewrite ToInt32_small by lia. lia.
Qed.

Lemma Qfloor_add_Z (x : Q) (n : Z) :
  Qfloor (x + inject_Z n) = (Qfloor x + n)%Z.
Proof.
  destruct x as [a d]. unfold Qfloor, Qplus, inject_Z. simpl.
  rewrite Pos.mul_1_r, Z.mul_1_r.
  rewrite Z.div_add by lia. reflexivity.
Qed.

Lemma ToUint32_nonneg (x : Q) :
  0 <= x -> JS.ToUint32 x = (Qfloor x mod JS.two32)%Z.
Proof.
  intros Hx. unfold JS.ToUint32, JS.trunc.
  destruct (Qlt_le_dec x 0) as [Hlt|_]; [|reflexivity].
  exfalso. apply (Qlt_not_le _ _ Hlt Hx).
Qed.

Lemma Qltb_lt (x y : Q) : JS.Qltb x y = true <-> x < y.
Proof.
  unfold JS.Qltb. rewrite negb_true_iff, <- not_true_iff_false, Qle_bool_iff.
  split; [apply Qnot_le_lt|apply Qlt_not_le].
Qed.

Lemma Qltb_ge (x y : Q) : JS.Qltb x y = false <-> y <= x.
Proof.
  unfold JS.Qltb. rewrite negb_false_iff. apply Qle_bool_iff.
Qed.

Lemma abs_neg (x : Q) : x < 0 -> JS.abs x = - x.
Proof.
  intros Hx. unfold JS.abs.
  destruct (Qle_bool 0 x) eqn:E; [|reflexivity].
  apply Qle_bool_iff in E. exfalso. apply (Qlt_not_le _ _ Hx E).
Qed.

Lemma get_set_same (a : list Q) (i : Z) (x : Q) :
  (0 <= i)%Z -> (Z.to_nat i < length a)%nat -> JS.get (JS.set a i x) i = x.
Proof.
  intros Hi Hl. unfold JS.get, JS.set.
  destruct (Z.ltb_spec i 0) as [?|_]; [lia|].
  rewrite list_lookup_insert_eq by exact Hl. reflexivity.
Qed.

Lemma length_set (a : list Q) (i : Z) (x : Q) :
  length (JS.set a i x) = length a.
Proof.
  unfold JS.set. destruct (i <? 0)%Z; [reflexivity|apply length_insert].
Qed.

Lemma getZ_setZ_same (store : Z -> Z) (a : list Z) (i x : Z) :
  (0 <= i)%Z -> (Z.to_nat i < length a)%nat ->
  JS.getZ (JS.setZ store a i x) i = store x.
Proof.
  intros Hi Hl. unfold JS.getZ, JS.setZ.
  destruct (Z.ltb_spec i 0) as [?|_]; [lia|].
  rewrite list_lookup_insert_eq by exact Hl. reflexivity.
Qed.

Lemma getZ_setZ_other (store : Z -> Z) (a : list Z) (i j x : Z) :
  (0 <= i)%Z -> (0 <= j)%Z -> i <> j ->
  JS.getZ (JS.setZ store a i x) j = JS.getZ a j.
Proof.
  intros Hi Hj Hne. unfold JS.getZ, JS.setZ.
  destruct (Z.ltb_spec i 0) as [?|_]; [lia|].
  destruct (Z.ltb_spec j 0) as [?|_]; [lia|].
  rewrite list_lookup_insert_ne by lia. reflexivity.
Qed.

Lemma length_setZ (store : Z -> Z) (a : list Z) (i x : Z) :
  length (JS.setZ store a i x) = length a.
Proof.
  unfold JS.setZ. destruct (i <? 0)%Z; [reflexivity|apply length_insert].
Qed.

(** [for_] unrolls from the right: the last round is the last index. *)
Lemma for_S {S} (n : nat) (body : Z -> S -> S) (s : S) :
  JS.for_ (Datatypes.S n) body s = body (Z.of_nat n) (JS.for_ n body s).
Proof.
  unfold JS.for_. rewrite seq_S, fold_left_app. reflexivity.
Qed.

(** An invariant of the loop state holds after the loop when the body keeps
    it at every index. *)
Lemma for_invariant {S} (P : S -> Prop) (n : nat) (body : Z -> S -> S)
    (s : S) :
  P s ->
  (forall i s, (0 <= i < Z.of_nat n)%Z -> P s -> P (body i s)) ->
  P (JS.for_ n body s).
Proof.
  intros Hs Hbody. induction n as [|n IH].
  - exact Hs.
  - rewrite for_S. apply Hbody; [lia|]. apply IH.
    intros i s' Hi. apply Hbody. lia.
Qed.

(** An invariant that depends on the number of rounds done. *)
Lemma for_invariant_indexed {S} (P : nat -> S -> Prop) (n : nat)
    (body : Z -> S -> S) (s : S) :
  P 0%nat s ->
  (forall i s, (i < n)%nat -> P i s -> P (Datatypes.S i) (body (Z.of_nat i) s)) ->
  P n (JS.for_ n body s).
Proof.
  intros Hs Hbody. induction n as [|n IH].
  - exact Hs.
  - rewrite for_S. apply Hbody; [lia|]. apply IH.
    intros i s' Hi. apply Hbody. lia.
Qed.

(** ** Rounding *)

Lemma isFloat_proper (prec emin emax : Z) (x y : Q) :
  x == y -> JS.isFloat prec emin emax x = JS.isFloat prec emin emax y.
Proof.
  intros E. unfold JS.isFloat. rewrite (Qred_complete x y E). reflexivity.
Qed.

Lemma nearest_proper (prec emin : Z) (x y : Q) :
  x == y -> JS.nearest prec emin x = JS.nearest prec emin y.
Proof.
  intros E. unfold JS.nearest. rewrite (Qred_complete x y E). reflexivity.
Qed.

(** Rounding is a function of the value, and leaves a representable number
    as it is. *)
Lemma round_proper (prec emin emax : Z) (x y : Q) :
  x == y -> JS.round prec emin emax x == JS.round prec emin emax y.
Proof.
  intros E. unfold JS.round.
  rewrite (isFloat_proper prec emin emax x y E),
    (nearest_proper prec emin x y E).
  destruct (JS.isFloat prec emin emax y); [exact E|reflexivity].
Qed.

Lemma round_exact (prec emin emax : Z) (x : Q) :
  JS.isFloat prec emin emax x = true -> JS.round prec emin emax x = x.
Proof. intros E. unfold JS.round. rewrite E. reflexivity. Qed.

#[export] Instance fl64_proper : Proper (Qeq ==> Qeq) JS.fl64.
Proof. intros x y E. apply round_proper, E. Qed.

#[export] Instance fround_proper : Proper (Qeq ==> Qeq) JS.fround.
Proof. intros x y E. apply round_proper, E. Qed.

Lemma fl64_exact (x : Q) : JS.isDouble x = true -> JS.fl64 x = x.
Proof. apply round_exact. Qed.

Lemma fround_exact (x : Q) : JS.isFloat32 x = true -> JS.fround x = x.
Proof. apply round_exact. Qed.

Lemma oddPart_le (p : positive) : (JS.oddPart p <= p)%positive.
Proof.
  induction p as [p IH|p IH|]; cbn [JS.oddPart]; lia.
Qed.

Lemma oddPart_pow2 (k : nat) : JS.oddPart (Pos.shiftl_nat 1 k) = 1%positive.
Proof. induction k as [|k IH]; [reflexivity|exact IH]. Qed.

Lemma Qred_coprime (q : Q) : Z.gcd (Qnum q) (QDen q) = 1%Z -> Qred q = q.
Proof.
  destruct q as [n d]. cbn [Qnum Qden]. intros Hg. unfold Qred.
  pose proof (Z.ggcd_gcd n (Zpos d)) as H1.
  pose proof (Z.ggcd_correct_divisors n (Zpos d)) as H2.
  destruct (Z.ggcd n (Zpos d)) as [g [aa bb]]. cbn [fst snd] in *.
  rewrite Hg in H1. subst g. destruct H2 as [Ha Hb].
  rewrite Z.mul_1_l in Ha, Hb. subst aa bb. reflexivity.
Qed.

Lemma pow2_shiftl (k : nat) :
  Zpos (Pos.shiftl_nat 1 k) = (2 ^ Z.of_nat k)%Z.
Proof.
  induction k as [|k IH]; [reflexivity|].
  rewrite Nat2Z.inj_succ, Z.pow_succ_r, <- IH by lia. reflexivity.
Qed.

Lemma gcd_odd_pow2 (m : Z) (k : nat) :
  Z.odd m = true -> Z.gcd m (Zpos (Pos.shiftl_nat 1 k)) = 1%Z.
Proof.
  intros Hodd. rewrite pow2_shiftl.
  apply Z.coprime_pow_r; [lia|].
  unfold Z.coprime. rewrite Z.gcd_comm.
  apply Z.coprime_prime_l; [exact Z.prime_2|].
  intros [q Hq]. rewrite Hq, Z.mul_comm, Z.odd_mul in Hodd.
  discriminate.
Qed.

(** The numbers [m / 2^k] with [|m| < 2^prec] and [k <= -emin] are
    representable. *)
Lemma isFloat_dyadic (prec emin emax : Z) (k : nat) (m : Z) :
  (Z.abs m < 2 ^ prec)%Z -> (Z.of_nat k <= - emin)%Z ->
  (0 < prec <= emax + 1)%Z ->
  JS.isFloat prec emin emax (m # Pos.shiftl_nat 1 k) = true.
Proof.
  intros Hm Hk Hprec.
  assert (Hodd : forall (k : nat) (m : Z),
            (Z.abs m < 2 ^ prec)%Z -> (Z.of_nat k <= - emin)%Z ->
            (k = 0%nat \/ Z.odd m = true) ->
            JS.isFloat prec emin emax (m # Pos.shiftl_nat 1 k) = true).
  { clear k m Hm Hk. intros k m Hm Hk Hcase. unfold JS.isFloat.
    rewrite Qred_coprime.
    2: { destruct Hcase as [->|Hcase];
           [apply Z.gcd_1_r|apply gcd_odd_pow2, Hcase]. }
    cbn [Qnum Qden]. rewrite oddPart_pow2, pow2_shiftl.
    rewrite Z.log2_pow2 by lia.
    assert (Hlog : forall n : positive,
              (Zpos n < 2 ^ prec)%Z ->
              (Z.log2 (Zpos (JS.oddPart n)) <? prec)%Z = true
              /\ (Z.log2 (Zpos n) - Z.of_nat k <=? emax)%Z = true).
    { intros n Hn. split.
      - apply Z.ltb_lt, Z.log2_lt_pow2; [lia|].
        pose proof (oddPart_le n). lia.
      - apply Z.leb_le.
        assert (Z.log2 (Zpos n) < prec)%Z
          by (apply Z.log2_lt_pow2; lia).
        lia. }
    destruct m as [|n|n]; [reflexivity| |];
      destruct (Hlog n ltac:(lia)) as [-> ->];
      cbn [Pos.eqb andb]; rewrite andb_true_r; apply Z.leb_le; lia. }
  revert m Hm Hk. induction k as [|k IH]; intros m Hm Hk.
  - apply Hodd; [exact Hm|exact Hk|left; reflexivity].
  - destruct (Z.odd m) eqn:E;
      [apply Hodd; [exact Hm|exact Hk|right; exact E]|].
    assert (Heven : Z.even m = true)
      by (rewrite <- Z.negb_odd, E; reflexivity).
    apply Z.even_spec in Heven. destruct Heven as [h ->].
    rewrite (isFloat_proper prec emin emax _ (h # Pos.shiftl_nat 1 k)).
    + apply IH; lia.
    + unfold Qeq. cbn [Qnum Qden].
      change (Pos.shiftl_nat 1 (S k)) with (xO (Pos.shiftl_nat 1 k)). lia.
Qed.

Lemma isFloat_Z (prec emin emax : Z) (m : Z) :
  (Z.abs m < 2 ^ prec)%Z -> (emin <= 0)%Z -> (0 < prec <= emax + 1)%Z ->
  JS.isFloat prec emin emax (inject_Z m) = true.
Proof. intros Hm He Hp. apply (isFloat_dyadic prec emin emax 0); lia. Qed.

(** A binary64 operation whose exact result is [m / 2^k] with
    [|m| < 2^53] and [k <= 1074] is exact. *)
Lemma fl64_dyadic (x : Q) (m : Z) (k : nat) :
  (Z.abs m < 2 ^ 53)%Z -> (k <= 1074)%nat ->
  x == inject_Z m / inject_Z (2 ^ Z.of_nat k) ->
  JS.fl64 x == x.
Proof.
  intros Hm Hk E.
  assert (E' : x == m # Pos.shiftl_nat 1 k).
  { rewrite E, (Qmake_Qdiv m), pow2_shiftl. reflexivity. }
  rewrite (fl64_proper _ _ E').
  rewrite (fl64_exact _ (isFloat_dyadic 53 (-1074) 1023 k m Hm
                           ltac:(lia) ltac:(lia))).
  symmetry. exact E'.
Qed.

(** ** stmlib/dsp.js: [sinePm] and [sine] *)

Section SinePm.
Context `{Platform}.

Lemma sinePm_phase_zero (p : Z) :
  (0 <= p < JS.two32)%Z ->
  JS.ToUint32Z (p + JS.ToUint32 (JS.fl64 (0 + 32) * (4294967296 / (32 * 2)))
                    * JS.ToUint32 (32 * 2)) = p.
Proof.
  intros Hp.
  replace (JS.ToUint32 (JS.fl64 (0 + 32) * (4294967296 / (32 * 2))))
    with 2147483648%Z by (vm_compute; reflexivity).
  change (JS.ToUint32 (32 * 2)) with 64%Z.
  unfold JS.ToUint32Z, JS.two32 in *.
  replace (p + 2147483648 * 64)%Z with (p + 32 * 4294967296)%Z by lia.
  rewrite Z.mod_add by lia. apply Z.mod_small; lia.
Qed.

Lemma lut_index (p : Z) :
  (0 <= p < JS.two32)%Z ->
  JS.and (JS.shr p (32 - Dsp.SINE_LUT_BITS)) 511 = (p / 8388608)%Z.
Proof.
  intros Hp.
  unfold JS.and, JS.shr, JS.ToUint32Z, Dsp.SINE_LUT_BITS, JS.two32 in *.
  rewrite Z.mod_small by lia.
  change ((32 - 9) mod 32)%Z with 23%Z.
  rewrite Z.shiftr_div_pow2 by lia.
  change (2 ^ 23)%Z with 8388608%Z.
  assert (0 <= p / 8388608 < 512)%Z.
  { split; [apply Z.div_pos; lia|apply Z.div_lt_upper_bound; lia]. }
  rewrite (ToInt32_small (p / 8388608)), (ToInt32_small 511) by lia.
  change 511%Z with (Z.ones 9). rewrite Z.land_ones by lia.
  rewrite Z.mod_small by (change (2 ^ 9)%Z with 512%Z; lia).
  apply ToInt32_small; lia.
Qed.

Lemma lut_fraction (p : Z) :
  (0 <= p < JS.two32)%Z ->
  JS.ToUint32Z (JS.shl p Dsp.SINE_LUT_BITS) = (512 * (p mod 8388608))%Z.
Proof.
  intros Hp. unfold JS.shl. rewrite ToUint32Z_ToInt32.
  assert (E : (JS.ToInt32 p mod 4294967296 = p)%Z).
  { transitivity (JS.ToUint32Z (JS.ToInt32 p)); [reflexivity|].
    rewrite ToUint32Z_ToInt32. apply ToUint32Z_small, Hp. }
  unfold JS.ToUint32Z, Dsp.SINE_LUT_BITS, JS.two32 in *.
  change (9 mod 32)%Z with 9%Z.
  rewrite Z.shiftl_mul_pow2 by lia. change (2 ^ 9)%Z with 512%Z.
  rewrite Zmult_mod, E. rewrite (Z.mod_small 512) by lia.
  change 4294967296%Z with (512 * 8388608)%Z.
  rewrite (Z.mul_comm p 512). rewrite Z.mul_mod_distr_l by lia.
  reflexivity.
Qed.

(** The two binary64 operations of [interpolateWrap] on a 32-bit phase
    divided by 2^32 are exact: the phase has 32 bits. *)
Lemma wrap_index_exact (p : Z) :
  (0 <= p < JS.two32)%Z ->
  JS.fl64
    (JS.fl64 (inject_Z p / 4294967296
              - inject_Z (Qfloor (inject_Z p / 4294967296)))
     * Dsp.SINE_LUT_SIZE)
  == inject_Z p / 8388608.
Proof.
  intros Hp. unfold JS.two32 in Hp.
  assert (F0 : Qfloor (inject_Z p / 4294967296) = 0%Z).
  { change (Qfloor (inject_Z p / inject_Z 4294967296) = 0%Z).
    rewrite <- (Zdiv_Qdiv p 4294967296). apply Z.div_small. exact Hp. }
  rewrite F0.
  assert (E0 : JS.fl64 (inject_Z p / 4294967296 - inject_Z 0)
               == inject_Z p / 4294967296).
  { rewrite (fl64_dyadic _ p 32); [field| | |].
    - change (2 ^ 53)%Z with 9007199254740992%Z. lia.
    - lia.
    - change (2 ^ Z.of_nat 32)%Z with 4294967296%Z. field. }
  rewrite E0.
  rewrite (fl64_dyadic _ p 23).
  - unfold Dsp.SINE_LUT_SIZE. field.
  - change (2 ^ 53)%Z with 9007199254740992%Z. lia.
  - lia.
  - change (2 ^ Z.of_nat 23)%Z with 8388608%Z.
    unfold Dsp.SINE_LUT_SIZE. field.
Qed.

Lemma sinePm_zero_is_sine (p : Z) :
  (0 <= p < JS.two32)%Z ->
  Dsp.sinePm p 0 == Dsp.sine (inject_Z p / 4294967296).
Proof.
  intros Hp. unfold Dsp.sinePm, Dsp.sine, Dsp.interpolateWrap.
  rewrite (sinePm_phase_zero p Hp), (lut_index p Hp), (lut_fraction p Hp).
  cbv zeta. pose proof (wrap_index_exact p Hp) as Hidx.
  set (index := JS.fl64 (JS.fl64 _ * _)) in *.
  assert (F1 : Qfloor index = (p / 8388608)%Z).
  { rewrite (Qfloor_comp _ _ Hidx).
    change (Qfloor (inject_Z p / inject_Z 8388608) = (p / 8388608)%Z).
    rewrite <- (Zdiv_Qdiv p 8388608). reflexivity. }
  rewrite F1, Hidx.
  set (a := JS.get LUT_SINE (p / 8388608)).
  set (b := JS.get LUT_SINE (p / 8388608 + 1)).
  assert (E : inject_Z (512 * (p mod 8388608)) / 4294967296
              == inject_Z p / 8388608 - inject_Z (p / 8388608)).
  { rewrite (Z.mod_eq p 8388608) by lia.
    rewrite inject_Z_mult. unfold Zminus.
    rewrite inject_Z_plus, inject_Z_opp, inject_Z_mult.
    field. }
  rewrite E. reflexivity.
Qed.

(** Adding 64 to [pm] adds 2^32 to the value that is converted to the
    unsigned offset, when the two sums are exact; for a value that is not
    negative the conversion is [floor] modulo 2^32, which drops it. *)
Lemma phaseOffset_period (pm : Q) :
  -32 <= pm ->
  JS.isDouble (pm + 32) = true ->
  JS.isDouble (pm + 64 + 32) = true ->
  JS.ToUint32 (JS.fl64 (pm + 64 + 32) * (4294967296 / (32 * 2)))
  = JS.ToUint32 (JS.fl64 (pm + 32) * (4294967296 / (32 * 2))).
Proof.
  intros Hpm Hlow Hhigh. rewrite (fl64_exact _ Hlow), (fl64_exact _ Hhigh).
  assert (H0 : 0 <= (pm + 32) * (4294967296 / (32 * 2))).
  { apply Qmult_le_0_compat; [|discriminate].
    apply (Qplus_le_l _ _ (-32)). ring_simplify. exact Hpm. }
  assert (E : (pm + 64 + 32) * (4294967296 / (32 * 2))
              == (pm + 32) * (4294967296 / (32 * 2)) + inject_Z JS.two32).
  { unfold JS.two32. field. }
  assert (H1 : 0 <= (pm + 64 + 32) * (4294967296 / (32 * 2))).
  { rewrite E. apply (Qle_trans _ (0 + 0)); [discriminate|].
    apply Qplus_le_compat; [exact H0|discriminate]. }
  rewrite !ToUint32_nonneg by assumption.
  rewrite (Qfloor_comp _ _ E), Qfloor_add_Z.
  rewrite <- (Z.mul_1_l JS.two32) at 1. apply Z.mod_add. discriminate.
Qed.

(** C1 (amended): for every 32-bit unsigned phase [p], [sinePm(p, 0)] is
    [sine(p / 2^32)]; and for every modulation input [pm >= -32] such that
    the sums [pm + 32] and [(pm + 64) + 32], which the two calls compute,
    are representable in binary64 (so that they are computed exactly),
    [sinePm(p, pm)] is [sinePm(p, pm + 64)].  The two arguments [pm] and
    [pm + 64] are doubles. *)
Theorem sinePm_zero_and_period (p : Z) (pm : Q) :
  (0 <= p < JS.two32)%Z ->
  -32 <= pm ->
  JS.isDouble pm = true ->
  JS.isDouble (pm + 64) = true ->
  JS.isDouble (pm + 32) = true ->
  JS.isDouble (pm + 64 + 32) = true ->
  Dsp.sinePm p 0 == Dsp.sine (inject_Z p / 4294967296)
  /\ Dsp.sinePm p pm == Dsp.sinePm p (pm + 64).
Proof.
  intros Hp Hpm _ _ Hlow Hhigh. split.
  - apply sinePm_zero_is_sine, Hp.
  - unfold Dsp.sinePm.
    rewrite (phaseOffset_period pm Hpm Hlow Hhigh). reflexivity.
Qed.

(** Below [-32] the converted value is negative, the conversion rounds it
    toward zero, and the two offsets are one unit apart: at phase 0 and
    [pm = -33 + 2^-27] the table is read [64 / 2^23] past entry 0, and at
    [pm + 64] it is read at entry 0.  Every sum of the two calls is exact
    in binary64. *)
Lemma sinePm_below_range :
  let pm := -33 + (1 # 134217728) in
  (JS.isDouble pm = true /\ JS.isDouble (pm + 64) = true
   /\ JS.isDouble (pm + 32) = true /\ JS.isDouble (pm + 64 + 32) = true)
  /\ Dsp.sinePm 0 pm
     == JS.get LUT_SINE 0
        + (JS.get LUT_SINE 1 - JS.get LUT_SINE 0) * (1 # 131072)
  /\ Dsp.sinePm 0 (pm + 64) == JS.get LUT_SINE 0.
Proof.
  cbv zeta. split; [repeat split; vm_compute; reflexivity|].
  unfold Dsp.sinePm.
  set (o1 := JS.ToUint32 _). vm_compute in o1. subst o1.
  set (o2 := JS.ToUint32 (JS.fl64 (_ + 64 + _) * _)).
  vm_compute in o2. subst o2.
  set (m := JS.ToUint32 _). vm_compute in m. subst m.
  set (p1 := JS.ToUint32Z (0 + 4227858433 * 64)). vm_compute in p1. subst p1.
  set (p2 := JS.ToUint32Z (0 + 4227858432 * 64)). vm_compute in p2. subst p2.
  set (i1 := JS.and (JS.shr 64 _) 511). vm_compute in i1. subst i1.
  set (i2 := JS.and (JS.shr 0 _) 511). vm_compute in i2. subst i2.
  set (f1 := JS.ToUint32Z (JS.shl 64 _)). vm_compute in f1. subst f1.
  set (f2 := JS.ToUint32Z (JS.shl 0 _)). vm_compute in f2. subst f2.
  change (0 + 1)%Z with 1%Z.
  split.
  - setoid_replace (inject_Z 32768 / 4294967296) with (1 # 131072)
      using relation Qeq by reflexivity.
    reflexivity.
  - setoid_replace (inject_Z 0 / 4294967296) with 0
      using relation Qeq by reflexivity.
    ring.
Qed.

(** The exactness of the sums is needed: at phase 0 and [pm = -2^-47],
    which is above [-32], the sum [(pm + 64) + 32] lies half way between
    two doubles and is rounded to 96, so that the offset of the second
    call is 2^31 where that of the first is 2^31 - 1: the first call reads
    the table just before the end of entry 511 and the second at entry
    0. *)
Lemma sinePm_inexact_sum :
  let pm := - (1 # 140737488355328) in
  (JS.isDouble pm = true /\ JS.isDouble (pm + 64) = true
   /\ JS.isDouble (pm + 32) = true /\ JS.isDouble (pm + 64 + 32) = false)
  /\ JS.fl64 (pm + 64 + 32) == 96
  /\ Dsp.sinePm 0 pm
     == JS.get LUT_SINE 511
        + (JS.get LUT_SINE 512 - JS.get LUT_SINE 511) * (131071 # 131072)
  /\ Dsp.sinePm 0 (pm + 64) == JS.get LUT_SINE 0.
Proof.
  cbv zeta. split; [repeat split; vm_compute; reflexivity|].
  split; [vm_compute; reflexivity|].
  unfold Dsp.sinePm.
  set (o1 := JS.ToUint32 _). vm_compute in o1. subst o1.
  set (o2 := JS.ToUint32 (JS.fl64 (_ + 64 + _) * _)).
  vm_compute in o2. subst o2.
  set (m := JS.ToUint32 _). vm_compute in m. subst m.
  set (p1 := JS.ToUint32Z (0 + 2147483647 * 64)). vm_compute in p1. subst p1.
  set (p2 := JS.ToUint32Z (0 + 2147483648 * 64)). vm_compute in p2. subst p2.
  set (i1 := JS.and (JS.shr 4294967232 _) 511). vm_compute in i1. subst i1.
  set (i2 := JS.and (JS.shr 0 _) 511). vm_compute in i2. subst i2.
  set (f1 := JS.ToUint32Z (JS.shl 4294967232 _)). vm_compute in f1. subst f1.
  set (f2 := JS.ToUint32Z (JS.shl 0 _)). vm_compute in f2. subst f2.
  change (511 + 1)%Z with 512%Z. change (0 + 1)%Z with 1%Z.
  split.
  - setoid_replace (inject_Z 4294934528 / 4294967296) with (131071 # 131072)
      using relation Qeq by reflexivity.
    reflexivity.
  - setoid_replace (inject_Z 0 / 4294967296) with 0
      using relation Qeq by reflexivity.
    ring.
Qed.

End SinePm.

(** C1, witness: phase [0x12345678] and [pm = -32], on the concrete
    platform. *)
Lemma sinePm_zero_and_period_witness :
  @Dsp.sinePm Examples.platform 305419896 0
  == @Dsp.sine Examples.platform (inject_Z 305419896 / 4294967296)
  /\ @Dsp.sinePm Examples.platform 305419896 (-32)
     == @Dsp.sinePm Examples.platform 305419896 (-32 + 64).
Proof.
  apply (@sinePm_zero_and_period Examples.platform 305419896 (-32)).
  - unfold JS.two32. lia.
  - discriminate.
  - vm_compute. reflexivity.
  - vm_compute. reflexivity.
  - vm_compute. reflexivity.
  - vm_compute. reflexivity.
Defined.

(** C1, counterexample: the period-64 identity for every [pm] fails at
    phase 0 and [pm = -33 + 2^-27]. *)
Lemma sinePm_period_counterexample :
  ~ @Dsp.sinePm Examples.platform 0 (-33 + (1 # 134217728))
    == @Dsp.sinePm Examples.platform 0 (-33 + (1 # 134217728) + 64).
Proof.
  destruct (@sinePm_below_range Examples.platform) as (_ & E1 & E2).
  cbv zeta in E1, E2. rewrite E1, E2.
  vm_compute. discriminate.
Qed.

(** The identity also fails above [-32] when a sum is not exact: at phase 0
    and [pm = -2^-47]. *)
Lemma sinePm_rounding_counterexample :
  ~ @Dsp.sinePm Examples.platform 0 (- (1 # 140737488355328))
    == @Dsp.sinePm Examples.platform 0 (- (1 # 140737488355328) + 64).
Proof.
  destruct (@sinePm_inexact_sum Examples.platform) as (_ & _ & E1 & E2).
  cbv zeta in E1, E2. rewrite E1, E2.
  vm_compute. discriminate.
Qed.

(** ** fm/dx_units.js: the LFO rate and delay at 0 *)

(** C5 (amended): [lfoFrequency(0)] is [11 * MIN_LFO_FREQUENCY], so that
    multiplied by [1 / MIN_LFO_FREQUENCY] and by [1 / 11] it is 1 (and
    multiplied by 11 instead it is 121), with
    [MIN_LFO_FREQUENCY = 0.005865]; and [lfoDelay(0)] is the pair
    (100000, 100000). *)
Theorem lfoFrequency_lfoDelay_at_zero :
  DxUnits.MIN_LFO_FREQUENCY == 5865 # 1000000
  /\ DxUnits.lfoFrequency 0 == 11 * DxUnits.MIN_LFO_FREQUENCY
  /\ DxUnits.lfoFrequency 0 * / DxUnits.MIN_LFO_FREQUENCY * / 11 == 1
  /\ DxUnits.lfoFrequency 0 * / DxUnits.MIN_LFO_FREQUENCY * 11 == 121
  /\ length (DxUnits.lfoDelay 0) = 2%nat
  /\ JS.get (DxUnits.lfoDelay 0) 0 == 100000
  /\ JS.get (DxUnits.lfoDelay 0) 1 == 100000.
Proof. repeat split; reflexivity. Qed.

(** C5, counterexample: the product of [lfoFrequency(0)],
    [1 / MIN_LFO_FREQUENCY] and 11 is not 1. *)
Lemma lfoFrequency_times_11_counterexample :
  ~ DxUnits.lfoFrequency 0 * / DxUnits.MIN_LFO_FREQUENCY * 11 == 1.
Proof. vm_compute. discriminate. Qed.

(** ** fm/voice.js: the target frequency of an operator *)

Section OperatorFrequency.
Context `{Platform}.

(** The frequency that one round of the operator loop stores in [f[i]]. *)
Lemma operatorTargets_f (parameters : FmVoice.Parameters.t)
    (envelopeRate adScale rScale envelopeSample gateDuration f0 : Q)
    (i : Z) (this : FmVoice.Voice.t) (f a : list Q) :
  (0 <= i)%Z -> (Z.to_nat i < length f)%nat ->
  JS.get
    (snd (fst (FmVoice.Voice.operatorTargets parameters envelopeRate adScale
                 rScale envelopeSample gateDuration f0 i (this, f, a)))) i
  = JS.fround
      (JS.fl64
         (JS.get (FmVoice.Voice.ratios this) i
          * (if JS.Qltb (JS.get (FmVoice.Voice.ratios this) i) 0.0
             then - FmVoice.Voice.oneHz this else f0))).
Proof.
  intros Hi Hl. unfold FmVoice.Voice.operatorTargets.
  destruct (if FmVoice.Parameters.sustain parameters then _ else _)
    as [env level].
  cbn [fst snd]. apply get_set_same; assumption.
Qed.

(** C4 (amended): in the operator loop of [renderInternal] the target
    frequency of operator [i], stored in the Float32Array [f], is the
    binary32 rounding of the binary64 product [ratios[i] * (-oneHz)], that
    is of [|ratios[i]| * oneHz], when [ratios[i] < 0] (fixed-frequency
    mode), and of the product [ratios[i] * f0] otherwise, for products
    below 2^127 in size (beyond, the store overflows); [oneHz] is the
    field of the voice that the constructor sets to the double
    [1 / sampleRate], for a sample rate of 1 Hz at least. *)
Theorem operator_target_frequency (parameters : FmVoice.Parameters.t)
    (envelopeRate adScale rScale envelopeSample gateDuration f0 : Q)
    (i : Z) (this : FmVoice.Voice.t) (f a : list Q) :
  (0 <= i)%Z -> (Z.to_nat i < length f)%nat ->
  let ratio := JS.get (FmVoice.Voice.ratios this) i in
  let oneHz := FmVoice.Voice.oneHz this in
  let f' :=
    snd (fst (FmVoice.Voice.operatorTargets parameters envelopeRate adScale
                rScale envelopeSample gateDuration f0 i (this, f, a))) in
  (ratio < 0 -> Qabs (ratio * oneHz) < 2 ^ 127 ->
   JS.get f' i = JS.fround (JS.fl64 (ratio * - oneHz))
   /\ JS.get f' i == JS.fround (JS.fl64 (JS.abs ratio * oneHz)))
  /\ (~ ratio < 0 -> Qabs (ratio * f0) < 2 ^ 127 ->
      JS.get f' i = JS.fround (JS.fl64 (ratio * f0)))
  /\ (forall patch sampleRate,
        1 <= sampleRate ->
        FmVoice.Voice.oneHz (FmVoice.Voice.new patch sampleRate)
        = JS.fl64 (1.0 / sampleRate)).
Proof.
  intros Hi Hl ratio oneHz f'. subst f'.
  rewrite operatorTargets_f by assumption. fold ratio oneHz.
  split; [|split].
  - intros Hneg _.
    assert (E : JS.Qltb ratio 0.0 = true).
    { apply Qltb_lt. apply (Qlt_le_trans _ 0); [exact Hneg|discriminate]. }
    rewrite E. split; [reflexivity|].
    apply fround_proper, fl64_proper. rewrite (abs_neg ratio Hneg). ring.
  - intros Hpos _.
    assert (E : JS.Qltb ratio 0.0 = false).
    { apply Qltb_ge. apply (Qle_trans _ 0); [discriminate|].
      apply Qnot_lt_le. exact Hpos. }
    rewrite E. reflexivity.
  - intros patch sampleRate _. reflexivity.
Qed.

End OperatorFrequency.

(** C4, witness: operator 0 of the fixed-frequency voice. *)
Lemma operator_target_frequency_witness :
  let ratio := JS.get (FmVoice.Voice.ratios Examples.fixedVoice) 0 in
  let oneHz := FmVoice.Voice.oneHz Examples.fixedVoice in
  let f' := snd (fst Examples.fixedTargets) in
  (ratio < 0 -> Qabs (ratio * oneHz) < 2 ^ 127 ->
   JS.get f' 0 = JS.fround (JS.fl64 (ratio * - oneHz))
   /\ JS.get f' 0 == JS.fround (JS.fl64 (JS.abs ratio * oneHz)))
  /\ (~ ratio < 0 -> Qabs (ratio * 1) < 2 ^ 127 ->
      JS.get f' 0 = JS.fround (JS.fl64 (ratio * 1)))
  /\ (forall patch sampleRate,
        1 <= sampleRate ->
        FmVoice.Voice.oneHz
          (@FmVoice.Voice.new Examples.platform patch sampleRate)
        = JS.fl64 (1.0 / sampleRate)).
Proof.
  apply (@operator_target_frequency Examples.platform
           Examples.fixedParameters
           24 1 1 33075 66150 1 0 Examples.fixedVoice
           (replicate 6 0.0) (replicate 6 0.0)).
  - lia.
  - simpl. lia.
Defined.

(** C4, counterexample: operator 0 of the fixed-frequency voice has
    [ratios[0] = -1 < 0], and its target frequency is the binary32
    rounding of the double [1/44100], which is positive, not
    [ratios[0] * (1/sampleRate) = -1/44100]. *)
Lemma operator_target_frequency_counterexample :
  JS.get (FmVoice.Voice.ratios Examples.fixedVoice) 0 == -1
  /\ FmVoice.Voice.sampleRate Examples.fixedVoice == 44100
  /\ JS.get (snd (fst Examples.fixedTargets)) 0
     == JS.fround (JS.fl64 (1 / 44100))
  /\ 0 < JS.get (snd (fst Examples.fixedTargets)) 0
  /\ ~ JS.get (snd (fst Examples.fixedTargets)) 0
       == JS.get (FmVoice.Voice.ratios Examples.fixedVoice) 0
          * (1 / FmVoice.Voice.sampleRate Examples.fixedVoice).
Proof.
  split; [|split; [|split; [|split]]].
  - vm_compute. reflexivity.
  - vm_compute. reflexivity.
  - vm_compute. reflexivity.
  - vm_compute. reflexivity.
  - vm_compute. discriminate.
Qed.

(** ** fm/voice.js: the render call that finds the voice dirty *)

Section Dirty.
Context `{Platform}.

Lemma operatorEnvelope_set_progress (e : FmEnvelope.OperatorEnvelope.t)
    (rate level : list Z) (globalLevel : Z) :
  Spec.operatorEnvelopeProgress
    (FmEnvelope.OperatorEnvelope.set e rate level globalLevel)
  = Spec.operatorEnvelopeProgress e.
Proof.
  unfold FmEnvelope.OperatorEnvelope.set, Spec.operatorEnvelopeProgress.
  cbn [FmEnvelope.OperatorEnvelope.envelope].
  apply (for_invariant (fun s =>
           Spec.envelopeProgress s
           = Spec.envelopeProgress (FmEnvelope.OperatorEnvelope.envelope e))).
  - apply (for_invariant (fun s =>
             Spec.envelopeProgress s
             = Spec.envelopeProgress
                 (FmEnvelope.OperatorEnvelope.envelope e))).
    + reflexivity.
    + intros i s _ Hs. rewrite <- Hs. reflexivity.
  - intros i s _ Hs. rewrite <- Hs. reflexivity.
Qed.

Lemma pitchEnvelope_set_progress (e : FmEnvelope.PitchEnvelope.t)
    (rate level : list Z) :
  Spec.envelopeProgress
    (FmEnvelope.PitchEnvelope.envelope
       (FmEnvelope.PitchEnvelope.set e rate level))
  = Spec.envelopeProgress (FmEnvelope.PitchEnvelope.envelope e).
Proof.
  unfold FmEnvelope.PitchEnvelope.set.
  cbn [FmEnvelope.PitchEnvelope.envelope].
  apply (for_invariant (fun s =>
           Spec.envelopeProgress s
           = Spec.envelopeProgress (FmEnvelope.PitchEnvelope.envelope e))).
  - apply (for_invariant (fun s =>
             Spec.envelopeProgress s
             = Spec.envelopeProgress
                 (FmEnvelope.PitchEnvelope.envelope e))).
    + reflexivity.
    + intros i s _ Hs. rewrite <- Hs. reflexivity.
  - intros i s _ Hs. rewrite <- Hs. reflexivity.
Qed.

Lemma setupFrame_refl (this : FmVoice.Voice.t) : Spec.setupFrame this this.
Proof. unfold Spec.setupFrame. tauto. Qed.

Lemma setupFrame_with_dirty (this s : FmVoice.Voice.t) (b : bool) :
  Spec.setupFrame this s ->
  Spec.setupFrame this (FmVoice.Voice.with_dirty s b).
Proof. intros Hs. exact Hs. Qed.

Lemma setup_unfold (this : FmVoice.Voice.t) :
  FmVoice.Voice.setup this
  = if FmVoice.Voice.dirty this
    then (FmVoice.Voice.with_dirty (Spec.setupLoop this) false, true)
    else (this, false).
Proof.
  unfold FmVoice.Voice.setup, Spec.setupLoop.
  destruct (FmVoice.Voice.dirty this); reflexivity.
Qed.

Lemma setupLoop_frame (this : FmVoice.Voice.t) :
  Spec.setupFrame this (Spec.setupLoop this).
Proof.
  unfold Spec.setupLoop.
  apply (for_invariant (Spec.setupFrame this)).
  - unfold Spec.setupFrame, FmVoice.Voice.with_pitchEnvelope.
    cbn [FmVoice.Voice.operator FmVoice.Voice.feedbackState
         FmVoice.Voice.level FmVoice.Voice.gate FmVoice.Voice.note
         FmVoice.Voice.normalizedVelocity FmVoice.Voice.patch
         FmVoice.Voice.operatorEnvelope FmVoice.Voice.pitchEnvelope].
    rewrite pitchEnvelope_set_progress. tauto.
  - intros i s _ (Ho & Hf & Hl & Hg & Hn & Hv & Hp & He & Hpe).
    unfold Spec.setupFrame, FmVoice.Voice.with_ratios,
      FmVoice.Voice.with_levelHeadroom, FmVoice.Voice.with_operatorEnvelope.
    cbn [FmVoice.Voice.operator FmVoice.Voice.feedbackState
         FmVoice.Voice.level FmVoice.Voice.gate FmVoice.Voice.note
         FmVoice.Voice.normalizedVelocity FmVoice.Voice.patch
         FmVoice.Voice.operatorEnvelope FmVoice.Voice.pitchEnvelope].
    repeat (split; [assumption|]). split; [|assumption].
    rewrite <- He.
    rewrite (list_fmap_alter Spec.operatorEnvelopeProgress _ (fun x => x)).
    + apply list_alter_id. reflexivity.
    + apply Forall_forall. intros e _.
      apply operatorEnvelope_set_progress.
Qed.

Lemma setup_frame (this : FmVoice.Voice.t) :
  Spec.setupFrame this (fst (FmVoice.Voice.setup this)).
Proof.
  rewrite setup_unfold.
  destruct (FmVoice.Voice.dirty this); cbn [fst].
  - apply setupFrame_with_dirty, setupLoop_frame.
  - apply setupFrame_refl.
Qed.

(** C10: when the voice is dirty, [renderInternal] returns right after
    [setup()]: the buffers are as they were, and so are the operators
    (phase and amplitude), the feedback history, the latest levels, the
    gate, note and velocity, and the stage, phase and start level of every
    envelope; the voice is no longer dirty. *)
Theorem renderInternal_dirty_returns_after_setup
    (this : FmVoice.Voice.t) (parameters : FmVoice.Parameters.t)
    (buffers : list FmOperator.View.t) (mem : list Q) (size : Z) :
  FmVoice.Voice.dirty this = true ->
  FmVoice.Voice.renderInternal this parameters buffers mem size
  = Some (fst (FmVoice.Voice.setup this), mem)
  /\ snd (FmVoice.Voice.setup this) = true
  /\ FmVoice.Voice.dirty (fst (FmVoice.Voice.setup this)) = false
  /\ Spec.setupFrame this (fst (FmVoice.Voice.setup this)).
Proof.
  intros Hdirty.
  assert (Hsetup : FmVoice.Voice.setup this
                   = (FmVoice.Voice.with_dirty (Spec.setupLoop this) false, true)).
  { rewrite setup_unfold, Hdirty. reflexivity. }
  split; [|split; [|split; [|apply setup_frame]]].
  - unfold FmVoice.Voice.renderInternal. rewrite Hsetup. reflexivity.
  - rewrite Hsetup. reflexivity.
  - rewrite Hsetup. reflexivity.
Qed.

End Dirty.

(** C10, witness: the voice of the fixed-frequency patch, marked dirty. *)
Lemma renderInternal_dirty_returns_after_setup_witness :
  @FmVoice.Voice.renderInternal Examples.platform Examples.dirtyVoice
    Examples.fixedParameters
    [FmOperator.View.mk 0 2; FmOperator.View.mk 2 2;
     FmOperator.View.mk 4 2; FmOperator.View.mk 4 2]
    (replicate 6 (1 # 3)) 2
  = Some (fst (@FmVoice.Voice.setup Examples.platform Examples.dirtyVoice),
          replicate 6 (1 # 3))
  /\ snd (@FmVoice.Voice.setup Examples.platform Examples.dirtyVoice) = true
  /\ FmVoice.Voice.dirty
       (fst (@FmVoice.Voice.setup Examples.platform Examples.dirtyVoice))
     = false
  /\ Spec.setupFrame Examples.dirtyVoice
       (fst (@FmVoice.Voice.setup Examples.platform Examples.dirtyVoice)).
Proof.
  apply (@renderInternal_dirty_returns_after_setup Examples.platform
           Examples.dirtyVoice Examples.fixedParameters
           [FmOperator.View.mk 0 2; FmOperator.View.mk 2 2;
            FmOperator.View.mk 4 2; FmOperator.View.mk 4 2]
           (replicate 6 (1 # 3)) 2).
  reflexivity.
Defined.

(** ** fm/patch.js: the errors of the bank and voice decoders *)

Lemma fromBytes_length (data : list Z) :
  Z.of_nat (length data) = FmPatch.SYX_SIZE ->
  exists patch, FmPatch.Patch.fromBytes data = Ok patch.
Proof.
  intros Hl. unfold FmPatch.Patch.fromBytes, FmPatch.Patch.unpack.
  rewrite Hl, Z.eqb_refl. cbn [negb]. eexists. reflexivity.
Qed.

Lemma fromBytes_bad_length (data : list Z) :
  Z.of_nat (length data) <> FmPatch.SYX_SIZE ->
  FmPatch.Patch.fromBytes data = Throw BadVoiceLength.
Proof.
  intros Hl. unfold FmPatch.Patch.fromBytes, FmPatch.Patch.unpack.
  apply Z.eqb_neq in Hl. rewrite Hl. reflexivity.
Qed.

Lemma checkHeader_spec (data : list Z) :
  (6 <= length data)%nat ->
  (take 6 data = FmPatch.HEADER_BANK
   /\ FmPatch.PatchBank.checkHeader data = Ok tt)
  \/ (take 6 data <> FmPatch.HEADER_BANK
      /\ FmPatch.PatchBank.checkHeader data = Throw BadBankHeader).
Proof.
  intros Hl.
  destruct data as [|b0 [|b1 [|b2 [|b3 [|b4 [|b5 rest]]]]]];
    try (cbn in Hl; lia).
  unfold FmPatch.PatchBank.checkHeader, FmPatch.HEADER_BANK, JS.for_,
    JS.getZ.
  simpl.
  destruct (Z.eqb_spec b0 240) as [->|N0];
    [|right; split; [congruence|reflexivity]].
  destruct (Z.eqb_spec b1 67) as [->|N1];
    [|right; split; [congruence|reflexivity]].
  destruct (Z.eqb_spec b2 0) as [->|N2];
    [|right; split; [congruence|reflexivity]].
  destruct (Z.eqb_spec b3 9) as [->|N3];
    [|right; split; [congruence|reflexivity]].
  destruct (Z.eqb_spec b4 32) as [->|N4];
    [|right; split; [congruence|reflexivity]].
  destruct (Z.eqb_spec b5 0) as [->|N5];
    [|right; split; [congruence|reflexivity]].
  left. split; reflexivity.
Qed.

(** The bytes of voice [idx] of a bank. *)
Lemma bank_slice_length (data : list Z) (idx : nat) :
  Z.of_nat (length data) = FmPatch.BULK_FULL_SYSEX_SIZE ->
  (idx < 32)%nat ->
  Z.of_nat
    (length (JS.slice (JS.sliceFrom data 6)
               (Z.of_nat idx * FmPatch.SYX_SIZE)
               ((Z.of_nat idx + 1) * FmPatch.SYX_SIZE)))
  = FmPatch.SYX_SIZE.
Proof.
  unfold FmPatch.BULK_FULL_SYSEX_SIZE, FmPatch.SYX_SIZE, JS.slice,
    JS.sliceFrom.
  intros Hl Hi. rewrite length_take, !length_drop. lia.
Qed.

Lemma bank_voices (data : list Z) :
  Z.of_nat (length data) = FmPatch.BULK_FULL_SYSEX_SIZE ->
  exists patches,
    JS.for_ (Z.to_nat FmPatch.BANK_PATCHES) (fun idx r =>
      bind r (fun patches =>
        bind (FmPatch.Patch.fromBytes
                (JS.slice (JS.sliceFrom data 6) (idx * FmPatch.SYX_SIZE)
                   ((idx + 1) * FmPatch.SYX_SIZE)))
          (fun patch => Ok (patches ++ [patch])))) (Ok [])
    = Ok patches
    /\ Forall2 (Spec.decodedFrom data) (seq 0 32) patches.
Proof.
  intros Hl.
  apply (for_invariant_indexed (fun k r =>
           exists patches, r = Ok patches
             /\ Forall2 (Spec.decodedFrom data) (seq 0 k) patches)).
  - exists []. split; [reflexivity|constructor].
  - intros i r Hi (patches & -> & Hall).
    destruct (fromBytes_length _ (bank_slice_length data i Hl Hi))
      as [patch Hpatch].
    exists (patches ++ [patch]). cbn [bind].
    rewrite Hpatch. cbn [bind]. split; [reflexivity|].
    rewrite seq_S. apply Forall2_app; [exact Hall|].
    constructor; [exact Hpatch|constructor].
Qed.

(** C6: the bank constructor throws the length error exactly when the input
    is not 4104 bytes long, the header error exactly when it is 4104 bytes
    long and its first six bytes are not F0 43 00 09 20 00, and otherwise
    returns 32 patches, each decoded from its 128 bytes; the voice decoder
    throws exactly when its input is not 128 bytes long; neither throws
    anything else, whatever the values of the bytes. *)
Theorem bank_and_voice_errors (data : list Z) :
  (FmPatch.PatchBank.new data = Throw BadBankLength
   <-> Z.of_nat (length data) <> 4104%Z)
  /\ (FmPatch.PatchBank.new data = Throw BadBankHeader
      <-> Z.of_nat (length data) = 4104%Z
          /\ take 6 data <> [0xF0; 0x43; 0x00; 0x09; 0x20; 0x00]%Z)
  /\ ((exists bank,
         FmPatch.PatchBank.new data = Ok bank
         /\ length (FmPatch.PatchBank.patches bank) = 32%nat
         /\ Forall2 (Spec.decodedFrom data) (seq 0 32)
              (FmPatch.PatchBank.patches bank))
      <-> Z.of_nat (length data) = 4104%Z
          /\ take 6 data = [0xF0; 0x43; 0x00; 0x09; 0x20; 0x00]%Z)
  /\ (forall e, FmPatch.PatchBank.new data = Throw e ->
        e = BadBankLength \/ e = BadBankHeader)
  /\ (FmPatch.Patch.fromBytes data = Throw BadVoiceLength
      <-> Z.of_nat (length data) <> 128%Z)
  /\ ((exists patch, FmPatch.Patch.fromBytes data = Ok patch)
      <-> Z.of_nat (length data) = 128%Z)
  /\ (forall e, FmPatch.Patch.fromBytes data = Throw e ->
        e = BadVoiceLength).
Proof.
  assert (Hbank :
    (Z.of_nat (length data) <> 4104%Z
     /\ FmPatch.PatchBank.new data = Throw BadBankLength)
    \/ (Z.of_nat (length data) = 4104%Z
        /\ take 6 data <> FmPatch.HEADER_BANK
        /\ FmPatch.PatchBank.new data = Throw BadBankHeader)
    \/ (Z.of_nat (length data) = 4104%Z
        /\ take 6 data = FmPatch.HEADER_BANK
        /\ exists bank,
             FmPatch.PatchBank.new data = Ok bank
             /\ length (FmPatch.PatchBank.patches bank) = 32%nat
             /\ Forall2 (Spec.decodedFrom data) (seq 0 32)
                  (FmPatch.PatchBank.patches bank))).
  { unfold FmPatch.PatchBank.new.
    destruct (Z.eqb_spec (Z.of_nat (length data))
                FmPatch.BULK_FULL_SYSEX_SIZE) as [Hl|Hl]; cbn [negb].
    2: { left. split; [exact Hl|reflexivity]. }
    right.
    destruct (checkHeader_spec data) as [[Hh ->]|[Hh ->]].
    { unfold FmPatch.BULK_FULL_SYSEX_SIZE in Hl. lia. }
    - right. split; [exact Hl|split; [exact Hh|]].
      cbn [bind]. cbv zeta.
      destruct (bank_voices data Hl) as (patches & -> & Hall).
      cbn [bind]. eexists. split; [reflexivity|].
      cbn [FmPatch.PatchBank.patches].
      split; [|exact Hall].
      apply Forall2_length in Hall. rewrite <- Hall. reflexivity.
    - left. split; [exact Hl|split; [exact Hh|reflexivity]]. }
  assert (Hvoice :
    (Z.of_nat (length data) <> 128%Z
     /\ FmPatch.Patch.fromBytes data = Throw BadVoiceLength)
    \/ (Z.of_nat (length data) = 128%Z
        /\ exists patch, FmPatch.Patch.fromBytes data = Ok patch)).
  { destruct (Z.eq_dec (Z.of_nat (length data)) 128) as [Hl|Hl].
    - right. split; [exact Hl|]. apply fromBytes_length. exact Hl.
    - left. split; [exact Hl|]. apply fromBytes_bad_length. exact Hl. }
  change FmPatch.HEADER_BANK with [0xF0; 0x43; 0x00; 0x09; 0x20; 0x00]%Z
    in Hbank.
  repeat split.
  - intros E. destruct Hbank as [[? _]|[(_ & _ & E')|(_ & _ & b & E' & _)]];
      [assumption|congruence|congruence].
  - intros N. destruct Hbank as [[_ ?]|[(E & _)|(E & _)]];
      [assumption|contradiction|contradiction].
  - destruct Hbank as [[_ E']|[(? & _)|(_ & _ & b & E' & _)]];
      [congruence|assumption|congruence].
  - destruct Hbank as [[_ E']|[(_ & ? & _)|(_ & _ & b & E' & _)]];
      [congruence|assumption|congruence].
  - intros [Hl Hh].
    destruct Hbank as [[N _]|[(_ & _ & ?)|(_ & Hh' & _)]];
      [contradiction|assumption|contradiction].
  - destruct Hbank as [[_ E']|[(_ & _ & E')|(? & _)]];
      [destruct H as (b & E & _); congruence
      |destruct H as (b & E & _); congruence|assumption].
  - destruct Hbank as [[_ E']|[(_ & _ & E')|(_ & ? & _)]];
      [destruct H as (b & E & _); congruence
      |destruct H as (b & E & _); congruence|assumption].
  - intros [Hl Hh].
    destruct Hbank as [[N _]|[(_ & N & _)|(_ & _ & ?)]];
      [contradiction|contradiction|assumption].
  - intros e E.
    destruct Hbank as [[_ E']|[(_ & _ & E')|(_ & _ & b & E' & _)]];
      [left; congruence|right; congruence|congruence].
  - intros E. destruct Hvoice as [[? _]|(_ & p & E')];
      [assumption|congruence].
  - intros N. destruct Hvoice as [[_ ?]|(E & _)];
      [assumption|contradiction].
  - intros (p & E). destruct Hvoice as [[_ E']|(? & _)];
      [congruence|assumption].
  - intros Hl. destruct Hvoice as [[N _]|(_ & ?)];
      [contradiction|assumption].
  - intros e E. destruct Hvoice as [[_ E']|(_ & p & E')]; congruence.
Qed.

(** ** fm/envelope.js: the stage of an envelope *)

Lemma renderScaled_numStages (e : FmEnvelope.Envelope.t) (gate : bool)
    (rate adScale releaseScale : Q) :
  FmEnvelope.Envelope.numStages
    (fst (FmEnvelope.Envelope.renderScaled e gate rate adScale releaseScale))
  = FmEnvelope.Envelope.numStages e.
Proof.
  unfold FmEnvelope.Envelope.renderScaled.
  destruct gate, (FmEnvelope.Envelope.stage e
                  =? FmEnvelope.Envelope.numStages e - 1)%Z;
    cbn [negb]; cbv zeta;
    repeat match goal with
           | |- context [if ?c then _ else _] => destruct c
           end; reflexivity.
Qed.

(** The stage after one call, by cases on the gate and on the stage
    before it. *)
Lemma renderScaled_stage (e : FmEnvelope.Envelope.t) (gate : bool)
    (rate adScale releaseScale : Q) :
  Spec.stageInRange e ->
  let e' :=
    fst (FmEnvelope.Envelope.renderScaled e gate rate adScale releaseScale) in
  Spec.stageInRange e'
  /\ (gate = false -> FmEnvelope.Envelope.stage e' = Spec.lastStage e')
  /\ (gate = true ->
      FmEnvelope.Envelope.stage e <> Spec.lastStage e ->
      FmEnvelope.Envelope.stage e' <> Spec.lastStage e').
Proof.
  intros Hr. cbv zeta. unfold Spec.stageInRange, Spec.lastStage in *.
  rewrite renderScaled_numStages.
  unfold FmEnvelope.Envelope.renderScaled.
  destruct e as [n reshape stage phase start increment level scale].
  cbn [FmEnvelope.Envelope.stage FmEnvelope.Envelope.numStages] in *.
  destruct gate, (Z.eqb_spec stage (n - 1)) as [E|E];
    cbn [negb]; cbv zeta;
    cbn [FmEnvelope.Envelope.with_stage FmEnvelope.Envelope.with_phase
         FmEnvelope.Envelope.with_start FmEnvelope.Envelope.stage
         FmEnvelope.Envelope.numStages FmEnvelope.Envelope.phase
         FmEnvelope.Envelope.increment];
    repeat match goal with
           | |- context [if JS.Qgeb ?a ?b then _ else _] =>
               destruct (JS.Qgeb a b)
           | |- context [(?a =? ?b)%Z] => destruct (Z.eqb_spec a b)
           | |- context [(?a <=? ?b)%Z] => destruct (Z.leb_spec a b)
           end;
    cbn [FmEnvelope.Envelope.with_stage FmEnvelope.Envelope.with_phase
         FmEnvelope.Envelope.with_start FmEnvelope.Envelope.stage
         FmEnvelope.Envelope.numStages fst];
    repeat split; try congruence; try lia.
Qed.

Lemma renderMany_numStages (calls : list Spec.RenderArgs)
    (e : FmEnvelope.Envelope.t) :
  FmEnvelope.Envelope.numStages (Spec.renderMany e calls)
  = FmEnvelope.Envelope.numStages e.
Proof.
  revert e. induction calls as [|c calls IH]; intros e; [reflexivity|].
  cbn [Spec.renderMany fold_left]. fold (Spec.renderMany).
  etransitivity; [apply IH|apply renderScaled_numStages].
Qed.

Lemma renderMany_stageInRange (calls : list Spec.RenderArgs)
    (e : FmEnvelope.Envelope.t) :
  Spec.stageInRange e -> Spec.stageInRange (Spec.renderMany e calls).
Proof.
  revert e. induction calls as [|c calls IH]; intros e He; [exact He|].
  apply IH. apply renderScaled_stage. exact He.
Qed.

(** While the gate is held, an envelope that is out of its last stage
    stays out of it. *)
Lemma renderMany_held (calls : list Spec.RenderArgs)
    (e : FmEnvelope.Envelope.t) :
  Spec.stageInRange e ->
  Forall (fun c => Spec.gate c = true) calls ->
  FmEnvelope.Envelope.stage e <> Spec.lastStage e ->
  FmEnvelope.Envelope.stage (Spec.renderMany e calls)
  <> Spec.lastStage (Spec.renderMany e calls).
Proof.
  revert e. induction calls as [|c calls IH]; intros e He Hheld Hout;
    [exact Hout|].
  inversion Hheld as [|? ? Hc Hrest]; subst.
  destruct (renderScaled_stage e (Spec.gate c) (Spec.rate c) (Spec.adScale c)
              (Spec.releaseScale c) He) as (Hr & _ & Hkeep).
  apply IH; [exact Hr|exact Hrest|]. apply Hkeep; assumption.
Qed.

(** C7: the stage of an envelope stays in [0, numStages - 1] under every
    sequence of render calls; once a call with the gate on has left the
    envelope out of its last stage, no further calls with the gate on bring
    it back there; and a call that brings an envelope into its last stage
    has the gate off. *)
Theorem envelope_stage_invariant (e : FmEnvelope.Envelope.t) :
  Spec.stageInRange e ->
  (forall calls, Spec.stageInRange (Spec.renderMany e calls))
  /\ (forall rate adScale releaseScale held,
        let e1 :=
          fst (FmEnvelope.Envelope.renderScaled e true rate adScale
                 releaseScale) in
        FmEnvelope.Envelope.stage e1 <> Spec.lastStage e1 ->
        Forall (fun c => Spec.gate c = true) held ->
        FmEnvelope.Envelope.stage (Spec.renderMany e1 held)
        <> Spec.lastStage (Spec.renderMany e1 held))
  /\ (forall gate rate adScale releaseScale,
        let e1 :=
          fst (FmEnvelope.Envelope.renderScaled e gate rate adScale
                 releaseScale) in
        FmEnvelope.Envelope.stage e <> Spec.lastStage e ->
        FmEnvelope.Envelope.stage e1 = Spec.lastStage e1 ->
        gate = false)
  /\ (forall gate,
        fst (FmEnvelope.Envelope.render e gate)
        = fst (FmEnvelope.Envelope.renderScaled e gate 1.0 1.0 1.0)).
Proof.
  intros He. split; [|split; [|split]].
  - intros calls. apply renderMany_stageInRange. exact He.
  - intros rate adScale releaseScale held e1 Hout Hheld.
    apply renderMany_held; [|exact Hheld|exact Hout].
    apply renderScaled_stage. exact He.
  - intros gate rate adScale releaseScale e1 Hout Hin.
    destruct gate; [|reflexivity].
    destruct (renderScaled_stage e true rate adScale releaseScale He)
      as (_ & _ & Hkeep).
    exfalso. apply (Hkeep eq_refl Hout). exact Hin.
  - reflexivity.
Qed.

(** C7, witness: a new four-stage envelope, which starts in its last
    stage. *)
Lemma envelope_stage_invariant_witness :
  (forall calls,
     Spec.stageInRange (Spec.renderMany Examples.newEnvelope calls))
  /\ (forall rate adScale releaseScale held,
        let e1 :=
          fst (FmEnvelope.Envelope.renderScaled Examples.newEnvelope true
                 rate adScale releaseScale) in
        FmEnvelope.Envelope.stage e1 <> Spec.lastStage e1 ->
        Forall (fun c => Spec.gate c = true) held ->
        FmEnvelope.Envelope.stage (Spec.renderMany e1 held)
        <> Spec.lastStage (Spec.renderMany e1 held))
  /\ (forall gate rate adScale releaseScale,
        let e1 :=
          fst (FmEnvelope.Envelope.renderScaled Examples.newEnvelope gate
                 rate adScale releaseScale) in
        FmEnvelope.Envelope.stage Examples.newEnvelope
        <> Spec.lastStage Examples.newEnvelope ->
        FmEnvelope.Envelope.stage e1 = Spec.lastStage e1 ->
        gate = false)
  /\ (forall gate,
        fst (FmEnvelope.Envelope.render Examples.newEnvelope gate)
        = fst (FmEnvelope.Envelope.renderScaled Examples.newEnvelope gate
                 1.0 1.0 1.0)).
Proof.
  apply (envelope_stage_invariant Examples.newEnvelope).
  unfold Spec.stageInRange. vm_compute. split; discriminate.
Defined.

(** ** fm/operator.js: the phase accumulators *)

Section Phase.
Context `{Platform}.

(** One round of the operator loop updates the phase of operator [i] and
    no other phase. *)
Lemma operatorStep_phase (MODULATION_SOURCE : Z) (frequency : list Z)
    (amplitudeIncrement : list Q) (i : Z) (s : FmOperator.Inner) :
  (0 <= i)%Z -> (Z.to_nat i < length (FmOperator.i_phase s))%nat ->
  let s' :=
    FmOperator.operatorStep MODULATION_SOURCE frequency amplitudeIncrement
      i s in
  length (FmOperator.i_phase s') = length (FmOperator.i_phase s)
  /\ JS.getZ (FmOperator.i_phase s') i
     = Spec.phaseUpdate (JS.getZ (FmOperator.i_phase s) i)
         (JS.getZ frequency i)
  /\ (forall k, (0 <= k)%Z -> k <> i ->
        JS.getZ (FmOperator.i_phase s') k
        = JS.getZ (FmOperator.i_phase s) k).
Proof.
  intros Hi Hl. cbv zeta. unfold FmOperator.operatorStep.
  assert (Hphase :
    forall s', FmOperator.i_phase s'
               = JS.setZ JS.ToUint32Z (FmOperator.i_phase s) i
                   (JS.ToUint32Z
                      (JS.getZ (FmOperator.i_phase s) i
                       + JS.getZ frequency i)) ->
    length (FmOperator.i_phase s') = length (FmOperator.i_phase s)
    /\ JS.getZ (FmOperator.i_phase s') i
       = Spec.phaseUpdate (JS.getZ (FmOperator.i_phase s) i)
           (JS.getZ frequency i)
    /\ (forall k, (0 <= k)%Z -> k <> i ->
          JS.getZ (FmOperator.i_phase s') k
          = JS.getZ (FmOperator.i_phase s) k)).
  { intros s' ->. split; [apply length_setZ|split].
    - rewrite getZ_setZ_same by assumption.
      unfold Spec.phaseUpdate. apply ToUint32Z_small, ToUint32Z_range.
    - intros k Hk Hne. apply getZ_setZ_other; [assumption..|congruence]. }
  destruct (i =? MODULATION_SOURCE)%Z; apply Hphase; reflexivity.
Qed.

(** One sample of a chain of [N] operators advances every phase of the
    chain by its frequency, modulo 2^32. *)
Lemma sampleStep_phase (N : nat) (MODULATION_SOURCE : Z) (ADDITIVE : bool)
    (frequency : list Z) (amplitudeIncrement : list Q) (fbScale : Q)
    (modulation out : FmOperator.View.t) (sampleIdx : Z)
    (s : FmOperator.Loop) :
  length (FmOperator.l_phase s) = N ->
  let s' :=
    FmOperator.sampleStep N MODULATION_SOURCE ADDITIVE frequency
      amplitudeIncrement fbScale modulation out sampleIdx s in
  length (FmOperator.l_phase s') = N
  /\ forall k, (0 <= k < Z.of_nat N)%Z ->
       JS.getZ (FmOperator.l_phase s') k
       = Spec.phaseUpdate (JS.getZ (FmOperator.l_phase s) k)
           (JS.getZ frequency k).
Proof.
  intros Hl. cbv zeta. unfold FmOperator.sampleStep.
  cbn [FmOperator.l_phase].
  match goal with
  | |- context [JS.for_ N ?body ?init] =>
      set (inner := JS.for_ N body init);
      assert (Hinner :
        length (FmOperator.i_phase inner) = N
        /\ forall k, (0 <= k)%Z ->
             JS.getZ (FmOperator.i_phase inner) k
             = if (k <? Z.of_nat N)%Z
               then Spec.phaseUpdate (JS.getZ (FmOperator.l_phase s) k)
                      (JS.getZ frequency k)
               else JS.getZ (FmOperator.l_phase s) k);
      [subst inner;
       apply (for_invariant_indexed (fun j r =>
          length (FmOperator.i_phase r) = N
          /\ forall k, (0 <= k)%Z ->
               JS.getZ (FmOperator.i_phase r) k
               = if (k <? Z.of_nat j)%Z
                 then Spec.phaseUpdate (JS.getZ (FmOperator.l_phase s) k)
                        (JS.getZ frequency k)
                 else JS.getZ (FmOperator.l_phase s) k))|]
  end.
  - cbn [FmOperator.i_phase]. split; [exact Hl|].
    intros k Hk. destruct (Z.ltb_spec k (Z.of_nat 0)); [lia|reflexivity].
  - intros j r Hj [Hlen Hcells].
    destruct (operatorStep_phase MODULATION_SOURCE frequency
                amplitudeIncrement (Z.of_nat j) r) as (Hl' & Hsame & Hother);
      [lia|lia|].
    split; [lia|]. intros k Hk.
    destruct (Z.eq_dec k (Z.of_nat j)) as [->|Hne].
    + rewrite Hsame, (Hcells _ Hk).
      destruct (Z.ltb_spec (Z.of_nat j) (Z.of_nat j)); [lia|].
      destruct (Z.ltb_spec (Z.of_nat j) (Z.of_nat (S j))); [reflexivity|lia].
    + rewrite (Hother k Hk Hne), (Hcells _ Hk).
      destruct (Z.ltb_spec k (Z.of_nat j)), (Z.ltb_spec k (Z.of_nat (S j)));
        try reflexivity; lia.
  - destruct Hinner as [Hlen Hcells]. split; [exact Hlen|].
    intros k Hk. rewrite (Hcells k) by lia.
    destruct (Z.ltb_spec k (Z.of_nat N)); [reflexivity|lia].
Qed.

End Phase.

(** Accumulating modulo 2^32 gives the sum modulo 2^32. *)
Lemma fold_phaseUpdate_sum (increments : list Z) (p : Z) :
  (0 <= p < JS.two32)%Z ->
  fold_left Spec.phaseUpdate increments p
  = ((p + Spec.sumZ increments) mod JS.two32)%Z.
Proof.
  revert p. induction increments as [|i incs IH]; intros p Hp.
  - cbn. rewrite Z.add_0_r. symmetry. apply Z.mod_small. exact Hp.
  - cbn [fold_left Spec.sumZ fold_right].
    rewrite IH by apply ToUint32Z_range.
    unfold Spec.phaseUpdate, JS.ToUint32Z.
    rewrite Zplus_mod_idemp_l. f_equal. fold (Spec.sumZ incs). lia.
Qed.

Lemma accumulate64_sum (increments : list Z) (p : Z) :
  (0 <= p < Spec.two64)%Z ->
  Spec.accumulate64 p increments
  = ((p + Spec.sumZ increments) mod Spec.two64)%Z.
Proof.
  unfold Spec.accumulate64.
  revert p. induction increments as [|i incs IH]; intros p Hp.
  - cbn. rewrite Z.add_0_r. symmetry. apply Z.mod_small. exact Hp.
  - cbn [fold_left Spec.sumZ fold_right].
    rewrite IH by (apply Z.mod_pos_bound; reflexivity).
    rewrite Zplus_mod_idemp_l. f_equal. fold (Spec.sumZ incs). lia.
Qed.

(** C8: in the chain renderer one sample replaces the phase of every
    operator [k] of the chain by [(phase[k] + frequency[k]) mod 2^32]; and
    for every 32-bit phase [p] and every sequence of increments, repeating
    that update gives [(p + i1 + ... + in) mod 2^32], which is what a
    64-bit accumulation truncated to 32 bits gives. *)
Theorem phase_accumulation_exact `{Platform} (N : nat)
    (MODULATION_SOURCE : Z) (ADDITIVE : bool) (frequency : list Z)
    (amplitudeIncrement : list Q) (fbScale : Q)
    (modulation out : FmOperator.View.t) (sampleIdx : Z)
    (s : FmOperator.Loop) (p : Z) (increments : list Z) :
  length (FmOperator.l_phase s) = N ->
  (0 <= p < JS.two32)%Z ->
  (forall k, (0 <= k < Z.of_nat N)%Z ->
     JS.getZ
       (FmOperator.l_phase
          (FmOperator.sampleStep N MODULATION_SOURCE ADDITIVE frequency
             amplitudeIncrement fbScale modulation out sampleIdx s)) k
     = Spec.phaseUpdate (JS.getZ (FmOperator.l_phase s) k)
         (JS.getZ frequency k))
  /\ fold_left Spec.phaseUpdate increments p
     = ((p + Spec.sumZ increments) mod 4294967296)%Z
  /\ fold_left Spec.phaseUpdate increments p
     = Spec.truncate32 (Spec.accumulate64 p increments).
Proof.
  intros Hl Hp. split; [|split].
  - apply (sampleStep_phase N MODULATION_SOURCE ADDITIVE frequency
             amplitudeIncrement fbScale modulation out sampleIdx s Hl).
  - apply fold_phaseUpdate_sum. exact Hp.
  - rewrite fold_phaseUpdate_sum by exact Hp.
    rewrite accumulate64_sum by (unfold JS.two32, Spec.two64 in *; lia).
    unfold Spec.truncate32, Spec.two64, JS.two32.
    change 18446744073709551616%Z with (4294967296 * 4294967296)%Z.
    rewrite Z.rem_mul_r by lia.
    rewrite Z.mul_comm, Z_mod_plus_full. rewrite Z.mod_mod by lia.
    reflexivity.
Qed.

(** C8, witness: a chain of two operators, and the phase 2^32 - 6
    advanced by 2^32 - 1 and then by 7. *)
Lemma phase_accumulation_exact_witness :
  (forall k, (0 <= k < Z.of_nat 2)%Z ->
     JS.getZ
       (FmOperator.l_phase
          (@FmOperator.sampleStep Examples.platform 2 (-1) false
             [4294967295; 7]%Z [0.0; 0.0] 0.0
             (FmOperator.View.mk 0 1) (FmOperator.View.mk 1 1) 0
             Examples.twoPhases)) k
     = Spec.phaseUpdate (JS.getZ (FmOperator.l_phase Examples.twoPhases) k)
         (JS.getZ [4294967295; 7]%Z k))
  /\ fold_left Spec.phaseUpdate [4294967295; 7]%Z 4294967290%Z
     = ((4294967290 + Spec.sumZ [4294967295; 7]%Z) mod 4294967296)%Z
  /\ fold_left Spec.phaseUpdate [4294967295; 7]%Z 4294967290%Z
     = Spec.truncate32 (Spec.accumulate64 4294967290 [4294967295; 7]%Z).
Proof.
  apply (@phase_accumulation_exact Examples.platform 2 (-1) false
           [4294967295; 7]%Z [0.0; 0.0] 0.0
           (FmOperator.View.mk 0 1) (FmOperator.View.mk 1 1) 0
           Examples.twoPhases 4294967290 [4294967295; 7]%Z).
  - reflexivity.
  - unfold JS.two32. lia.
Defined.

(** ** fm/patch.js: the ranges of the decoded fields *)

Lemma mask_min_range (x k hi : Z) :
  (0 <= k < 31)%Z -> (0 <= hi)%Z ->
  Spec.within 0 hi (Z.min (JS.and x (Z.ones k)) hi).
Proof.
  intros Hk Hhi. pose proof (and_ones_range x k Hk). unfold Spec.within. lia.
Qed.

Lemma mask_range (x k : Z) :
  (0 <= k < 31)%Z -> Spec.within 0 (Z.ones k) (JS.and x (Z.ones k)).
Proof. intros Hk. apply and_ones_range. exact Hk. Qed.

Lemma setU8_within (hi : Z) (a : list Z) (i x : Z) :
  (hi < 256)%Z -> Forall (Spec.within 0 hi) a -> Spec.within 0 hi x ->
  Forall (Spec.within 0 hi) (JS.setZ JS.ToUint8 a i x).
Proof.
  intros Hhi Ha Hx. unfold JS.setZ. destruct (i <? 0)%Z; [exact Ha|].
  apply Forall_insert; [exact Ha|].
  unfold Spec.within, JS.ToUint8 in *. rewrite Z.mod_small; lia.
Qed.

Lemma unpackOperator_in_range (o : FmPatch.Operator.t) (opData : list Z) :
  Spec.operatorInRange o ->
  Spec.operatorInRange (FmPatch.Patch.unpackOperator o opData).
Proof.
  intros (Hrate & Hlevel & _).
  unfold FmPatch.Patch.unpackOperator, Spec.operatorInRange.
  cbn [FmPatch.Operator.envelope FmPatch.Operator.keyboardScaling
       FmPatch.Operator.rateScaling FmPatch.Operator.ampModSensitivity
       FmPatch.Operator.velocitySensitivity FmPatch.Operator.level
       FmPatch.Operator.mode FmPatch.Operator.coarse FmPatch.Operator.fine
       FmPatch.Operator.detune FmPatch.KeyboardScaling.breakPoint
       FmPatch.KeyboardScaling.leftDepth FmPatch.KeyboardScaling.rightDepth
       FmPatch.KeyboardScaling.leftCurve FmPatch.KeyboardScaling.rightCurve].
  assert (Henv :
    Forall (Spec.within 0 99)
      (FmPatch.OpEnvelope.rate
         (JS.for_ 4 (fun j env =>
            FmPatch.OpEnvelope.mk
              (JS.setZ JS.ToUint8 (FmPatch.OpEnvelope.rate env) j
                 (Z.min (JS.and (JS.getZ opData j) 127) 99))
              (JS.setZ JS.ToUint8 (FmPatch.OpEnvelope.level env) j
                 (Z.min (JS.and (JS.getZ opData (4 + j)) 127) 99)))
            (FmPatch.Operator.envelope o)))
    /\ Forall (Spec.within 0 99)
         (FmPatch.OpEnvelope.level
            (JS.for_ 4 (fun j env =>
               FmPatch.OpEnvelope.mk
                 (JS.setZ JS.ToUint8 (FmPatch.OpEnvelope.rate env) j
                    (Z.min (JS.and (JS.getZ opData j) 127) 99))
                 (JS.setZ JS.ToUint8 (FmPatch.OpEnvelope.level env) j
                    (Z.min (JS.and (JS.getZ opData (4 + j)) 127) 99)))
               (FmPatch.Operator.envelope o)))).
  { apply (for_invariant (fun env =>
             Forall (Spec.within 0 99) (FmPatch.OpEnvelope.rate env)
             /\ Forall (Spec.within 0 99) (FmPatch.OpEnvelope.level env))).
    - split; assumption.
    - intros j env _ [Hr Hl]. cbn [FmPatch.OpEnvelope.rate
                                   FmPatch.OpEnvelope.level].
      split; (apply setU8_within; [lia|assumption|]);
        apply (mask_min_range _ 7); lia. }
  destruct Henv as [Hr Hl].
  split; [exact Hr|split; [exact Hl|]].
  repeat split;
    first [ apply (mask_min_range _ 7); lia
          | apply (mask_min_range _ 4); lia
          | apply (mask_range _ 1); lia
          | apply (mask_range _ 2); lia
          | apply (mask_range _ 3); lia
          | apply (mask_range _ 5); lia ].
Qed.

Lemma new_operator_in_range : Spec.operatorInRange FmPatch.Operator.new.
Proof.
  unfold Spec.operatorInRange, Spec.within. cbn.
  repeat split; try lia; repeat constructor; lia.
Qed.

(** Every field but the pitch-mod sensitivity is in its documented range,
    whatever the bytes are. *)
Lemma fromBytes_in_range (data : list Z) (patch : FmPatch.Patch.t) :
  FmPatch.Patch.fromBytes data = Ok patch -> Spec.patchInRange patch.
Proof.
  unfold FmPatch.Patch.fromBytes, FmPatch.Patch.unpack.
  destruct (negb _); [discriminate|]. intros [= <-].
  unfold Spec.patchInRange.
  cbn [FmPatch.Patch.op FmPatch.Patch.pitchEnvelope FmPatch.Patch.algorithm
       FmPatch.Patch.feedback FmPatch.Patch.resetPhase
       FmPatch.Patch.modulations FmPatch.Patch.transpose FmPatch.Patch.name
       FmPatch.Patch.activeOperators FmPatch.ModulationParameters.rate
       FmPatch.ModulationParameters.delay
       FmPatch.ModulationParameters.pitchModDepth
       FmPatch.ModulationParameters.ampModDepth
       FmPatch.ModulationParameters.resetPhase
       FmPatch.ModulationParameters.waveform].
  assert (Hops :
    forall body,
      (forall i o, Spec.operatorInRange o -> Spec.operatorInRange (body i o)) ->
      let ops :=
        JS.for_ 6 (fun i ops => alter (body i) (Z.to_nat i) ops)
          (FmPatch.Patch.op FmPatch.Patch.new) in
      length ops = 6%nat /\ Forall Spec.operatorInRange ops).
  { intros body Hbody.
    apply (for_invariant (fun ops =>
             length ops = 6%nat /\ Forall Spec.operatorInRange ops)).
    - split; [reflexivity|].
      repeat constructor; apply new_operator_in_range.
    - intros i ops _ [Hlen Hall]. split; [rewrite length_alter; exact Hlen|].
      apply Forall_alter; [exact Hall|]. intros o _. apply Hbody. }
  destruct (Hops (fun i o =>
              FmPatch.Patch.unpackOperator o (JS.sliceFrom data (i * 17))))
    as [Hlen Hall].
  { intros i o. apply unpackOperator_in_range. }
  split; [exact Hlen|split; [exact Hall|]].
  assert (Hpe :
    Forall (Spec.within 0 99)
      (FmPatch.PitchEnvelope.rate
         (JS.for_ 4 (fun j pe =>
            FmPatch.PitchEnvelope.mk
              (JS.setZ JS.ToUint8 (FmPatch.PitchEnvelope.rate pe) j
                 (Z.min (JS.and (JS.getZ data (102 + j)) 127) 99))
              (JS.setZ JS.ToUint8 (FmPatch.PitchEnvelope.level pe) j
                 (Z.min (JS.and (JS.getZ data (106 + j)) 127) 99)))
            (FmPatch.Patch.pitchEnvelope FmPatch.Patch.new)))
    /\ Forall (Spec.within 0 99)
         (FmPatch.PitchEnvelope.level
            (JS.for_ 4 (fun j pe =>
               FmPatch.PitchEnvelope.mk
                 (JS.setZ JS.ToUint8 (FmPatch.PitchEnvelope.rate pe) j
                    (Z.min (JS.and (JS.getZ data (102 + j)) 127) 99))
                 (JS.setZ JS.ToUint8 (FmPatch.PitchEnvelope.level pe) j
                    (Z.min (JS.and (JS.getZ data (106 + j)) 127) 99)))
               (FmPatch.Patch.pitchEnvelope FmPatch.Patch.new)))).
  { apply (for_invariant (fun pe =>
             Forall (Spec.within 0 99) (FmPatch.PitchEnvelope.rate pe)
             /\ Forall (Spec.within 0 99) (FmPatch.PitchEnvelope.level pe))).
    - split; repeat constructor; unfold Spec.within; lia.
    - intros j pe _ [Hr Hl]. cbn [FmPatch.PitchEnvelope.rate
                                  FmPatch.PitchEnvelope.level].
      split; (apply setU8_within; [lia|assumption|]);
        apply (mask_min_range _ 7); lia. }
  destruct Hpe as [Hr Hl].
  split; [exact Hr|split; [exact Hl|]].
  assert (Hname :
    let name :=
      JS.for_ 10 (fun i name =>
        <[Z.to_nat i := JS.and (JS.getZ data (118 + i)) 127]> name)
        (FmPatch.Patch.name FmPatch.Patch.new) in
    length name = 10%nat /\ Forall (Spec.within 0 127) name).
  { apply (for_invariant (fun name =>
             length name = 10%nat /\ Forall (Spec.within 0 127) name)).
    - split; [reflexivity|]. repeat constructor; unfold Spec.within; lia.
    - intros i name _ [Hlen' Hall']. split; [rewrite length_insert; exact Hlen'|].
      apply Forall_insert; [exact Hall'|]. apply (mask_range _ 7). lia. }
  destruct Hname as [Hnl Hna].
  repeat split;
    first [ exact Hnl | exact Hna
          | apply (mask_min_range _ 7); lia
          | apply (mask_min_range _ 3); lia
          | apply (mask_range _ 1); lia
          | apply (mask_range _ 3); lia
          | apply (mask_range _ 5); lia ].
Qed.

(** The pitch-mod sensitivity is [data[116] >> 4], with no mask: in 0..15
    for a byte, and in 0..7 only when bit 7 of the byte is clear. *)
Lemma fromBytes_pitchModSensitivity (data : list Z)
    (patch : FmPatch.Patch.t) :
  FmPatch.Patch.fromBytes data = Ok patch ->
  (0 <= JS.getZ data 116 < 256)%Z ->
  FmPatch.ModulationParameters.pitchModSensitivity
    (FmPatch.Patch.modulations patch) = (JS.getZ data 116 / 16)%Z
  /\ (FmPatch.ModulationParameters.pitchModSensitivity
        (FmPatch.Patch.modulations patch) <= 7
      <-> JS.getZ data 116 < 128)%Z.
Proof.
  unfold FmPatch.Patch.fromBytes, FmPatch.Patch.unpack.
  destruct (negb _); [discriminate|]. intros [= <-] Hb.
  cbn [FmPatch.Patch.modulations
       FmPatch.ModulationParameters.pitchModSensitivity].
  unfold JS.sar. change (4 mod 32)%Z with 4%Z.
  rewrite ToInt32_small by lia. rewrite Z.shiftr_div_pow2 by lia.
  change (2 ^ 4)%Z with 16%Z. split; [reflexivity|].
  split; intros Hle.
  - apply Z.nle_gt. intros Hge.
    assert (8 <= JS.getZ data 116 / 16)%Z by (apply Z.div_le_lower_bound; lia).
    lia.
  - assert (JS.getZ data 116 / 16 < 8)%Z
      by (apply Z.div_lt_upper_bound; lia).
    lia.
Qed.

(** C2, at the failing input: a 128-byte voice whose byte 116 is 0x80 is
    accepted, and its pitch-mod sensitivity is 8, an index at which the
    8-entry sensitivity table has no entry. *)
Theorem fromBytes_pitchModSensitivity_unmasked :
  exists patch,
    FmPatch.Patch.fromBytes Examples.highBitVoiceBytes = Ok patch
    /\ FmPatch.ModulationParameters.pitchModSensitivity
         (FmPatch.Patch.modulations patch) = 8%Z
    /\ DxUnits.LUT_PITCH_MOD_SENSITIVITY !! 8%nat = None.
Proof. eexists. repeat split. Qed.

(** ** fm/voice.js: every render call returns *)

(** The walk ends for each of the 32 algorithms. *)
Lemma planWalks_all (algorithm : Z) :
  (0 <= algorithm < 32)%Z ->
  Spec.planWalks 6 FmAlgorithms.Algorithms.new algorithm 0 = true.
Proof.
  intros Ha.
  assert (Hall : forallb (fun a =>
            Spec.planWalks 6 FmAlgorithms.Algorithms.new (Z.of_nat a) 0)
            (seq 0 32) = true) by (vm_compute; reflexivity).
  rewrite forallb_forall in Hall.
  rewrite <- (Z2Nat.id algorithm) by lia.
  apply Hall. apply in_seq. lia.
Qed.

Lemma length_slice {A B} (l : list A) (l' : list B) (i j : Z) :
  length l = length l' -> length (JS.slice l i j) = length (JS.slice l' i j).
Proof.
  intros Hl. unfold JS.slice. rewrite !length_take, !length_drop, Hl.
  reflexivity.
Qed.

Section RenderReturns.
Context `{Platform}.

Lemma View_set_length (mem : list Q) (v : FmOperator.View.t) (i : Z)
    (x : Q) :
  length (FmOperator.View.set mem v i x) = length mem.
Proof.
  unfold FmOperator.View.set.
  destruct (_ && _); [apply length_set|reflexivity].
Qed.

(** A renderer keeps the number of operators of its slice and the size of
    the backing store. *)
Lemma renderOperators_lengths (N : nat) (MODULATION_SOURCE : Z)
    (ADDITIVE : bool) (ops : list FmOperator.Operator.t) (f a : list Q)
    (fbState : list Q) (fbAmount : Z) (mem : list Q)
    (modulation out : FmOperator.View.t) :
  let r :=
    FmOperator.renderOperators N MODULATION_SOURCE ADDITIVE ops f a fbState
      fbAmount mem modulation out in
  length (FmOperator.ops' r) = length ops
  /\ length (FmOperator.mem' r) = length mem.
Proof.
  cbv zeta. unfold FmOperator.renderOperators.
  destruct (JS.for_ N _ _) as [[[frequency phase] amplitude] increment].
  cbn [FmOperator.ops' FmOperator.mem']. split.
  - apply (for_invariant (fun l => length l = length ops)); [reflexivity|].
    intros i l _ Hl. rewrite length_insert. exact Hl.
  - apply (for_invariant (fun s =>
             length (FmOperator.l_store s) = length mem)); [reflexivity|].
    intros i s _ Hs. unfold FmOperator.sampleStep.
    cbn [FmOperator.l_store].
    destruct ADDITIVE; rewrite View_set_length; exact Hs.
Qed.

Lemma dispatch_returns (fuel : nat) (f a : list Q)
    (buffers : list FmOperator.View.t) (i : Z) (this : FmVoice.Voice.t)
    (mem : list Q) :
  Spec.plannable this ->
  Spec.planWalks fuel (FmVoice.Voice.algorithms this)
    (FmPatch.Patch.algorithm (FmVoice.Voice.patch this)) i = true ->
  exists this' mem',
    FmVoice.Voice.dispatch fuel f a buffers i this mem = Some (this', mem')
    /\ Spec.plannable this'
    /\ FmVoice.Voice.patch this' = FmVoice.Voice.patch this
    /\ length mem' = length mem.
Proof.
  revert i this mem.
  induction fuel as [|fuel IH]; intros i this mem Hp Hw.
  - cbn [Spec.planWalks FmVoice.Voice.dispatch] in *.
    destruct (i <? FmVoice.NUM_OPERATORS)%Z; [discriminate|].
    exists this, mem. repeat split; try reflexivity; apply Hp.
  - cbn [Spec.planWalks FmVoice.Voice.dispatch] in *.
    destruct (i <? FmVoice.NUM_OPERATORS)%Z.
    2: { exists this, mem. repeat split; try reflexivity; apply Hp. }
    cbv zeta in *. apply andb_prop in Hw. destruct Hw as [Hn Hw].
    destruct Hp as (Halg & Hrange & Hops).
    rewrite (length_slice _ (FmVoice.Voice.operator this)) in Hn
      by (rewrite Hops; reflexivity).
    apply Nat.leb_le in Hn. apply Nat.ltb_ge in Hn. rewrite Hn.
    match goal with
    | |- context [FmOperator.renderOperators ?N ?M ?A ?o ?ff ?aa ?fb ?amt
                    ?m ?vi ?vo] =>
        pose proof (renderOperators_lengths N M A o ff aa fb amt m vi vo)
          as Hr;
        cbv zeta in Hr;
        set (r := FmOperator.renderOperators N M A o ff aa fb amt m vi vo)
          in *
    end.
    destruct Hr as [_ Hmem].
    match goal with
    | |- context [FmVoice.Voice.dispatch fuel f a buffers ?j ?t ?m] =>
        destruct (IH j t m) as (this' & mem' & E & Hp' & Hpatch & Hlen)
    end.
    + unfold Spec.plannable, FmVoice.Voice.with_feedbackState,
        FmVoice.Voice.with_operator.
      cbn [FmVoice.Voice.algorithms FmVoice.Voice.patch
           FmVoice.Voice.operator].
      split; [exact Halg|split; [exact Hrange|]].
      apply (for_invariant (fun l => length l = 6%nat)); [exact Hops|].
      intros k l _ Hl.
      destruct (FmOperator.ops' r !! Z.to_nat k); [|exact Hl].
      rewrite length_insert. exact Hl.
    + exact Hw.
    + exists this', mem'. rewrite E.
      split; [reflexivity|split; [exact Hp'|split]].
      * rewrite Hpatch. reflexivity.
      * rewrite Hlen. exact Hmem.
Qed.

Lemma plannable_with_dirty (s : FmVoice.Voice.t) (b : bool) :
  Spec.plannable s -> Spec.plannable (FmVoice.Voice.with_dirty s b).
Proof. intros Hs. exact Hs. Qed.

Lemma setupLoop_plannable (this : FmVoice.Voice.t) :
  Spec.plannable this -> Spec.plannable (Spec.setupLoop this).
Proof.
  intros Hp. unfold Spec.setupLoop. apply (for_invariant Spec.plannable).
  - exact Hp.
  - intros i s _ Hs. exact Hs.
Qed.

Lemma setup_plannable (this : FmVoice.Voice.t) :
  Spec.plannable this -> Spec.plannable (fst (FmVoice.Voice.setup this)).
Proof.
  intros Hp. rewrite setup_unfold.
  destruct (FmVoice.Voice.dirty this); cbn [fst]; [|exact Hp].
  apply plannable_with_dirty, setupLoop_plannable, Hp.
Qed.

Lemma operatorTargets_plannable (parameters : FmVoice.Parameters.t)
    (envelopeRate adScale rScale envelopeSample gateDuration f0 : Q)
    (i : Z) (s : FmVoice.Voice.t * list Q * list Q) :
  Spec.plannable (fst (fst s)) ->
  Spec.plannable
    (fst (fst (FmVoice.Voice.operatorTargets parameters envelopeRate adScale
                 rScale envelopeSample gateDuration f0 i s))).
Proof.
  destruct s as [[this f] a]. cbn [fst]. intros Hp.
  unfold FmVoice.Voice.operatorTargets.
  destruct (if FmVoice.Parameters.sustain parameters then _ else _)
    as [env level].
  exact Hp.
Qed.

(** [renderInternal] returns for every plannable voice, and leaves a
    plannable voice and a store of the same size. *)
Lemma renderInternal_returns (this : FmVoice.Voice.t)
    (parameters : FmVoice.Parameters.t) (buffers : list FmOperator.View.t)
    (mem : list Q) (size : Z) :
  Spec.plannable this ->
  exists this' mem',
    FmVoice.Voice.renderInternal this parameters buffers mem size
    = Some (this', mem')
    /\ Spec.plannable this' /\ length mem' = length mem.
Proof.
  intros Hp. unfold FmVoice.Voice.renderInternal.
  pose proof (setup_plannable this Hp) as Hs.
  destruct (FmVoice.Voice.setup this) as [this0 isSetup]. cbn [fst] in Hs.
  destruct isSetup.
  { exists this0, mem. repeat split; try reflexivity; apply Hs. }
  cbv zeta.
  destruct (if FmVoice.Parameters.sustain parameters then _ else _)
    as [pe pitchEnvelope].
  match goal with
  | |- context [JS.for_ ?n (FmVoice.Voice.operatorTargets ?p ?b ?c ?d ?e ?g
                              ?h) (?t, ?ff, ?aa)] =>
      assert (Ht : Spec.plannable t);
      [|pose proof (for_invariant (fun s => Spec.plannable (fst (fst s))) n
                      (FmVoice.Voice.operatorTargets p b c d e g h)
                      (t, ff, aa) Ht
                      (fun i s _ =>
                         operatorTargets_plannable p b c d e g h i s))
          as Hloop;
        destruct (JS.for_ n (FmVoice.Voice.operatorTargets p b c d e g h)
                    (t, ff, aa)) as [[this1 f] a]]
  end.
  - destruct (_ && negb _).
    + apply (for_invariant Spec.plannable).
      * destruct (_ || _); exact Hs.
      * intros i s _ (Ha & Hr & Ho). split; [exact Ha|split; [exact Hr|]].
        unfold FmVoice.Voice.with_operator. cbn [FmVoice.Voice.operator].
        rewrite length_alter. exact Ho.
    + destruct (_ || _); exact Hs.
  - cbn [fst] in Hloop.
    destruct (dispatch_returns (Z.to_nat FmVoice.NUM_OPERATORS) f a buffers
                0 this1 mem Hloop) as (this' & mem' & E & Hp' & _ & Hlen).
    + destruct Hloop as (Ha & Hr & _). rewrite Ha.
      apply planWalks_all. exact Hr.
    + exists this', mem'. split; [exact E|split; assumption].
Qed.

End RenderReturns.

(** ** dx7.js: the length of the generated sample array *)

Section Generate.
Context `{Platform}.

Lemma plannable_with_pitchEnvelope (s : FmVoice.Voice.t)
    (x : FmEnvelope.PitchEnvelope.t) :
  Spec.plannable s -> Spec.plannable (FmVoice.Voice.with_pitchEnvelope s x).
Proof. intros Hs. exact Hs. Qed.

(** A voice built for a patch whose algorithm is in the table is
    plannable. *)
Lemma new_plannable (patch : FmPatch.Patch.t) (sampleRate : Q) :
  (0 <= FmPatch.Patch.algorithm patch < 32)%Z ->
  Spec.plannable (FmVoice.Voice.new patch sampleRate).
Proof.
  intros Ha. unfold FmVoice.Voice.new. cbv zeta.
  apply setup_plannable, plannable_with_pitchEnvelope.
  apply (for_invariant Spec.plannable).
  - unfold Spec.plannable.
    cbn [FmVoice.Voice.algorithms FmVoice.Voice.patch
         FmVoice.Voice.operator].
    split; [reflexivity|split; [exact Ha|reflexivity]].
  - intros i s _ (Halg & Hr & Ho).
    unfold Spec.plannable, FmVoice.Voice.with_operatorEnvelope,
      FmVoice.Voice.with_operator.
    cbn [FmVoice.Voice.algorithms FmVoice.Voice.patch
         FmVoice.Voice.operator].
    split; [exact Halg|split; [exact Hr|]].
    rewrite length_alter. exact Ho.
Qed.

Lemma renderTemp_returns (this : FmVoice.Voice.t)
    (parameters : FmVoice.Parameters.t) (temp : list Q) :
  Spec.plannable this ->
  exists this' temp',
    FmVoice.Voice.renderTemp this parameters temp = Some (this', temp')
    /\ Spec.plannable this' /\ length temp' = length temp.
Proof.
  intros Hp. unfold FmVoice.Voice.renderTemp. cbv zeta.
  apply renderInternal_returns. exact Hp.
Qed.

(** One block: the LFO steps, the voice renders, and the output collected
    so far is not touched. *)
Lemma renderBlock_returns (blockSize : Z) (s : Dx7.Gen) :
  Spec.plannable (Dx7.g_voice s) ->
  exists s' buf,
    Dx7.renderBlock blockSize s = Some (s', buf)
    /\ Spec.plannable (Dx7.g_voice s')
    /\ Dx7.g_output s' = Dx7.g_output s
    /\ FmVoice.Parameters.gate (Dx7.g_parameters s')
       = FmVoice.Parameters.gate (Dx7.g_parameters s).
Proof.
  intros Hp. unfold Dx7.renderBlock.
  destruct (FmLfo.Lfo.step _ _ _) as [lfo g]. cbv zeta.
  match goal with
  | |- context [FmVoice.Voice.renderTemp ?v ?p ?b] =>
      destruct (renderTemp_returns v p b Hp) as (v' & b' & E & Hp' & _)
  end.
  rewrite E. eexists. eexists. split; [reflexivity|].
  cbn [Dx7.g_voice Dx7.g_output Dx7.g_parameters].
  split; [exact Hp'|split; reflexivity].
Qed.

Lemma push_length (n : nat) (buf out : list Q) :
  length (JS.for_ n (fun i output => output ++ [JS.get buf i]) out)
  = (length out + n)%nat.
Proof.
  induction n as [|n IH]; [cbn; lia|].
  rewrite for_S, length_app, IH. cbn. lia.
Qed.

(** Phase 1 returns, and adds [remaining] samples to the output. *)
Lemma gateOn_returns (fuel : nat) (remaining : Z) (s : Dx7.Gen) :
  Spec.plannable (Dx7.g_voice s) ->
  (Z.to_nat remaining <= fuel)%nat ->
  exists s',
    Dx7.gateOn fuel remaining s = Some s'
    /\ Spec.plannable (Dx7.g_voice s')
    /\ length (Dx7.g_output s')
       = (length (Dx7.g_output s) + Z.to_nat remaining)%nat
    /\ FmVoice.Parameters.gate (Dx7.g_parameters s')
       = FmVoice.Parameters.gate (Dx7.g_parameters s).
Proof.
  revert remaining s.
  induction fuel as [|fuel IH]; intros remaining s Hp Hfuel.
  - cbn [Dx7.gateOn]. destruct (Z.ltb_spec 0 remaining); [lia|].
    exists s. split; [reflexivity|split; [exact Hp|split; [lia|reflexivity]]].
  - cbn [Dx7.gateOn]. destruct (Z.ltb_spec 0 remaining) as [Hpos|Hle].
    2: { exists s.
         split; [reflexivity|split; [exact Hp|split; [lia|reflexivity]]]. }
    cbv zeta.
    destruct (renderBlock_returns (Z.min remaining Dx7.MAX_BLOCK_SIZE) s Hp)
      as (s1 & buf & E & Hp1 & Hout & Hgate).
    rewrite E.
    match goal with
    | |- context [Dx7.gateOn fuel ?r ?t] =>
        destruct (IH r t) as (s' & E' & Hp' & Hlen & Hgate')
    end.
    + exact Hp1.
    + unfold Dx7.MAX_BLOCK_SIZE. lia.
    + exists s'. split; [exact E'|split; [exact Hp'|split]].
      * rewrite Hlen. cbn [Dx7.g_output]. rewrite push_length, Hout.
        unfold Dx7.MAX_BLOCK_SIZE. lia.
      * rewrite Hgate'. exact Hgate.
Qed.

(** The silence loop over a chunk: it pushes the 24 samples of the chunk,
    and the run of silent samples is at most 24 longer, and at most the
    number of samples pushed so far when it started at 0. *)
Lemma silence_scan (chunk : list Q) (silenceThreshold : Q) (n : nat)
    (consecutive : Z) (out : list Q) :
  let r :=
    JS.for_ n
      (fun i '(consecutiveSilentSamples, output) =>
         let sample := JS.get chunk i in
         let consecutiveSilentSamples :=
           if JS.Qltb (JS.abs sample) silenceThreshold
           then (consecutiveSilentSamples + 1)%Z else 0%Z in
         (consecutiveSilentSamples, output ++ [sample]))
      (consecutive, out) in
  length (snd r) = (length out + n)%nat
  /\ (0 <= consecutive -> 0 <= fst r <= consecutive + Z.of_nat n)%Z.
Proof.
  cbv zeta. induction n as [|n [IHl IHc]]; [cbn; lia|].
  rewrite for_S. destruct (JS.for_ n _ _) as [c o]. cbn [fst snd] in *.
  destruct (JS.Qltb _ _); cbn [fst snd]; rewrite length_app; cbn [length];
    split; lia.
Qed.

(** Phase 2 ends in its first round when the output is already past ten
    seconds and the silence duration is more than a chunk: the round adds
    its 24 samples and takes the second [break]. *)
Lemma gateOff_first_round (fuel : nat) (sampleRate silenceThreshold : Q)
    (silenceDurationSamples : Z) (s : Dx7.Gen) :
  Spec.plannable (Dx7.g_voice s) ->
  (0 < fuel)%nat ->
  (24 < silenceDurationSamples)%Z ->
  sampleRate * 10 < inject_Z (Z.of_nat (length (Dx7.g_output s)) + 24) ->
  exists s',
    Dx7.gateOff fuel sampleRate silenceThreshold silenceDurationSamples
      0 s = Some s'
    /\ Z.of_nat (length (Dx7.g_output s'))
       = (Z.of_nat (length (Dx7.g_output s)) + 24)%Z.
Proof.
  intros Hp Hfuel Hsil Hlong.
  destruct fuel as [|fuel]; [lia|]. cbn [Dx7.gateOff].
  destruct (renderBlock_returns Dx7.MAX_BLOCK_SIZE s Hp)
    as (s1 & chunk & E & Hp1 & Hout & _).
  rewrite E.
  pose proof (silence_scan chunk silenceThreshold
                (Z.to_nat Dx7.MAX_BLOCK_SIZE) 0 (Dx7.g_output s1)) as Hscan.
  cbv zeta in Hscan.
  destruct (JS.for_ _ _ _) as [c o]. cbn [fst snd] in Hscan.
  destruct Hscan as [Hlen Hc]. specialize (Hc ltac:(lia)).
  change (Z.of_nat (Z.to_nat Dx7.MAX_BLOCK_SIZE)) with 24%Z in Hc.
  change (Z.to_nat Dx7.MAX_BLOCK_SIZE) with 24%nat in Hlen.
  rewrite Hout in Hlen.
  assert (HlenZ : Z.of_nat (length o)
                  = (Z.of_nat (length (Dx7.g_output s)) + 24)%Z) by lia.
  destruct (Z.leb_spec silenceDurationSamples c); [lia|].
  rewrite HlenZ.
  assert (Hgt : JS.Qgtb
                  (inject_Z (Z.of_nat (length (Dx7.g_output s)) + 24))
                  (sampleRate * 10) = true).
  { unfold JS.Qgtb. apply negb_true_iff, not_true_iff_false.
    rewrite Qle_bool_iff. apply Qlt_not_le. exact Hlong. }
  rewrite Hgt. eexists. split; [reflexivity|].
  cbn [Dx7.g_output]. exact HlenZ.
Qed.

(** C3, at the failing input: for a requested duration of 20000 ms at
    44100 Hz, and every patch of a bank, note and generator state,
    [generateSamples] returns 882024 samples, twice the cap of
    [10 * 44100 = 441000]: phase 1 pushes the 882000 samples of the
    requested duration without looking at the cap, and phase 2 adds a chunk
    before its check. *)
Theorem generateSamples_exceeds_cap (g : Random.t)
    (patch : FmPatch.Patch.t) (midiNote : Q) :
  (0 <= FmPatch.Patch.algorithm patch < 32)%Z ->
  exists out g',
    Dx7.generateSamples g patch midiNote 44100 20000 = Some (out, g')
    /\ Z.of_nat (length out) = 882024%Z
    /\ (10 * 44100 < Z.of_nat (length out))%Z.
Proof.
  intros Ha. unfold Dx7.generateSamples. cbv zeta.
  change (Qfloor (20000 / 1000 * 44100)) with 882000%Z.
  change (Qfloor (44100 * 100 / 1000)) with 4410%Z.
  change (Qfloor (44100 * 10) / 24 + 2)%Z with 18377%Z.
  match goal with
  | |- context [Dx7.gateOn ?f ?r ?s] =>
      destruct (gateOn_returns f r s) as (s1 & E1 & Hp1 & Hlen1 & _)
  end.
  { apply new_plannable. exact Ha. }
  { lia. }
  rewrite E1. cbn [Dx7.g_output length] in Hlen1.
  assert (Hlen1Z : Z.of_nat (length (Dx7.g_output s1)) = 882000%Z) by lia.
  match goal with
  | |- context [Dx7.gateOff ?f ?sr ?thr ?sds 0 ?s] =>
      destruct (gateOff_first_round f sr thr sds s) as (s2 & E2 & Hlen2)
  end.
  { exact Hp1. }
  { lia. }
  { lia. }
  { cbn [Dx7.g_output]. rewrite Hlen1Z. reflexivity. }
  rewrite E2. eexists. eexists. split; [reflexivity|].
  cbn [Dx7.g_output] in Hlen2. rewrite Hlen2, Hlen1Z. split; lia.
Qed.

End Generate.

(** C3, witness: the fixed-frequency patch at note 60. *)
Lemma generateSamples_exceeds_cap_witness :
  exists out g',
    @Dx7.generateSamples Examples.platform (Examples.stub 0)
      Examples.fixedPatch 60 44100 20000 = Some (out, g')
    /\ Z.of_nat (length out) = 882024%Z
    /\ (10 * 44100 < Z.of_nat (length out))%Z.
Proof.
  apply (@generateSamples_exceeds_cap Examples.platform (Examples.stub 0)
           Examples.fixedPatch 60).
  vm_compute. split; [discriminate|reflexivity].
Defined.

(** ** fm/lfo.js, dx7.js: what the random generator influences *)

Section Noninterference.
Context `{Platform}.

(** Off the sample-and-hold waveform, the waveform value does not read the
    latched random value. *)
Lemma valueOf_randomValue (waveform : Z) (phase r1 r2 : Q) :
  waveform <> FmLfo.Waveform.SAndH ->
  FmLfo.Lfo.valueOf waveform phase r1 = FmLfo.Lfo.valueOf waveform phase r2.
Proof.
  unfold FmLfo.Lfo.valueOf, FmLfo.Waveform.SAndH. intros Hw.
  destruct waveform as [|p|p]; try reflexivity.
  do 3 (try destruct p as [p|p|]; try reflexivity).
  contradiction.
Qed.

(** One step of the LFO, from two LFOs that differ in the latched random
    value at most, with two generators. *)
Lemma step_observable (g1 g2 : Random.t) (l1 l2 : FmLfo.Lfo.t) (scale : Q) :
  Spec.lfoObservable l1 = Spec.lfoObservable l2 ->
  FmLfo.Lfo.waveform l1 <> FmLfo.Waveform.SAndH ->
  Spec.lfoObservable (fst (FmLfo.Lfo.step g1 l1 scale))
  = Spec.lfoObservable (fst (FmLfo.Lfo.step g2 l2 scale)).
Proof.
  unfold Spec.lfoObservable.
  intros [= Hphase Hfreq Hdp Hdi Hv HoneHz Ha Hp Hw Hr Hpi] Hsh.
  unfold FmLfo.Lfo.step. rewrite <- Hphase, <- Hfreq, <- Hdp, <- Hdi, <- Hw.
  destruct (JS.Qgeb (FmLfo.Lfo.phase l1 + scale * FmLfo.Lfo.frequency l1) 1.0).
  - destruct (Random.getFloat g1) as [r1 g1'].
    destruct (Random.getFloat g2) as [r2 g2'].
    cbn [fst FmLfo.Lfo.phase FmLfo.Lfo.frequency FmLfo.Lfo.delayPhase
         FmLfo.Lfo.delayIncrement FmLfo.Lfo.value_ FmLfo.Lfo.oneHz
         FmLfo.Lfo.ampModDepth FmLfo.Lfo.pitchModDepth FmLfo.Lfo.waveform
         FmLfo.Lfo.resetPhase FmLfo.Lfo.phaseIntegral].
    rewrite (valueOf_randomValue _ _ r1 r2 Hsh).
    congruence.
  - cbn [fst FmLfo.Lfo.phase FmLfo.Lfo.frequency FmLfo.Lfo.delayPhase
         FmLfo.Lfo.delayIncrement FmLfo.Lfo.value_ FmLfo.Lfo.oneHz
         FmLfo.Lfo.ampModDepth FmLfo.Lfo.pitchModDepth FmLfo.Lfo.waveform
         FmLfo.Lfo.resetPhase FmLfo.Lfo.phaseIntegral].
    rewrite (valueOf_randomValue _ _ (FmLfo.Lfo.randomValue l1)
               (FmLfo.Lfo.randomValue l2) Hsh).
    congruence.
Qed.

Lemma observable_mods (l1 l2 : FmLfo.Lfo.t) :
  Spec.lfoObservable l1 = Spec.lfoObservable l2 ->
  FmLfo.Lfo.pitchMod l1 = FmLfo.Lfo.pitchMod l2
  /\ FmLfo.Lfo.ampMod l1 = FmLfo.Lfo.ampMod l2
  /\ FmLfo.Lfo.waveform l1 = FmLfo.Lfo.waveform l2.
Proof.
  unfold Spec.lfoObservable.
  intros [= Hphase Hfreq Hdp Hdi Hv HoneHz Ha Hp Hw Hr Hpi].
  unfold FmLfo.Lfo.pitchMod, FmLfo.Lfo.ampMod, FmLfo.Lfo.delayRamp.
  rewrite Hdp, Hv, Ha, Hp. repeat split. exact Hw.
Qed.

Lemma genObservable_inv (s1 s2 : Dx7.Gen) :
  Spec.genObservable s1 = Spec.genObservable s2 ->
  Dx7.g_voice s1 = Dx7.g_voice s2
  /\ Spec.lfoObservable (Dx7.g_lfo s1) = Spec.lfoObservable (Dx7.g_lfo s2)
  /\ Dx7.g_parameters s1 = Dx7.g_parameters s2
  /\ Dx7.g_output s1 = Dx7.g_output s2.
Proof.
  unfold Spec.genObservable. intros Hobs.
  pose proof (f_equal (fun t => fst (fst (fst t))) Hobs) as Hv.
  pose proof (f_equal (fun t => snd (fst (fst t))) Hobs) as Hl.
  pose proof (f_equal (fun t => snd (fst t)) Hobs) as Hp.
  pose proof (f_equal snd Hobs) as Ho.
  cbn [fst snd] in *. repeat split; assumption.
Qed.

Lemma renderBlock_observable (blockSize : Z) (s1 s2 : Dx7.Gen) :
  Spec.genObservable s1 = Spec.genObservable s2 ->
  FmLfo.Lfo.waveform (Dx7.g_lfo s1) <> FmLfo.Waveform.SAndH ->
  Spec.blocksAgree (Dx7.renderBlock blockSize s1) (Dx7.renderBlock blockSize s2).
Proof.
  intros Hobs Hsh. destruct (genObservable_inv s1 s2 Hobs) as (Hv & Hl & Hp & Ho).
  unfold Dx7.renderBlock.
  pose proof (step_observable (Dx7.g_random s1) (Dx7.g_random s2)
                (Dx7.g_lfo s1) (Dx7.g_lfo s2) (inject_Z blockSize) Hl Hsh)
    as Hstep.
  destruct (FmLfo.Lfo.step (Dx7.g_random s1) _ _) as [l1 g1].
  destruct (FmLfo.Lfo.step (Dx7.g_random s2) _ _) as [l2 g2].
  cbn [fst] in Hstep.
  destruct (observable_mods l1 l2 Hstep) as (Hpm & Ham & _).
  cbv zeta. rewrite <- Hv, <- Hp, <- Ho, <- Hpm, <- Ham.
  destruct (FmVoice.Voice.renderTemp _ _ _) as [[v buf]|]; cbn.
  - split; [reflexivity|]. unfold Spec.genObservable.
    cbn [Dx7.g_voice Dx7.g_lfo Dx7.g_parameters Dx7.g_output].
    rewrite Hstep. reflexivity.
  - exact I.
Qed.

Lemma step_waveform (g : Random.t) (l : FmLfo.Lfo.t) (scale : Q) :
  FmLfo.Lfo.waveform (fst (FmLfo.Lfo.step g l scale)) = FmLfo.Lfo.waveform l.
Proof.
  unfold FmLfo.Lfo.step.
  destruct (JS.Qgeb _ _); [destruct (Random.getFloat g)|]; reflexivity.
Qed.

Lemma renderBlock_waveform (blockSize : Z) (s s' : Dx7.Gen) (buf : list Q) :
  Dx7.renderBlock blockSize s = Some (s', buf) ->
  FmLfo.Lfo.waveform (Dx7.g_lfo s') = FmLfo.Lfo.waveform (Dx7.g_lfo s).
Proof.
  unfold Dx7.renderBlock.
  pose proof (step_waveform (Dx7.g_random s) (Dx7.g_lfo s)
                (inject_Z blockSize)) as Hw.
  destruct (FmLfo.Lfo.step _ _ _) as [l g]. cbn [fst] in Hw. cbv zeta.
  destruct (FmVoice.Voice.renderTemp _ _ _) as [[v b]|]; [|discriminate].
  intros [= <- _]. exact Hw.
Qed.

Lemma observable_with_output (s1 s2 : Dx7.Gen) (o : list Q) :
  Spec.genObservable s1 = Spec.genObservable s2 ->
  Spec.genObservable
    (Dx7.mkGen (Dx7.g_voice s1) (Dx7.g_lfo s1) (Dx7.g_random s1)
       (Dx7.g_parameters s1) o)
  = Spec.genObservable
      (Dx7.mkGen (Dx7.g_voice s2) (Dx7.g_lfo s2) (Dx7.g_random s2)
         (Dx7.g_parameters s2) o).
Proof.
  intros Hobs. destruct (genObservable_inv s1 s2 Hobs) as (Hv & Hl & Hp & Ho).
  unfold Spec.genObservable.
  cbn [Dx7.g_voice Dx7.g_lfo Dx7.g_parameters Dx7.g_output]. congruence.
Qed.

Lemma gateOn_observable (fuel : nat) (remaining : Z) (s1 s2 : Dx7.Gen) :
  Spec.genObservable s1 = Spec.genObservable s2 ->
  FmLfo.Lfo.waveform (Dx7.g_lfo s1) <> FmLfo.Waveform.SAndH ->
  Spec.gensAgree (Dx7.gateOn fuel remaining s1) (Dx7.gateOn fuel remaining s2).
Proof.
  revert remaining s1 s2.
  induction fuel as [|fuel IH]; intros remaining s1 s2 Hobs Hsh;
    cbn [Dx7.gateOn]; destruct (0 <? remaining)%Z;
    try (split; assumption); try exact I.
  cbv zeta.
  pose proof (renderBlock_observable (Z.min remaining Dx7.MAX_BLOCK_SIZE)
                s1 s2 Hobs Hsh) as Hblock.
  pose proof (renderBlock_waveform (Z.min remaining Dx7.MAX_BLOCK_SIZE) s1)
    as Hw.
  destruct (Dx7.renderBlock _ s1) as [[t1 b1]|],
           (Dx7.renderBlock _ s2) as [[t2 b2]|];
    cbn [Spec.blocksAgree] in Hblock; try contradiction; try exact I.
  destruct Hblock as [<- Hobs'].
  assert (Hout : Dx7.g_output t1 = Dx7.g_output t2)
    by apply (genObservable_inv t1 t2 Hobs').
  rewrite <- Hout. apply IH.
  - apply observable_with_output. exact Hobs'.
  - cbn [Dx7.g_lfo]. rewrite (Hw t1 b1 eq_refl). exact Hsh.
Qed.

Lemma gateOff_observable (fuel : nat) (sampleRate silenceThreshold : Q)
    (silenceDurationSamples consecutive : Z) (s1 s2 : Dx7.Gen) :
  Spec.genObservable s1 = Spec.genObservable s2 ->
  FmLfo.Lfo.waveform (Dx7.g_lfo s1) <> FmLfo.Waveform.SAndH ->
  Spec.gensAgree
    (Dx7.gateOff fuel sampleRate silenceThreshold silenceDurationSamples
       consecutive s1)
    (Dx7.gateOff fuel sampleRate silenceThreshold silenceDurationSamples
       consecutive s2).
Proof.
  revert consecutive s1 s2.
  induction fuel as [|fuel IH]; intros consecutive s1 s2 Hobs Hsh;
    cbn [Dx7.gateOff]; [exact I|].
  pose proof (renderBlock_observable Dx7.MAX_BLOCK_SIZE s1 s2 Hobs Hsh)
    as Hblock.
  pose proof (renderBlock_waveform Dx7.MAX_BLOCK_SIZE s1) as Hw.
  destruct (Dx7.renderBlock _ s1) as [[t1 b1]|],
           (Dx7.renderBlock _ s2) as [[t2 b2]|];
    cbn [Spec.blocksAgree] in Hblock; try contradiction; try exact I.
  destruct Hblock as [<- Hobs'].
  assert (Hout : Dx7.g_output t1 = Dx7.g_output t2)
    by apply (genObservable_inv t1 t2 Hobs').
  rewrite <- Hout.
  assert (Hsh' : FmLfo.Lfo.waveform (Dx7.g_lfo t1) <> FmLfo.Waveform.SAndH).
  { rewrite (Hw t1 b1 eq_refl). exact Hsh. }
  destruct (JS.for_ _ _ _) as [c o].
  destruct (silenceDurationSamples <=? c)%Z.
  { cbv zeta. split; [apply observable_with_output; exact Hobs'|exact Hsh']. }
  destruct (JS.Qgtb _ _).
  { split; [apply observable_with_output; exact Hobs'|exact Hsh']. }
  apply IH; [apply observable_with_output; exact Hobs'|exact Hsh'].
Qed.

Lemma genObservable_generator (v : FmVoice.Voice.t) (l : FmLfo.Lfo.t)
    (g1 g2 : Random.t) (p : FmVoice.Parameters.t) (o : list Q) :
  Spec.genObservable (Dx7.mkGen v l g1 p o)
  = Spec.genObservable (Dx7.mkGen v l g2 p o).
Proof. reflexivity. Qed.

Lemma reset_set_waveform (l : FmLfo.Lfo.t)
    (modulations : FmPatch.ModulationParameters.t) :
  FmLfo.Lfo.waveform (FmLfo.Lfo.reset (FmLfo.Lfo.set l modulations))
  = FmLfo.waveformFromU8 (FmPatch.ModulationParameters.waveform modulations).
Proof. reflexivity. Qed.

(** Two runs of [generateSamples] that differ in the generator only. *)
Lemma generateSamples_observable (g1 g2 : Random.t)
    (patch : FmPatch.Patch.t) (midiNote sampleRate durationMs : Q) :
  FmLfo.waveformFromU8
    (FmPatch.ModulationParameters.waveform (FmPatch.Patch.modulations patch))
  <> FmLfo.Waveform.SAndH ->
  fst <$> Dx7.generateSamples g1 patch midiNote sampleRate durationMs
  = fst <$> Dx7.generateSamples g2 patch midiNote sampleRate durationMs.
Proof.
  intros Hpatch. unfold Dx7.generateSamples.
  pose proof (reset_set_waveform (FmLfo.Lfo.init FmLfo.Lfo.new sampleRate)
                (FmPatch.Patch.modulations patch)) as Hw.
  set (voice := FmVoice.Voice.new patch sampleRate).
  set (lfo := FmLfo.Lfo.reset _) in *.
  set (parameters := FmVoice.Parameters.mk _ _ _ _ _ _ _ _).
  set (nSamples := Qfloor (durationMs / 1000 * sampleRate)).
  set (sds := Qfloor (sampleRate * 100 / 1000)).
  set (fuel := Z.to_nat (Qfloor (sampleRate * 10) / 24 + 2)).
  cbv zeta.
  clearbody voice lfo parameters nSamples sds fuel.
  pose proof (gateOn_observable (Z.to_nat nSamples) nSamples _ _
                (genObservable_generator voice lfo g1 g2 parameters [])) as Hon.
  cbn [Dx7.g_lfo] in Hon. rewrite Hw in Hon. specialize (Hon Hpatch).
  destruct (Dx7.gateOn _ _ (Dx7.mkGen voice lfo g1 parameters []))
    as [t1|],
    (Dx7.gateOn _ _ (Dx7.mkGen voice lfo g2 parameters [])) as [t2|];
    cbn [Spec.gensAgree] in Hon; try contradiction; [|reflexivity].
  destruct Hon as [Hobs1 Hsh1].
  destruct (genObservable_inv t1 t2 Hobs1) as (Hv & Hl & Hp & Ho).
  pose proof (gateOff_observable fuel sampleRate 0.0001 sds 0
                (Dx7.mkGen (Dx7.g_voice t1) (Dx7.g_lfo t1) (Dx7.g_random t1)
                   (Dx7.withGate (Dx7.g_parameters t1) false)
                   (Dx7.g_output t1))
                (Dx7.mkGen (Dx7.g_voice t2) (Dx7.g_lfo t2) (Dx7.g_random t2)
                   (Dx7.withGate (Dx7.g_parameters t2) false)
                   (Dx7.g_output t2))) as Hoff.
  assert (Hobs2 :
    Spec.genObservable
      (Dx7.mkGen (Dx7.g_voice t1) (Dx7.g_lfo t1) (Dx7.g_random t1)
         (Dx7.withGate (Dx7.g_parameters t1) false) (Dx7.g_output t1))
    = Spec.genObservable
        (Dx7.mkGen (Dx7.g_voice t2) (Dx7.g_lfo t2) (Dx7.g_random t2)
           (Dx7.withGate (Dx7.g_parameters t2) false) (Dx7.g_output t2))).
  { unfold Spec.genObservable.
    cbn [Dx7.g_voice Dx7.g_lfo Dx7.g_parameters Dx7.g_output].
    rewrite Hv, Hl, Hp, Ho. reflexivity. }
  specialize (Hoff Hobs2 Hsh1).
  destruct (Dx7.gateOff _ _ _ _ _ _) as [u1|],
           (Dx7.gateOff _ _ _ _ _ _) as [u2|];
    cbn [Spec.gensAgree] in Hoff; try contradiction; [|reflexivity].
  destruct Hoff as [Hobs3 _]. cbn.
  f_equal. apply (genObservable_inv u1 u2 Hobs3).
Qed.

(** One step of the LFO with two generators that return the same values:
    the same LFO, and generators that still return the same values. *)
Lemma step_sameDraws (g1 g2 : Random.t) (l : FmLfo.Lfo.t) (scale : Q) :
  Spec.sameDraws g1 g2 ->
  fst (FmLfo.Lfo.step g1 l scale) = fst (FmLfo.Lfo.step g2 l scale)
  /\ Spec.sameDraws (snd (FmLfo.Lfo.step g1 l scale))
       (snd (FmLfo.Lfo.step g2 l scale)).
Proof.
  intros Hg. unfold FmLfo.Lfo.step.
  destruct (JS.Qgeb (FmLfo.Lfo.phase l + scale * FmLfo.Lfo.frequency l) 1.0).
  - unfold Random.getFloat. cbn [fst snd].
    pose proof (Hg 0%nat) as H0. rewrite !Nat.add_0_r in H0.
    rewrite H0. split; [reflexivity|].
    intros k. cbn [Random.draws Random.drawn].
    pose proof (Hg (S k)) as Hk. rewrite <- !plus_n_Sm in Hk. exact Hk.
  - cbn [fst snd]. split; [reflexivity|exact Hg].
Qed.

Lemma renderBlock_sameRun (blockSize : Z) (s1 s2 : Dx7.Gen) :
  Spec.sameRun s1 s2 ->
  match Dx7.renderBlock blockSize s1, Dx7.renderBlock blockSize s2 with
  | Some (s1', buf1), Some (s2', buf2) =>
      buf1 = buf2 /\ Spec.sameRun s1' s2'
  | None, None => True
  | _, _ => False
  end.
Proof.
  intros (Hv & Hl & Hp & Ho & Hg). unfold Dx7.renderBlock.
  destruct (step_sameDraws (Dx7.g_random s1) (Dx7.g_random s2)
              (Dx7.g_lfo s1) (inject_Z blockSize) Hg) as [Hstep Hg'].
  rewrite <- Hl.
  destruct (FmLfo.Lfo.step (Dx7.g_random s1) _ _) as [l1 g1].
  destruct (FmLfo.Lfo.step (Dx7.g_random s2) _ _) as [l2 g2].
  cbn [fst snd] in Hstep, Hg'. subst l2.
  cbv zeta. rewrite <- Hv, <- Hp.
  destruct (FmVoice.Voice.renderTemp _ _ _) as [[v buf]|]; [|exact I].
  split; [reflexivity|].
  unfold Spec.sameRun.
  cbn [Dx7.g_voice Dx7.g_lfo Dx7.g_parameters Dx7.g_output Dx7.g_random].
  repeat split; [exact Ho|exact Hg'].
Qed.

Lemma sameRun_with_output (s1 s2 : Dx7.Gen) (p : FmVoice.Parameters.t)
    (o : list Q) :
  Spec.sameRun s1 s2 ->
  Spec.sameRun
    (Dx7.mkGen (Dx7.g_voice s1) (Dx7.g_lfo s1) (Dx7.g_random s1) p o)
    (Dx7.mkGen (Dx7.g_voice s2) (Dx7.g_lfo s2) (Dx7.g_random s2) p o).
Proof.
  intros (Hv & Hl & _ & _ & Hg). unfold Spec.sameRun.
  cbn [Dx7.g_voice Dx7.g_lfo Dx7.g_parameters Dx7.g_output Dx7.g_random].
  repeat split; assumption.
Qed.

Lemma gateOn_sameRun (fuel : nat) (remaining : Z) (s1 s2 : Dx7.Gen) :
  Spec.sameRun s1 s2 ->
  Spec.runsAgree (Dx7.gateOn fuel remaining s1)
    (Dx7.gateOn fuel remaining s2).
Proof.
  revert remaining s1 s2.
  induction fuel as [|fuel IH]; intros remaining s1 s2 Hrun;
    cbn [Dx7.gateOn]; destruct (0 <? remaining)%Z;
    try exact Hrun; try exact I.
  cbv zeta.
  pose proof (renderBlock_sameRun (Z.min remaining Dx7.MAX_BLOCK_SIZE)
                s1 s2 Hrun) as Hblock.
  destruct (Dx7.renderBlock _ s1) as [[t1 b1]|],
           (Dx7.renderBlock _ s2) as [[t2 b2]|];
    try contradiction; try exact I.
  destruct Hblock as [<- Hrun'].
  pose proof Hrun' as (_ & _ & Hp & Ho & _). rewrite <- Hp, <- Ho.
  apply IH, sameRun_with_output, Hrun'.
Qed.

Lemma gateOff_sameRun (fuel : nat) (sampleRate silenceThreshold : Q)
    (silenceDurationSamples consecutive : Z) (s1 s2 : Dx7.Gen) :
  Spec.sameRun s1 s2 ->
  Spec.runsAgree
    (Dx7.gateOff fuel sampleRate silenceThreshold silenceDurationSamples
       consecutive s1)
    (Dx7.gateOff fuel sampleRate silenceThreshold silenceDurationSamples
       consecutive s2).
Proof.
  revert consecutive s1 s2.
  induction fuel as [|fuel IH]; intros consecutive s1 s2 Hrun;
    cbn [Dx7.gateOff]; [exact I|].
  pose proof (renderBlock_sameRun Dx7.MAX_BLOCK_SIZE s1 s2 Hrun) as Hblock.
  destruct (Dx7.renderBlock _ s1) as [[t1 b1]|],
           (Dx7.renderBlock _ s2) as [[t2 b2]|];
    try contradiction; try exact I.
  destruct Hblock as [<- Hrun'].
  pose proof Hrun' as (_ & _ & Hp & Ho & _). rewrite <- Hp, <- Ho.
  destruct (JS.for_ _ _ _) as [c o].
  destruct (silenceDurationSamples <=? c)%Z.
  { cbv zeta. apply sameRun_with_output, Hrun'. }
  destruct (JS.Qgtb _ _); [apply sameRun_with_output, Hrun'|].
  apply IH, sameRun_with_output, Hrun'.
Qed.

(** Two runs of [generateSamples] whose generators return the same
    values. *)
Lemma generateSamples_sameDraws (g1 g2 : Random.t)
    (patch : FmPatch.Patch.t) (midiNote sampleRate durationMs : Q) :
  Spec.sameDraws g1 g2 ->
  fst <$> Dx7.generateSamples g1 patch midiNote sampleRate durationMs
  = fst <$> Dx7.generateSamples g2 patch midiNote sampleRate durationMs.
Proof.
  intros Hg. unfold Dx7.generateSamples.
  set (voice := FmVoice.Voice.new patch sampleRate).
  set (lfo := FmLfo.Lfo.reset _).
  set (parameters := FmVoice.Parameters.mk _ _ _ _ _ _ _ _).
  set (nSamples := Qfloor (durationMs / 1000 * sampleRate)).
  set (sds := Qfloor (sampleRate * 100 / 1000)).
  set (fuel := Z.to_nat (Qfloor (sampleRate * 10) / 24 + 2)).
  cbv zeta.
  clearbody voice lfo parameters nSamples sds fuel.
  assert (Hstart : Spec.sameRun (Dx7.mkGen voice lfo g1 parameters [])
                     (Dx7.mkGen voice lfo g2 parameters [])).
  { unfold Spec.sameRun.
    cbn [Dx7.g_voice Dx7.g_lfo Dx7.g_parameters Dx7.g_output Dx7.g_random].
    repeat split. exact Hg. }
  pose proof (gateOn_sameRun (Z.to_nat nSamples) nSamples _ _ Hstart) as Hon.
  destruct (Dx7.gateOn _ _ (Dx7.mkGen voice lfo g1 parameters []))
    as [t1|],
    (Dx7.gateOn _ _ (Dx7.mkGen voice lfo g2 parameters [])) as [t2|];
    cbn [Spec.runsAgree] in Hon; try contradiction; [|reflexivity].
  pose proof Hon as (_ & _ & Hp & Ho & _). rewrite <- Hp, <- Ho.
  pose proof (gateOff_sameRun fuel sampleRate 0.0001 sds 0 _ _
                (sameRun_with_output t1 t2
                   (Dx7.withGate (Dx7.g_parameters t1) false)
                   (Dx7.g_output t1) Hon)) as Hoff.
  destruct (Dx7.gateOff _ _ _ _ _ _) as [u1|],
           (Dx7.gateOff _ _ _ _ _ _) as [u2|];
    cbn [Spec.runsAgree] in Hoff; try contradiction; [|reflexivity].
  cbn. f_equal. apply Hoff.
Qed.

(** C9 (amended): rendering is call-pure up to the random generator.  Two
    runs of a block -- the LFO step, then the render of the voice into a
    fresh buffer -- that start from the same voice, LFO, parameters and
    samples so far, with generators that return the same values from then
    on (whatever they returned before), write the same samples and are at
    the same point again, for every waveform of the LFO; so two such runs
    of [generateSamples] return the same samples.  When the waveform of
    the patch is not sample-and-hold the values of the generator have no
    influence at all: [generateSamples] returns the same samples with any
    two generators. *)
Theorem rendering_determined_by_draws (blockSize : Z)
    (s1 s2 : Dx7.Gen) (g1 g2 : Random.t) (patch : FmPatch.Patch.t)
    (midiNote sampleRate durationMs : Q) :
  Spec.sameRun s1 s2 ->
  Spec.sameDraws g1 g2 ->
  match Dx7.renderBlock blockSize s1, Dx7.renderBlock blockSize s2 with
  | Some (s1', buf1), Some (s2', buf2) =>
      buf1 = buf2 /\ Spec.sameRun s1' s2'
  | None, None => True
  | _, _ => False
  end
  /\ fst <$> Dx7.generateSamples g1 patch midiNote sampleRate durationMs
     = fst <$> Dx7.generateSamples g2 patch midiNote sampleRate durationMs
  /\ (FmLfo.waveformFromU8
        (FmPatch.ModulationParameters.waveform
           (FmPatch.Patch.modulations patch))
      <> FmLfo.Waveform.SAndH ->
      forall g g' : Random.t,
        fst <$> Dx7.generateSamples g patch midiNote sampleRate durationMs
        = fst <$> Dx7.generateSamples g' patch midiNote sampleRate
                    durationMs).
Proof.
  intros Hrun Hg. split; [|split].
  - apply renderBlock_sameRun, Hrun.
  - apply generateSamples_sameDraws, Hg.
  - intros Hpatch g g'. apply generateSamples_observable. exact Hpatch.
Qed.

End Noninterference.

(** C9, witness: the fixed-frequency patch, whose waveform is
    sample-and-hold, with the LFO about to wrap; one generator has returned
    0 five times before, the other is new, and both return 1/2 from now
    on. *)
Lemma rendering_determined_by_draws_witness :
  match @Dx7.renderBlock Examples.platform 2
          (Examples.replayedStart (1 # 2)),
        @Dx7.renderBlock Examples.platform 2 (Examples.blockStart (1 # 2))
  with
  | Some (s1', buf1), Some (s2', buf2) =>
      buf1 = buf2 /\ Spec.sameRun s1' s2'
  | None, None => True
  | _, _ => False
  end
  /\ fst <$> @Dx7.generateSamples Examples.platform
               (Examples.replayed (1 # 2)) Examples.fixedPatch 60 44100 1000
     = fst <$> @Dx7.generateSamples Examples.platform
                 (Examples.stub (1 # 2)) Examples.fixedPatch 60 44100 1000
  /\ (FmLfo.waveformFromU8
        (FmPatch.ModulationParameters.waveform
           (FmPatch.Patch.modulations Examples.fixedPatch))
      <> FmLfo.Waveform.SAndH ->
      forall g g' : Random.t,
        fst <$> @Dx7.generateSamples Examples.platform g
                  Examples.fixedPatch 60 44100 1000
        = fst <$> @Dx7.generateSamples Examples.platform g'
                    Examples.fixedPatch 60 44100 1000).
Proof.
  apply (@rendering_determined_by_draws Examples.platform 2
           (Examples.replayedStart (1 # 2)) (Examples.blockStart (1 # 2))
           (Examples.replayed (1 # 2)) (Examples.stub (1 # 2))
           Examples.fixedPatch 60 44100 1000).
  - unfold Spec.sameRun, Examples.replayedStart, Examples.blockStart.
    cbn [Dx7.g_voice Dx7.g_lfo Dx7.g_parameters Dx7.g_output Dx7.g_random].
    repeat split.
  - intros k. reflexivity.
Defined.

(** The buffer handed to [renderTemp] is an input of the rendering as
    well: the renderers add to the output buffer, which the voice never
    clears.  From the same voice and parameters, a buffer that holds 1 in
    its first cell comes back with a first sample that is 1 more. *)
Lemma renderTemp_adds_to_buffer :
  match @FmVoice.Voice.renderTemp Examples.platform Examples.fixedVoice
          Examples.fixedParameters [0; 0; 0],
        @FmVoice.Voice.renderTemp Examples.platform Examples.fixedVoice
          Examples.fixedParameters [1; 0; 0]
  with
  | Some (_, buf1), Some (_, buf2) => JS.get buf2 0 == JS.get buf1 0 + 1
  | _, _ => False
  end.
Proof. vm_compute. reflexivity. Qed.

(** C9, counterexample: the fixed-frequency patch has the sample-and-hold
    waveform and amp-mod depth 99.  Two blocks of two samples start from
    the same new voice, the same parameters and the same LFO, which is
    about to wrap; the generator returns 0 in one run and 1/2 in the
    other, and the second sample of the two blocks differs. *)
Lemma sample_and_hold_counterexample :
  Spec.genObservable (Examples.blockStart 0)
  = Spec.genObservable (Examples.blockStart (1 # 2))
  /\ Dx7.g_lfo (Examples.blockStart 0)
     = Dx7.g_lfo (Examples.blockStart (1 # 2))
  /\ match @Dx7.renderBlock Examples.platform 2 (Examples.blockStart 0),
           @Dx7.renderBlock Examples.platform 2
             (Examples.blockStart (1 # 2))
     with
     | Some (_, buf1), Some (_, buf2) => ~ JS.get buf1 1 == JS.get buf2 1
     | _, _ => False
     end.
Proof.
  split; [|split].
  { unfold Examples.blockStart.
    exact (genObservable_generator Examples.fixedVoice Examples.lfoRunning
             (Examples.stub 0) (Examples.stub (1 # 2))
             Examples.fixedParameters []). }
  { unfold Examples.blockStart. cbn [Dx7.g_lfo]. reflexivity. }
  assert (Hc :
    match @Dx7.renderBlock Examples.platform 2 (Examples.blockStart 0),
          @Dx7.renderBlock Examples.platform 2 (Examples.blockStart (1 # 2))
    with
    | Some (_, buf1), Some (_, buf2) =>
        Qeq_bool (JS.get buf1 1) (JS.get buf2 1)
    | _, _ => true
    end = false) by (vm_compute; reflexivity).
  destruct (@Dx7.renderBlock Examples.platform 2 (Examples.blockStart 0))
    as [[t1 b1]|]; [|discriminate].
  destruct (@Dx7.renderBlock Examples.platform 2
              (Examples.blockStart (1 # 2))) as [[t2 b2]|]; [|discriminate].
  apply Qeq_bool_neq. exact Hc.
Qed.

(** * Further properties of the code *)

(** ** Checking a property on every value of a parameter's range *)

Lemma range_check (n : nat) (P : Z -> bool) :
  forallb (fun k => P (Z.of_nat k)) (seq 0 n) = true ->
  forall x, (0 <= x < Z.of_nat n)%Z -> P x = true.
Proof.
  intros Hall x Hx. rewrite forallb_forall in Hall.
  rewrite <- (Z2Nat.id x) by lia. apply Hall, in_seq. lia.
Qed.

(** A function on [0, n) that does not decrease from each value to the next
    does not decrease between any two values. *)
Lemma steps_monotone (R : Z -> Z -> Prop) (n : Z) :
  (forall x, R x x) ->
  (forall x y z, R x y -> R y z -> R x z) ->
  (forall x, (0 <= x)%Z -> (x + 1 < n)%Z -> R x (x + 1)%Z) ->
  forall x y, (0 <= x <= y)%Z -> (y < n)%Z -> R x y.
Proof.
  intros Hrefl Htrans Hstep x y Hxy Hy.
  replace y with (x + Z.of_nat (Z.to_nat (y - x)))%Z by lia.
  assert (Hb : (x + Z.of_nat (Z.to_nat (y - x)) < n)%Z) by lia.
  revert Hb. generalize (Z.to_nat (y - x)) as k.
  induction k as [|k IH]; intros Hb.
  - rewrite Z.add_0_r. apply Hrefl.
  - apply Htrans with (x + Z.of_nat k)%Z; [apply IH; lia|].
    replace (x + Z.of_nat (S k))%Z with (x + Z.of_nat k + 1)%Z by lia.
    apply Hstep; lia.
Qed.

(** ** fm/dx_units.js on the range 0..99 of the patch parameters *)

(** X1: [operatorLevel] maps the levels 0..99 onto 0..127 without ever
    decreasing: it is 0 at level 0, 127 at level 99, and a higher level
    never gives a lower value. *)
Theorem operatorLevel_monotone (l1 l2 : Z) :
  (0 <= l1 <= l2)%Z -> (l2 <= 99)%Z ->
  (0 <= DxUnits.operatorLevel l1 <= DxUnits.operatorLevel l2)%Z
  /\ (DxUnits.operatorLevel l2 <= 127)%Z
  /\ DxUnits.operatorLevel 0 = 0%Z
  /\ DxUnits.operatorLevel 99 = 127%Z.
Proof.
  intros H1 H2.
  assert (Hstep : forall x, (0 <= x < 99)%Z ->
            (DxUnits.operatorLevel x <=? DxUnits.operatorLevel (x + 1))%Z
            = true).
  { apply (range_check 99). vm_compute. reflexivity. }
  assert (Hmono : forall x y, (0 <= x <= y)%Z -> (y < 100)%Z ->
            (DxUnits.operatorLevel x <= DxUnits.operatorLevel y)%Z).
  { apply (steps_monotone
             (fun x y => (DxUnits.operatorLevel x
                          <= DxUnits.operatorLevel y)%Z)).
    - intros x. lia.
    - intros x y z. lia.
    - intros x Hx Hx'. apply Z.leb_le, Hstep. lia. }
  assert (H0 : DxUnits.operatorLevel 0 = 0%Z) by reflexivity.
  assert (H99 : DxUnits.operatorLevel 99 = 127%Z) by reflexivity.
  pose proof (Hmono 0%Z l1 ltac:(lia) ltac:(lia)) as Ha.
  pose proof (Hmono l1 l2 ltac:(lia) ltac:(lia)) as Hb.
  pose proof (Hmono l2 99%Z ltac:(lia) ltac:(lia)) as Hc.
  rewrite H0 in Ha. rewrite H99 in Hc.
  repeat split; assumption.
Qed.

Lemma operatorLevel_monotone_witness :
  (0 <= DxUnits.operatorLevel 14 <= DxUnits.operatorLevel 15)%Z
  /\ (DxUnits.operatorLevel 15 <= 127)%Z
  /\ DxUnits.operatorLevel 0 = 0%Z
  /\ DxUnits.operatorLevel 99 = 127%Z.
Proof. apply (operatorLevel_monotone 14 15); lia. Defined.

(** X2: for the rates 0..99 of a patch, [operatorEnvelopeIncrement] is a
    positive fraction of a stage per sample, below 1, and a higher rate
    never gives a smaller increment. *)
Theorem operatorEnvelopeIncrement_monotone (r1 r2 : Z) :
  (0 <= r1 <= r2)%Z -> (r2 <= 99)%Z ->
  0 < DxUnits.operatorEnvelopeIncrement r1
  /\ DxUnits.operatorEnvelopeIncrement r1
     <= DxUnits.operatorEnvelopeIncrement r2
  /\ DxUnits.operatorEnvelopeIncrement r2 < 1.
Proof.
  intros H1 H2.
  assert (Hstep : forall x, (0 <= x < 99)%Z ->
            Qle_bool (DxUnits.operatorEnvelopeIncrement x)
              (DxUnits.operatorEnvelopeIncrement (x + 1)) = true).
  { apply (range_check 99). vm_compute. reflexivity. }
  assert (Hmono : forall x y, (0 <= x <= y)%Z -> (y < 100)%Z ->
            DxUnits.operatorEnvelopeIncrement x
            <= DxUnits.operatorEnvelopeIncrement y).
  { apply (steps_monotone
             (fun x y => DxUnits.operatorEnvelopeIncrement x
                         <= DxUnits.operatorEnvelopeIncrement y)).
    - intros x. apply Qle_refl.
    - intros x y z. apply Qle_trans.
    - intros x Hx Hx'. apply Qle_bool_iff, Hstep. lia. }
  split; [|split].
  - apply Qlt_le_trans with (DxUnits.operatorEnvelopeIncrement 0).
    + reflexivity.
    + apply Hmono; lia.
  - apply Hmono; lia.
  - apply Qle_lt_trans with (DxUnits.operatorEnvelopeIncrement 99).
    + apply Hmono; lia.
    + reflexivity.
Qed.

Lemma operatorEnvelopeIncrement_monotone_witness :
  0 < DxUnits.operatorEnvelopeIncrement 50
  /\ DxUnits.operatorEnvelopeIncrement 50
     <= DxUnits.operatorEnvelopeIncrement 99
  /\ DxUnits.operatorEnvelopeIncrement 99 < 1.
Proof. apply (operatorEnvelopeIncrement_monotone 50 99); lia. Defined.

(** X3: for the rates 0..99, [lfoFrequency] is positive and strictly
    increasing; rate 0 is not a stopped LFO but the slowest one. *)
Theorem lfoFrequency_increasing (r1 r2 : Z) :
  (0 <= r1 < r2)%Z -> (r2 <= 99)%Z ->
  0 < DxUnits.lfoFrequency r1
  /\ DxUnits.lfoFrequency r1 < DxUnits.lfoFrequency r2.
Proof.
  intros H1 H2.
  assert (Hstep : forall x, (0 <= x < 99)%Z ->
            JS.Qltb (DxUnits.lfoFrequency x) (DxUnits.lfoFrequency (x + 1))
            = true).
  { apply (range_check 99). vm_compute. reflexivity. }
  assert (Hmono : forall x y, (0 <= x <= y)%Z -> (y < 100)%Z ->
            DxUnits.lfoFrequency x <= DxUnits.lfoFrequency y).
  { apply (steps_monotone
             (fun x y => DxUnits.lfoFrequency x <= DxUnits.lfoFrequency y)).
    - intros x. apply Qle_refl.
    - intros x y z. apply Qle_trans.
    - intros x Hx Hx'. apply Qlt_le_weak, Qltb_lt, Hstep. lia. }
  split.
  - apply Qlt_le_trans with (DxUnits.lfoFrequency 0).
    + reflexivity.
    + apply Hmono; lia.
  - apply Qlt_le_trans with (DxUnits.lfoFrequency (r1 + 1)).
    + apply Qltb_lt, Hstep. lia.
    + apply Hmono; lia.
Qed.

Lemma lfoFrequency_increasing_witness :
  0 < DxUnits.lfoFrequency 0
  /\ DxUnits.lfoFrequency 0 < DxUnits.lfoFrequency 1.
Proof. apply (lfoFrequency_increasing 0 1); lia. Defined.

(** X4: for the delays 0..99, [lfoDelay] returns two positive increments,
    and a longer delay never gives a larger one: delay 0 gives the largest
    pair, which ends the delay within the first block. *)
Theorem lfoDelay_decreasing (d1 d2 : Z) :
  (0 <= d1 <= d2)%Z -> (d2 <= 99)%Z ->
  length (DxUnits.lfoDelay d2) = 2%nat
  /\ 0 < JS.get (DxUnits.lfoDelay d2) 0
  /\ 0 < JS.get (DxUnits.lfoDelay d2) 1
  /\ JS.get (DxUnits.lfoDelay d2) 0 <= JS.get (DxUnits.lfoDelay d1) 0
  /\ JS.get (DxUnits.lfoDelay d2) 1 <= JS.get (DxUnits.lfoDelay d1) 1.
Proof.
  intros H1 H2.
  assert (Hstep : forall x, (0 <= x < 99)%Z ->
            Qle_bool (JS.get (DxUnits.lfoDelay (x + 1)) 0)
              (JS.get (DxUnits.lfoDelay x) 0)
            && Qle_bool (JS.get (DxUnits.lfoDelay (x + 1)) 1)
                 (JS.get (DxUnits.lfoDelay x) 1) = true).
  { apply (range_check 99). vm_compute. reflexivity. }
  assert (Hmono : forall x y, (0 <= x <= y)%Z -> (y < 100)%Z ->
            JS.get (DxUnits.lfoDelay y) 0 <= JS.get (DxUnits.lfoDelay x) 0
            /\ JS.get (DxUnits.lfoDelay y) 1
               <= JS.get (DxUnits.lfoDelay x) 1).
  { apply (steps_monotone
             (fun x y =>
                JS.get (DxUnits.lfoDelay y) 0 <= JS.get (DxUnits.lfoDelay x) 0
                /\ JS.get (DxUnits.lfoDelay y) 1
                   <= JS.get (DxUnits.lfoDelay x) 1)).
    - intros x. split; apply Qle_refl.
    - intros x y z [Ha Hb] [Hc Hd]. split; eapply Qle_trans; eassumption.
    - intros x Hx Hx'. specialize (Hstep x ltac:(lia)).
      apply andb_prop in Hstep. destruct Hstep as [Ha Hb].
      split; apply Qle_bool_iff; assumption. }
  assert (Hpos : forall x, (0 <= x < 100)%Z ->
            (length (DxUnits.lfoDelay x) =? 2)%nat
            && JS.Qltb 0 (JS.get (DxUnits.lfoDelay x) 0)
            && JS.Qltb 0 (JS.get (DxUnits.lfoDelay x) 1) = true).
  { apply (range_check 100). vm_compute. reflexivity. }
  specialize (Hpos d2 ltac:(lia)).
  apply andb_prop in Hpos. destruct Hpos as [Hpos Hp1].
  apply andb_prop in Hpos. destruct Hpos as [Hlen Hp0].
  destruct (Hmono d1 d2 ltac:(lia) ltac:(lia)) as [Ha Hb].
  split; [apply Nat.eqb_eq, Hlen|].
  split; [apply Qltb_lt, Hp0|].
  split; [apply Qltb_lt, Hp1|].
  split; assumption.
Qed.

Lemma lfoDelay_decreasing_witness :
  length (DxUnits.lfoDelay 99) = 2%nat
  /\ 0 < JS.get (DxUnits.lfoDelay 99) 0
  /\ 0 < JS.get (DxUnits.lfoDelay 99) 1
  /\ JS.get (DxUnits.lfoDelay 99) 0 <= JS.get (DxUnits.lfoDelay 0) 0
  /\ JS.get (DxUnits.lfoDelay 99) 1 <= JS.get (DxUnits.lfoDelay 0) 1.
Proof. apply (lfoDelay_decreasing 0 99); lia. Defined.

(** ** [Math.abs], [Math.max], [Math.min] *)

Lemma abs_Qabs (x : Q) : JS.abs x == Qabs x.
Proof.
  unfold JS.abs. destruct (Qle_bool 0 x) eqn:E.
  - apply Qle_bool_iff in E. symmetry. apply Qabs_pos. exact E.
  - symmetry. apply Qabs_neg. apply Qlt_le_weak, Qnot_le_lt.
    intros Hle. apply Qle_bool_iff in Hle. congruence.
Qed.

Lemma abs_nonneg (x : Q) : 0 <= JS.abs x.
Proof. rewrite abs_Qabs. apply Qabs_nonneg. Qed.

Lemma max_spec (x y : Q) : x <= JS.max x y /\ y <= JS.max x y.
Proof.
  unfold JS.max. destruct (Qle_bool x y) eqn:E.
  - apply Qle_bool_iff in E. split; [exact E|apply Qle_refl].
  - split; [apply Qle_refl|]. apply Qlt_le_weak, Qnot_le_lt.
    intros Hle. apply Qle_bool_iff in Hle. congruence.
Qed.



Lemma max_Qeq (x x' y : Q) : x == x' -> JS.max x y == JS.max x' y.
Proof.
  intros Hx. unfold JS.max.
  destruct (Qle_bool x y) eqn:E, (Qle_bool x' y) eqn:E'.
  - reflexivity.
  - apply Qle_bool_iff in E. rewrite Hx in E. apply Qle_bool_iff in E.
    congruence.
  - apply Qle_bool_iff in E'. rewrite <- Hx in E'. apply Qle_bool_iff in E'.
    congruence.
  - exact Hx.
Qed.

(** ** fm/dx_units.js: [pitchEnvelopeLevel], [keyboardScaling], [pow2Fast] *)

(** X5: [pitchEnvelopeLevel] is odd about level 50: the levels [100 - l]
    and [l] give opposite shifts, and level 50 gives none. *)
Theorem pitchEnvelopeLevel_odd (level : Z) :
  DxUnits.pitchEnvelopeLevel (100 - level)
  == - DxUnits.pitchEnvelopeLevel level
  /\ DxUnits.pitchEnvelopeLevel 50 == 0.
Proof.
  split; [|reflexivity].
  unfold DxUnits.pitchEnvelopeLevel. cbv zeta.
  set (l := (inject_Z level - 50.0) / 32.0).
  assert (Hl : (inject_Z (100 - level) - 50.0) / 32.0 == - l).
  { unfold l, Z.sub. rewrite inject_Z_plus, inject_Z_opp. field. }
  assert (Ht : JS.max (JS.abs ((inject_Z (100 - level) - 50.0) / 32.0)
                       + 0.02 - 1.0) 0.0
               == JS.max (JS.abs l + 0.02 - 1.0) 0.0).
  { apply max_Qeq. rewrite !abs_Qabs, Hl, Qabs_opp. reflexivity. }
  rewrite Ht, Hl. ring.
Qed.



Section Pow2Fast.
Context `{Platform}.

(** X7: at a whole number the polynomial orders of [pow2Fast] return what
    [Math.pow] returns, without any approximation: [2^n] for [n >= 0], and
    for [n < 0], where the code lowers the integral part by one more,
    [2 * 2^(n-1)]; both polynomials are 1 at 0 and 2 at 1. *)
Theorem pow2Fast_whole (n order : Z) :
  order <> 1%Z ->
  DxUnits.pow2Fast (inject_Z n) order
  == (if (n <? 0)%Z then 2 * Math_pow2 (inject_Z (n - 1))
      else Math_pow2 (inject_Z n)).
Proof.
  intros Ho. unfold DxUnits.pow2Fast.
  destruct (Z.eqb_spec order 1) as [?|_]; [contradiction|].
  cbv zeta. rewrite Qfloor_Z.
  assert (Hlt : JS.Qltb (inject_Z n) 0.0 = (n <? 0)%Z).
  { destruct (Z.ltb_spec n 0) as [Hn|Hn].
    - apply Qltb_lt. unfold Qlt. simpl. lia.
    - apply Qltb_ge. unfold Qle. simpl. lia. }
  rewrite Hlt. destruct (n <? 0)%Z.
  - assert (Hx : inject_Z n - inject_Z (n - 1) == 1).
    { unfold Z.sub. rewrite inject_Z_plus, inject_Z_opp. ring. }
    destruct (order =? 2)%Z; rewrite Hx; ring.
  - assert (Hx : inject_Z n - inject_Z n == 0) by ring.
    destruct (order =? 2)%Z; rewrite Hx; ring.
Qed.

End Pow2Fast.

Lemma pow2Fast_whole_witness :
  @DxUnits.pow2Fast Examples.platform (inject_Z (-3)) 2
  == 2 * @Math_pow2 Examples.platform (inject_Z (-3 - 1)).
Proof.
  apply (@pow2Fast_whole Examples.platform (-3) 2). discriminate.
Defined.

(** ** stmlib/dsp.js: the table lookups *)

Section Interpolation.
Context `{Platform}.

(** X8: [interpolate] returns the table entry itself whenever the product
    [index * size], as binary64 computes it, is a whole number [i] that
    has an entry after it in the table: the integral part is [i], the
    fractional part is 0 and the next entry does not contribute. *)
Theorem interpolate_at_grid (table : list Q) (index size : Q) (i : Z) :
  JS.fl64 (index * size) == inject_Z i ->
  (0 <= i)%Z ->
  (Z.to_nat i + 1 < length table)%nat ->
  Dsp.interpolate table index size == JS.get table i.
Proof.
  intros Hidx Hi Hlen. unfold Dsp.interpolate. cbv zeta.
  set (product := JS.fl64 (index * size)) in *.
  assert (Hfloor : Qfloor product = i).
  { rewrite (Qfloor_comp _ _ Hidx). apply Qfloor_Z. }
  rewrite Hfloor, Z.min_l by lia. rewrite Hidx. ring.
Qed.

(** The product is rounded: with size 49 the index [1/49], a double, gives
    a product just below 1, and the result lies below the entry 1 of the
    table. *)
Lemma interpolate_inexact_product :
  let index := JS.fl64 (1 # 49) in
  JS.fl64 (index * 49) == 1 - (1 # 9007199254740992)
  /\ Dsp.interpolate [0; 1; 2] index 49 < JS.get [0; 1; 2] 1.
Proof. split; vm_compute; reflexivity. Qed.

(** X9: [sine] has period 1 on the phases that are not negative (the
    range the source declares safe): for two doubles [phase] and
    [phase + n] that are not negative, [n] a whole number, the two calls
    return the same value.  The fractional parts of the two phases are
    the same number, so that the two calls agree from the first rounding
    on. *)
Theorem sine_periodic (phase : Q) (n : Z) :
  JS.isDouble phase = true ->
  JS.isDouble (phase + inject_Z n) = true ->
  0 <= phase ->
  0 <= phase + inject_Z n ->
  Dsp.sine (phase + inject_Z n) == Dsp.sine phase.
Proof.
  intros _ _ _ _. unfold Dsp.sine, Dsp.interpolateWrap. cbv zeta.
  rewrite Qfloor_add_Z.
  assert (Hu : JS.fl64 (phase + inject_Z n - inject_Z (Qfloor phase + n))
               == JS.fl64 (phase - inject_Z (Qfloor phase))).
  { apply fl64_proper. rewrite inject_Z_plus. ring. }
  assert (Hv : JS.fl64
                 (JS.fl64 (phase + inject_Z n - inject_Z (Qfloor phase + n))
                  * Dsp.SINE_LUT_SIZE)
               == JS.fl64
                    (JS.fl64 (phase - inject_Z (Qfloor phase))
                     * Dsp.SINE_LUT_SIZE)).
  { apply fl64_proper. rewrite Hu. reflexivity. }
  set (index' := JS.fl64 (JS.fl64 (phase + _ - _) * _)) in *.
  set (index := JS.fl64 (JS.fl64 (phase - _) * _)) in *.
  rewrite (Qfloor_comp _ _ Hv), Hv. reflexivity.
Qed.

#[local] Ltac zero_rounds :=
  change (Z.of_nat 0) with 0%Z; change (inject_Z 0) with 0;
  change (Qpower 1024 0) with 1; change (Qpower 1024 (- 0)) with 1; ring.

(** The first loop of [semitonesToRatioSafe]: given enough rounds it brings
    a value above 120 into (0, 120], multiplying the scale by 1024 at each
    round, and leaves a value that is not above 120 alone. *)
Lemma reduceAbove_spec (fuel : nat) (semitones scale : Q) :
  semitones <= 120 * inject_Z (Z.of_nat fuel) + 120 ->
  exists k : nat,
    fst (Dsp.reduceAbove fuel semitones scale)
    == semitones - 120 * inject_Z (Z.of_nat k)
    /\ snd (Dsp.reduceAbove fuel semitones scale)
       == scale * Qpower 1024 (Z.of_nat k)
    /\ fst (Dsp.reduceAbove fuel semitones scale) <= 120
    /\ (semitones <= 120 ->
        Dsp.reduceAbove fuel semitones scale = (semitones, scale))
    /\ (120 < semitones ->
        0 < fst (Dsp.reduceAbove fuel semitones scale)).
Proof.
  revert semitones scale.
  induction fuel as [|fuel IH]; intros semitones scale Hfuel.
  - exists 0%nat. cbn [Dsp.reduceAbove fst snd].
    assert (Hs : semitones <= 120).
    { eapply Qle_trans; [exact Hfuel|]. discriminate. }
    split; [zero_rounds|split; [zero_rounds|split; [exact Hs|split]]].
    + reflexivity.
    + intros Hgt. exfalso. apply (Qlt_not_le _ _ Hgt Hs).
  - cbn [Dsp.reduceAbove].
    destruct (JS.Qgtb semitones 120) eqn:E.
    + assert (Hgt : 120 < semitones).
      { unfold JS.Qgtb in E. apply negb_true_iff in E.
        apply Qnot_le_lt. intros Hle. apply Qle_bool_iff in Hle.
        congruence. }
      destruct (IH (semitones - 120) (scale * 1024)) as
        (k & Hk1 & Hk2 & Hk3 & Hk4 & Hk5).
      { rewrite Nat2Z.inj_succ in Hfuel. unfold Z.succ in Hfuel.
        rewrite inject_Z_plus in Hfuel.
        apply Qplus_le_l with (z := 120).
        eapply Qle_trans; [|eapply Qle_trans; [exact Hfuel|]].
        - apply Qle_lteq. right. ring.
        - apply Qle_lteq. right. ring. }
      exists (S k). split; [|split; [|split; [|split]]].
      * rewrite Hk1, Nat2Z.inj_succ. unfold Z.succ. rewrite inject_Z_plus.
        ring.
      * rewrite Hk2, Nat2Z.inj_succ. unfold Z.succ.
        rewrite Qpower_plus by discriminate. simpl. ring.
      * exact Hk3.
      * intros Hle. exfalso. apply (Qlt_not_le _ _ Hgt Hle).
      * intros _.
        destruct (Qlt_le_dec 120 (semitones - 120)) as [Hbig|Hsmall].
        -- apply Hk5. exact Hbig.
        -- rewrite (Hk4 Hsmall). cbn [fst].
           apply Qlt_minus_iff in Hgt. apply Qlt_le_trans with (1 := Hgt).
           apply Qle_lteq. right. ring.
    + assert (Hle : semitones <= 120).
      { unfold JS.Qgtb in E. apply negb_false_iff in E.
        apply Qle_bool_iff. exact E. }
      exists 0%nat. cbn [fst snd].
      split; [zero_rounds|split; [zero_rounds|split; [exact Hle|split]]].
      * reflexivity.
      * intros Hgt. exfalso. apply (Qlt_not_le _ _ Hgt Hle).
Qed.

(** The second loop, for the values below -120. *)
Lemma reduceBelow_spec (fuel : nat) (semitones scale : Q) :
  - (120 * inject_Z (Z.of_nat fuel) + 120) <= semitones ->
  exists k : nat,
    fst (Dsp.reduceBelow fuel semitones scale)
    == semitones + 120 * inject_Z (Z.of_nat k)
    /\ snd (Dsp.reduceBelow fuel semitones scale)
       == scale * Qpower 1024 (- Z.of_nat k)
    /\ -120 <= fst (Dsp.reduceBelow fuel semitones scale)
    /\ (-120 <= semitones ->
        Dsp.reduceBelow fuel semitones scale = (semitones, scale))
    /\ (semitones < -120 ->
        fst (Dsp.reduceBelow fuel semitones scale) < 0).
Proof.
  revert semitones scale.
  induction fuel as [|fuel IH]; intros semitones scale Hfuel.
  - exists 0%nat. cbn [Dsp.reduceBelow fst snd].
    assert (Hs : -120 <= semitones).
    { eapply Qle_trans; [|exact Hfuel]. discriminate. }
    split; [zero_rounds|split; [zero_rounds|split; [exact Hs|split]]].
    + reflexivity.
    + intros Hlt. exfalso. apply (Qlt_not_le _ _ Hlt Hs).
  - cbn [Dsp.reduceBelow].
    destruct (JS.Qltb semitones (-120)) eqn:E.
    + apply Qltb_lt in E.
      destruct (IH (semitones + 120) (scale * (1 / 1024))) as
        (k & Hk1 & Hk2 & Hk3 & Hk4 & Hk5).
      { rewrite Nat2Z.inj_succ in Hfuel. unfold Z.succ in Hfuel.
        rewrite inject_Z_plus in Hfuel.
        apply Qplus_le_l with (z := -120).
        eapply Qle_trans; [|eapply Qle_trans; [exact Hfuel|]].
        - apply Qle_lteq. right. ring.
        - apply Qle_lteq. right. ring. }
      exists (S k). split; [|split; [|split; [|split]]].
      * rewrite Hk1, Nat2Z.inj_succ. unfold Z.succ. rewrite inject_Z_plus.
        ring.
      * rewrite Hk2, Nat2Z.inj_succ. unfold Z.succ.
        rewrite Z.opp_add_distr, Qpower_plus by discriminate.
        change (Qpower 1024 (- (1))) with (/ 1024). field.
      * exact Hk3.
      * intros Hge. exfalso. apply (Qlt_not_le _ _ E Hge).
      * intros _.
        destruct (Qlt_le_dec (semitones + 120) (-120)) as [Hbig|Hsmall].
        -- apply Hk5. exact Hbig.
        -- rewrite (Hk4 Hsmall). cbn [fst].
           apply Qplus_lt_l with (z := -120).
           eapply Qle_lt_trans; [|eapply Qlt_le_trans; [exact E|]].
           ++ apply Qle_lteq. right. ring.
           ++ apply Qle_lteq. right. ring.
    + apply Qltb_ge in E.
      exists 0%nat. cbn [fst snd].
      split; [zero_rounds|split; [zero_rounds|split; [exact E|split]]].
      * reflexivity.
      * intros Hlt. exfalso. apply (Qlt_not_le _ _ Hlt E).
Qed.

(** The two loops of [semitonesToRatioSafe] in exact arithmetic: the
    value handed to [semitonesToRatio] is the argument moved by a whole
    number [k] of steps of 120 semitones into [-120, 120], and the result
    is that ratio times [1024^k]. *)
Lemma semitonesToRatioSafe_spec (semitones : Q) :
  exists (k : Z) (reduced : Q),
    reduced == semitones - 120 * inject_Z k
    /\ -120 <= reduced <= 120
    /\ Dsp.semitonesToRatioSafe semitones
       == Qpower 1024 k * Dsp.semitonesToRatio reduced
    /\ (-120 <= semitones <= 120 ->
        Dsp.semitonesToRatioSafe semitones
        == Dsp.semitonesToRatio semitones).
Proof.
  unfold Dsp.semitonesToRatioSafe. cbv zeta.
  set (fuel := Z.to_nat (Qceiling (JS.abs semitones / 120))).
  assert (Hfuel : JS.abs semitones <= 120 * inject_Z (Z.of_nat fuel)).
  { unfold fuel. rewrite Z2Nat.id.
    - apply Qle_trans with (120 * (JS.abs semitones / 120)).
      + apply Qle_lteq. right. field.
      + apply Qmult_le_l; [reflexivity|apply Qle_ceiling].
    - change 0%Z with (Qceiling 0). apply Qceiling_resp_le.
      apply Qle_shift_div_l; [reflexivity|].
      rewrite Qmult_0_l. apply abs_nonneg. }
  assert (Hup : semitones <= 120 * inject_Z (Z.of_nat fuel) + 120).
  { apply Qle_trans with (JS.abs semitones).
    - rewrite abs_Qabs. apply Qle_Qabs.
    - apply Qle_trans with (1 := Hfuel).
      apply Qle_trans with (120 * inject_Z (Z.of_nat fuel) + 0).
      + apply Qle_lteq. right. ring.
      + apply Qplus_le_r. discriminate. }
  assert (Hdown : - (120 * inject_Z (Z.of_nat fuel) + 120) <= semitones).
  { apply Qle_trans with (- JS.abs semitones).
    - apply Qopp_le_compat.
      apply Qle_trans with (1 := Hfuel).
      apply Qle_trans with (120 * inject_Z (Z.of_nat fuel) + 0).
      + apply Qle_lteq. right. ring.
      + apply Qplus_le_r. discriminate.
    - rewrite abs_Qabs. rewrite <- (Qopp_involutive semitones) at 2.
      apply Qopp_le_compat. rewrite <- Qabs_opp. apply Qle_Qabs. }
  destruct (reduceAbove_spec fuel semitones 1 Hup)
    as (ka & Ha1 & Ha2 & Ha3 & Ha4 & Ha5).
  destruct (Qlt_le_dec 120 semitones) as [Hbig|Hsmall].
  - (* above: the second loop finds nothing to do *)
    specialize (Ha5 Hbig).
    destruct (Dsp.reduceAbove fuel semitones 1) as [s1 sc1].
    cbn [fst snd] in *.
    assert (Hs1 : -120 <= s1).
    { apply Qle_trans with 0; [discriminate|apply Qlt_le_weak, Ha5]. }
    destruct (reduceBelow_spec fuel s1 sc1) as (_ & _ & _ & _ & Hb4 & _).
    { apply Qle_trans with (- (0 + 120)).
      - apply Qopp_le_compat. apply Qplus_le_l.
        apply Qmult_le_0_compat; [discriminate|].
        change 0 with (inject_Z 0). rewrite <- Zle_Qle. lia.
      - apply Qle_trans with (2 := Hs1). discriminate. }
    rewrite (Hb4 Hs1).
    exists (Z.of_nat ka), s1.
    split; [exact Ha1|split; [split; assumption|split]].
    + rewrite Ha2. ring.
    + intros [_ Hle]. exfalso. apply (Qlt_not_le _ _ Hbig Hle).
  - rewrite (Ha4 Hsmall).
    destruct (reduceBelow_spec fuel semitones 1 Hdown)
      as (kb & Hb1 & Hb2 & Hb3 & Hb4 & Hb5).
    destruct (Qlt_le_dec semitones (-120)) as [Hlow|Hin].
    + specialize (Hb5 Hlow).
      destruct (Dsp.reduceBelow fuel semitones 1) as [s2 sc2].
      cbn [fst snd] in *.
      exists (- Z.of_nat kb)%Z, s2.
      split; [|split; [split|split]].
      * rewrite Hb1, inject_Z_opp. ring.
      * exact Hb3.
      * apply Qle_trans with 0; [apply Qlt_le_weak, Hb5|discriminate].
      * rewrite Hb2. ring.
      * intros [Hge _]. exfalso. apply (Qlt_not_le _ _ Hlow Hge).
    + rewrite (Hb4 Hin).
      exists 0%Z, semitones.
      split; [zero_rounds|split; [split; assumption|split]].
      * zero_rounds.
      * intros _. ring.
Qed.

(** X10: [semitonesToRatioSafe] calls [Math.pow] within ten octaves
    only.  For a whole number of semitones up to 12000 in size (the
    subtractions of the loops are then exact in binary64, and the scale
    stays a power of two within the range of a double), the value handed
    to [semitonesToRatio] is the argument moved by a whole number [k] of
    steps of 120 semitones into [-120, 120], with [|k| <= 101], and the
    result is that ratio times [1024^k]; an argument that is in
    [-120, 120] already is handed over as it is. *)
Theorem semitonesToRatioSafe_reduces (n : Z) :
  (Z.abs n <= 12000)%Z ->
  exists (k : Z) (reduced : Q),
    reduced == inject_Z (n - 120 * k)
    /\ -120 <= reduced <= 120
    /\ (Z.abs k <= 101)%Z
    /\ Dsp.semitonesToRatioSafe (inject_Z n)
       == Qpower 1024 k * Dsp.semitonesToRatio reduced
    /\ (-120 <= inject_Z n <= 120 ->
        Dsp.semitonesToRatioSafe (inject_Z n)
        == Dsp.semitonesToRatio (inject_Z n)).
Proof.
  intros Hn.
  destruct (semitonesToRatioSafe_spec (inject_Z n))
    as (k & reduced & Hred & [Hlo Hhi] & Hsafe & Hin).
  assert (Hz : reduced == inject_Z (n - 120 * k)).
  { rewrite Hred. unfold Zminus.
    rewrite inject_Z_plus, inject_Z_opp, inject_Z_mult. ring. }
  exists k, reduced.
  split; [exact Hz|]. split; [split; assumption|].
  split; [|split; assumption].
  rewrite Hz in Hlo, Hhi.
  change (-120) with (inject_Z (-120)) in Hlo.
  change 120 with (inject_Z 120) in Hhi.
  rewrite <- Zle_Qle in Hlo, Hhi. lia.
Qed.

End Interpolation.

Lemma interpolate_at_grid_witness :
  Dsp.interpolate DxUnits.LUT_CUBE_ROOT 0.5 16.0
  == JS.get DxUnits.LUT_CUBE_ROOT 8.
Proof.
  apply (interpolate_at_grid DxUnits.LUT_CUBE_ROOT 0.5 16.0 8).
  - vm_compute. reflexivity.
  - lia.
  - vm_compute. lia.
Defined.

Lemma sine_periodic_witness :
  @Dsp.sine Examples.platform ((1 # 4) + inject_Z 3)
  == @Dsp.sine Examples.platform (1 # 4).
Proof.
  apply (@sine_periodic Examples.platform (1 # 4) 3).
  - vm_compute. reflexivity.
  - vm_compute. reflexivity.
  - discriminate.
  - discriminate.
Defined.

Lemma semitonesToRatioSafe_reduces_witness :
  exists (k : Z) (reduced : Q),
    reduced == inject_Z (300 - 120 * k)
    /\ -120 <= reduced <= 120
    /\ (Z.abs k <= 101)%Z
    /\ @Dsp.semitonesToRatioSafe Examples.platform (inject_Z 300)
       == Qpower 1024 k * @Dsp.semitonesToRatio Examples.platform reduced
    /\ (-120 <= inject_Z 300 <= 120 ->
        @Dsp.semitonesToRatioSafe Examples.platform (inject_Z 300)
        == @Dsp.semitonesToRatio Examples.platform (inject_Z 300)).
Proof.
  apply (@semitonesToRatioSafe_reduces Examples.platform 300). lia.
Defined.

(** ** fm/envelope.js: the phase of an envelope, and a new envelope *)

Lemma get_nonneg (a : list Q) (i : Z) :
  Forall (fun x => 0 <= x) a -> 0 <= JS.get a i.
Proof.
  intros Ha. unfold JS.get. destruct (i <? 0)%Z; [apply Qle_refl|].
  destruct (a !! Z.to_nat i) as [x|] eqn:E; [|apply Qle_refl].
  cbn. rewrite Forall_lookup in Ha. apply (Ha _ _ E).
Qed.

Lemma Qgeb_ge (x y : Q) : JS.Qgeb x y = true <-> y <= x.
Proof. unfold JS.Qgeb. apply Qle_bool_iff. Qed.

Lemma Qgeb_lt (x y : Q) : JS.Qgeb x y = false <-> x < y.
Proof.
  unfold JS.Qgeb. rewrite <- not_true_iff_false, Qle_bool_iff.
  split; [apply Qnot_le_lt|apply Qlt_not_le].
Qed.

(** The fields of an envelope after assignments, on an envelope that is a
    variable and on one that is given by its fields. *)
#[local] Ltac envelope_fields :=
  unfold FmEnvelope.Envelope.with_start, FmEnvelope.Envelope.with_stage,
    FmEnvelope.Envelope.with_phase;
  cbn [FmEnvelope.Envelope.phase FmEnvelope.Envelope.stage
       FmEnvelope.Envelope.numStages FmEnvelope.Envelope.increment
       FmEnvelope.Envelope.level FmEnvelope.Envelope.start
       FmEnvelope.Envelope.scale FmEnvelope.Envelope.reshapeAscending].

(** X11: after every call of [renderScaled] the phase of the envelope is at
    most 1, whatever the state and the arguments were; and it is not
    negative when it was not negative before and the increments, the rate
    and the two scales are not negative. *)
Theorem renderScaled_phase_range (e : FmEnvelope.Envelope.t) (gate : bool)
    (rate adScale releaseScale : Q) :
  let e' :=
    fst (FmEnvelope.Envelope.renderScaled e gate rate adScale releaseScale)
  in
  FmEnvelope.Envelope.phase e' <= 1
  /\ (0 <= FmEnvelope.Envelope.phase e ->
      Forall (fun x => 0 <= x) (FmEnvelope.Envelope.increment e) ->
      0 <= rate -> 0 <= adScale -> 0 <= releaseScale ->
      0 <= FmEnvelope.Envelope.phase e').
Proof.
  cbv zeta. unfold FmEnvelope.Envelope.renderScaled. cbv zeta. cbn [fst].
  set (e1 := if gate then _ else _).
  assert (He1 : FmEnvelope.Envelope.increment e1
                = FmEnvelope.Envelope.increment e
                /\ (FmEnvelope.Envelope.phase e1
                    = FmEnvelope.Envelope.phase e
                    \/ FmEnvelope.Envelope.phase e1 = 0.0)).
  { unfold e1.
    destruct gate,
      (FmEnvelope.Envelope.stage e =? FmEnvelope.Envelope.numStages e - 1)%Z;
      cbn [negb]; envelope_fields; auto. }
  destruct He1 as [Hinc Hph]. clearbody e1.
  set (sf := if (FmEnvelope.Envelope.stage e1
                 =? FmEnvelope.Envelope.numStages e1 - 1)%Z
             then releaseScale else adScale).
  envelope_fields.
  set (p2 := FmEnvelope.Envelope.phase e1
             + JS.get (FmEnvelope.Envelope.increment e1)
                 (FmEnvelope.Envelope.stage e1) * rate * sf).
  destruct (JS.Qgeb p2 1.0) eqn:E.
  - destruct (_ <=? _)%Z; envelope_fields;
      (split; [discriminate|intros; discriminate]).
  - apply Qgeb_lt in E. envelope_fields. split.
    + apply Qlt_le_weak. apply Qlt_le_trans with (1 := E). discriminate.
    + intros H0 Hall Hr Ha Hrs. unfold p2.
      assert (Hstep : 0 <= JS.get (FmEnvelope.Envelope.increment e1)
                             (FmEnvelope.Envelope.stage e1) * rate * sf).
      { repeat apply Qmult_le_0_compat.
        - apply get_nonneg. rewrite Hinc. exact Hall.
        - exact Hr.
        - unfold sf. destruct (_ =? _)%Z; assumption. }
      assert (Hp1 : 0 <= FmEnvelope.Envelope.phase e1).
      { destruct Hph as [-> | ->]; [exact H0|discriminate]. }
      apply Qle_trans with (0 + 0); [discriminate|].
      apply Qplus_le_compat; assumption.
Qed.

Lemma renderScaled_phase_range_witness :
  let e' :=
    fst (FmEnvelope.Envelope.renderScaled Examples.newEnvelope true 24 1 1)
  in
  FmEnvelope.Envelope.phase e' <= 1
  /\ 0 <= FmEnvelope.Envelope.phase e'.
Proof.
  destruct (renderScaled_phase_range Examples.newEnvelope true 24 1 1)
    as [Hle Hge].
  split; [exact Hle|].
  apply Hge.
  - discriminate.
  - repeat constructor; discriminate.
  - discriminate.
  - discriminate.
  - discriminate.
Defined.

(** A call with the gate off on an envelope at the end of its last stage:
    the value is the last level, when the level before it is not below. *)
Lemma renderScaled_at_rest (e : FmEnvelope.Envelope.t)
    (rate adScale releaseScale : Q) :
  let last := (FmEnvelope.Envelope.numStages e - 1)%Z in
  FmEnvelope.Envelope.stage e = last ->
  (2 <= FmEnvelope.Envelope.numStages e)%Z ->
  1 <= FmEnvelope.Envelope.phase e ->
  0 <= JS.get (FmEnvelope.Envelope.increment e) last * rate * releaseScale ->
  JS.get (FmEnvelope.Envelope.level e) last
  <= JS.get (FmEnvelope.Envelope.level e) (last - 1) ->
  let r :=
    FmEnvelope.Envelope.renderScaled e false rate adScale releaseScale in
  snd r == JS.get (FmEnvelope.Envelope.level e) last
  /\ FmEnvelope.Envelope.stage (fst r) = last
  /\ FmEnvelope.Envelope.phase (fst r) = 1.0.
Proof.
  intros last Hs Hn Hp Hstep Hlevels. cbv zeta.
  unfold FmEnvelope.Envelope.renderScaled. cbv zeta.
  fold last. rewrite Hs, Z.eqb_refl. cbn [negb]. rewrite Hs, Z.eqb_refl.
  envelope_fields. rewrite Hs.
  assert (Hge : JS.Qgeb
                  (FmEnvelope.Envelope.phase e
                   + JS.get (FmEnvelope.Envelope.increment e) last * rate
                     * releaseScale) 1.0 = true).
  { apply Qgeb_ge. apply Qle_trans with (1 + 0); [discriminate|].
    apply Qplus_le_compat; assumption. }
  rewrite Hge.
  destruct (Z.leb_spec (FmEnvelope.Envelope.numStages e - 2) last) as [_|Hlt];
    [|unfold last in Hlt; lia].
  envelope_fields. cbn [fst snd].
  split; [|split; [reflexivity|reflexivity]].
  unfold FmEnvelope.Envelope.value, FmEnvelope.Envelope.valueAt.
  envelope_fields.
  change (Qeq_bool FmEnvelope.PREVIOUS_LEVEL FmEnvelope.PREVIOUS_LEVEL)
    with true. cbv iota.
  replace (Z.rem (last + FmEnvelope.Envelope.numStages e - 1)
             (FmEnvelope.Envelope.numStages e)) with (last - 1)%Z.
  2: { unfold last.
       replace (FmEnvelope.Envelope.numStages e - 1
                + FmEnvelope.Envelope.numStages e - 1)%Z
         with (FmEnvelope.Envelope.numStages e - 1 - 1
               + 1 * FmEnvelope.Envelope.numStages e)%Z by lia.
       rewrite Z.rem_mod_nonneg, Z_mod_plus_full by lia.
       symmetry. apply Z.mod_small. lia. }
  assert (Hlt : JS.Qltb (JS.get (FmEnvelope.Envelope.level e) (last - 1))
                  (JS.get (FmEnvelope.Envelope.level e) last) = false).
  { apply Qltb_ge. exact Hlevels. }
  rewrite Hlt, andb_false_r. ring.
Qed.

(** X12: an envelope of four stages that has been constructed and
    initialised, and neither set nor gated yet, renders the value 0 and
    stays at the end of its last stage, at every rate and scale whose
    product is not negative.  (The envelopes of a voice are set by the
    constructor of the voice, and are not in this state.) *)
Theorem new_envelope_is_silent (reshapeAscending : bool)
    (scale rate adScale releaseScale : Q) :
  0 <= rate * releaseScale ->
  let e :=
    FmEnvelope.Envelope.init (FmEnvelope.Envelope.new 4 reshapeAscending)
      scale in
  let r :=
    FmEnvelope.Envelope.renderScaled e false rate adScale releaseScale in
  snd r == 0
  /\ FmEnvelope.Envelope.stage (fst r) = 3%Z
  /\ FmEnvelope.Envelope.phase (fst r) == 1.
Proof.
  intros Hr e r.
  destruct (renderScaled_at_rest e rate adScale releaseScale)
    as (Hv & Hs & Hp).
  - vm_compute. reflexivity.
  - vm_compute. discriminate.
  - vm_compute. discriminate.
  - change (JS.get (FmEnvelope.Envelope.increment e)
              (FmEnvelope.Envelope.numStages e - 1)) with 0.001.
    apply Qle_trans with (0.001 * (rate * releaseScale)).
    + apply Qmult_le_0_compat; [discriminate|exact Hr].
    + apply Qle_lteq. right. ring.
  - vm_compute. discriminate.
  - fold r in Hv, Hs, Hp. split; [|split].
    + rewrite Hv. vm_compute. reflexivity.
    + rewrite Hs. vm_compute. reflexivity.
    + rewrite Hp. reflexivity.
Qed.

Lemma new_envelope_is_silent_witness :
  let e :=
    FmEnvelope.Envelope.init (FmEnvelope.Envelope.new 4 true) 1 in
  let r := FmEnvelope.Envelope.renderScaled e false 24 1 1 in
  snd r == 0
  /\ FmEnvelope.Envelope.stage (fst r) = 3%Z
  /\ FmEnvelope.Envelope.phase (fst r) == 1.
Proof.
  apply (new_envelope_is_silent true 1 24 1 1). discriminate.
Defined.

(** ** fm/envelope.js: the increments [OperatorEnvelope.set] computes *)



Lemma Qgtb_gt (x y : Q) : JS.Qgtb x y = true <-> y < x.
Proof.
  unfold JS.Qgtb. rewrite negb_true_iff, <- not_true_iff_false, Qle_bool_iff.
  split; [apply Qnot_le_lt|apply Qlt_not_le].
Qed.








(** ** fm/lfo.js: the ranges of the phase, the delay and the value *)

(** X14: the delay ramp is 0 during the first half of the delay and stays
    in [0, 1] as long as the delay phase is at most 1; while it is 0 the
    LFO does not modulate the amplitude, whatever its waveform is, and it
    does not modulate the pitch when its pitch depth is the one that [set]
    computes from a depth and a pitch-mod sensitivity in 0..7, the indices
    of the sensitivity table. *)
Theorem delayRamp_range (this : FmLfo.Lfo.t) :
  FmLfo.Lfo.delayPhase this <= 1 ->
  0 <= FmLfo.Lfo.delayRamp this <= 1
  /\ (FmLfo.Lfo.delayPhase this < 0.5 ->
      FmLfo.Lfo.delayRamp this == 0
      /\ FmLfo.Lfo.ampMod this == 0
      /\ forall depth sensitivity : Z,
           (0 <= sensitivity <= 7)%Z ->
           FmLfo.Lfo.pitchModDepth this
           = inject_Z depth * 0.01 * DxUnits.pitchModSensitivity sensitivity ->
           FmLfo.Lfo.pitchMod this == 0).
Proof.
  intros Hle. unfold FmLfo.Lfo.pitchMod, FmLfo.Lfo.ampMod,
    FmLfo.Lfo.delayRamp.
  destruct (JS.Qltb (FmLfo.Lfo.delayPhase this) 0.5) eqn:E.
  - split; [split; discriminate|]. intros _.
    split; [reflexivity|split; [ring|]]. intros depth sensitivity _ _. ring.
  - apply Qltb_ge in E. split.
    + split.
      * apply Qmult_le_0_compat; [|discriminate].
        unfold Qminus. rewrite <- Qle_minus_iff. exact E.
      * apply Qle_trans with ((1 - 0.5) * 2.0); [|discriminate].
        apply Qmult_le_compat_r; [|discriminate].
        apply Qplus_le_l. exact Hle.
    + intros Hlt. exfalso. apply (Qlt_not_le _ _ Hlt E).
Qed.

Lemma delayRamp_range_witness :
  0 <= FmLfo.Lfo.delayRamp Examples.lfoStart <= 1
  /\ (FmLfo.Lfo.delayPhase Examples.lfoStart < 0.5 ->
      FmLfo.Lfo.delayRamp Examples.lfoStart == 0
      /\ FmLfo.Lfo.ampMod Examples.lfoStart == 0
      /\ forall depth sensitivity : Z,
           (0 <= sensitivity <= 7)%Z ->
           FmLfo.Lfo.pitchModDepth Examples.lfoStart
           = inject_Z depth * 0.01 * DxUnits.pitchModSensitivity sensitivity ->
           FmLfo.Lfo.pitchMod Examples.lfoStart == 0).
Proof. apply (delayRamp_range Examples.lfoStart). discriminate. Defined.

Section LfoStep.
Context `{Platform}.

(** X15: the delay phase never goes back and never passes 1: after a step
    with a scale and increments that are not negative, it is at least what
    it was and at most 1. *)
Theorem step_delayPhase (g : Random.t) (this : FmLfo.Lfo.t) (scale : Q) :
  FmLfo.Lfo.delayPhase this <= 1 ->
  0 <= scale ->
  Forall (fun x => 0 <= x) (FmLfo.Lfo.delayIncrement this) ->
  let this' := fst (FmLfo.Lfo.step g this scale) in
  FmLfo.Lfo.delayPhase this <= FmLfo.Lfo.delayPhase this'
  /\ FmLfo.Lfo.delayPhase this' <= 1
  /\ FmLfo.Lfo.delayIncrement this' = FmLfo.Lfo.delayIncrement this.
Proof.
  intros Hle Hscale Hinc. cbv zeta. unfold FmLfo.Lfo.step. cbv zeta.
  destruct (if JS.Qgeb _ 1.0 then _ else _) as [[phase randomValue] g'].
  cbn [fst FmLfo.Lfo.delayPhase FmLfo.Lfo.delayIncrement].
  set (inc := JS.get (FmLfo.Lfo.delayIncrement this) _).
  assert (Hstep : 0 <= scale * inc).
  { apply Qmult_le_0_compat; [exact Hscale|]. apply get_nonneg, Hinc. }
  destruct (JS.Qgeb (FmLfo.Lfo.delayPhase this + scale * inc) 1.0) eqn:E.
  - split; [|split; [discriminate|reflexivity]].
    apply Qle_trans with (1 := Hle). discriminate.
  - apply Qgeb_lt in E. split; [|split; [|reflexivity]].
    + apply Qle_trans with (FmLfo.Lfo.delayPhase this + 0).
      * apply Qle_lteq. right. ring.
      * apply Qplus_le_r. exact Hstep.
    + apply Qlt_le_weak. apply Qlt_le_trans with (1 := E). discriminate.
Qed.


End LfoStep.

Lemma step_delayPhase_witness :
  let this' :=
    fst (@FmLfo.Lfo.step Examples.platform (Examples.stub 0)
           Examples.lfoStart 24) in
  FmLfo.Lfo.delayPhase Examples.lfoStart <= FmLfo.Lfo.delayPhase this'
  /\ FmLfo.Lfo.delayPhase this' <= 1
  /\ FmLfo.Lfo.delayIncrement this'
     = FmLfo.Lfo.delayIncrement Examples.lfoStart.
Proof.
  apply (@step_delayPhase Examples.platform (Examples.stub 0)
           Examples.lfoStart 24).
  - discriminate.
  - discriminate.
  - vm_compute. repeat constructor; discriminate.
Defined.


(** ** fm/operator.js: a whole block of a renderer *)

Lemma get_set_ne (a : list Q) (i j : Z) (x : Q) :
  i <> j -> JS.get (JS.set a i x) j = JS.get a j.
Proof.
  intros Hne. unfold JS.get, JS.set.
  destruct (Z.ltb_spec i 0) as [?|Hi]; [reflexivity|].
  destruct (Z.ltb_spec j 0) as [?|Hj]; [reflexivity|].
  rewrite list_lookup_insert_ne by lia. reflexivity.
Qed.

Lemma ToUint32_range (x : Q) : (0 <= JS.ToUint32 x < JS.two32)%Z.
Proof. apply Z.mod_pos_bound. reflexivity. Qed.

(** Repeating the phase update [n] times adds [n] times the increment,
    modulo 2^32. *)
Lemma phaseUpdate_iter (n : nat) (p frequency : Z) :
  Nat.iter n (fun p => Spec.phaseUpdate p frequency) (JS.ToUint32Z p)
  = ((p + Z.of_nat n * frequency) mod JS.two32)%Z.
Proof.
  induction n as [|n IH].
  - change (Z.of_nat 0) with 0%Z.
    rewrite Z.mul_0_l, Z.add_0_r. reflexivity.
  - rewrite Nat.iter_succ, IH. unfold Spec.phaseUpdate, JS.ToUint32Z.
    rewrite Zplus_mod_idemp_l, Nat2Z.inj_succ. f_equal. ring.
Qed.

Section Block.
Context `{Platform}.

(** One round of the operator loop adds the increment of operator [i] to
    its amplitude, rounded to binary32, and touches no other amplitude. *)
Lemma operatorStep_amplitude (MODULATION_SOURCE : Z) (frequency : list Z)
    (amplitudeIncrement : list Q) (i : Z) (s : FmOperator.Inner) :
  (0 <= i)%Z -> (Z.to_nat i < length (FmOperator.i_amplitude s))%nat ->
  let s' :=
    FmOperator.operatorStep MODULATION_SOURCE frequency amplitudeIncrement
      i s in
  length (FmOperator.i_amplitude s') = length (FmOperator.i_amplitude s)
  /\ JS.get (FmOperator.i_amplitude s') i
     = Spec.amplitudeStep (JS.get amplitudeIncrement i)
         (JS.get (FmOperator.i_amplitude s) i)
  /\ (forall k, k <> i ->
        JS.get (FmOperator.i_amplitude s') k
        = JS.get (FmOperator.i_amplitude s) k).
Proof.
  intros Hi Hl. cbv zeta. unfold FmOperator.operatorStep.
  assert (Hamp :
    forall s', FmOperator.i_amplitude s'
               = JS.set (FmOperator.i_amplitude s) i
                   (Spec.amplitudeStep (JS.get amplitudeIncrement i)
                      (JS.get (FmOperator.i_amplitude s) i)) ->
    length (FmOperator.i_amplitude s') = length (FmOperator.i_amplitude s)
    /\ JS.get (FmOperator.i_amplitude s') i
       = Spec.amplitudeStep (JS.get amplitudeIncrement i)
           (JS.get (FmOperator.i_amplitude s) i)
    /\ (forall k, k <> i ->
          JS.get (FmOperator.i_amplitude s') k
          = JS.get (FmOperator.i_amplitude s) k)).
  { intros s' ->. split; [apply length_set|split].
    - apply get_set_same; assumption.
    - intros k Hne. apply get_set_ne. congruence. }
  destruct (i =? MODULATION_SOURCE)%Z; apply Hamp; reflexivity.
Qed.

(** One sample of a chain of [N] operators adds its increment to every
    amplitude of the chain, rounded to binary32, and writes the store
    inside the output buffer only. *)
Lemma sampleStep_amplitude (N : nat) (MODULATION_SOURCE : Z)
    (ADDITIVE : bool) (frequency : list Z) (amplitudeIncrement : list Q)
    (fbScale : Q) (modulation out : FmOperator.View.t) (sampleIdx : Z)
    (s : FmOperator.Loop) :
  length (FmOperator.l_amplitude s) = N ->
  let s' :=
    FmOperator.sampleStep N MODULATION_SOURCE ADDITIVE frequency
      amplitudeIncrement fbScale modulation out sampleIdx s in
  length (FmOperator.l_amplitude s') = N
  /\ (forall k, (0 <= k < Z.of_nat N)%Z ->
        JS.get (FmOperator.l_amplitude s') k
        = Spec.amplitudeStep (JS.get amplitudeIncrement k)
            (JS.get (FmOperator.l_amplitude s) k))
  /\ (forall j,
        ~ (FmOperator.View.offset out <= j
           < FmOperator.View.offset out + FmOperator.View.length out)%Z ->
        JS.get (FmOperator.l_store s') j = JS.get (FmOperator.l_store s) j).
Proof.
  intros Hl. cbv zeta. unfold FmOperator.sampleStep.
  cbn [FmOperator.l_amplitude FmOperator.l_store].
  match goal with
  | |- context [JS.for_ N ?body ?init] =>
      set (inner := JS.for_ N body init);
      assert (Hinner :
        length (FmOperator.i_amplitude inner) = N
        /\ forall k, (0 <= k)%Z ->
             JS.get (FmOperator.i_amplitude inner) k
             = if (k <? Z.of_nat N)%Z
               then Spec.amplitudeStep (JS.get amplitudeIncrement k)
                      (JS.get (FmOperator.l_amplitude s) k)
               else JS.get (FmOperator.l_amplitude s) k);
      [subst inner;
       apply (for_invariant_indexed (fun j r =>
          length (FmOperator.i_amplitude r) = N
          /\ forall k, (0 <= k)%Z ->
               JS.get (FmOperator.i_amplitude r) k
               = if (k <? Z.of_nat j)%Z
                 then Spec.amplitudeStep (JS.get amplitudeIncrement k)
                        (JS.get (FmOperator.l_amplitude s) k)
                 else JS.get (FmOperator.l_amplitude s) k))|]
  end.
  - cbn [FmOperator.i_amplitude]. split; [exact Hl|].
    intros k Hk. destruct (Z.ltb_spec k (Z.of_nat 0)); [lia|reflexivity].
  - intros j r Hj [Hlen Hcells].
    destruct (operatorStep_amplitude MODULATION_SOURCE frequency
                amplitudeIncrement (Z.of_nat j) r) as (Hl' & Hsame & Hother);
      [lia|lia|].
    split; [lia|]. intros k Hk.
    destruct (Z.eq_dec k (Z.of_nat j)) as [->|Hne].
    + rewrite Hsame, (Hcells _ Hk).
      destruct (Z.ltb_spec (Z.of_nat j) (Z.of_nat j)); [lia|].
      destruct (Z.ltb_spec (Z.of_nat j) (Z.of_nat (S j))); [reflexivity|lia].
    + rewrite (Hother k Hne), (Hcells _ Hk).
      destruct (Z.ltb_spec k (Z.of_nat j)), (Z.ltb_spec k (Z.of_nat (S j)));
        try reflexivity; lia.
  - destruct Hinner as [Hlen Hcells]. split; [exact Hlen|split].
    + intros k Hk. rewrite (Hcells k) by lia.
      destruct (Z.ltb_spec k (Z.of_nat N)); [reflexivity|lia].
    + intros j Hj.
      assert (Hset : forall x,
                JS.get (FmOperator.View.set (FmOperator.l_store s) out
                          sampleIdx x) j
                = JS.get (FmOperator.l_store s) j).
      { intros x. unfold FmOperator.View.set.
        destruct (_ && _) eqn:E; [|reflexivity].
        apply andb_prop in E. destruct E as [E0 E1].
        apply Z.leb_le in E0. apply Z.ltb_lt in E1.
        apply get_set_ne. lia. }
      destruct ADDITIVE; apply Hset.
Qed.

(** The sample loop, after [n] samples. *)
Lemma samples_state (N n : nat) (MODULATION_SOURCE : Z) (ADDITIVE : bool)
    (frequency : list Z) (amplitudeIncrement : list Q) (fbScale : Q)
    (modulation out : FmOperator.View.t) (s : FmOperator.Loop) :
  length (FmOperator.l_phase s) = N ->
  length (FmOperator.l_amplitude s) = N ->
  let s' :=
    JS.for_ n
      (FmOperator.sampleStep N MODULATION_SOURCE ADDITIVE frequency
         amplitudeIncrement fbScale modulation out) s in
  (forall k, (0 <= k < Z.of_nat N)%Z ->
     JS.getZ (FmOperator.l_phase s') k
     = Nat.iter n (fun p => Spec.phaseUpdate p (JS.getZ frequency k))
         (JS.getZ (FmOperator.l_phase s) k))
  /\ (forall k, (0 <= k < Z.of_nat N)%Z ->
        JS.get (FmOperator.l_amplitude s') k
        = Nat.iter n (Spec.amplitudeStep (JS.get amplitudeIncrement k))
            (JS.get (FmOperator.l_amplitude s) k))
  /\ (forall j,
        ~ (FmOperator.View.offset out <= j
           < FmOperator.View.offset out + FmOperator.View.length out)%Z ->
        JS.get (FmOperator.l_store s') j = JS.get (FmOperator.l_store s) j).
Proof.
  intros Hlp Hla. cbv zeta.
  assert (Hinv :
    (length (FmOperator.l_phase
       (JS.for_ n
          (FmOperator.sampleStep N MODULATION_SOURCE ADDITIVE frequency
             amplitudeIncrement fbScale modulation out) s)) = N
     /\ length (FmOperator.l_amplitude
          (JS.for_ n
             (FmOperator.sampleStep N MODULATION_SOURCE ADDITIVE frequency
                amplitudeIncrement fbScale modulation out) s)) = N)
    /\ (forall k, (0 <= k < Z.of_nat N)%Z ->
          JS.getZ (FmOperator.l_phase
             (JS.for_ n
                (FmOperator.sampleStep N MODULATION_SOURCE ADDITIVE
                   frequency amplitudeIncrement fbScale modulation out) s)) k
          = Nat.iter n (fun p => Spec.phaseUpdate p (JS.getZ frequency k))
              (JS.getZ (FmOperator.l_phase s) k))
    /\ (forall k, (0 <= k < Z.of_nat N)%Z ->
          JS.get (FmOperator.l_amplitude
             (JS.for_ n
                (FmOperator.sampleStep N MODULATION_SOURCE ADDITIVE
                   frequency amplitudeIncrement fbScale modulation out) s)) k
          = Nat.iter n (Spec.amplitudeStep (JS.get amplitudeIncrement k))
              (JS.get (FmOperator.l_amplitude s) k))
    /\ (forall j,
          ~ (FmOperator.View.offset out <= j
             < FmOperator.View.offset out + FmOperator.View.length out)%Z ->
          JS.get (FmOperator.l_store
             (JS.for_ n
                (FmOperator.sampleStep N MODULATION_SOURCE ADDITIVE
                   frequency amplitudeIncrement fbScale modulation out) s)) j
          = JS.get (FmOperator.l_store s) j)).
  { induction n as [|n IH].
    - split; [split; assumption|split; [|split]].
      + intros k Hk. reflexivity.
      + intros k Hk. reflexivity.
      + intros j Hj. reflexivity.
    - destruct IH as [[IHlp IHla] (IHp & IHa & IHs)].
      rewrite for_S.
      set (sn := JS.for_ n _ s) in *.
      destruct (sampleStep_phase N MODULATION_SOURCE ADDITIVE frequency
                  amplitudeIncrement fbScale modulation out (Z.of_nat n) sn
                  IHlp) as [Hlp' Hp'].
      destruct (sampleStep_amplitude N MODULATION_SOURCE ADDITIVE frequency
                  amplitudeIncrement fbScale modulation out (Z.of_nat n) sn
                  IHla) as (Hla' & Ha' & Hs').
      split; [split; assumption|split; [|split]].
      + intros k Hk. rewrite (Hp' k Hk), (IHp k Hk), Nat.iter_succ.
        reflexivity.
      + intros k Hk. rewrite (Ha' k Hk), (IHa k Hk), Nat.iter_succ.
        reflexivity.
      + intros j Hj. rewrite (Hs' j Hj). apply IHs. exact Hj. }
  destruct Hinv as [_ Hinv]. exact Hinv.
Qed.

(** The loop that copies the operators of the slice into the arrays of the
    renderer. *)
Lemma setup_arrays (N : nat) (ops : list FmOperator.Operator.t)
    (f a : list Q) (scale : Q) :
  let op i := default FmOperator.Operator.new (ops !! Z.to_nat i) in
  let '(frequency, phase, amplitude, amplitudeIncrement) :=
    JS.for_ N (fun i '(frequency, phase, amplitude, amplitudeIncrement) =>
      let frequency :=
        JS.setZ JS.ToUint32Z frequency i
          (JS.ToUint32 (JS.min (JS.get f i) 0.5 * 4294967296.0)) in
      let phase :=
        JS.setZ JS.ToUint32Z phase i (FmOperator.Operator.phase (op i)) in
      let amplitude :=
        JS.set amplitude i
          (JS.fround (FmOperator.Operator.amplitude (op i))) in
      let amplitudeIncrement :=
        JS.set amplitudeIncrement i
          (JS.fround
             (JS.fl64
                (JS.fl64 (JS.min (JS.get a i) 4.0 - JS.get amplitude i)
                 * scale))) in
      (frequency, phase, amplitude, amplitudeIncrement))
      (replicate N 0%Z, replicate N 0%Z, replicate N 0.0, replicate N 0.0) in
  length phase = N /\ length amplitude = N
  /\ forall k, (0 <= k < Z.of_nat N)%Z ->
       JS.getZ frequency k
       = JS.ToUint32 (JS.min (JS.get f k) 0.5 * 4294967296.0)
       /\ JS.getZ phase k = JS.ToUint32Z (FmOperator.Operator.phase (op k))
       /\ JS.get amplitude k
          = JS.fround (FmOperator.Operator.amplitude (op k))
       /\ JS.get amplitudeIncrement k
          = JS.fround
              (JS.fl64
                 (JS.fl64
                    (JS.min (JS.get a k) 4.0
                     - JS.fround (FmOperator.Operator.amplitude (op k)))
                  * scale)).
Proof.
  intros op.
  match goal with
  | |- context [JS.for_ N ?body ?init] =>
      pose proof (for_invariant_indexed
        (fun j '(frequency, phase, amplitude, amplitudeIncrement) =>
           (length frequency = N /\ length phase = N
            /\ length amplitude = N /\ length amplitudeIncrement = N)
           /\ forall k, (0 <= k < Z.of_nat j)%Z ->
                JS.getZ frequency k
                = JS.ToUint32 (JS.min (JS.get f k) 0.5 * 4294967296.0)
                /\ JS.getZ phase k
                   = JS.ToUint32Z (FmOperator.Operator.phase (op k))
                /\ JS.get amplitude k
                   = JS.fround (FmOperator.Operator.amplitude (op k))
                /\ JS.get amplitudeIncrement k
                   = JS.fround
                       (JS.fl64
                          (JS.fl64
                             (JS.min (JS.get a k) 4.0
                              - JS.fround
                                  (FmOperator.Operator.amplitude (op k)))
                           * scale)))
        N body init) as Hloop;
      destruct (JS.for_ N body init)
        as [[[frequency phase] amplitude] amplitudeIncrement]
  end.
  destruct Hloop as [(_ & Hlp & Hla & _) Hcells].
  - split; [rewrite !length_replicate; repeat split; reflexivity|].
    intros k Hk. lia.
  - intros i [[[fr ph] am] ai] Hi [(Hlf & Hlp & Hla & Hli) Hcells].
    split; [rewrite !length_setZ, !length_set; repeat split; assumption|].
    intros k Hk.
    destruct (Z.eq_dec k (Z.of_nat i)) as [->|Hne].
    + rewrite !getZ_setZ_same, !get_set_same by lia.
      split; [apply ToUint32Z_small, ToUint32_range|].
      split; [|split]; reflexivity.
    + rewrite !getZ_setZ_other, !get_set_ne by lia.
      apply Hcells. lia.
  - split; [exact Hlp|split; [exact Hla|exact Hcells]].
Qed.

(** The loop that writes the arrays back into the operators. *)
Lemma write_back (N : nat) (phase : list Z) (amplitude : list Q)
    (ops : list FmOperator.Operator.t) (k : nat) :
  (N <= length ops)%nat -> (k < N)%nat ->
  JS.for_ N (fun i ops =>
    <[Z.to_nat i :=
        FmOperator.Operator.mk (JS.getZ phase i) (JS.get amplitude i)]> ops)
    ops !! k
  = Some (FmOperator.Operator.mk (JS.getZ phase (Z.of_nat k))
            (JS.get amplitude (Z.of_nat k))).
Proof.
  intros HN Hk.
  assert (Hinv :
    length (JS.for_ N (fun i ops =>
      <[Z.to_nat i :=
          FmOperator.Operator.mk (JS.getZ phase i) (JS.get amplitude i)]>
        ops) ops) = length ops
    /\ forall j, (j < N)%nat ->
         JS.for_ N (fun i ops =>
           <[Z.to_nat i :=
               FmOperator.Operator.mk (JS.getZ phase i)
                 (JS.get amplitude i)]> ops) ops !! j
         = Some (FmOperator.Operator.mk (JS.getZ phase (Z.of_nat j))
                   (JS.get amplitude (Z.of_nat j)))).
  { clear Hk. induction N as [|N IH].
    - split; [reflexivity|]. intros j Hj. lia.
    - destruct IH as [IHl IHc]; [lia|].
      rewrite for_S. split; [rewrite length_insert; exact IHl|].
      intros j Hj. rewrite Nat2Z.id.
      destruct (Nat.eq_dec j N) as [->|Hne].
      + apply list_lookup_insert_eq. lia.
      + rewrite list_lookup_insert_ne by lia. apply IHc. lia. }
  apply Hinv. exact Hk.
Qed.

(** X17: over a whole block, a renderer advances the phase of every
    operator of its chain by [size] times its frequency word, modulo 2^32,
    where the frequency word is [min(f, 0.5) * 2^32] truncated; it ramps
    the amplitude of the operator in binary32, from the rounded amplitude
    by [size] rounded additions of the increment that it computes from
    the target [min(a, 4)], for an amplitude of size 4 at most and a
    target of -4 at least; and it writes the store inside its output
    buffer only. *)
Theorem renderOperators_block (N : nat) (MODULATION_SOURCE : Z)
    (ADDITIVE : bool) (ops : list FmOperator.Operator.t) (f a : list Q)
    (fbState : list Q) (fbAmount : Z) (mem : list Q)
    (modulation out : FmOperator.View.t) (k : nat) :
  (N <= length ops)%nat -> (k < N)%nat ->
  let r :=
    FmOperator.renderOperators N MODULATION_SOURCE ADDITIVE ops f a fbState
      fbAmount mem modulation out in
  let size := FmOperator.View.length out in
  let before := default FmOperator.Operator.new (ops !! k) in
  let after := default FmOperator.Operator.new (FmOperator.ops' r !! k) in
  let frequency :=
    JS.ToUint32 (JS.min (JS.get f (Z.of_nat k)) 0.5 * 4294967296.0) in
  let amplitude := JS.fround (FmOperator.Operator.amplitude before) in
  let increment :=
    Spec.amplitudeIncrement (JS.get a (Z.of_nat k)) amplitude size in
  FmOperator.Operator.phase after
  = ((FmOperator.Operator.phase before + Z.max 0 size * frequency)
     mod 4294967296)%Z
  /\ (Qabs (FmOperator.Operator.amplitude before) <= 4 ->
      -4 <= JS.get a (Z.of_nat k) ->
      FmOperator.Operator.amplitude after
      = Nat.iter (Z.to_nat size) (Spec.amplitudeStep increment) amplitude)
  /\ (forall j,
        ~ (FmOperator.View.offset out <= j
           < FmOperator.View.offset out + size)%Z ->
        JS.get (FmOperator.mem' r) j = JS.get mem j).
Proof.
  intros HN Hk. cbv zeta. unfold FmOperator.renderOperators. cbv zeta.
  pose proof (setup_arrays N ops f a
                (JS.fl64 (1.0 / inject_Z (FmOperator.View.length out))))
    as Harr.
  cbv zeta in Harr.
  destruct (JS.for_ N _ _)
    as [[[frequency phase] amplitude] amplitudeIncrement].
  destruct Harr as (Hlp & Hla & Hcells).
  cbn [FmOperator.ops' FmOperator.mem'].
  match goal with
  | |- context [JS.for_ (Z.to_nat ?size) ?body ?init] =>
      pose proof (samples_state N (Z.to_nat size) MODULATION_SOURCE ADDITIVE
                    frequency amplitudeIncrement
                    (if negb (fbAmount =? 0)%Z
                     then inject_Z (JS.shl 1 fbAmount) / 512.0 else 0.0)
                    modulation out init Hlp Hla) as Hs;
      cbv zeta in Hs;
      set (s := JS.for_ (Z.to_nat size) body init) in *
  end.
  destruct Hs as (Hp & Ha & Hstore).
  cbn [FmOperator.l_phase FmOperator.l_amplitude FmOperator.l_store] in *.
  rewrite (write_back N (FmOperator.l_phase s) (FmOperator.l_amplitude s)
             ops k HN Hk).
  cbn [default FmOperator.Operator.phase FmOperator.Operator.amplitude].
  destruct (Hcells (Z.of_nat k) ltac:(lia)) as (Hf & Hph & Ham & Hai).
  rewrite Nat2Z.id in Hph, Ham, Hai.
  split; [|split].
  - rewrite (Hp (Z.of_nat k)) by lia. rewrite Hph, Hf, phaseUpdate_iter.
    replace (Z.of_nat (Z.to_nat (FmOperator.View.length out)))
      with (Z.max 0 (FmOperator.View.length out)) by lia.
    reflexivity.
  - intros _ _. rewrite (Ha (Z.of_nat k)) by lia. rewrite Ham, Hai.
    reflexivity.
  - exact Hstore.
Qed.

(** The ramp does not end on its target in general: from 0 to the target 1
    over a block of 24 samples it ends above 1. *)
Lemma amplitude_ramp_overshoots :
  1 < Nat.iter 24 (Spec.amplitudeStep (Spec.amplitudeIncrement 1 0 24)) 0.
Proof. vm_compute. reflexivity. Qed.

End Block.

Lemma renderOperators_block_witness :
  let ops := [FmOperator.Operator.mk 4294967290 0.0;
              FmOperator.Operator.mk 5 1.0] in
  let out := FmOperator.View.mk 0 2 in
  let r :=
    @FmOperator.renderOperators Examples.platform 2 (-1) false ops
      [0.25; 0.75] [1.0; 8.0] [0.0; 0.0] 0 [0.0; 0.0; 0.0; 0.0]
      (FmOperator.View.mk 2 2) out in
  let size := FmOperator.View.length out in
  let before := default FmOperator.Operator.new (ops !! 1%nat) in
  let after :=
    default FmOperator.Operator.new (FmOperator.ops' r !! 1%nat) in
  let frequency :=
    JS.ToUint32 (JS.min (JS.get [0.25; 0.75] (Z.of_nat 1)) 0.5
                 * 4294967296.0) in
  let amplitude := JS.fround (FmOperator.Operator.amplitude before) in
  let increment :=
    Spec.amplitudeIncrement (JS.get [1.0; 8.0] (Z.of_nat 1)) amplitude
      size in
  FmOperator.Operator.phase after
  = ((FmOperator.Operator.phase before + Z.max 0 size * frequency)
     mod 4294967296)%Z
  /\ (Qabs (FmOperator.Operator.amplitude before) <= 4 ->
      -4 <= JS.get [1.0; 8.0] (Z.of_nat 1) ->
      FmOperator.Operator.amplitude after
      = Nat.iter (Z.to_nat size) (Spec.amplitudeStep increment) amplitude)
  /\ (forall j,
        ~ (FmOperator.View.offset out <= j
           < FmOperator.View.offset out + size)%Z ->
        JS.get (FmOperator.mem' r) j = JS.get [0.0; 0.0; 0.0; 0.0] j).
Proof.
  apply (@renderOperators_block Examples.platform 2 (-1) false
           [FmOperator.Operator.mk 4294967290 0.0;
            FmOperator.Operator.mk 5 1.0]
           [0.25; 0.75] [1.0; 8.0] [0.0; 0.0] 0 [0.0; 0.0; 0.0; 0.0]
           (FmOperator.View.mk 2 2) (FmOperator.View.mk 0 2) 1%nat).
  - cbn. lia.
  - lia.
Defined.

(** ** fm/algorithms.js: the renderer table and the compiled plans *)

Lemma findRenderer_found (specs : list FmAlgorithms.RendererSpecs.t)
    (n modulationSource : Z) (additive : bool) (r : FmAlgorithms.RenderFn) :
  FmAlgorithms.findRenderer specs n modulationSource additive = Some r ->
  exists s,
    In s specs
    /\ FmAlgorithms.RendererSpecs.n s = n
    /\ FmAlgorithms.RendererSpecs.modulationSource s = modulationSource
    /\ FmAlgorithms.RendererSpecs.additive s = additive
    /\ FmAlgorithms.RendererSpecs.renderFn s = r
    /\ n <> 0%Z.
Proof.
  induction specs as [|s rest IH]; [discriminate|].
  cbn [FmAlgorithms.findRenderer].
  destruct (Z.eqb_spec (FmAlgorithms.RendererSpecs.n s) 0) as [|Hn0];
    [discriminate|].
  destruct (_ && _) eqn:E.
  - intros [= <-]. apply andb_prop in E. destruct E as [E Ea].
    apply andb_prop in E. destruct E as [En Em].
    apply Z.eqb_eq in En. apply Z.eqb_eq in Em.
    apply Bool.eqb_prop in Ea.
    exists s. repeat split; try assumption; [left; reflexivity|congruence].
  - intros Hrest. destruct (IH Hrest) as (s' & Hin & Hs').
    exists s'. split; [right; exact Hin|exact Hs'].
Qed.

(** X18: a renderer that [getRenderer] finds is the one that was asked for:
    it renders [n] operators, with the modulation source and the additive
    flag of the request; and only the eight combinations of the table are
    ever found. *)
Theorem getRenderer_matches (n modulationSource : Z) (additive : bool)
    (r : FmAlgorithms.RenderFn) :
  FmAlgorithms.getRenderer n modulationSource additive = Some r ->
  Z.of_nat (FmAlgorithms.N r) = n
  /\ FmAlgorithms.MODULATION_SOURCE r = modulationSource
  /\ FmAlgorithms.ADDITIVE r = additive
  /\ In (n, modulationSource, additive)
       [(1, -2, false); (1, -2, true); (1, -1, false); (1, -1, true);
        (1, 0, false); (1, 0, true); (3, 2, true); (2, 1, true)]%Z.
Proof.
  intros Hfound. unfold FmAlgorithms.getRenderer in Hfound.
  destruct (findRenderer_found _ _ _ _ _ Hfound)
    as (s & Hin & <- & <- & <- & <- & Hn0).
  unfold FmAlgorithms.RENDERERS_6 in Hin. cbn [In] in Hin.
  repeat (destruct Hin as [<- | Hin]); cbn; repeat split; tauto.
Qed.

Lemma getRenderer_matches_witness :
  Z.of_nat (FmAlgorithms.N (FmAlgorithms.mkRenderFn 3 2 true)) = 3%Z
  /\ FmAlgorithms.MODULATION_SOURCE (FmAlgorithms.mkRenderFn 3 2 true) = 2%Z
  /\ FmAlgorithms.ADDITIVE (FmAlgorithms.mkRenderFn 3 2 true) = true
  /\ In (3, 2, true)%Z
       [(1, -2, false); (1, -2, true); (1, -1, false); (1, -1, true);
        (1, 0, false); (1, 0, true); (3, 2, true); (2, 1, true)]%Z.
Proof.
  apply (getRenderer_matches 3 2 true (FmAlgorithms.mkRenderFn 3 2 true)).
  reflexivity.
Defined.

(** X19: for each of the 32 algorithms the compiled plan renders each of the
    six operators exactly once: the calls the dispatch loop reaches have
    chain lengths that are at least 1 and add up to 6, and the renderer of
    a call renders as many operators as the loop then skips.  Their buffer
    indices are in 0..3; a call writes to buffer 0, the output, exactly
    when the last operator of its chain is not a modulator, and then it
    adds to the buffer (the voice never clears its output); and at least
    one call writes to the output. *)
Theorem compiled_plan_covers (algorithm : Z) :
  (0 <= algorithm < 32)%Z ->
  let this := FmAlgorithms.Algorithms.new in
  let calls := Spec.callsReached 6 this algorithm 0 in
  Spec.sumZ (map (fun c => FmAlgorithms.RenderCall.n (snd c)) calls) = 6%Z
  /\ Forall (fun c =>
       let i := fst c in
       let call := snd c in
       (1 <= FmAlgorithms.RenderCall.n call)%Z
       /\ Z.of_nat (FmAlgorithms.N (FmAlgorithms.RenderCall.renderFn call))
          = FmAlgorithms.RenderCall.n call
       /\ (0 <= FmAlgorithms.RenderCall.inputIndex call <= 3)%Z
       /\ (0 <= FmAlgorithms.RenderCall.outputIndex call <= 3)%Z
       /\ FmAlgorithms.Algorithms.isModulator this algorithm
            (i + FmAlgorithms.RenderCall.n call - 1)
          = negb (FmAlgorithms.RenderCall.outputIndex call =? 0)%Z
       /\ (FmAlgorithms.RenderCall.outputIndex call = 0%Z ->
           FmAlgorithms.ADDITIVE (FmAlgorithms.RenderCall.renderFn call)
           = true)) calls
  /\ Exists (fun c => FmAlgorithms.RenderCall.outputIndex (snd c) = 0%Z)
       calls.
Proof.
  intros Ha. cbv zeta.
  assert (Hcheck : forall a, (0 <= a < Z.of_nat 32)%Z ->
    (let calls :=
       Spec.callsReached 6 FmAlgorithms.Algorithms.new a 0 in
     (Spec.sumZ (map (fun c => FmAlgorithms.RenderCall.n (snd c)) calls)
      =? 6)%Z
     && forallb (fun c =>
          let i := fst c in
          let call := snd c in
          (1 <=? FmAlgorithms.RenderCall.n call)%Z
          && (Z.of_nat
                (FmAlgorithms.N (FmAlgorithms.RenderCall.renderFn call))
              =? FmAlgorithms.RenderCall.n call)%Z
          && (0 <=? FmAlgorithms.RenderCall.inputIndex call)%Z
          && (FmAlgorithms.RenderCall.inputIndex call <=? 3)%Z
          && (0 <=? FmAlgorithms.RenderCall.outputIndex call)%Z
          && (FmAlgorithms.RenderCall.outputIndex call <=? 3)%Z
          && Bool.eqb
               (FmAlgorithms.Algorithms.isModulator
                  FmAlgorithms.Algorithms.new a
                  (i + FmAlgorithms.RenderCall.n call - 1))
               (negb (FmAlgorithms.RenderCall.outputIndex call =? 0)%Z)
          && implb (FmAlgorithms.RenderCall.outputIndex call =? 0)%Z
               (FmAlgorithms.ADDITIVE
                  (FmAlgorithms.RenderCall.renderFn call))) calls
     && existsb (fun c =>
          (FmAlgorithms.RenderCall.outputIndex (snd c) =? 0)%Z) calls)
    = true).
  { apply (range_check 32). vm_compute. reflexivity. }
  specialize (Hcheck algorithm Ha). cbv zeta in Hcheck.
  set (calls := Spec.callsReached 6 FmAlgorithms.Algorithms.new algorithm 0)
    in *.
  clearbody calls.
  apply andb_prop in Hcheck. destruct Hcheck as [Hcheck Hex].
  apply andb_prop in Hcheck. destruct Hcheck as [Hsum Hall].
  split; [apply Z.eqb_eq, Hsum|split].
  - apply List.Forall_forall. intros c Hc.
    rewrite forallb_forall in Hall. specialize (Hall c Hc).
    cbv zeta in Hall.
    repeat rewrite andb_true_iff in Hall.
    destruct Hall as [[[[[[[H1 H2] H3] H4] H5] H6] H7] H8].
    apply Z.leb_le in H1, H3, H4, H5, H6. apply Z.eqb_eq in H2.
    apply Bool.eqb_prop in H7.
    repeat split; try assumption.
    intros Hout. rewrite Hout in H8. exact H8.
  - apply List.Exists_exists. apply existsb_exists in Hex.
    destruct Hex as (c & Hc & Hout). exists c.
    split; [exact Hc|apply Z.eqb_eq, Hout].
Qed.

Lemma compiled_plan_covers_witness :
  let this := FmAlgorithms.Algorithms.new in
  let calls := Spec.callsReached 6 this 4 0 in
  Spec.sumZ (map (fun c => FmAlgorithms.RenderCall.n (snd c)) calls) = 6%Z
  /\ Forall (fun c =>
       let i := fst c in
       let call := snd c in
       (1 <= FmAlgorithms.RenderCall.n call)%Z
       /\ Z.of_nat (FmAlgorithms.N (FmAlgorithms.RenderCall.renderFn call))
          = FmAlgorithms.RenderCall.n call
       /\ (0 <= FmAlgorithms.RenderCall.inputIndex call <= 3)%Z
       /\ (0 <= FmAlgorithms.RenderCall.outputIndex call <= 3)%Z
       /\ FmAlgorithms.Algorithms.isModulator this 4
            (i + FmAlgorithms.RenderCall.n call - 1)
          = negb (FmAlgorithms.RenderCall.outputIndex call =? 0)%Z
       /\ (FmAlgorithms.RenderCall.outputIndex call = 0%Z ->
           FmAlgorithms.ADDITIVE (FmAlgorithms.RenderCall.renderFn call)
           = true)) calls
  /\ Exists (fun c => FmAlgorithms.RenderCall.outputIndex (snd c) = 0%Z)
       calls.
Proof. apply (compiled_plan_covers 4). lia. Defined.

(** ** fm/patch.js: [setOp] *)

(** X20: [setOp] throws its error exactly for an index outside 1..6, and
    otherwise stores the operator at position [6 - idx] of the six
    operators and changes nothing else of the patch. *)
Theorem setOp_spec (this : FmPatch.Patch.t) (idx : Z)
    (operator : FmPatch.Operator.t) :
  length (FmPatch.Patch.op this) = 6%nat ->
  match FmPatch.Patch.setOp this idx operator with
  | Throw e => e = BadOperatorIndex /\ ~ (1 <= idx <= 6)%Z
  | Ok this' =>
      (1 <= idx <= 6)%Z
      /\ FmPatch.Patch.op this' !! Z.to_nat (6 - idx) = Some operator
      /\ (forall j, j <> Z.to_nat (6 - idx) ->
            FmPatch.Patch.op this' !! j = FmPatch.Patch.op this !! j)
      /\ length (FmPatch.Patch.op this') = 6%nat
      /\ FmPatch.Patch.pitchEnvelope this' = FmPatch.Patch.pitchEnvelope this
      /\ FmPatch.Patch.algorithm this' = FmPatch.Patch.algorithm this
      /\ FmPatch.Patch.feedback this' = FmPatch.Patch.feedback this
      /\ FmPatch.Patch.resetPhase this' = FmPatch.Patch.resetPhase this
      /\ FmPatch.Patch.modulations this' = FmPatch.Patch.modulations this
      /\ FmPatch.Patch.transpose this' = FmPatch.Patch.transpose this
      /\ FmPatch.Patch.name this' = FmPatch.Patch.name this
      /\ FmPatch.Patch.activeOperators this'
         = FmPatch.Patch.activeOperators this
  end.
Proof.
  intros Hlen. unfold FmPatch.Patch.setOp.
  destruct (Z.ltb_spec idx 1) as [Hlt|Hge]; cbn [orb].
  - split; [reflexivity|lia].
  - destruct (Z.gtb_spec idx 6) as [Hgt|Hle].
    + split; [reflexivity|lia].
    + cbn [FmPatch.Patch.op FmPatch.Patch.pitchEnvelope
           FmPatch.Patch.algorithm FmPatch.Patch.feedback
           FmPatch.Patch.resetPhase FmPatch.Patch.modulations
           FmPatch.Patch.transpose FmPatch.Patch.name
           FmPatch.Patch.activeOperators].
      split; [lia|]. split; [apply list_lookup_insert_eq; lia|].
      split; [intros j Hj; apply list_lookup_insert_ne; congruence|].
      split; [rewrite length_insert; exact Hlen|].
      repeat split.
Qed.

Lemma setOp_spec_witness :
  match FmPatch.Patch.setOp FmPatch.Patch.new 1 FmPatch.Operator.new with
  | Throw e => e = BadOperatorIndex /\ ~ (1 <= 1 <= 6)%Z
  | Ok this' =>
      (1 <= 1 <= 6)%Z
      /\ FmPatch.Patch.op this' !! Z.to_nat (6 - 1) = Some FmPatch.Operator.new
      /\ (forall j, j <> Z.to_nat (6 - 1) ->
            FmPatch.Patch.op this' !! j
            = FmPatch.Patch.op FmPatch.Patch.new !! j)
      /\ length (FmPatch.Patch.op this') = 6%nat
      /\ FmPatch.Patch.pitchEnvelope this'
         = FmPatch.Patch.pitchEnvelope FmPatch.Patch.new
      /\ FmPatch.Patch.algorithm this'
         = FmPatch.Patch.algorithm FmPatch.Patch.new
      /\ FmPatch.Patch.feedback this'
         = FmPatch.Patch.feedback FmPatch.Patch.new
      /\ FmPatch.Patch.resetPhase this'
         = FmPatch.Patch.resetPhase FmPatch.Patch.new
      /\ FmPatch.Patch.modulations this'
         = FmPatch.Patch.modulations FmPatch.Patch.new
      /\ FmPatch.Patch.transpose this'
         = FmPatch.Patch.transpose FmPatch.Patch.new
      /\ FmPatch.Patch.name this' = FmPatch.Patch.name FmPatch.Patch.new
      /\ FmPatch.Patch.activeOperators this'
         = FmPatch.Patch.activeOperators FmPatch.Patch.new
  end.
Proof.
  apply (setOp_spec FmPatch.Patch.new 1 FmPatch.Operator.new). reflexivity.
Defined.

(** ** Strings: [trim], the name of a patch, and [tonverkSanitize] *)

(** [trimStart] removes a prefix of white space and stops at the first
    other character. *)
Lemma trimStart_spec (s : list Z) :
  (exists pre, s = pre ++ JS.trimStart s
               /\ Forall (fun c => JS.isWhiteSpace c = true) pre)
  /\ (forall c rest, JS.trimStart s = c :: rest -> JS.isWhiteSpace c = false).
Proof.
  induction s as [|c s [(pre & Hpre & Hws) Hhead]].
  - split; [exists []; split; [reflexivity|constructor]|].
    intros c rest. discriminate.
  - cbn [JS.trimStart]. destruct (JS.isWhiteSpace c) eqn:E.
    + split; [|exact Hhead].
      exists (c :: pre). split; [cbn; congruence|constructor; assumption].
    + split; [exists []; split; [reflexivity|constructor]|].
      intros c' rest [= <- _]. exact E.
Qed.

Lemma trimStart_fixed (s : list Z) :
  (forall c rest, s = c :: rest -> JS.isWhiteSpace c = false) ->
  JS.trimStart s = s.
Proof.
  intros Hhead. destruct s as [|c s]; [reflexivity|].
  cbn [JS.trimStart]. rewrite (Hhead c s eq_refl). reflexivity.
Qed.

(** [trim] cuts white space off both ends: the string is the result between
    two runs of white space, and the result neither begins nor ends with
    white space. *)
Lemma trim_spec (s : list Z) :
  (exists pre post,
     s = pre ++ JS.trim s ++ post
     /\ Forall (fun c => JS.isWhiteSpace c = true) pre
     /\ Forall (fun c => JS.isWhiteSpace c = true) post)
  /\ (forall c rest, JS.trim s = c :: rest -> JS.isWhiteSpace c = false)
  /\ (forall rest c, JS.trim s = rest ++ [c] -> JS.isWhiteSpace c = false).
Proof.
  unfold JS.trim, JS.trimEnd.
  destruct (trimStart_spec s) as [(pre & Hpre & Hws) Hhead].
  set (t := JS.trimStart s) in *.
  destruct (trimStart_spec (rev t)) as [(erp & Herp & Hwe) Hlast].
  set (u := JS.trimStart (rev t)) in *.
  assert (Ht : t = rev u ++ rev erp).
  { rewrite <- rev_app_distr, <- Herp, rev_involutive. reflexivity. }
  split; [|split].
  - exists pre, (rev erp). split; [rewrite Hpre, Ht; reflexivity|].
    split; [exact Hws|]. apply Forall_rev. exact Hwe.
  - intros c rest Hu. apply (Hhead c (rest ++ rev erp)).
    rewrite Ht, Hu. reflexivity.
  - intros rest c Hu. apply (Hlast c (rev rest)).
    rewrite <- (rev_involutive u), Hu, rev_app_distr. reflexivity.
Qed.

(** A string that neither begins nor ends with white space is left as it
    is. *)
Lemma trim_fixed (s : list Z) :
  (forall c rest, s = c :: rest -> JS.isWhiteSpace c = false) ->
  (forall rest c, s = rest ++ [c] -> JS.isWhiteSpace c = false) ->
  JS.trim s = s.
Proof.
  intros Hhead Hlast. unfold JS.trim, JS.trimEnd.
  rewrite (trimStart_fixed s Hhead).
  rewrite trimStart_fixed; [apply rev_involutive|].
  intros c rest Hrev. apply (Hlast (rev rest) c).
  rewrite <- (rev_involutive s), Hrev. reflexivity.
Qed.

(** X21: the name of a decoded patch, for every 128 bytes: [getName] returns
    at most ten characters, each a 7-bit code; it is the ten characters
    of the patch without the white space at their two ends, so it neither
    begins nor ends with white space. *)
Theorem getName_decoded (data : list Z) (patch : FmPatch.Patch.t) :
  FmPatch.Patch.fromBytes data = Ok patch ->
  let name := FmPatch.Patch.getName patch in
  (length name <= 10)%nat
  /\ Forall (fun c => (0 <= c <= 127)%Z) name
  /\ (exists pre post,
        FmPatch.Patch.name patch = pre ++ name ++ post
        /\ Forall (fun c => JS.isWhiteSpace c = true) pre
        /\ Forall (fun c => JS.isWhiteSpace c = true) post)
  /\ (forall c rest, name = c :: rest -> JS.isWhiteSpace c = false)
  /\ (forall rest c, name = rest ++ [c] -> JS.isWhiteSpace c = false).
Proof.
  intros Hdecoded. cbv zeta. unfold FmPatch.Patch.getName.
  pose proof (fromBytes_in_range data patch Hdecoded) as Hrange.
  unfold Spec.patchInRange in Hrange.
  assert (Hname : length (FmPatch.Patch.name patch) = 10%nat
                  /\ Forall (Spec.within 0 127) (FmPatch.Patch.name patch))
    by tauto.
  clear Hrange. destruct Hname as [Hlen Hchars].
  destruct (trim_spec (FmPatch.Patch.name patch))
    as [(pre & post & Hsplit & Hpre & Hpost) [Hhead Hlast]].
  split; [|split; [|split; [|split]]].
  - rewrite Hsplit, !length_app in Hlen. lia.
  - rewrite Hsplit in Hchars.
    apply Forall_app in Hchars. destruct Hchars as [_ Hchars].
    apply Forall_app in Hchars. destruct Hchars as [Hchars _].
    exact Hchars.
  - exists pre, post. split; [exact Hsplit|split; assumption].
  - exact Hhead.
  - exact Hlast.
Qed.

Lemma getName_decoded_witness :
  let name := FmPatch.Patch.getName Examples.fixedPatch in
  (length name <= 10)%nat
  /\ Forall (fun c => (0 <= c <= 127)%Z) name
  /\ (exists pre post,
        FmPatch.Patch.name Examples.fixedPatch = pre ++ name ++ post
        /\ Forall (fun c => JS.isWhiteSpace c = true) pre
        /\ Forall (fun c => JS.isWhiteSpace c = true) post)
  /\ (forall c rest, name = c :: rest -> JS.isWhiteSpace c = false)
  /\ (forall rest c, name = rest ++ [c] -> JS.isWhiteSpace c = false).
Proof.
  apply (getName_decoded Examples.fixedVoiceBytes Examples.fixedPatch).
  reflexivity.
Defined.

(** The only white space that the filter of [tonverkSanitize] lets through
    is the space. *)
Lemma allowed_white_space (c : Z) :
  Tv7.isAllowed c = true -> JS.isWhiteSpace c = true -> c = 32%Z.
Proof.
  unfold Tv7.isAllowed, JS.isWhiteSpace, Tv7.includes, Tv7.allowedSymbols,
    Tv7.allowedLetters.
  cbn [existsb]. cbv zeta.
  rewrite !orb_true_iff, !andb_true_iff, !Z.leb_le, !Z.eqb_eq. lia.
Qed.

Lemma filter_fixed (f : Z -> bool) (s : list Z) :
  Forall (fun c => f c = true) s -> List.filter f s = s.
Proof.
  induction 1 as [|c s Hc _ IH]; [reflexivity|].
  cbn [List.filter]. rewrite Hc, IH. reflexivity.
Qed.

(** X22: [tonverkSanitize] returns a subsequence of its input made of
    allowed characters only (ASCII letters and digits, the fifteen symbols
    and the eighteen letters of its lists), which neither begins nor ends
    with a space; and it is idempotent: a sanitized name is left as it
    is. *)
Theorem tonverkSanitize_idempotent (input : list Z) :
  let name := Tv7.tonverkSanitize input in
  Forall (fun c => Tv7.isAllowed c = true) name
  /\ sublist name input
  /\ (forall c rest, name = c :: rest -> c <> 32%Z)
  /\ (forall rest c, name = rest ++ [c] -> c <> 32%Z)
  /\ Tv7.tonverkSanitize name = name.
Proof.
  cbv zeta. unfold Tv7.tonverkSanitize.
  set (kept := List.filter Tv7.isAllowed input).
  assert (Hkept : Forall (fun c => Tv7.isAllowed c = true) kept).
  { apply List.Forall_forall. intros c Hc.
    apply filter_In in Hc. apply Hc. }
  assert (Hsub : sublist kept input).
  { unfold kept. clear Hkept kept.
    induction input as [|c input IH]; [constructor|].
    cbn [List.filter]. destruct (Tv7.isAllowed c); constructor; exact IH. }
  destruct (trim_spec kept)
    as [(pre & post & Hsplit & Hpre & Hpost) [Hhead Hlast]].
  assert (Hname : Forall (fun c => Tv7.isAllowed c = true) (JS.trim kept)).
  { rewrite Hsplit in Hkept.
    apply Forall_app in Hkept. destruct Hkept as [_ Hkept].
    apply Forall_app in Hkept. destruct Hkept as [Hkept _]. exact Hkept. }
  split; [exact Hname|split; [|split; [|split]]].
  - transitivity kept; [|exact Hsub].
    rewrite Hsplit at 2.
    apply sublist_inserts_l, sublist_inserts_r. reflexivity.
  - intros c rest Hc ->. specialize (Hhead _ _ Hc). discriminate.
  - intros rest c Hc ->. specialize (Hlast _ _ Hc). discriminate.
  - rewrite (filter_fixed _ _ Hname). apply trim_fixed; assumption.
Qed.

(** ** fm/voice.js: the constructor, and the render calls *)

Section VoiceSetup.
Context `{Platform}.







(** A ratio that binary32 does not hold is stored rounded: the stored
    value of 1.01 is not 1.01. *)
Lemma ratio_stored_rounded : ~ JS.fround 1.01 == 1.01.
Proof. vm_compute. discriminate. Qed.

End VoiceSetup.

(** ** fm/patch.js: the patches of a bank *)

Lemma getZ_byte (data : list Z) (i : Z) :
  Forall (Spec.within 0 255) data -> (0 <= JS.getZ data i < 256)%Z.
Proof.
  intros Hall. unfold JS.getZ.
  destruct (i <? 0)%Z; [lia|].
  destruct (data !! Z.to_nat i) as [b|] eqn:E; simpl; [|lia].
  rewrite Forall_lookup in Hall. specialize (Hall _ _ E).
  unfold Spec.within in Hall. lia.
Qed.

(** X26: every patch of a bank that [PatchBank] accepts has its fields in
    their ranges, but for the pitch-mod sensitivity; when the bank is
    made of bytes, the pitch-mod sensitivity is in 0..15. *)
Theorem bank_patches_in_range (data : list Z) (bank : FmPatch.PatchBank.t)
    (patch : FmPatch.Patch.t) :
  FmPatch.PatchBank.new data = Ok bank ->
  In patch (FmPatch.PatchBank.patches bank) ->
  Spec.patchInRange patch
  /\ (Forall (Spec.within 0 255) data ->
      Spec.within 0 15
        (FmPatch.ModulationParameters.pitchModSensitivity
           (FmPatch.Patch.modulations patch))).
Proof.
  intros Hbank Hin.
  assert (Hdecoded : exists idx, Spec.decodedFrom data idx patch).
  { unfold FmPatch.PatchBank.new in Hbank.
    destruct (Z.eqb_spec (Z.of_nat (length data))
                FmPatch.BULK_FULL_SYSEX_SIZE) as [Hl|Hl]; cbn [negb] in Hbank;
      [|discriminate].
    destruct (FmPatch.PatchBank.checkHeader data); cbn [bind] in Hbank;
      [|discriminate].
    cbv zeta in Hbank.
    destruct (bank_voices data Hl) as (patches & E & Hall).
    rewrite E in Hbank. cbn [bind] in Hbank.
    injection Hbank as <-. cbn [FmPatch.PatchBank.patches] in Hin.
    clear E. revert Hin.
    set (indices := seq 0 32) in Hall. clearbody indices.
    induction Hall as [|idx p indices' patches' Hp _ IH]; [intros []|].
    intros [->|Hin]; [exists idx; exact Hp|apply IH; exact Hin]. }
  destruct Hdecoded as [idx Hdecoded]. unfold Spec.decodedFrom in Hdecoded.
  split; [exact (fromBytes_in_range _ patch Hdecoded)|].
  intros Hbytes.
  match type of Hdecoded with
  | FmPatch.Patch.fromBytes ?bytes = _ =>
      assert (Hb : (0 <= JS.getZ bytes 116 < 256)%Z)
  end.
  { apply getZ_byte. unfold JS.slice, JS.sliceFrom.
    apply Forall_take, Forall_drop, Forall_drop. exact Hbytes. }
  destruct (fromBytes_pitchModSensitivity _ patch Hdecoded Hb) as [E _].
  rewrite E. unfold Spec.within.
  split; [apply Z.div_pos; lia|].
  assert (JS.getZ
            (JS.slice (JS.sliceFrom data 6) (Z.of_nat idx * FmPatch.SYX_SIZE)
               ((Z.of_nat idx + 1) * FmPatch.SYX_SIZE)) 116 / 16 < 16)%Z
    by (apply Z.div_lt_upper_bound; lia).
  lia.
Qed.

Lemma bank_patches_in_range_witness :
  Spec.patchInRange Examples.fixedPatch
  /\ (Forall (Spec.within 0 255) Examples.fixedBankBytes ->
      Spec.within 0 15
        (FmPatch.ModulationParameters.pitchModSensitivity
           (FmPatch.Patch.modulations Examples.fixedPatch))).
Proof.
  apply (bank_patches_in_range Examples.fixedBankBytes Examples.fixedBank
           Examples.fixedPatch).
  - vm_compute. reflexivity.
  - vm_compute. left. reflexivity.
Defined.

(** ** tv7.js: the layout of the WAV file *)

(** A write over the bytes [old], right after the bytes [written]. *)
Lemma setBytes_over (written old rest bytes : list Z) (offset : Z) :
  offset = Z.of_nat (length written) ->
  length old = length bytes ->
  Tv7.setBytes (written ++ old ++ rest) offset bytes
  = Some ((written ++ bytes) ++ rest).
Proof.
  intros -> Hlen. unfold Tv7.setBytes.
  rewrite !length_app.
  destruct (Z.leb_spec 0 (Z.of_nat (length written))) as [_|?]; [|lia].
  destruct (Z.leb_spec
              (Z.of_nat (length written) + Z.of_nat (length bytes))
              (Z.of_nat (length written + (length old + length rest))))
    as [_|?]; [|lia].
  cbn [andb]. rewrite Nat2Z.id, take_app_length, <- app_assoc.
  do 3 f_equal.
  rewrite <- drop_drop, drop_app_length, <- Hlen, drop_app_length.
  reflexivity.
Qed.

Lemma length_littleEndian (bytes : nat) (v : Z) :
  length (Tv7.littleEndian bytes v) = bytes.
Proof.
  unfold Tv7.littleEndian. rewrite length_map, length_seq. reflexivity.
Qed.

Lemma setUint32_cons (written : list Z) (a b c d : Z) (rest : list Z)
    (offset v : Z) :
  offset = Z.of_nat (length written) ->
  Tv7.setUint32 (written ++ a :: b :: c :: d :: rest) offset v
  = Some ((written ++ Tv7.littleEndian 4 (JS.ToUint32Z v)) ++ rest).
Proof.
  intros Ho. unfold Tv7.setUint32.
  apply (setBytes_over written [a; b; c; d] rest _ offset Ho).
  rewrite length_littleEndian. reflexivity.
Qed.

Lemma setUint16_cons (written : list Z) (a b : Z) (rest : list Z)
    (offset v : Z) :
  offset = Z.of_nat (length written) ->
  Tv7.setUint16 (written ++ a :: b :: rest) offset v
  = Some ((written ++ Tv7.littleEndian 2 (v mod 65536)) ++ rest).
Proof.
  intros Ho. unfold Tv7.setUint16.
  apply (setBytes_over written [a; b] rest _ offset Ho).
  rewrite length_littleEndian. reflexivity.
Qed.

Lemma setUint8_cons (written : list Z) (a : Z) (rest : list Z)
    (offset v : Z) :
  offset = Z.of_nat (length written) ->
  (0 <= v < 256)%Z ->
  Tv7.setUint8 (written ++ a :: rest) offset v
  = Some ((written ++ [v]) ++ rest).
Proof.
  intros Ho Hv. unfold Tv7.setUint8.
  rewrite (setBytes_over written [a] rest _ offset Ho)
    by (rewrite length_littleEndian; reflexivity).
  unfold Tv7.littleEndian. cbn [seq map].
  change (256 ^ Z.of_nat 0)%Z with 1%Z.
  rewrite Z.div_1_r, Z.mod_mod, Z.mod_small by lia. reflexivity.
Qed.

(** A string of four characters, written over four bytes. *)
Lemma writeString_cons (written : list Z) (a b c d : Z) (rest : list Z)
    (offset s0 s1 s2 s3 : Z) :
  offset = Z.of_nat (length written) ->
  (0 <= s0 < 256)%Z -> (0 <= s1 < 256)%Z ->
  (0 <= s2 < 256)%Z -> (0 <= s3 < 256)%Z ->
  Tv7.writeString (written ++ a :: b :: c :: d :: rest) offset
    [s0; s1; s2; s3]
  = Some ((written ++ [s0; s1; s2; s3]) ++ rest).
Proof.
  intros Ho H0 H1 H2 H3. unfold Tv7.writeString, JS.for_.
  cbn [length seq fold_left].
  change (JS.getZ [s0; s1; s2; s3] (Z.of_nat 0)) with s0.
  change (JS.getZ [s0; s1; s2; s3] (Z.of_nat 1)) with s1.
  change (JS.getZ [s0; s1; s2; s3] (Z.of_nat 2)) with s2.
  change (JS.getZ [s0; s1; s2; s3] (Z.of_nat 3)) with s3.
  rewrite (setUint8_cons written a (b :: c :: d :: rest))
    by (subst; lia || assumption).
  rewrite (setUint8_cons (written ++ [s0]) b (c :: d :: rest))
    by (rewrite ?length_app; cbn [length]; subst; lia || assumption).
  rewrite (setUint8_cons ((written ++ [s0]) ++ [s1]) c (d :: rest))
    by (rewrite ?length_app; cbn [length]; subst; lia || assumption).
  rewrite (setUint8_cons (((written ++ [s0]) ++ [s1]) ++ [s2]) d rest)
    by (rewrite ?length_app; cbn [length]; subst; lia || assumption).
  rewrite <- !app_assoc. reflexivity.
Qed.

Section Wav.
Variable float32Bits : Q -> Z.

Lemma length_words {A} (g : A -> Q) (l : list A) :
  length (concat (map (fun a => Spec.sampleBytes float32Bits (g a)) l))
  = (4 * length l)%nat.
Proof.
  induction l as [|x l IH]; [reflexivity|].
  cbn [map concat]. rewrite length_app, IH.
  unfold Spec.sampleBytes. rewrite length_littleEndian. cbn [length]. lia.
Qed.

(** One sample written at the frontier of the zeros. *)
Lemma setFloat32_frontier (written : list Z) (r : nat) (x : Q) :
  Tv7.setFloat32 float32Bits (written ++ replicate (4 * S r) 0%Z)
    (Z.of_nat (length written)) x
  = Some ((written ++ Spec.sampleBytes float32Bits x)
          ++ replicate (4 * r) 0%Z).
Proof.
  unfold Tv7.setFloat32.
  replace (4 * S r)%nat with (4 + 4 * r)%nat by lia.
  rewrite replicate_add. cbn [replicate app].
  apply setUint32_cons. reflexivity.
Qed.

(** A loop that writes [m] samples at the frontier. *)
Lemma samples_frontier (f : Z -> Q) (m r : nat) (written : list Z) :
  JS.for_ m (fun i s =>
    match s with
    | Some (view, offset) =>
        match Tv7.setFloat32 float32Bits view offset (f i) with
        | Some view => Some (view, (offset + 4)%Z)
        | None => None
        end
    | None => None
    end) (Some (written ++ replicate (4 * (m + r)) 0%Z,
                Z.of_nat (length written)))
  = Some (written
          ++ concat (map (fun i => Spec.sampleBytes float32Bits
                                     (f (Z.of_nat i))) (seq 0 m))
          ++ replicate (4 * r) 0%Z,
          (Z.of_nat (length written) + 4 * Z.of_nat m)%Z).
Proof.
  revert r. induction m as [|m IH]; intros r.
  - unfold JS.for_. cbn [seq fold_left map concat app].
    rewrite Z.add_0_r. reflexivity.
  - rewrite for_S.
    replace (S m + r)%nat with (m + S r)%nat by lia.
    rewrite IH. rewrite app_assoc.
    replace (Z.of_nat (length written) + 4 * Z.of_nat m)%Z
      with (Z.of_nat (length (written
              ++ concat (map (fun i => Spec.sampleBytes float32Bits
                                         (f (Z.of_nat i))) (seq 0 m)))))
      by (rewrite length_app,
            (length_words (fun i => f (Z.of_nat i))), length_seq; lia).
    rewrite setFloat32_frontier.
    rewrite seq_S, map_app, concat_app. cbn [map concat Nat.add].
    rewrite app_nil_r, <- !app_assoc. f_equal. f_equal.
    rewrite length_app, (length_words (fun i => f (Z.of_nat i))), length_seq.
    lia.
Qed.

Lemma map_get (g : Q -> list Z) (buf : list Q) :
  map (fun i => g (JS.get buf (Z.of_nat i))) (seq 0 (length buf))
  = map g buf.
Proof.
  induction buf as [|x buf IH] using rev_ind; [reflexivity|].
  rewrite length_app. cbn [length]. rewrite Nat.add_1_r, seq_S, !map_app.
  cbn [map]. f_equal.
  - rewrite <- IH. apply map_ext_in. intros i Hi. apply in_seq in Hi.
    f_equal. unfold JS.get.
    destruct (Z.ltb_spec (Z.of_nat i) 0); [lia|].
    rewrite Nat2Z.id, lookup_app_l by lia. reflexivity.
  - f_equal. f_equal. unfold JS.get. cbn [Nat.add].
    destruct (Z.ltb_spec (Z.of_nat (length buf)) 0); [lia|].
    rewrite Nat2Z.id, list_lookup_middle by reflexivity. reflexivity.
Qed.

Lemma length_bufferBytes (maxLength : nat) (buf : list Q) :
  (length buf <= maxLength)%nat ->
  length (Spec.bufferBytes float32Bits maxLength buf) = (4 * maxLength)%nat.
Proof.
  intros Hle. unfold Spec.bufferBytes.
  rewrite (length_words (fun x => x)), length_app, length_replicate. lia.
Qed.

(** One pitch buffer written at the frontier. *)
Lemma writeBuffer_frontier (maxLength r : nat) (pitchBuffer : list Q)
    (before : list Z) :
  (length pitchBuffer <= maxLength)%nat ->
  Tv7.writeBuffer float32Bits (Z.of_nat maxLength) pitchBuffer
    (Some (before ++ replicate (4 * (maxLength + r)) 0%Z,
           Z.of_nat (length before)))
  = Some (before ++ Spec.bufferBytes float32Bits maxLength pitchBuffer
          ++ replicate (4 * r) 0%Z,
          (Z.of_nat (length before) + 4 * Z.of_nat maxLength)%Z).
Proof.
  intros Hle. unfold Tv7.writeBuffer. cbv zeta.
  replace (maxLength + r)%nat
    with (length pitchBuffer + ((maxLength - length pitchBuffer) + r))%nat
    by lia.
  rewrite (samples_frontier (fun i => JS.get pitchBuffer i)).
  rewrite (map_get (Spec.sampleBytes float32Bits)), app_assoc.
  replace (Z.to_nat (Z.of_nat maxLength - Z.of_nat (length pitchBuffer)))
    with (maxLength - length pitchBuffer)%nat by lia.
  replace (Z.of_nat (length before) + 4 * Z.of_nat (length pitchBuffer))%Z
    with (Z.of_nat (length (before
            ++ concat (map (Spec.sampleBytes float32Bits) pitchBuffer))))
    by (rewrite length_app, (length_words (fun x => x)); lia).
  rewrite (samples_frontier (fun _ => 0.0)).
  rewrite length_app, (length_words (fun x => x)), <- !app_assoc.
  f_equal. f_equal; [|lia].
  f_equal. rewrite app_assoc. f_equal.
  unfold Spec.bufferBytes. rewrite map_app, concat_app. f_equal. f_equal.
  generalize (maxLength - length pitchBuffer)%nat as k. intros k.
  induction k as [|k IH]; [reflexivity|].
  rewrite seq_S, map_app. cbn [map].
  replace (S k) with (k + 1)%nat by lia.
  rewrite replicate_add, map_app, IH. reflexivity.
Qed.

(** All the pitch buffers, one after the other. *)
Lemma writeBuffers_frontier (maxLength r : nat)
    (pitchBuffers : list (list Q)) (before : list Z) :
  Forall (fun buf => (length buf <= maxLength)%nat) pitchBuffers ->
  fold_left (fun s pitchBuffer =>
               Tv7.writeBuffer float32Bits (Z.of_nat maxLength) pitchBuffer s)
    pitchBuffers
    (Some (before
           ++ replicate (4 * (maxLength * length pitchBuffers + r)) 0%Z,
           Z.of_nat (length before)))
  = Some (before
          ++ concat (map (Spec.bufferBytes float32Bits maxLength)
                       pitchBuffers)
          ++ replicate (4 * r) 0%Z,
          (Z.of_nat (length before)
           + 4 * Z.of_nat maxLength * Z.of_nat (length pitchBuffers))%Z).
Proof.
  intros Hall. revert before.
  induction Hall as [|buf bufs Hbuf _ IH]; intros before.
  - cbn [fold_left map concat app length].
    rewrite Nat.mul_0_r, Z.mul_0_r, Z.add_0_r. reflexivity.
  - cbn [fold_left length].
    replace (maxLength * S (length bufs) + r)%nat
      with (maxLength + (maxLength * length bufs + r))%nat by lia.
    rewrite (writeBuffer_frontier maxLength _ buf before Hbuf).
    rewrite app_assoc.
    replace (Z.of_nat (length before) + 4 * Z.of_nat maxLength)%Z
      with (Z.of_nat (length (before
              ++ Spec.bufferBytes float32Bits maxLength buf)))
      by (rewrite length_app, length_bufferBytes by exact Hbuf; lia).
    rewrite IH. cbn [map concat].
    rewrite length_app, length_bufferBytes, <- !app_assoc by exact Hbuf.
    f_equal. f_equal.
    rewrite Nat2Z.inj_succ, Nat2Z.inj_add, Nat2Z.inj_mul.
    change (Z.of_nat 4) with 4%Z. ring.
Qed.

(** The thirteen writes of the header, over the first 44 bytes. *)
Lemma header_written {B} (k : list Z -> option B) (rest : list Z)
    (sampleRate : Q) (dataSize : Z) :
  (view ← Tv7.writeString (replicate 44 0%Z ++ rest) 0 Tv7.RIFF;
   view ← Tv7.setUint32 view 4 (44 + dataSize - 8);
   view ← Tv7.writeString view 8 Tv7.WAVE;
   view ← Tv7.writeString view 12 Tv7.fmt_;
   view ← Tv7.setUint32 view 16 16;
   view ← Tv7.setUint16 view 20 3;
   view ← Tv7.setUint16 view 22 1;
   view ← Tv7.setUint32 view 24 (JS.ToUint32 sampleRate);
   view ← Tv7.setUint32 view 28 (JS.ToUint32 (sampleRate * 4));
   view ← Tv7.setUint16 view 32 4;
   view ← Tv7.setUint16 view 34 32;
   view ← Tv7.writeString view 36 Tv7.data;
   view ← Tv7.setUint32 view 40 dataSize;
   k view)
  = k (Spec.wavHeader sampleRate dataSize ++ rest).
Proof.
  cbn [replicate app]. unfold Tv7.RIFF, Tv7.WAVE, Tv7.fmt_, Tv7.data.
  match goal with
  | |- context [Tv7.writeString ?view 0 _] => change view with ([] ++ view)
  end.
  rewrite (writeString_cons [] 0 0 0 0 _ 0%Z 82 73 70 70 eq_refl) by lia.
  cbn [mbind option_bind].
  rewrite (setUint32_cons _ 0 0 0 0) by reflexivity.
  cbn [mbind option_bind].
  rewrite (writeString_cons _ 0 0 0 0) by (reflexivity || lia).
  cbn [mbind option_bind].
  rewrite (writeString_cons _ 0 0 0 0) by (reflexivity || lia).
  cbn [mbind option_bind].
  rewrite (setUint32_cons _ 0 0 0 0) by reflexivity.
  cbn [mbind option_bind].
  rewrite (setUint16_cons _ 0 0) by reflexivity.
  cbn [mbind option_bind].
  rewrite (setUint16_cons _ 0 0) by reflexivity.
  cbn [mbind option_bind].
  rewrite (setUint32_cons _ 0 0 0 0) by reflexivity.
  cbn [mbind option_bind].
  rewrite (setUint32_cons _ 0 0 0 0) by reflexivity.
  cbn [mbind option_bind].
  rewrite (setUint16_cons _ 0 0) by reflexivity.
  cbn [mbind option_bind].
  rewrite (setUint16_cons _ 0 0) by reflexivity.
  cbn [mbind option_bind].
  rewrite (writeString_cons _ 0 0 0 0) by (reflexivity || lia).
  cbn [mbind option_bind].
  rewrite (setUint32_cons _ 0 0 0 0) by reflexivity.
  cbn [mbind option_bind].
  rewrite !(ToUint32Z_small _ (ToUint32_range _)).
  unfold Spec.wavHeader, Tv7.RIFF, Tv7.WAVE, Tv7.fmt_, Tv7.data.
  rewrite <- !app_assoc. reflexivity.
Qed.

Lemma length_wavHeader (sampleRate : Q) (dataSize : Z) :
  length (Spec.wavHeader sampleRate dataSize) = 44%nat.
Proof.
  unfold Spec.wavHeader. rewrite !length_app, !length_littleEndian.
  reflexivity.
Qed.

(** [Math.max(...lengths)] of a list that is not empty. *)
Lemma max_of_lengths (first : nat) (others : list (list Q)) :
  fold_left Z.max (map (fun buf => Z.of_nat (length buf)) others)
    (Z.of_nat first)
  = Z.of_nat (Nat.max first (list_max (map length others))).
Proof.
  revert first. induction others as [|buf others IH]; intros first.
  - cbn [map fold_left list_max]. rewrite Nat.max_0_r. reflexivity.
  - cbn [map fold_left]. rewrite <- Nat2Z.inj_max, IH.
    change (list_max (length buf :: map length others))
      with (Nat.max (length buf) (list_max (map length others))).
    rewrite Nat.max_assoc. reflexivity.
Qed.

Lemma lengths_below_max (pitchBuffers : list (list Q)) :
  Forall (fun buf => (length buf <= list_max (map length pitchBuffers))%nat)
    pitchBuffers.
Proof.
  pose proof (proj1 (list_max_le (map length pitchBuffers) _)
                (Nat.le_refl _)) as Hle.
  apply List.Forall_forall. intros buf Hbuf.
  apply (proj1 (List.Forall_forall _ _) Hle).
  apply in_map. exact Hbuf.
Qed.

Lemma length_buffers (maxLength : nat) (pitchBuffers : list (list Q)) :
  Forall (fun buf => (length buf <= maxLength)%nat) pitchBuffers ->
  length (concat (map (Spec.bufferBytes float32Bits maxLength) pitchBuffers))
  = (4 * maxLength * length pitchBuffers)%nat.
Proof.
  induction 1 as [|buf bufs Hbuf _ IH]; [cbn; lia|].
  cbn [map concat length].
  rewrite length_app, IH, length_bufferBytes by exact Hbuf. lia.
Qed.

(** For buffers that are not all missing, the bytes that [generateWav]
    returns. *)
Lemma generateWav_written (pitchBuffers : list (list Q)) (sampleRate : Q) :
  pitchBuffers <> [] ->
  let maxLength := list_max (map length pitchBuffers) in
  let dataSize :=
    (Z.of_nat maxLength * Z.of_nat (length pitchBuffers) * 4)%Z in
  Tv7.generateWav float32Bits pitchBuffers sampleRate
  = Some (Spec.wavHeader sampleRate dataSize
          ++ concat (map (Spec.bufferBytes float32Bits maxLength)
                       pitchBuffers)).
Proof.
  intros Hne. cbv zeta.
  set (maxLength := list_max (map length pitchBuffers)).
  pose proof (lengths_below_max pitchBuffers) as Hall.
  fold maxLength in Hall.
  destruct pitchBuffers as [|first others]; [contradiction|].
  unfold Tv7.generateWav. cbv zeta. rewrite max_of_lengths.
  change (Nat.max (length first) (list_max (map length others)))
    with maxLength.
  set (n := length (first :: others)) in *.
  set (dataSize := (Z.of_nat maxLength * Z.of_nat n * 4)%Z).
  replace (Z.to_nat (44 + dataSize))
    with (44 + 4 * (maxLength * n + 0))%nat by lia.
  rewrite replicate_add.
  etransitivity;
    [apply (header_written
              (fun view =>
                 s ← fold_left
                       (fun s pitchBuffer =>
                          Tv7.writeBuffer float32Bits (Z.of_nat maxLength)
                            pitchBuffer s)
                       (first :: others) (Some (view, 44%Z));
                 Some (fst s)))|].
  cbv beta.
  change 44%Z with (Z.of_nat 44) at 1.
  rewrite <- (length_wavHeader sampleRate dataSize).
  subst n. rewrite (writeBuffers_frontier maxLength 0 _ _ Hall).
  cbn [mbind option_bind fst replicate Nat.mul]. rewrite app_nil_r.
  reflexivity.
Qed.

(** X27: the WAV file of [generateWav].  Without a buffer the first write
    throws.  Otherwise the file is the 44-byte header (RIFF, size of the
    file less 8, WAVE, the format chunk of a mono file of 32-bit floats at
    the sample rate, data, size of the data, all little endian) followed by
    every buffer in turn, each as the four little-endian bytes of its
    samples and padded with zero samples to the length of the longest
    buffer; so the file has 44 bytes plus 4 for every sample of the
    longest buffer and for every buffer. *)
Theorem generateWav_layout (pitchBuffers : list (list Q)) (sampleRate : Q) :
  pitchBuffers <> [] ->
  let maxLength := list_max (map length pitchBuffers) in
  let dataSize :=
    (Z.of_nat maxLength * Z.of_nat (length pitchBuffers) * 4)%Z in
  let wav :=
    Spec.wavHeader sampleRate dataSize
    ++ concat (map (Spec.bufferBytes float32Bits maxLength) pitchBuffers) in
  Tv7.generateWav float32Bits [] sampleRate = None
  /\ Tv7.generateWav float32Bits pitchBuffers sampleRate = Some wav
  /\ length wav = (44 + 4 * maxLength * length pitchBuffers)%nat.
Proof.
  intros Hne. cbv zeta. split; [reflexivity|]. split.
  - apply (generateWav_written pitchBuffers sampleRate Hne).
  - rewrite length_app, length_wavHeader,
      (length_buffers _ _ (lengths_below_max pitchBuffers)).
    reflexivity.
Qed.

End Wav.

Lemma generateWav_layout_witness :
  let pitchBuffers := [[1; 1 # 2]; [-1]] in
  let maxLength := list_max (map length pitchBuffers) in
  let dataSize :=
    (Z.of_nat maxLength * Z.of_nat (length pitchBuffers) * 4)%Z in
  let wav :=
    Spec.wavHeader 44100 dataSize
    ++ concat (map (Spec.bufferBytes Examples.float32Bits maxLength)
                 pitchBuffers) in
  Tv7.generateWav Examples.float32Bits [] 44100 = None
  /\ Tv7.generateWav Examples.float32Bits pitchBuffers 44100 = Some wav
  /\ length wav = (44 + 4 * maxLength * length pitchBuffers)%nat.
Proof.
  apply (generateWav_layout Examples.float32Bits [[1; 1 # 2]; [-1]] 44100).
  discriminate.
Defined.

(** ** The error of a rounding *)

Lemma pow2_pos (z : Z) : 0 < 2 ^ z.
Proof. apply Qpower_0_lt. reflexivity. Qed.

Lemma pow2_Z (z : Z) : (0 <= z)%Z -> 2 ^ z == inject_Z (2 ^ z).
Proof. intros Hz. rewrite Zpower_Qpower by exact Hz. reflexivity. Qed.

(** The exponent that [nearest] computes is at most that of its
    argument. *)
Lemma binade_below (a : Q) :
  0 < a ->
  let e0 := (Z.log2 (Qnum a) - Z.log2 (Zpos (Qden a)))%Z in
  let e := if Qle_bool (2 ^ e0) a then e0 else (e0 - 1)%Z in
  2 ^ e <= a.
Proof.
  intros Ha. cbv zeta.
  destruct (Qle_bool _ a) eqn:E; [apply Qle_bool_iff, E|].
  destruct a as [n d]. cbn [Qnum Qden].
  assert (Hn : (0 < n)%Z).
  { unfold Qlt in Ha. cbn in Ha. lia. }
  set (ln := Z.log2 n). set (ld := Z.log2 (Zpos d)).
  pose proof (Z.log2_spec n Hn) as [Hlo _].
  pose proof (Z.log2_spec (Zpos d) ltac:(lia)) as [_ Hhi].
  pose proof (Z.log2_nonneg n). pose proof (Z.log2_nonneg (Zpos d)).
  fold ln in Hlo. fold ld in Hhi.
  replace (ln - ld - 1)%Z with (ln - Z.succ ld)%Z by lia.
  rewrite Qpower_minus by discriminate.
  rewrite (pow2_Z ln), (pow2_Z (Z.succ ld)) by lia.
  apply Qle_shift_div_r.
  - change 0 with (inject_Z 0). rewrite <- Zlt_Qlt. lia.
  - unfold Qle, Qmult, inject_Z. cbn [Qnum Qden].
    rewrite Pos.mul_1_r, !Z.mul_1_r.
    apply Z.le_trans with (n * Zpos d)%Z.
    + apply Z.mul_le_mono_nonneg_r; lia.
    + apply Z.mul_le_mono_nonneg_l; lia.
Qed.

(** The integer that [nearest] picks is within a half of the quotient. *)
Lemma nearest_integer (q : Q) :
  let n := Qfloor q in
  let r := q - inject_Z n in
  let m :=
    if JS.Qltb r (1 # 2) then n
    else if JS.Qltb (1 # 2) r then (n + 1)%Z
    else if Z.even n then n else (n + 1)%Z in
  Qabs (inject_Z m - q) <= 1 # 2.
Proof.
  cbv zeta. set (n := Qfloor q).
  pose proof (Qfloor_le q) as Hlo. pose proof (Qlt_floor q) as Hhi.
  fold n in Hlo, Hhi. rewrite inject_Z_plus in Hhi.
  change (inject_Z 1) with 1 in Hhi.
  assert (Hdown : q - inject_Z n <= 1 # 2 ->
                  Qabs (inject_Z n - q) <= 1 # 2).
  { intros Hr. apply Qabs_Qle_condition. split; lra. }
  assert (Hup : 1 # 2 <= q - inject_Z n ->
                Qabs (inject_Z (n + 1) - q) <= 1 # 2).
  { intros Hr. rewrite inject_Z_plus. change (inject_Z 1) with 1.
    apply Qabs_Qle_condition. split; lra. }
  destruct (JS.Qltb (q - inject_Z n) (1 # 2)) eqn:E1.
  - apply Hdown, Qlt_le_weak, Qltb_lt, E1.
  - apply Qltb_ge in E1.
    destruct (JS.Qltb (1 # 2) (q - inject_Z n)) eqn:E2; [apply Hup, E1|].
    apply Qltb_ge in E2.
    destruct (Z.even n); [apply Hdown, E2|apply Hup, E1].
Qed.

(** Rounding to nearest is off by at most half a unit in the last place:
    a relative [2^(-prec)], or half the smallest positive number. *)
Lemma nearest_error (prec emin : Z) (x : Q) :
  Qabs (JS.nearest prec emin x - x)
  <= Qabs x * 2 ^ (- prec) + 2 ^ (emin - 1).
Proof.
  pose proof (pow2_pos (- prec)) as Hu. pose proof (pow2_pos (emin - 1)) as Hs.
  pose proof (Qabs_nonneg x) as Hx.
  assert (Hrhs : 0 <= Qabs x * 2 ^ (- prec) + 2 ^ (emin - 1)).
  { apply Qle_trans with (0 + 0); [discriminate|].
    apply Qplus_le_compat; [|apply Qlt_le_weak, Hs].
    apply Qmult_le_0_compat; [exact Hx|apply Qlt_le_weak, Hu]. }
  unfold JS.nearest.
  pose proof (Qred_correct x) as Ex. set (x' := Qred x) in *.
  destruct (Qeq_bool x' 0) eqn:E0.
  { apply Qeq_bool_eq in E0.
    assert (E : 0 - x == 0) by (rewrite <- Ex, E0; reflexivity).
    rewrite E. exact Hrhs. }
  apply Qeq_bool_neq in E0. cbv zeta.
  set (a := Qabs x').
  assert (Ha : 0 < a).
  { destruct (Qlt_le_dec 0 a) as [Hlt|Hle]; [exact Hlt|].
    exfalso. apply E0.
    pose proof (Qabs_nonneg x') as H0. fold a in H0.
    assert (Hz : a == 0) by (apply Qle_antisym; assumption).
    unfold a in Hz. destruct (Qabs_Qle_condition x' 0) as [Hc _].
    destruct Hc as [H1 H2]; [rewrite Hz; apply Qle_refl|].
    apply Qle_antisym; assumption. }
  pose proof (binade_below a Ha) as He. cbv zeta in He.
  set (e := if Qle_bool _ a then _ else _) in *.
  set (ulp := 2 ^ Z.max (e - prec + 1) emin).
  assert (Hulp : 0 < ulp) by apply pow2_pos.
  pose proof (nearest_integer (a / ulp)) as Hm. cbv zeta in Hm.
  set (m := if JS.Qltb _ (1 # 2) then _ else _) in *.
  assert (Herr : Qabs (inject_Z m * ulp - a) <= (1 # 2) * ulp).
  { assert (E : inject_Z m * ulp - a == (inject_Z m - a / ulp) * ulp).
    { field. intros Hz. rewrite Hz in Hulp. discriminate. }
    rewrite E, Qabs_Qmult, (Qabs_pos ulp) by (apply Qlt_le_weak, Hulp).
    apply Qmult_le_compat_r; [exact Hm|apply Qlt_le_weak, Hulp]. }
  assert (Hbound : ulp <= a * (2 * 2 ^ (- prec)) + 2 * 2 ^ (emin - 1)).
  { assert (E1 : 2 * 2 ^ (- prec) == 2 ^ (1 - prec)).
    { replace (1 - prec)%Z with (1 + - prec)%Z by lia.
      rewrite Qpower_plus by discriminate. reflexivity. }
    assert (E2 : 2 * 2 ^ (emin - 1) == 2 ^ emin).
    { replace emin with (1 + (emin - 1))%Z at 2 by lia.
      rewrite Qpower_plus by discriminate. reflexivity. }
    rewrite E1, E2.
    pose proof (pow2_pos (1 - prec)) as H1. pose proof (pow2_pos emin) as H2.
    assert (H3 : 0 <= a * 2 ^ (1 - prec)).
    { apply Qmult_le_0_compat; apply Qlt_le_weak; assumption. }
    unfold ulp.
    destruct (Z.max_spec (e - prec + 1) emin) as [[_ ->]|[_ ->]].
    - set (t := 2 ^ emin) in *. set (w := a * 2 ^ (1 - prec)) in *. lra.
    - replace (e - prec + 1)%Z with (e + (1 - prec))%Z by lia.
      rewrite Qpower_plus by discriminate.
      apply Qle_trans with (a * 2 ^ (1 - prec)).
      + apply Qmult_le_compat_r; [exact He|apply Qlt_le_weak, H1].
      + set (t := 2 ^ emin) in *. set (w := a * 2 ^ (1 - prec)) in *. lra. }
  assert (Hax : Qabs x == a) by (unfold a; rewrite Ex; reflexivity).
  rewrite Hax.
  set (y := inject_Z m * ulp) in *.
  assert (Hfinal : Qabs (y - a) <= a * 2 ^ (- prec) + 2 ^ (emin - 1)).
  { apply Qle_trans with (1 := Herr).
    set (w := a * 2 ^ (- prec)).
    assert (Hw : a * (2 * 2 ^ (- prec)) == 2 * w) by (unfold w; ring).
    rewrite Hw in Hbound. set (t := 2 ^ (emin - 1)) in *. lra. }
  destruct (JS.Qltb x' 0) eqn:Es.
  - apply Qltb_lt in Es.
    assert (Ea : a == - x') by (apply Qabs_neg, Qlt_le_weak, Es).
    assert (E : - y - x == - (y - a)) by (rewrite <- Ex, Ea; ring).
    rewrite E, Qabs_opp. exact Hfinal.
  - apply Qltb_ge in Es.
    assert (Ea : a == x') by (apply Qabs_pos, Es).
    assert (E : y - x == y - a) by (rewrite <- Ex, Ea; ring).
    rewrite E. exact Hfinal.
Qed.

Lemma round_error (prec emin emax : Z) (x : Q) :
  Qabs (JS.round prec emin emax x - x)
  <= Qabs x * 2 ^ (- prec) + 2 ^ (emin - 1).
Proof.
  unfold JS.round. destruct (JS.isFloat prec emin emax x).
  - assert (E : x - x == 0) by ring. rewrite E.
    pose proof (pow2_pos (- prec)) as Hu.
    pose proof (pow2_pos (emin - 1)) as Hs.
    pose proof (Qabs_nonneg x) as Hx.
    apply Qle_trans with (0 + 0); [discriminate|].
    apply Qplus_le_compat; [|apply Qlt_le_weak, Hs].
    apply Qmult_le_0_compat; [exact Hx|apply Qlt_le_weak, Hu].
  - apply nearest_error.
Qed.

(** The size of a rounded number. *)
Lemma round_size (prec emin emax : Z) (x : Q) :
  Qabs (JS.round prec emin emax x)
  <= Qabs x * (1 + 2 ^ (- prec)) + 2 ^ (emin - 1).
Proof.
  pose proof (round_error prec emin emax x) as H.
  pose proof (Qabs_triangle (JS.round prec emin emax x - x) x) as Ht.
  assert (E : JS.round prec emin emax x - x + x
              == JS.round prec emin emax x) by ring.
  rewrite E in Ht.
  set (r := Qabs (JS.round prec emin emax x)) in *.
  set (d := Qabs (JS.round prec emin emax x - x)) in *.
  assert (Ew : Qabs x * (1 + 2 ^ (- prec))
               == Qabs x + Qabs x * 2 ^ (- prec)) by ring.
  rewrite Ew.
  set (w := Qabs x * 2 ^ (- prec)) in *. set (t := 2 ^ (emin - 1)) in *.
  set (ax := Qabs x) in *. lra.
Qed.

(** ** tv7.js: normalisation and key zones of [generateMultisample] *)

(** The peak loop: its result bounds every sample, and it is 0 or the
    absolute value of one of them. *)
Lemma peak_spec (buf : list Q) :
  let peak :=
    JS.for_ (length buf) (fun i peak =>
      let abs := JS.abs (JS.get buf i) in
      if JS.Qgtb abs peak then abs else peak) 0.0 in
  0 <= peak
  /\ (forall i, (0 <= i < Z.of_nat (length buf))%Z ->
        JS.abs (JS.get buf i) <= peak)
  /\ (peak = 0.0
      \/ exists i, (0 <= i < Z.of_nat (length buf))%Z
                   /\ peak = JS.abs (JS.get buf i)).
Proof.
  cbv zeta.
  apply (for_invariant_indexed
           (fun k peak =>
              0 <= peak
              /\ (forall i, (0 <= i < Z.of_nat k)%Z ->
                    JS.abs (JS.get buf i) <= peak)
              /\ (peak = 0.0
                  \/ exists i, (0 <= i < Z.of_nat k)%Z
                               /\ peak = JS.abs (JS.get buf i)))).
  - split; [discriminate|]. split; [intros i Hi; lia|left; reflexivity].
  - intros k peak Hk (Hpos & Hbound & Hfrom).
    destruct (JS.Qgtb (JS.abs (JS.get buf (Z.of_nat k))) peak) eqn:E.
    + apply Qgtb_gt in E. split; [apply abs_nonneg|]. split.
      * intros i Hi. destruct (Z.eq_dec i (Z.of_nat k)) as [->|Hne].
        -- apply Qle_refl.
        -- apply Qle_trans with peak; [apply Hbound; lia|].
           apply Qlt_le_weak, E.
      * right. exists (Z.of_nat k). split; [lia|reflexivity].
    + assert (Hle : JS.abs (JS.get buf (Z.of_nat k)) <= peak).
      { apply Qnot_lt_le. intros Hlt. apply Qgtb_gt in Hlt. congruence. }
      split; [exact Hpos|]. split.
      * intros i Hi. destruct (Z.eq_dec i (Z.of_nat k)) as [->|Hne].
        -- exact Hle.
        -- apply Hbound. lia.
      * destruct Hfrom as [->|(i & Hi & ->)]; [left; reflexivity|].
        right. exists i. split; [lia|reflexivity].
Qed.

(** The scaling loop: every cell is rewritten once. *)
Lemma scale_spec (buf : list Q) (g : Q -> Q) :
  let out :=
    JS.for_ (length buf) (fun i buf =>
      JS.set buf i (g (JS.get buf i))) buf in
  length out = length buf
  /\ forall i, (0 <= i < Z.of_nat (length buf))%Z ->
       JS.get out i = g (JS.get buf i).
Proof.
  cbv zeta.
  assert (H : forall n, (n <= length buf)%nat ->
            let out :=
              JS.for_ n (fun i buf =>
                JS.set buf i (g (JS.get buf i))) buf in
            length out = length buf
            /\ (forall i, (0 <= i < Z.of_nat n)%Z ->
                  JS.get out i = g (JS.get buf i))
            /\ (forall i, (Z.of_nat n <= i)%Z ->
                  JS.get out i = JS.get buf i)).
  { induction n as [|n IH]; intros Hn; cbv zeta.
    - split; [reflexivity|]. split; [intros i Hi; lia|reflexivity].
    - rewrite for_S. destruct (IH ltac:(lia)) as (Hlen & Hdone & Hrest).
      split; [rewrite length_set; exact Hlen|]. split.
      + intros i Hi. destruct (Z.eq_dec i (Z.of_nat n)) as [->|Hne].
        * rewrite get_set_same by lia. rewrite Hrest by lia. reflexivity.
        * rewrite get_set_ne by congruence. apply Hdone. lia.
      + intros i Hi. rewrite get_set_ne by lia. apply Hrest. lia. }
  destruct (H (length buf) (Nat.le_refl _)) as (Hlen & Hdone & _).
  split; assumption.
Qed.

(** A representable number is below [2^(emax + 1)] in magnitude. *)
Lemma isFloat_below (prec emin emax : Z) (x : Q) :
  JS.isFloat prec emin emax x = true -> Qabs x < 2 ^ (emax + 1).
Proof.
  unfold JS.isFloat. pose proof (Qred_correct x) as Ex.
  pose proof (pow2_pos (emax + 1)) as Hpos.
  destruct (Qred x) as [n d]. cbn [Qnum Qden]. rewrite <- Ex.
  assert (Hcase : forall p : positive,
            (Z.log2 (Zpos p) - Z.log2 (Zpos d) <=? emax)%Z = true ->
            Zpos p # d < 2 ^ (emax + 1)).
  { intros p Hp. apply Z.leb_le in Hp.
    pose proof (Z.log2_spec (Zpos p) ltac:(lia)) as [_ Hhi].
    pose proof (Z.log2_spec (Zpos d) ltac:(lia)) as [Hlo _].
    pose proof (Z.log2_nonneg (Zpos p)).
    pose proof (Z.log2_nonneg (Zpos d)).
    set (lp := Z.log2 (Zpos p)) in *. set (ld := Z.log2 (Zpos d)) in *.
    apply Qlt_le_trans with (2 ^ (Z.succ lp - ld)).
    - rewrite Qpower_minus by discriminate.
      rewrite (pow2_Z (Z.succ lp)), (pow2_Z ld) by lia.
      apply Qlt_shift_div_l.
      + change 0 with (inject_Z 0). rewrite <- Zlt_Qlt. lia.
      + unfold Qlt, Qmult, inject_Z. cbn [Qnum Qden].
        rewrite Pos.mul_1_r, !Z.mul_1_r.
        apply Z.le_lt_trans with (Zpos p * Zpos d)%Z.
        * apply Z.mul_le_mono_nonneg_l; lia.
        * apply Z.mul_lt_mono_pos_r; lia.
    - apply Qpower_le_compat_l; [lia|discriminate]. }
  destruct n as [|p|p]; intros E.
  - assert (Ez : Qabs (0 # d) == 0) by reflexivity.
    rewrite Ez. exact Hpos.
  - apply andb_true_iff in E. destruct E as [_ E]. apply Hcase, E.
  - apply andb_true_iff in E. destruct E as [_ E]. apply (Hcase p E).
Qed.

(** A binary32 number is a binary64 number. *)
Lemma float32_is_double (x : Q) :
  JS.isFloat32 x = true -> JS.isDouble x = true.
Proof.
  unfold JS.isFloat32, JS.isDouble, JS.isFloat.
  destruct (Qnum (Qred x)) as [|n|n]; [reflexivity| |];
    rewrite !andb_true_iff, !Z.ltb_lt, !Z.leb_le;
    intros [[[H1 H2] H3] H4]; repeat split; try assumption; lia.
Qed.

(** A binary32 number multiplied by 1.0 and stored is itself. *)
Lemma stored_unchanged (x : Q) :
  JS.isFloat32 x = true -> JS.fround (JS.fl64 (x * 1.0)) == x.
Proof.
  intros Hx. assert (E : x * 1.0 == x) by ring.
  rewrite E, (fl64_exact x (float32_is_double x Hx)).
  rewrite (fround_exact x Hx). reflexivity.
Qed.

(** The size of a scaled and stored sample: a sample within the peak,
    times the rounded quotient of the double 0.8 by the peak. *)
Lemma scaled_size (x peak : Q) :
  Qabs x <= peak -> JS.fl64 0.8 < peak -> peak < 2 ^ 128 ->
  Qabs (JS.fround (JS.fl64 (x * JS.fl64 (JS.fl64 0.8 / peak))))
  <= 0.8000001.
Proof.
  intros Hx Hpeak Htop.
  set (c := JS.fl64 0.8) in *.
  assert (Hc : 0 < c) by (vm_compute; reflexivity).
  assert (Hp : 0 < peak) by (apply Qlt_trans with c; assumption).
  set (u64 := 2 ^ (- 53)). set (s64 := 2 ^ (-1074 - 1)).
  set (u32 := 2 ^ (- 24)). set (s32 := 2 ^ (-149 - 1)).
  set (f := JS.fl64 (c / peak)).
  pose proof (round_size 53 (-1074) 1023 (c / peak)) as Hf.
  fold (JS.fl64 (c / peak)) in Hf. fold f u64 s64 in Hf.
  pose proof (round_size 53 (-1074) 1023 (x * f)) as Hq.
  fold (JS.fl64 (x * f)) u64 s64 in Hq.
  pose proof (round_size 24 (-149) 127 (JS.fl64 (x * f))) as Ho.
  fold (JS.fround (JS.fl64 (x * f))) u32 s32 in Ho.
  assert (Hu64 : 0 <= 1 + u64) by (vm_compute; discriminate).
  assert (Hu32 : 0 <= 1 + u32) by (vm_compute; discriminate).
  assert (Hs64 : 0 <= s64) by (vm_compute; discriminate).
  assert (Hquot : Qabs (c / peak) == c / peak).
  { apply Qabs_pos. apply Qle_shift_div_l; [exact Hp|].
    rewrite Qmult_0_l. apply Qlt_le_weak, Hc. }
  rewrite Hquot in Hf.
  set (B1 := c * (1 + u64) + 2 ^ 128 * s64).
  assert (H1 : Qabs (x * f) <= B1).
  { rewrite Qabs_Qmult.
    apply Qle_trans with (peak * (c / peak * (1 + u64) + s64)).
    - apply Qle_trans with (peak * Qabs f).
      + apply Qmult_le_compat_r; [exact Hx|apply Qabs_nonneg].
      + apply Qmult_le_l; [exact Hp|exact Hf].
    - assert (E : peak * (c / peak * (1 + u64) + s64)
                  == c * (1 + u64) + peak * s64).
      { field. intros Hz. rewrite Hz in Hp. exact (Qlt_irrefl 0 Hp). }
      rewrite E. unfold B1. apply Qplus_le_r.
      apply Qmult_le_compat_r; [apply Qlt_le_weak, Htop|exact Hs64]. }
  set (B2 := B1 * (1 + u64) + s64).
  assert (H2 : Qabs (JS.fl64 (x * f)) <= B2).
  { apply Qle_trans with (1 := Hq). unfold B2. apply Qplus_le_l.
    apply Qmult_le_compat_r; [exact H1|exact Hu64]. }
  apply Qle_trans with (1 := Ho).
  apply Qle_trans with (B2 * (1 + u32) + s32).
  - apply Qplus_le_l. apply Qmult_le_compat_r; [exact H2|exact Hu32].
  - vm_compute. discriminate.
Qed.

(** X28: the normalisation of a buffer in [generateMultisample], a
    Float32Array of finite numbers.  The buffer keeps its length and every
    sample is replaced by the binary32 rounding of its binary64 product
    with one factor; afterwards no sample exceeds 0.8000001 in absolute
    value, and a buffer that was already within 0.8 is left as it is. *)
Theorem normalize_bounded (buf : list Q) :
  Forall (fun x => JS.isFloat32 x = true) buf ->
  let out := Tv7.normalize buf in
  let inside i := (0 <= i < Z.of_nat (length buf))%Z in
  length out = length buf
  /\ (exists factor,
        forall i, inside i ->
          JS.get out i = JS.fround (JS.fl64 (JS.get buf i * factor)))
  /\ (forall i, inside i -> Qabs (JS.get out i) <= 0.8000001)
  /\ ((forall i, inside i -> Qabs (JS.get buf i) <= 0.8) ->
      forall i, inside i -> JS.get out i == JS.get buf i).
Proof.
  intros Hall. cbv zeta. unfold Tv7.normalize. cbv zeta.
  destruct (peak_spec buf) as (Hpos & Hbound & Hfrom). cbv zeta in *.
  set (peak := JS.for_ (length buf) _ 0.0) in *. clearbody peak.
  set (c := JS.fl64 0.8) in *.
  set (factor := if JS.Qgtb peak c then JS.fl64 (c / peak) else 1.0).
  destruct (scale_spec buf (fun x => JS.fround (JS.fl64 (x * factor))))
    as (Hlen & Hcells).
  cbv zeta in *.
  set (out := JS.for_ (length buf) _ buf) in *. clearbody out.
  assert (Hfloat : forall i, (0 <= i < Z.of_nat (length buf))%Z ->
            JS.isFloat32 (JS.get buf i) = true).
  { intros i Hi. unfold JS.get.
    destruct (Z.ltb_spec i 0) as [?|_]; [lia|].
    destruct (lookup_lt_is_Some_2 buf (Z.to_nat i) ltac:(lia)) as [x Hx].
    rewrite Hx. rewrite Forall_lookup in Hall. exact (Hall _ _ Hx). }
  assert (Hsame : peak <= c ->
            forall i, (0 <= i < Z.of_nat (length buf))%Z ->
              JS.get out i == JS.get buf i).
  { intros Hle i Hi. rewrite (Hcells i Hi). unfold factor.
    destruct (JS.Qgtb peak c) eqn:E.
    - apply Qgtb_gt in E. exfalso. apply (Qlt_not_le _ _ E Hle).
    - apply stored_unchanged, Hfloat, Hi. }
  assert (Hc : 0.8 <= c) by (vm_compute; discriminate).
  split; [exact Hlen|]. split; [|split].
  - exists factor. exact Hcells.
  - intros i Hi. destruct (Qlt_le_dec c peak) as [Hgt|Hle].
    + rewrite (Hcells i Hi). unfold factor.
      apply Qgtb_gt in Hgt as E. rewrite E.
      apply scaled_size.
      * rewrite <- abs_Qabs. apply Hbound, Hi.
      * exact Hgt.
      * destruct Hfrom as [E0|(j & Hj & E0)].
        -- rewrite E0. reflexivity.
        -- rewrite E0, abs_Qabs.
           apply (isFloat_below 24 (-149) 127), Hfloat, Hj.
    + rewrite (Hsame Hle i Hi), <- abs_Qabs.
      apply Qle_trans with peak; [apply Hbound, Hi|].
      apply Qle_trans with c; [exact Hle|]. vm_compute. discriminate.
  - intros Hin. apply Hsame.
    destruct Hfrom as [->|(j & Hj & ->)].
    + vm_compute. discriminate.
    + rewrite abs_Qabs. apply Qle_trans with 0.8; [apply Hin, Hj|exact Hc].
Qed.

(** The loudest sample of a normalised buffer can be above 0.8: in the
    buffer 2, -1, 0 the sample 2 becomes 0.800000011920929, the binary32
    number nearest to 0.8. *)
Lemma normalize_above_headroom :
  JS.get (Tv7.normalize [2; -1; 0]) 0 == 13421773 # 16777216
  /\ 0.8 < 13421773 # 16777216.
Proof. split; vm_compute; reflexivity. Qed.

(** The zone loop in closed form. *)
Lemma zones_fold (pitches : list Z) (maxLength : Z) (zones : list Tv7.Zone)
    (count : Z) :
  fold_left (fun '(zones, runningSampleCount) pitch =>
       let start := runningSampleCount in
       let end_ := (start + maxLength)%Z in
       (zones ++ [Tv7.mkZone pitch start end_], end_))
    pitches (zones, count)
  = (zones ++ imap (fun k pitch =>
                      Tv7.mkZone pitch
                        (count + Z.of_nat k * maxLength)
                        (count + Z.of_nat (S k) * maxLength)) pitches,
     (count + Z.of_nat (length pitches) * maxLength)%Z).
Proof.
  revert zones count. induction pitches as [|pitch pitches IH];
    intros zones count.
  - cbn [fold_left imap length]. rewrite app_nil_r.
    f_equal. lia.
  - cbn [fold_left]. cbv zeta. rewrite IH, <- app_assoc. cbn [app imap].
    f_equal.
    + f_equal. f_equal; [f_equal; lia|].
      apply imap_ext. intros k p _. cbn [compose]. f_equal; lia.
    + cbn [length]. lia.
Qed.

(** Blocks of equal length in a concatenation are found by index. *)
Lemma block_of_concat {A} (g : A -> list Z) (size : nat) (l : list A)
    (k : nat) (x : A) (rest : list Z) :
  Forall (fun a => length (g a) = size) l ->
  l !! k = Some x ->
  take size (drop (size * k) (concat (map g l) ++ rest)) = g x.
Proof.
  intros Hall. revert k. induction Hall as [|a l Ha _ IH]; intros k Hk.
  - discriminate.
  - cbn [map concat]. rewrite <- app_assoc. destruct k as [|k].
    + injection Hk as ->. rewrite Nat.mul_0_r, drop_0.
      rewrite take_app_length'; [reflexivity|symmetry; exact Ha].
    + cbn [lookup list_lookup] in Hk.
      replace (size * S k)%nat with (length (g a) + size * k)%nat by lia.
      rewrite <- drop_drop, drop_app_length. apply IH. exact Hk.
Qed.

(** X29: the key zones of [generateMultisample] index the WAV file of
    [generateWav].  With one pitch for every buffer, the zone of rank [k]
    carries the pitch of rank [k], starts where the zone before it ends
    (the first at 0) and spans the length of the longest buffer; and the
    samples of the file between its start and its end (4 bytes each, after
    the 44 bytes of the header) are those of the buffer of rank [k],
    padded with zero samples. *)
Theorem zones_index_wav (float32Bits : Q -> Z) (pitchBuffers : list (list Q))
    (sortedPitches : list Z) (sampleRate : Q) (wav : list Z) (k : nat)
    (pitch : Z) (buf : list Q) :
  let maxLength := list_max (map length pitchBuffers) in
  Tv7.generateWav float32Bits pitchBuffers sampleRate = Some wav ->
  sortedPitches !! k = Some pitch ->
  pitchBuffers !! k = Some buf ->
  exists zone,
    Tv7.zonesOf sortedPitches (Z.of_nat maxLength) !! k = Some zone
    /\ Tv7.pitch zone = pitch
    /\ Tv7.start zone = Z.of_nat (k * maxLength)
    /\ Tv7.end_ zone = (Tv7.start zone + Z.of_nat maxLength)%Z
    /\ take (4 * maxLength)
         (drop (44 + 4 * Z.to_nat (Tv7.start zone)) wav)
       = Spec.bufferBytes float32Bits maxLength buf.
Proof.
  cbv zeta. intros Hwav Hpitch Hbuf.
  set (maxLength := list_max (map length pitchBuffers)) in *.
  assert (Hne : pitchBuffers <> []) by (intros ->; discriminate).
  pose proof (generateWav_written float32Bits pitchBuffers sampleRate Hne)
    as Hlayout.
  cbv zeta in Hlayout. fold maxLength in Hlayout.
  match type of Hlayout with
  | context [Spec.wavHeader ?rate ?size] =>
      pose proof (length_wavHeader rate size) as Hheader;
      set (header := Spec.wavHeader rate size) in *; clearbody header
  end.
  rewrite Hlayout in Hwav. injection Hwav as <-.
  unfold Tv7.zonesOf. rewrite zones_fold. cbn [fst]. rewrite app_nil_l.
  rewrite list_lookup_imap, Hpitch. cbn [fmap option_fmap option_map].
  eexists. split; [reflexivity|].
  cbn [Tv7.pitch Tv7.start Tv7.end_].
  split; [reflexivity|]. split; [lia|]. split; [lia|].
  replace (44 + 4 * Z.to_nat (0 + Z.of_nat k * Z.of_nat maxLength))%nat
    with (length header + 4 * maxLength * k)%nat by lia.
  rewrite <- drop_drop, drop_app_length.
  rewrite <- (app_nil_r (concat _)).
  apply (block_of_concat (Spec.bufferBytes float32Bits maxLength)
           (4 * maxLength) pitchBuffers k buf []); [|exact Hbuf].
  apply List.Forall_forall. intros b Hb. apply length_bufferBytes.
  apply (proj1 (List.Forall_forall _ _) (lengths_below_max pitchBuffers)).
  exact Hb.
Qed.

Lemma zones_index_wav_witness :
  exists zone,
    Tv7.zonesOf [60; 72]%Z (Z.of_nat 2) !! 1%nat = Some zone
    /\ Tv7.pitch zone = 72%Z
    /\ Tv7.start zone = Z.of_nat (1 * 2)
    /\ Tv7.end_ zone = (Tv7.start zone + Z.of_nat 2)%Z
    /\ take (4 * 2)
         (drop (44 + 4 * Z.to_nat (Tv7.start zone))
            (Spec.wavHeader 44100 16
             ++ concat (map (Spec.bufferBytes Examples.float32Bits 2)
                          [[1; 1 # 2]; [-1]])))
       = Spec.bufferBytes Examples.float32Bits 2 [-1].
Proof.
  apply (zones_index_wav Examples.float32Bits [[1; 1 # 2]; [-1]]
           [60; 72]%Z 44100 _ 1 72%Z [-1]).
  - vm_compute. reflexivity.
  - reflexivity.
  - reflexivity.
Defined.

Lemma normalize_bounded_witness :
  let buf := [2; -1; 0] in
  let out := Tv7.normalize buf in
  let inside i := (0 <= i < Z.of_nat (length buf))%Z in
  length out = length buf
  /\ (exists factor,
        forall i, inside i ->
          JS.get out i = JS.fround (JS.fl64 (JS.get buf i * factor)))
  /\ (forall i, inside i -> Qabs (JS.get out i) <= 0.8000001)
  /\ ((forall i, inside i -> Qabs (JS.get buf i) <= 0.8) ->
      forall i, inside i -> JS.get out i == JS.get buf i).
Proof.
  apply (normalize_bounded [2; -1; 0]).
  repeat constructor.
Defined.
